(** * DatabaseReplicator: a shallow embedding and its verified properties *)

(** The replicator copies a source property graph (schema, nodes,
    relationships) into a target database through a query executor.  The
    executor and both database engines are external; they are modelled here by
    the answers they give and by the effect a statement has on the target
    store.  Either engine may fail on any statement: a world carries, for each
    of them, the error (if any) of its n-th statement.  Strings are byte
    strings (the code-unit order of JavaScript coincides with the byte order
    on them), counts and batch sizes are natural numbers, node identifiers are
    integers, which the replicator holds as JavaScript numbers.  The observer
    of a run is handed the replicator's own progress object and may write to
    it. *)

From Stdlib Require Import ZArith Lia Ascii.
From stdpp Require Import base option list sorting strings gmap.

Local Open Scope string_scope.
Local Open Scope list_scope.

(** ** JavaScript string and array primitives used by the replicator *)

(** [Array.prototype.join(sep)]. *)
Fixpoint join (sep : string) (l : list string) : string :=
  match l with
  | [] => ""
  | [x] => x
  | x :: xs => x +:+ sep +:+ join sep xs
  end.

(** [String.prototype.split(c)] for a one-character separator. *)
Fixpoint split (c : ascii) (s : string) : list string :=
  match s with
  | EmptyString => [""]
  | String a s' =>
      if Ascii.eqb a c then "" :: split c s'
      else match split c s' with
           | [] => [String a ""]
           | p :: ps => String a p :: ps
           end
  end.

(** [Array.prototype.sort()] on an array of strings: ascending code-unit
    order. *)
Definition sort (l : list string) : list string := merge_sort String.le l.

(** Truthiness of a JavaScript string. *)
Definition truthy (s : string) : bool :=
  match s with EmptyString => false | _ => true end.

(** [arr[0]] interpolated in a template literal; an empty array gives
    [undefined]. *)
Definition first (l : list string) : string :=
  match l with [] => "undefined" | x :: _ => x end.

(** ** Data model *)

#[warnings="-register-all"] Inductive PropValue : Type :=
| PNum (z : Z)
| PStr (s : string)
| PBool (b : bool)
| PList (l : list PropValue).

Abbreviation Props := (gmap string PropValue).

Record NodeData := mkNodeData {
  nodeId : Z;
  labels : list string;
  properties : Props }.

Record RelationshipData := mkRelationshipData {
  startId : Z;
  endId : Z;
  relType : string;
  relProperties : Props }.

(** [Integer.toNumber()]: the JavaScript number nearest to a 64-bit integer,
    ties going to the even significand.  Below [2 ^ 53] in absolute value the
    integer is kept; from there on the numbers are [2 ^ (Z.log2 a - 52)]
    apart. *)
Definition toNumber (z : Z) : Z :=
  let a := Z.abs z in
  if (a <? 2 ^ 53)%Z then z
  else
    let ulp := (2 ^ (Z.log2 a - 52))%Z in
    let q := (a / ulp)%Z in
    let r := (a mod ulp)%Z in
    let q' :=
      if (2 * r <? ulp)%Z then q
      else if (ulp <? 2 * r)%Z then (q + 1)%Z
      else if Z.even q then q else (q + 1)%Z in
    (Z.sgn z * (q' * ulp))%Z.

(** The [records.map(record => ...)] of [copyNodes] and [copyRelationships]:
    identifiers are converted with [toNumber], the rest is taken as it is. *)
Definition nodeOfRecord (record : NodeData) : NodeData :=
  mkNodeData (toNumber (nodeId record)) (labels record) (properties record).

Definition relOfRecord (record : RelationshipData) : RelationshipData :=
  mkRelationshipData (toNumber (startId record)) (toNumber (endId record))
    (relType record) (relProperties record).

Inductive Stage := clearing | schema | nodes | relationships | cleanup | complete.

Record ReplicationProgress := mkProgress {
  totalNodes : nat;
  processedNodes : nat;
  totalRelationships : nat;
  processedRelationships : nat;
  stage : Stage }.

(** A row of [SHOW CONSTRAINTS]. *)
Record ConstraintRow := mkConstraintRow {
  c_name : string;
  c_type : string;
  c_entityType : string;
  c_labelsOrTypes : list string;
  c_properties : list string }.

(** A row of [SHOW INDEXES]. *)
Record IndexRow := mkIndexRow {
  i_name : string;
  i_type : string;
  i_labelsOrTypes : list string;
  i_properties : list string }.

(** An error object; [err_code] is the [code] field, absent on errors that are
    not raised by the database. *)
Record Error := mkError {
  err_code : option string;
  err_message : string }.

(** ** The two databases *)

(** The source is only read: it is given by its answers to the statements the
    replicator sends.  The count and the pages are separate answers, so a
    source whose content changed between the count and the paging is
    expressible.  A page is the records as the driver returns them, with
    identifiers that are 64-bit integers; the replicator converts them with
    [toNumber]. *)
Record SourceDb := mkSourceDb {
  src_countNodes : nat;
  src_countRels : nat;
  src_pageNodes : nat -> nat -> list NodeData;
  src_pageRels : nat -> nat -> list RelationshipData;
  src_constraints : list ConstraintRow;
  src_indexes : list IndexRow }.

(** A source graph that stays as it is during the run. *)
Record SourceGraph := mkSourceGraph {
  sg_nodes : list NodeData;
  sg_rels : list RelationshipData;
  sg_constraints : list ConstraintRow;
  sg_indexes : list IndexRow }.

(** [SKIP s LIMIT l] over the natural enumeration. *)
Definition page {A} (l : list A) (skip limit : nat) : list A :=
  take limit (drop skip l).

Definition serve (g : SourceGraph) : SourceDb :=
  {| src_countNodes := length (sg_nodes g);
     src_countRels := length (sg_rels g);
     src_pageNodes := page (sg_nodes g);
     src_pageRels := page (sg_rels g);
     src_constraints := sg_constraints g;
     src_indexes := sg_indexes g |}.

(** The target store.  A relationship refers to its end points by their
    position in [t_nodes]; [t_schema] lists the creation statements the target
    accepted. *)
Record TargetNode := mkTargetNode {
  tn_labels : list string;
  tn_props : Props }.

Record TargetRel := mkTargetRel {
  tr_start : nat;
  tr_end : nat;
  tr_type : string;
  tr_props : Props }.

Record TargetDb := mkTargetDb {
  t_nodes : list TargetNode;
  t_rels : list TargetRel;
  t_constraints : list string;
  t_indexes : list string;
  t_schema : list string }.

(** The statements sent to the source and to the target. *)
Inductive SourceQuery :=
| SqCountNodes
| SqCountRels
| SqShowConstraints
| SqShowIndexes
| SqPageNodes (skip limit : nat)
| SqPageRels (skip limit : nat).

Inductive TargetQuery :=
| TqDetachDeleteAll
| TqShowConstraints
| TqShowIndexes
| TqDropConstraint (name : string)
| TqDropIndex (name : string)
| TqSchema (createStatement : string)
| TqCreateNodes (labelClause : string) (nodes : list NodeData)
| TqCreateRels (relType : string) (rels : list RelationshipData)
| TqRemoveSourceId.

(** Console output, one constructor per message of the class. *)
Inductive Message :=
| MStarting
| MCompleted
| MFailed (e : Error)
| MClearing
| MAllDeleted
| MDroppedConstraint (name : string)
| MDropConstraintFailed (name : string) (e : Error)
| MDroppedIndex (name : string)
| MDropIndexFailed (name : string) (e : Error)
| MCopyingSchema
| MCreatedConstraint (name type : string)
| MSkippedConstraint (type name : string)
| MConstraintExists (name : string)
| MConstraintFailed (name message : string)
| MCreatedIndex (name type : string)
| MSkippedIndex (type name : string)
| MIndexExists (name : string)
| MIndexFailed (name message : string)
| MCopyingNodes
| MProcessedNodes (processed total : nat)
| MCopyingRelationships
| MProcessedRelationships (processed total : nat)
| MCleaningUp
| MCleanupCompleted
| MConnectionsClosed.

Inductive Level := LLog | LWarn | LError.

Inductive Event :=
| EvSource (q : SourceQuery)
| EvTarget (q : TargetQuery)
| EvConsole (lvl : Level) (m : Message)
| EvObserver (p : ReplicationProgress).

(** ** The world the replicator runs in *)

Record World := mkWorld {
  w_source : SourceDb;
  w_target : TargetDb;
  (** failures of the engines, by the number of the statement *)
  w_sourceFail : nat -> option Error;
  w_targetFail : nat -> option Error;
  w_sourceRuns : nat;
  w_targetRuns : nat;
  (** sessions opened and not yet closed, and the two drivers *)
  w_sessions : nat;
  w_sourceDriverOpen : bool;
  w_targetDriverOpen : bool;
  (** the [progress] object of [replicateDatabase] *)
  w_progress : ReplicationProgress;
  w_trace : list Event }.

Definition set_target (t : TargetDb) (w : World) : World :=
  mkWorld (w_source w) t (w_sourceFail w) (w_targetFail w) (w_sourceRuns w)
    (w_targetRuns w) (w_sessions w) (w_sourceDriverOpen w)
    (w_targetDriverOpen w) (w_progress w) (w_trace w).

Definition tick_source (w : World) : World :=
  mkWorld (w_source w) (w_target w) (w_sourceFail w) (w_targetFail w)
    (S (w_sourceRuns w)) (w_targetRuns w) (w_sessions w)
    (w_sourceDriverOpen w) (w_targetDriverOpen w) (w_progress w) (w_trace w).

Definition tick_target (w : World) : World :=
  mkWorld (w_source w) (w_target w) (w_sourceFail w) (w_targetFail w)
    (w_sourceRuns w) (S (w_targetRuns w)) (w_sessions w)
    (w_sourceDriverOpen w) (w_targetDriverOpen w) (w_progress w) (w_trace w).

Definition set_sessions (n : nat) (w : World) : World :=
  mkWorld (w_source w) (w_target w) (w_sourceFail w) (w_targetFail w)
    (w_sourceRuns w) (w_targetRuns w) n (w_sourceDriverOpen w)
    (w_targetDriverOpen w) (w_progress w) (w_trace w).

Definition set_drivers (s t : bool) (w : World) : World :=
  mkWorld (w_source w) (w_target w) (w_sourceFail w) (w_targetFail w)
    (w_sourceRuns w) (w_targetRuns w) (w_sessions w) s t (w_progress w)
    (w_trace w).

Definition set_progress (p : ReplicationProgress) (w : World) : World :=
  mkWorld (w_source w) (w_target w) (w_sourceFail w) (w_targetFail w)
    (w_sourceRuns w) (w_targetRuns w) (w_sessions w) (w_sourceDriverOpen w)
    (w_targetDriverOpen w) p (w_trace w).

Definition emit (e : Event) (w : World) : World :=
  mkWorld (w_source w) (w_target w) (w_sourceFail w) (w_targetFail w)
    (w_sourceRuns w) (w_targetRuns w) (w_sessions w) (w_sourceDriverOpen w)
    (w_targetDriverOpen w) (w_progress w) (w_trace w ++ [e]).

(** ** The monad of asynchronous methods *)

(** A method returns, throws, or is still running when the fuel of a [while]
    loop is used up. *)

Inductive Outcome (A : Type) :=
| Ok (a : A)
| Throw (e : Error)
| Diverge.
Arguments Ok {A} a.
Arguments Throw {A} e.
Arguments Diverge {A}.

Definition M (A : Type) : Type := World -> Outcome A * World.

Definition ret {A} (a : A) : M A := fun w => (Ok a, w).

Definition bind {A B} (m : M A) (k : A -> M B) : M B :=
  fun w =>
    match m w with
    | (Ok a, w') => k a w'
    | (Throw e, w') => (Throw e, w')
    | (Diverge, w') => (Diverge, w')
    end.

Definition throw {A} (e : Error) : M A := fun w => (Throw e, w).
Definition diverge {A} : M A := fun w => (Diverge, w).

Notation "x <- m ;; k" := (bind m (fun x => k))
  (at level 100, m at next level, right associativity).
Notation "m ;;; k" := (bind m (fun _ => k))
  (at level 100, right associativity).

(** [try { m } catch (e) { h e }] *)
Definition tryCatch {A} (m : M A) (h : Error -> M A) : M A :=
  fun w =>
    match m w with
    | (Throw e, w') => h e w'
    | r => r
    end.

(** [try { m } finally { f }]; the finaliser runs on return and on throw. *)
Definition tryFinally {A} (m : M A) (f : M unit) : M A :=
  fun w =>
    match m w with
    | (Ok a, w') => (f ;;; ret a) w'
    | (Throw e, w') => (f ;;; throw e) w'
    | (Diverge, w') => (Diverge, w')
    end.

Fixpoint forEach {A} (l : list A) (body : A -> M unit) : M unit :=
  match l with
  | [] => ret tt
  | x :: xs => body x ;;; forEach xs body
  end.

Definition when (b : bool) (m : M unit) : M unit :=
  if b then m else ret tt.

Definition console (lvl : Level) (m : Message) : M unit :=
  fun w => (Ok tt, emit (EvConsole lvl m) w).

Definition openSession : M unit :=
  fun w => (Ok tt, set_sessions (S (w_sessions w)) w).

Definition closeSession : M unit :=
  fun w => (Ok tt, set_sessions (pred (w_sessions w)) w).

(** [session.run] against the source: the statement is sent, the engine either
    fails or answers. *)
Definition sourceRun {A} (q : SourceQuery) (answer : SourceDb -> A) : M A :=
  fun w =>
    let w1 := tick_source (emit (EvSource q) w) in
    match w_sourceFail w (w_sourceRuns w) with
    | Some e => (Throw e, w1)
    | None => (Ok (answer (w_source w)), w1)
    end.

(** [session.run] against the target: on success the statement's effect is
    applied to the store. *)
Definition targetRun {A} (q : TargetQuery) (effect : TargetDb -> A * TargetDb)
  : M A :=
  fun w =>
    let w1 := tick_target (emit (EvTarget q) w) in
    match w_targetFail w (w_targetRuns w) with
    | Some e => (Throw e, w1)
    | None => let '(a, t) := effect (w_target w) in (Ok a, set_target t w1)
    end.

(** ** Effects of the statements on the target store *)

Definition detachDeleteAll (t : TargetDb) : TargetDb :=
  mkTargetDb [] [] (t_constraints t) (t_indexes t) (t_schema t).

Definition dropConstraint (name : string) (t : TargetDb) : TargetDb :=
  mkTargetDb (t_nodes t) (t_rels t)
    (filter (fun n => n <> name) (t_constraints t)) (t_indexes t) (t_schema t).

Definition dropIndex (name : string) (t : TargetDb) : TargetDb :=
  mkTargetDb (t_nodes t) (t_rels t) (t_constraints t)
    (filter (fun n => n <> name) (t_indexes t)) (t_schema t).

Definition acceptSchema (createStatement : string) (t : TargetDb) : TargetDb :=
  mkTargetDb (t_nodes t) (t_rels t) (t_constraints t) (t_indexes t)
    (t_schema t ++ [createStatement]).

(** The labels the engine reads from the clause [:L1:L2...] of
    [CREATE (n:L1:L2)] when [L1], [L2], ... are identifiers; the empty
    clause gives an unlabeled node.  The code writes the labels into the
    statement as they are, without back quotes: what the engine makes of
    other text is not part of the model, and the properties that depend on
    the reading are stated for labels that are identifiers. *)
Definition parseLabelClause (labelClause : string) : list string :=
  match labelClause with
  | EmptyString => []
  | String _ rest => split ":"%char rest
  end.

(** [CREATE (n...) SET n = node.properties, n.source_id = node.nodeId] *)
Definition createdNode (lbls : list string) (node : NodeData) : TargetNode :=
  mkTargetNode lbls (<["source_id" := PNum (nodeId node)]> (properties node)).

Definition createNodes (labelClause : string) (nodesParam : list NodeData)
    (t : TargetDb) : TargetDb :=
  mkTargetDb
    (t_nodes t ++ map (createdNode (parseLabelClause labelClause)) nodesParam)
    (t_rels t) (t_constraints t) (t_indexes t) (t_schema t).

(** [MATCH (a {source_id: z})] *)
Definition hasSourceId (z : Z) (n : TargetNode) : bool :=
  match tn_props n !! "source_id" with
  | Some (PNum z') => Z.eqb z z'
  | _ => false
  end.

Fixpoint matchNodes (z : Z) (ns : list TargetNode) (i : nat) : list nat :=
  match ns with
  | [] => []
  | n :: ns' =>
      (if hasSourceId z n then [i] else []) ++ matchNodes z ns' (S i)
  end.

(** One row per pair of matching end points, one relationship per row. *)
Definition createdRels (rType : string) (ns : list TargetNode)
    (rel : RelationshipData) : list TargetRel :=
  flat_map (fun a =>
    map (fun b => mkTargetRel a b rType (relProperties rel))
        (matchNodes (endId rel) ns 0))
    (matchNodes (startId rel) ns 0).

Definition createRels (rType : string) (relsParam : list RelationshipData)
    (t : TargetDb) : TargetDb :=
  mkTargetDb (t_nodes t)
    (t_rels t ++ flat_map (createdRels rType (t_nodes t)) relsParam)
    (t_constraints t) (t_indexes t) (t_schema t).

(** [MATCH (n) REMOVE n.source_id] *)
Definition removeSourceId (t : TargetDb) : TargetDb :=
  mkTargetDb
    (map (fun n => mkTargetNode (tn_labels n) (delete "source_id" (tn_props n)))
         (t_nodes t))
    (t_rels t) (t_constraints t) (t_indexes t) (t_schema t).

(** ** The replicator *)

(** A [Map<string, T[]>]: keys in insertion order; [mapPush] is
    [if (!m.has(k)) m.set(k, []); m.get(k).push(v)]. *)
Fixpoint mapPush {A} (k : string) (v : A) (m : list (string * list A))
  : list (string * list A) :=
  match m with
  | [] => [(k, [v])]
  | (k', vs) :: m' =>
      if String.eqb k' k then (k', vs ++ [v]) :: m'
      else (k', vs) :: mapPush k v m'
  end.

(** [node.labels.sort()] sorts the array of the node in place. *)
Definition sortLabels (node : NodeData) : NodeData :=
  mkNodeData (nodeId node) (sort (labels node)) (properties node).

Definition labelKey (node : NodeData) : string :=
  join "," (sort (labels node)).

Definition nodesByLabels (nodesData : list NodeData)
  : list (string * list NodeData) :=
  foldl (fun m node => mapPush (labelKey node) (sortLabels node) m) [] nodesData.

Definition relsByType (relsData : list RelationshipData)
  : list (string * list RelationshipData) :=
  foldl (fun m rel => mapPush (relType rel) rel m) [] relsData.

Definition labelsOfKey (key : string) : list string :=
  if truthy key then split ","%char key else [].

Definition labelClauseOf (lbls : list string) : string :=
  if (0 <? length lbls)%nat then ":" +:+ join ":" lbls else "".

Definition codeIs (e : Error) (c : string) : bool :=
  match err_code e with
  | Some c' => String.eqb c' c
  | None => false
  end.

Definition constraintStatement (c : ConstraintRow) : string :=
  let name := c_name c in
  let type := c_type c in
  let entityType := c_entityType c in
  let labelsOrTypes := c_labelsOrTypes c in
  let props := c_properties c in
  if String.eqb type "UNIQUENESS" then
    if String.eqb entityType "NODE" then
      let label := first labelsOrTypes in
      let propList := join ", " (map (fun p => "n." +:+ p) props) in
      "CREATE CONSTRAINT " +:+ name +:+ " FOR (n:" +:+ label
        +:+ ") REQUIRE (" +:+ propList +:+ ") IS UNIQUE"
    else if String.eqb entityType "RELATIONSHIP" then
      let rType := first labelsOrTypes in
      let propList := join ", " (map (fun p => "r." +:+ p) props) in
      "CREATE CONSTRAINT " +:+ name +:+ " FOR ()-[r:" +:+ rType
        +:+ "]-() REQUIRE (" +:+ propList +:+ ") IS UNIQUE"
    else ""
  else if String.eqb type "NODE_PROPERTY_EXISTENCE"
          || String.eqb type "EXISTENCE" then
    let label := first labelsOrTypes in
    let property := first props in
    "CREATE CONSTRAINT " +:+ name +:+ " FOR (n:" +:+ label
      +:+ ") REQUIRE n." +:+ property +:+ " IS NOT NULL"
  else if String.eqb type "RELATIONSHIP_PROPERTY_EXISTENCE" then
    let rType := first labelsOrTypes in
    let property := first props in
    "CREATE CONSTRAINT " +:+ name +:+ " FOR ()-[r:" +:+ rType
      +:+ "]-() REQUIRE r." +:+ property +:+ " IS NOT NULL"
  else if String.eqb type "NODE_KEY" then
    let label := first labelsOrTypes in
    let propList := join ", " (map (fun p => "n." +:+ p) props) in
    "CREATE CONSTRAINT " +:+ name +:+ " FOR (n:" +:+ label
      +:+ ") REQUIRE (" +:+ propList +:+ ") IS NODE KEY"
  else "".

Definition indexStatement (i : IndexRow) : string :=
  let name := i_name i in
  let type := i_type i in
  let labelsOrTypes := i_labelsOrTypes i in
  let props := i_properties i in
  if String.eqb type "BTREE" then
    match labelsOrTypes with
    | label :: _ =>
        if truthy label then
          "CREATE INDEX " +:+ name +:+ " FOR (n:" +:+ label +:+ ") ON ("
            +:+ join ", " (map (fun p => "n." +:+ p) props) +:+ ")"
        else ""
    | [] => ""
    end
  else if String.eqb type "TEXT" then
    let label := first labelsOrTypes in
    let property := first props in
    "CREATE TEXT INDEX " +:+ name +:+ " FOR (n:" +:+ label
      +:+ ") ON (n." +:+ property +:+ ")"
  else if String.eqb type "FULLTEXT" then
    let propList := join ", " (map (fun p => "'" +:+ p +:+ "'") props) in
    "CREATE FULLTEXT INDEX " +:+ name +:+ " FOR (n:"
      +:+ join "|" labelsOrTypes +:+ ") ON EACH [" +:+ propList +:+ "]"
  else "".

(** A call of the observer: it may throw, and it may write to the progress
    object it is handed, which is the one [replicateDatabase] keeps
    updating.  The second component is the content of the object when the
    call ends. *)
Definition Observer : Type :=
  ReplicationProgress -> option Error * ReplicationProgress.

Section Replicator.

(** [this.batchSize] and the optional [progressCallback] of
    [replicateDatabase]. *)
Variable batchSize : nat.
Variable progressCallback : option Observer.

(** [progressCallback?.(progress)]: the observer is handed the progress
    object itself; the event keeps what the object held when the call was
    made, and what the observer wrote stays in the object. *)
Definition notify : M unit :=
  fun w =>
    match progressCallback with
    | None => (Ok tt, w)
    | Some observer =>
        let w1 := emit (EvObserver (w_progress w)) w in
        let w2 := set_progress (observer (w_progress w)).2 w1 in
        match (observer (w_progress w)).1 with
        | Some e => (Throw e, w2)
        | None => (Ok tt, w2)
        end
    end.

Definition setProgress (f : ReplicationProgress -> ReplicationProgress)
  : M unit :=
  fun w => (Ok tt, set_progress (f (w_progress w)) w).

Definition setStage (s : Stage) : M unit :=
  setProgress (fun p =>
    mkProgress (totalNodes p) (processedNodes p) (totalRelationships p)
      (processedRelationships p) s).

Definition setProcessedNodes (n : nat) : M unit :=
  setProgress (fun p =>
    mkProgress (totalNodes p) n (totalRelationships p)
      (processedRelationships p) (stage p)).

Definition setProcessedRelationships (n : nat) : M unit :=
  setProgress (fun p =>
    mkProgress (totalNodes p) (processedNodes p) (totalRelationships p) n
      (stage p)).

Definition getTotalCounts : M (nat * nat) :=
  openSession ;;;
  tryFinally
    (total_n <- sourceRun SqCountNodes src_countNodes ;;
     total_r <- sourceRun SqCountRels src_countRels ;;
     ret (total_n, total_r))
    closeSession.

Definition dropOneConstraint (constraintName : string) : M unit :=
  tryCatch
    (targetRun (TqDropConstraint constraintName)
       (fun t => (tt, dropConstraint constraintName t)) ;;;
     console LLog (MDroppedConstraint constraintName))
    (fun error => console LWarn (MDropConstraintFailed constraintName error)).

Definition dropOneIndex (indexName : string) : M unit :=
  tryCatch
    (targetRun (TqDropIndex indexName)
       (fun t => (tt, dropIndex indexName t)) ;;;
     console LLog (MDroppedIndex indexName))
    (fun error => console LWarn (MDropIndexFailed indexName error)).

Definition clearTargetDatabase : M unit :=
  console LLog MClearing ;;;
  openSession ;;;
  tryFinally
    (targetRun TqDetachDeleteAll (fun t => (tt, detachDeleteAll t)) ;;;
     console LLog MAllDeleted ;;;
     constraints <- targetRun TqShowConstraints
                      (fun t => (t_constraints t, t)) ;;
     forEach constraints dropOneConstraint ;;;
     indexes <- targetRun TqShowIndexes (fun t => (t_indexes t, t)) ;;
     forEach indexes dropOneIndex)
    closeSession.

Definition copyConstraint (constraint : ConstraintRow) : M unit :=
  let name := c_name constraint in
  let type := c_type constraint in
  tryCatch
    (let createStatement := constraintStatement constraint in
     if truthy createStatement then
       targetRun (TqSchema createStatement)
         (fun t => (tt, acceptSchema createStatement t)) ;;;
       console LLog (MCreatedConstraint name type)
     else console LWarn (MSkippedConstraint type name))
    (fun error =>
       if codeIs error "Neo.ClientError.Schema.ConstraintAlreadyExists"
          || codeIs error
               "Neo.ClientError.Schema.EquivalentSchemaRuleAlreadyExists"
       then console LLog (MConstraintExists name)
       else console LWarn (MConstraintFailed name (err_message error))).

Definition copyIndex (index : IndexRow) : M unit :=
  let name := i_name index in
  let type := i_type index in
  tryCatch
    (let createStatement := indexStatement index in
     if truthy createStatement then
       targetRun (TqSchema createStatement)
         (fun t => (tt, acceptSchema createStatement t)) ;;;
       console LLog (MCreatedIndex name type)
     else console LWarn (MSkippedIndex type name))
    (fun error =>
       if codeIs error "Neo.ClientError.Schema.IndexAlreadyExists"
          || codeIs error
               "Neo.ClientError.Schema.EquivalentSchemaRuleAlreadyExists"
       then console LLog (MIndexExists name)
       else console LWarn (MIndexFailed name (err_message error))).

Definition copySchema : M unit :=
  console LLog MCopyingSchema ;;;
  openSession ;;;
  openSession ;;;
  tryFinally
    (constraints <- sourceRun SqShowConstraints src_constraints ;;
     forEach constraints copyConstraint ;;;
     indexes <- sourceRun SqShowIndexes src_indexes ;;
     forEach indexes copyIndex)
    (closeSession ;;; closeSession).

Definition createNodeGroup (group : string * list NodeData) : M unit :=
  let '(key, groupNodes) := group in
  let lbls := labelsOfKey key in
  let labelClause := labelClauseOf lbls in
  targetRun (TqCreateNodes labelClause groupNodes)
    (fun t => (tt, createNodes labelClause groupNodes t)).

Definition createNodesInTarget (nodesData : list NodeData) : M unit :=
  openSession ;;;
  tryFinally
    (forEach (nodesByLabels nodesData) createNodeGroup)
    closeSession.

(** The [while (processed < totalNodes)] loop of [copyNodes]; one unit of
    fuel per iteration. *)
Fixpoint copyNodesLoop (fuel : nat) (callback : nat -> M unit)
    (total processed : nat) : M unit :=
  if (processed <? total)%nat then
    match fuel with
    | O => diverge
    | S fuel' =>
        nodesData <- sourceRun (SqPageNodes processed batchSize)
                       (fun s => map nodeOfRecord
                                   (src_pageNodes s processed batchSize)) ;;
        when (0 <? length nodesData)%nat (createNodesInTarget nodesData) ;;;
        let processed' := processed + length nodesData in
        callback processed' ;;;
        console LLog (MProcessedNodes processed' total) ;;;
        copyNodesLoop fuel' callback total processed'
    end
  else ret tt.

Definition copyNodes (fuel : nat) (callback : nat -> M unit) : M unit :=
  console LLog MCopyingNodes ;;;
  openSession ;;;
  tryFinally
    (total <- sourceRun SqCountNodes src_countNodes ;;
     copyNodesLoop fuel callback total 0)
    closeSession.

Definition createRelGroup (group : string * list RelationshipData)
  : M unit :=
  let '(rType, groupRels) := group in
  targetRun (TqCreateRels rType groupRels)
    (fun t => (tt, createRels rType groupRels t)).

Definition createRelationshipsInTarget (relsData : list RelationshipData)
  : M unit :=
  openSession ;;;
  tryFinally
    (forEach (relsByType relsData) createRelGroup)
    closeSession.

(** [neo4j.int(this.batchSize / 2)]: the quotient is cut to an integer. *)
Definition relBatchSize : nat := batchSize / 2.

Fixpoint copyRelationshipsLoop (fuel : nat) (callback : nat -> M unit)
    (total processed : nat) : M unit :=
  if (processed <? total)%nat then
    match fuel with
    | O => diverge
    | S fuel' =>
        relsData <- sourceRun (SqPageRels processed relBatchSize)
                      (fun s => map relOfRecord
                                  (src_pageRels s processed relBatchSize)) ;;
        when (0 <? length relsData)%nat
          (createRelationshipsInTarget relsData) ;;;
        let processed' := processed + length relsData in
        callback processed' ;;;
        console LLog (MProcessedRelationships processed' total) ;;;
        copyRelationshipsLoop fuel' callback total processed'
    end
  else ret tt.

Definition copyRelationships (fuel : nat) (callback : nat -> M unit)
  : M unit :=
  console LLog MCopyingRelationships ;;;
  openSession ;;;
  tryFinally
    (total <- sourceRun SqCountRels src_countRels ;;
     copyRelationshipsLoop fuel callback total 0)
    closeSession.

Definition cleanupStage : M unit :=
  console LLog MCleaningUp ;;;
  openSession ;;;
  tryFinally
    (targetRun TqRemoveSourceId (fun t => (tt, removeSourceId t)) ;;;
     console LLog MCleanupCompleted)
    closeSession.

(** The two callbacks [replicateDatabase] hands to the copiers. *)
Definition reportNodes (processed : nat) : M unit :=
  setProcessedNodes processed ;;; notify.

Definition reportRelationships (processed : nat) : M unit :=
  setProcessedRelationships processed ;;; notify.

Definition replicateBody (fuel : nat) : M unit :=
  console LLog MStarting ;;;
  counts <- getTotalCounts ;;
  setProgress (fun _ => mkProgress (fst counts) 0 (snd counts) 0 clearing) ;;;
  notify ;;;
  clearTargetDatabase ;;;
  setStage schema ;;;
  notify ;;;
  copySchema ;;;
  setStage nodes ;;;
  notify ;;;
  copyNodes fuel reportNodes ;;;
  setStage relationships ;;;
  notify ;;;
  copyRelationships fuel reportRelationships ;;;
  setStage cleanup ;;;
  notify ;;;
  cleanupStage ;;;
  setStage complete ;;;
  notify ;;;
  console LLog MCompleted.

Definition replicateDatabase (fuel : nat) : M unit :=
  tryCatch (replicateBody fuel)
    (fun error => console LError (MFailed error) ;;; throw error).

Definition close : M unit :=
  (fun w => (Ok tt, set_drivers false (w_targetDriverOpen w) w)) ;;;
  (fun w => (Ok tt, set_drivers (w_sourceDriverOpen w) false w)) ;;;
  console LLog MConnectionsClosed.

End Replicator.

(** ** Vocabulary of the properties *)

(** Grouping a batch with [key] and the per-item change [prep]. *)
Definition groupBy {A} (key : A -> string) (prep : A -> A) (l : list A)
    (m : list (string * list A)) : list (string * list A) :=
  foldl (fun m x => mapPush (key x) (prep x) m) m l.

(** [wp m w Q]: the outcome and the final world of [m] started in [w]
    satisfy [Q]. *)
Definition wp {A} (m : M A) (w : World) (Q : Outcome A -> World -> Prop)
  : Prop :=
  Q (m w).1 (m w).2.

(** The outcome is [Ok] and the result and world satisfy [P]. *)
Definition returns {A} (P : A -> World -> Prop) : Outcome A -> World -> Prop :=
  fun r w => match r with Ok a => P a w | _ => False end.

Definition respects {A} (R : relation World) (m : M A) : Prop :=
  forall w, R w (m w).2.

(** [keeps f]: the part [f] of the world is unchanged. *)
Definition keeps {X} (f : World -> X) : relation World :=
  fun w w' => f w' = f w.

(** The environment of a run: the source, the failures the engines will
    produce, and the two drivers.  No method but [close] touches it. *)
Definition envOf (w : World) :=
  (w_source w, w_sourceFail w, w_targetFail w, w_sourceDriverOpen w,
   w_targetDriverOpen w).

(** A method that returns or throws leaves as many sessions open as it
    found. *)
Definition balanced {A} (m : M A) : Prop :=
  forall w, (m w).1 <> Diverge -> w_sessions (m w).2 = w_sessions w.

Definition emptyTarget : TargetDb := mkTargetDb [] [] [] [] [].

(** A world before the run: nothing sent yet, no session open, both drivers
    open. *)
Definition initialWorld (s : SourceDb) (t : TargetDb)
    (sourceFail targetFail : nat -> option Error) : World :=
  mkWorld s t sourceFail targetFail 0 0 0 true true
    (mkProgress 0 0 0 0 clearing) [].

Definition noFailure : nat -> option Error := fun _ => None.

Definition failAt (n : nat) (e : Error) : nat -> option Error :=
  fun k => if (k =? n)%nat then Some e else None.

Definition connectionLost : Error :=
  mkError (Some "ServiceUnavailable") "connection lost".

Definition emptySource : SourceGraph := mkSourceGraph [] [] [] [].

(** The first statement sent to the target fails. *)
Definition targetDownWorld : World :=
  initialWorld (serve emptySource) emptyTarget noFailure
    (failAt 0 connectionLost).

(** The creation statements sent to the target, in order. *)
Definition attempted (t : list Event) : list string :=
  omap (fun e => match e with
                 | EvTarget (TqSchema s) => Some s
                 | _ => None
                 end) t.

Definition constraintExists (e : Error) : bool :=
  codeIs e "Neo.ClientError.Schema.ConstraintAlreadyExists"
  || codeIs e "Neo.ClientError.Schema.EquivalentSchemaRuleAlreadyExists".

Definition indexExists (e : Error) : bool :=
  codeIs e "Neo.ClientError.Schema.IndexAlreadyExists"
  || codeIs e "Neo.ClientError.Schema.EquivalentSchemaRuleAlreadyExists".

(** What one constraint leaves behind, by the answer of the target. *)
Definition afterConstraint (c : ConstraintRow) (w : World) : World :=
  let stmt := constraintStatement c in
  if truthy stmt then
    let w1 := tick_target (emit (EvTarget (TqSchema stmt)) w) in
    match w_targetFail w (w_targetRuns w) with
    | None =>
        emit (EvConsole LLog (MCreatedConstraint (c_name c) (c_type c)))
          (set_target (acceptSchema stmt (w_target w)) w1)
    | Some e =>
        if constraintExists e
        then emit (EvConsole LLog (MConstraintExists (c_name c))) w1
        else emit (EvConsole LWarn
                     (MConstraintFailed (c_name c) (err_message e))) w1
    end
  else emit (EvConsole LWarn (MSkippedConstraint (c_type c) (c_name c))) w.

Definition afterIndex (i : IndexRow) (w : World) : World :=
  let stmt := indexStatement i in
  if truthy stmt then
    let w1 := tick_target (emit (EvTarget (TqSchema stmt)) w) in
    match w_targetFail w (w_targetRuns w) with
    | None =>
        emit (EvConsole LLog (MCreatedIndex (i_name i) (i_type i)))
          (set_target (acceptSchema stmt (w_target w)) w1)
    | Some e =>
        if indexExists e
        then emit (EvConsole LLog (MIndexExists (i_name i))) w1
        else emit (EvConsole LWarn (MIndexFailed (i_name i) (err_message e))) w1
    end
  else emit (EvConsole LWarn (MSkippedIndex (i_type i) (i_name i))) w.

(** The parts of the world an item of the schema cannot change. *)
Definition schemaFrame (w : World) :=
  (w_source w, w_sourceFail w, w_sourceRuns w, w_sessions w,
   t_nodes (w_target w), t_rels (w_target w)).

Definition personIdUnique : ConstraintRow :=
  mkConstraintRow "person_id" "UNIQUENESS" "NODE" ["Person"] ["id"].

Definition personNameKey : ConstraintRow :=
  mkConstraintRow "person_key" "NODE_KEY" "NODE" ["Person"] ["name"; "born"].

Definition personNameIndex : IndexRow :=
  mkIndexRow "person_name" "BTREE" ["Person"] ["name"].

Definition personAgeRangeIndex : IndexRow :=
  mkIndexRow "person_age" "RANGE" ["Person"] ["age"].

Definition unlabeledBtreeIndex : IndexRow :=
  mkIndexRow "orphan" "BTREE" [] ["x"].

Definition alreadyThere : Error :=
  mkError (Some "Neo.ClientError.Schema.EquivalentSchemaRuleAlreadyExists")
    "an equivalent rule already exists".

Definition schemaSource : SourceGraph :=
  mkSourceGraph [] [] [personIdUnique; personNameKey]
    [personAgeRangeIndex; personNameIndex].

(** The target rejects the first creation statement as already existing and
    the second for another reason. *)
Definition schemaTroubleWorld : World :=
  initialWorld (serve schemaSource) emptyTarget noFailure
    (fun k => match k with
              | 0 => Some alreadyThere
              | 1 => Some connectionLost
              | _ => None
              end).

Definition plainIndexStatement (name label : string) (props : list string)
  : string :=
  "CREATE INDEX " +:+ name +:+ " FOR (n:" +:+ label +:+ ") ON ("
    +:+ join ", " (map (fun p => "n." +:+ p) props) +:+ ")".

(** [while (processed < total) { processed = body(processed) }] with fuel. *)
Fixpoint whileLt (body : nat -> M nat) (fuel total processed : nat) : M unit :=
  if (processed <? total)%nat then
    match fuel with
    | O => diverge
    | S fuel' => processed' <- body processed ;;
                 whileLt body fuel' total processed'
    end
  else ret tt.

(** One turn of the loop of [copyNodes]; the result is the new value of
    [processed]. *)
Definition nodesTurn (batchSize : nat) (callback : nat -> M unit)
    (total processed : nat) : M nat :=
  nodesData <- sourceRun (SqPageNodes processed batchSize)
                 (fun s => map nodeOfRecord
                             (src_pageNodes s processed batchSize)) ;;
  when (0 <? length nodesData)%nat (createNodesInTarget nodesData) ;;;
  let processed' := processed + length nodesData in
  callback processed' ;;;
  console LLog (MProcessedNodes processed' total) ;;;
  ret processed'.

Definition relsTurn (batchSize : nat) (callback : nat -> M unit)
    (total processed : nat) : M nat :=
  relsData <- sourceRun (SqPageRels processed (relBatchSize batchSize))
                (fun s => map relOfRecord
                            (src_pageRels s processed (relBatchSize
                              batchSize))) ;;
  when (0 <? length relsData)%nat (createRelationshipsInTarget relsData) ;;;
  let processed' := processed + length relsData in
  callback processed' ;;;
  console LLog (MProcessedRelationships processed' total) ;;;
  ret processed'.

(** The engines never fail; the observer neither throws nor writes. *)
Definition sourceUp (w : World) : Prop := forall k, w_sourceFail w k = None.
Definition targetUp (w : World) : Prop := forall k, w_targetFail w k = None.

Definition polite (progressCallback : option Observer)
  : Prop :=
  match progressCallback with
  | Some observer => forall p, observer p = (None, p)
  | None => True
  end.

(** The values [processed] takes: [offsetAfter len k p] is its value [k]
    turns after it was [p], when a page at offset [q] holds [len q] records. *)
Fixpoint offsetAfter (len : nat -> nat) (k p : nat) : nat :=
  match k with
  | O => p
  | S k' => offsetAfter len k' (p + len p)
  end.

Definition nodePageLen (s : SourceDb) (b p : nat) : nat :=
  length (src_pageNodes s p b).

Definition relPageLen (s : SourceDb) (b p : nat) : nat :=
  length (src_pageRels s p (relBatchSize b)).

(** A source that counted three nodes and two relationships and has lost
    them since: every page is empty. *)
Definition shrunkSource : SourceDb :=
  mkSourceDb 3 2 (fun _ _ => []) (fun _ _ => []) [] [].

Definition shrunkSourceWorld : World :=
  initialWorld shrunkSource emptyTarget noFailure noFailure.

Definition label (i : Z) (l : list string) : NodeData :=
  mkNodeData i l {[ "name" := PStr "n" ]}.

Definition demoGraph : SourceGraph :=
  mkSourceGraph
    [label 10 ["B"; "A"]; label 11 ["A"; "B"]; label 12 [];
     label 13 ["A,B"]; label 14 ["C"]]
    [mkRelationshipData 10 11 "KNOWS" ∅; mkRelationshipData 12 12 "SELF" ∅;
     mkRelationshipData 14 10 "KNOWS" {[ "since" := PNum 2020 ]}]
    [personIdUnique] [personNameIndex].

(** A graph whose labels are identifiers. *)
Definition plainGraph : SourceGraph :=
  mkSourceGraph
    [label 10 ["B"; "A"]; label 11 ["A"; "B"]; label 12 [];
     label 13 ["A_B"]; label 14 ["C"]]
    [mkRelationshipData 10 11 "KNOWS" ∅; mkRelationshipData 12 12 "SELF" ∅;
     mkRelationshipData 14 10 "KNOWS" {[ "since" := PNum 2020 ]}]
    [] [].

Definition demoWorld : World :=
  initialWorld (serve demoGraph)
    (mkTargetDb [mkTargetNode ["Old"] ∅] [] ["old_constraint"] ["old_index"] [])
    noFailure noFailure.

Definition silentObserver : option Observer :=
  Some (fun p => (None, p)).

Definition clauseOfKey (key : string) : string :=
  labelClauseOf (labelsOfKey key).

Definition afterNodeGroup (group : string * list NodeData) (w : World) : World :=
  set_target (createNodes (clauseOfKey group.1) group.2 (w_target w))
    (tick_target (emit (EvTarget (TqCreateNodes (clauseOfKey group.1) group.2)) w)).

Definition afterRelGroup (group : string * list RelationshipData) (w : World)
  : World :=
  set_target (createRels group.1 group.2 (w_target w))
    (tick_target (emit (EvTarget (TqCreateRels group.1 group.2)) w)).

(** What a world keeps when statements are sent to the target. *)
Definition sourceSide (w : World) :=
  (envOf w, w_sourceRuns w, w_sessions w, w_progress w).

Definition nodeStatements (groups : list (string * list NodeData))
  : list Event :=
  map (fun g => EvTarget (TqCreateNodes (clauseOfKey g.1) g.2)) groups.

Definition nodesCreated (groups : list (string * list NodeData))
  : list TargetNode :=
  flat_map (fun g => map (createdNode (parseLabelClause (clauseOfKey g.1))) g.2)
    groups.

Definition relStatements (groups : list (string * list RelationshipData))
  : list Event :=
  map (fun g => EvTarget (TqCreateRels g.1 g.2)) groups.

Definition relsCreated (ns : list TargetNode)
    (groups : list (string * list RelationshipData)) : list TargetRel :=
  flat_map (fun g => flat_map (createdRels g.1 ns) g.2) groups.

Definition observerEvents
    (cb : option Observer)
    (p : ReplicationProgress) : list Event :=
  match cb with
  | Some _ => [EvObserver p]
  | None => []
  end.

Definition withProcessedNodes (n : nat) (p : ReplicationProgress) :=
  mkProgress (totalNodes p) n (totalRelationships p)
    (processedRelationships p) (stage p).

Definition withProcessedRelationships (n : nat) (p : ReplicationProgress) :=
  mkProgress (totalNodes p) (processedNodes p) (totalRelationships p) n
    (stage p).

Definition withStage (s : Stage) (p : ReplicationProgress) :=
  mkProgress (totalNodes p) (processedNodes p) (totalRelationships p)
    (processedRelationships p) s.

(** What [notify] leaves unchanged. *)
Definition storeSide (w : World) :=
  (envOf w, w_sourceRuns w, w_targetRuns w, w_sessions w, w_target w,
   w_progress w).

(** The nodes and relationships of the target. *)
Definition graphOf (w : World) := (t_nodes (w_target w), t_rels (w_target w)).

Definition afterDropConstraint (name : string) (w : World) : World :=
  emit (EvConsole LLog (MDroppedConstraint name))
    (set_target (dropConstraint name (w_target w))
       (tick_target (emit (EvTarget (TqDropConstraint name)) w))).

Definition afterDropIndex (name : string) (w : World) : World :=
  emit (EvConsole LLog (MDroppedIndex name))
    (set_target (dropIndex name (w_target w))
       (tick_target (emit (EvTarget (TqDropIndex name)) w))).

(** The invariant of the two loops of [clearTargetDatabase]. *)
Definition cleared (w0 w : World) : Prop :=
  envOf w = envOf w0 /\ graphOf w = ([], []) /\
  w_progress w = w_progress w0.

(** The [source_id] a target node carries, if it is a number. *)
Definition tagOf (n : TargetNode) : option Z :=
  match tn_props n !! "source_id" with
  | Some (PNum z) => Some z
  | _ => None
  end.

(** Every identifier of [ids] is the tag of exactly one of the nodes. *)
Definition taggedBy (ids : list Z) (ns : list TargetNode) : Prop :=
  map tagOf ns ≡ₚ map Some ids.

Definition nodeIds (g : SourceGraph) : list Z := map nodeId (sg_nodes g).

(** The source graph as the engine guarantees it: identifiers are unique and
    every relationship ends at nodes of the graph. *)
Definition wellFormed (g : SourceGraph) : Prop :=
  NoDup (nodeIds g) /\
  forall rel, rel ∈ sg_rels g ->
              startId rel ∈ nodeIds g /\ endId rel ∈ nodeIds g.

(** The identifiers a JavaScript number holds exactly
    ([Number.isSafeInteger]). *)
Definition safeInteger (z : Z) : Prop := (- 2 ^ 53 < z < 2 ^ 53)%Z.

Definition safeIds (g : SourceGraph) : Prop :=
  Forall (fun n => safeInteger (nodeId n)) (sg_nodes g).

Definition tinyGraph : SourceGraph :=
  mkSourceGraph [label 1 ["Person"]; label 2 ["Person"]]
    [mkRelationshipData 1 2 "KNOWS" ∅] [] [].

Definition tinyWorld : World :=
  initialWorld (serve tinyGraph) emptyTarget noFailure noFailure.

(** The paging requests for nodes in a trace, as (skip, limit), and the
    processed-node counts the observer was called with. *)
Definition pageRequests (t : list Event) : list (nat * nat) :=
  omap (fun e => match e with
                 | EvSource (SqPageNodes s l) => Some (s, l)
                 | _ => None
                 end) t.

Definition reportedNodes (t : list Event) : list nat :=
  omap (fun e => match e with
                 | EvObserver p => Some (processedNodes p)
                 | _ => None
                 end) t.

(** ** The protocol of a run *)

(** Where a run is, as the events it has written tell.  [Counting k]: the
    run has started and read [k] of the two totals; [Due s]: stage [s] is
    next and the observer has not been told; [Told s]: the observer has
    been told of [s], or there is none to tell; [At s k]: stage [s] has
    begun and sent [k] of the statements it always sends; [Fetched s]: a
    page was read and is being written to the target; [Paged s]: the
    observer was called after the page, or there is none to call. *)
Inductive Pos :=
| Start
| Counting (k : nat)
| Due (s : Stage)
| Told (s : Stage)
| At (s : Stage) (k : nat)
| Fetched (s : Stage)
| Paged (s : Stage)
| Finished.

#[export] Instance Stage_eq_dec : EqDecision Stage.
Proof. solve_decision. Defined.

(** The first console line of a stage; [complete] has the last line of the
    run. *)
Definition begins (s : Stage) (m : Message) : bool :=
  match s, m with
  | clearing, MClearing
  | schema, MCopyingSchema
  | nodes, MCopyingNodes
  | relationships, MCopyingRelationships
  | cleanup, MCleaningUp
  | complete, MCompleted => true
  | _, _ => false
  end.

Definition begun (s : Stage) : Pos :=
  match s with
  | complete => Finished
  | _ => At s 0
  end.

Definition stepClearing (k : nat) (e : Event) : option Pos :=
  match k, e with
  | 0, EvTarget TqDetachDeleteAll => Some (At clearing 1)
  | 1, EvConsole LLog MAllDeleted => Some (At clearing 2)
  | 2, EvTarget TqShowConstraints => Some (At clearing 3)
  | 3, EvTarget (TqDropConstraint _) => Some (At clearing 3)
  | 3, EvConsole LLog (MDroppedConstraint _) => Some (At clearing 3)
  | 3, EvConsole LWarn (MDropConstraintFailed _ _) => Some (At clearing 3)
  | 3, EvTarget TqShowIndexes => Some (At clearing 4)
  | 4, EvTarget (TqDropIndex _) => Some (At clearing 4)
  | 4, EvConsole LLog (MDroppedIndex _) => Some (At clearing 4)
  | 4, EvConsole LWarn (MDropIndexFailed _ _) => Some (At clearing 4)
  | _, _ => None
  end.

Definition stepSchema (k : nat) (e : Event) : option Pos :=
  match k, e with
  | 0, EvSource SqShowConstraints => Some (At schema 1)
  | 1, EvTarget (TqSchema _) => Some (At schema 1)
  | 1, EvConsole LLog (MCreatedConstraint _ _) => Some (At schema 1)
  | 1, EvConsole LWarn (MSkippedConstraint _ _) => Some (At schema 1)
  | 1, EvConsole LLog (MConstraintExists _) => Some (At schema 1)
  | 1, EvConsole LWarn (MConstraintFailed _ _) => Some (At schema 1)
  | 1, EvSource SqShowIndexes => Some (At schema 2)
  | 2, EvTarget (TqSchema _) => Some (At schema 2)
  | 2, EvConsole LLog (MCreatedIndex _ _) => Some (At schema 2)
  | 2, EvConsole LWarn (MSkippedIndex _ _) => Some (At schema 2)
  | 2, EvConsole LLog (MIndexExists _) => Some (At schema 2)
  | 2, EvConsole LWarn (MIndexFailed _ _) => Some (At schema 2)
  | _, _ => None
  end.

Definition stepNodes (k : nat) (e : Event) : option Pos :=
  match k, e with
  | 0, EvSource SqCountNodes => Some (At nodes 1)
  | 1, EvSource (SqPageNodes _ _) => Some (Fetched nodes)
  | _, _ => None
  end.

Definition stepRelationships (k : nat) (e : Event) : option Pos :=
  match k, e with
  | 0, EvSource SqCountRels => Some (At relationships 1)
  | 1, EvSource (SqPageRels _ _) => Some (Fetched relationships)
  | _, _ => None
  end.

Definition stepCleanup (k : nat) (e : Event) : option Pos :=
  match k, e with
  | 0, EvTarget TqRemoveSourceId => Some (At cleanup 1)
  | 1, EvConsole LLog MCleanupCompleted => Some (At cleanup 2)
  | _, _ => None
  end.

Section Protocol.

(** [supplied]: the caller gave an observer.  [strict]: the tag of a call
    after a page is checked too; this is for observers that do not write
    to the object they are handed. *)
Variable supplied strict : bool.

(** The moves an event makes. *)
Definition step0 (pos : Pos) (e : Event) : option Pos :=
  match pos with
  | Start =>
      match e with
      | EvConsole LLog MStarting => Some (Counting 0)
      | _ => None
      end
  | Counting k =>
      match k, e with
      | 0, EvSource SqCountNodes => Some (Counting 1)
      | 1, EvSource SqCountRels => Some (Due clearing)
      | _, _ => None
      end
  | Due s =>
      match e with
      | EvObserver p =>
          if supplied && bool_decide (stage p = s) then Some (Told s)
          else None
      | _ => None
      end
  | Told s =>
      match e with
      | EvConsole LLog m => if begins s m then Some (begun s) else None
      | _ => None
      end
  | At clearing k => stepClearing k e
  | At schema k => stepSchema k e
  | At nodes k => stepNodes k e
  | At relationships k => stepRelationships k e
  | At cleanup k => stepCleanup k e
  | At complete _ => None
  | Fetched s =>
      match e with
      | EvTarget (TqCreateNodes _ _) =>
          if bool_decide (s = nodes) then Some (Fetched s) else None
      | EvTarget (TqCreateRels _ _) =>
          if bool_decide (s = relationships) then Some (Fetched s) else None
      | EvObserver p =>
          if supplied && (negb strict || bool_decide (stage p = s))
          then Some (Paged s) else None
      | _ => None
      end
  | Paged s =>
      match s, e with
      | nodes, EvConsole LLog (MProcessedNodes _ _) => Some (At nodes 1)
      | relationships, EvConsole LLog (MProcessedRelationships _ _) =>
          Some (At relationships 1)
      | _, _ => None
      end
  | Finished => None
  end.

(** The moves no event makes: a stage whose last statements are a loop ends
    when the next stage is due, and without an observer nobody is told. *)
Definition skip (pos : Pos) : option Pos :=
  match pos with
  | At clearing 4 => Some (Due schema)
  | At schema 2 => Some (Due nodes)
  | At nodes 1 => Some (Due relationships)
  | At relationships 1 => Some (Due cleanup)
  | At cleanup 2 => Some (Due complete)
  | Due s => if supplied then None else Some (Told s)
  | Fetched s => if supplied then None else Some (Paged s)
  | _ => None
  end.

Fixpoint stepFrom (n : nat) (pos : Pos) (e : Event) : option Pos :=
  match step0 pos e with
  | Some pos' => Some pos'
  | None =>
      match n, skip pos with
      | S n', Some pos' => stepFrom n' pos' e
      | _, _ => None
      end
  end.

(** No position is more than two silent moves away from the move an event
    makes. *)
Definition step : Pos -> Event -> option Pos := stepFrom 2.

Fixpoint runEvents (pos : Pos) (t : list Event) : option Pos :=
  match t with
  | [] => Some pos
  | e :: t' => match step pos e with
               | Some pos' => runEvents pos' t'
               | None => None
               end
  end.

(** [pos'] is [pos] after silent moves. *)
Definition reaches (pos pos' : Pos) : Prop :=
  rtc (fun p q => skip p = Some q) pos pos'.

(** The events written since [base] are a path of the protocol. *)
Definition onTrack (base : list Event) (w : World) : Prop :=
  exists pos t, w_trace w = base ++ t /\ runEvents Start t = Some pos.

(** The events written since [base] lead from [Start] to the position; the
    [progress] object carries the stage [g.1.2], for sure when [g.2] is set
    (the replicator has just written it) and otherwise if the observer does
    not write. *)
Definition follows (base : list Event) (g : Pos * Stage * bool) (w : World)
  : Prop :=
  (exists pos t, w_trace w = base ++ t /\
                 runEvents Start t = Some pos /\ reaches pos g.1.1) /\
  (g.2 = true \/ strict = true -> stage (w_progress w) = g.1.2).

(** [moves g g' m]: from [g] the method [m] ends in [g'] when it returns and
    stays on the protocol when it does not.  [smoves] asks for [g'] also
    when [m] throws. *)
Definition moves {A} (g g' : Pos * Stage * bool) (m : M A) : Prop :=
  forall base w, follows base g w ->
    wp m w (fun r w' => match r with
                        | Ok _ => follows base g' w'
                        | _ => onTrack base w'
                        end).

Definition smoves {A} (g g' : Pos * Stage * bool) (m : M A) : Prop :=
  forall base w, follows base g w ->
    wp m w (fun r w' => match r with
                        | Diverge => onTrack base w'
                        | _ => follows base g' w'
                        end).

End Protocol.

(** An observer was given. *)
Definition isSupplied (progressCallback : option Observer) : bool :=
  match progressCallback with
  | Some _ => true
  | None => false
  end.

(** The observer, if there is one, writes nothing to the object it is
    handed; it may throw. *)
Definition reads (progressCallback : option Observer) : Prop :=
  match progressCallback with
  | Some observer => forall p, (observer p).2 = p
  | None => True
  end.

(** The stage tags the observer has seen, without repetitions. *)
Definition tagsOf (t : list Event) : list Stage :=
  omap (fun e => match e with
                 | EvObserver p => Some (stage p)
                 | _ => None
                 end) t.

Fixpoint squashAfter (last : option Stage) (l : list Stage) : list Stage :=
  match l with
  | [] => []
  | s :: l' => if bool_decide (last = Some s) then squashAfter last l'
               else s :: squashAfter (Some s) l'
  end.

Definition stagesAfter (s : Stage) : list Stage :=
  match s with
  | clearing => [schema; nodes; relationships; cleanup; complete]
  | schema => [nodes; relationships; cleanup; complete]
  | nodes => [relationships; cleanup; complete]
  | relationships => [cleanup; complete]
  | cleanup => [complete]
  | complete => []
  end.

Definition stageBefore (s : Stage) : option Stage :=
  match s with
  | clearing => None
  | schema => Some clearing
  | nodes => Some schema
  | relationships => Some nodes
  | cleanup => Some relationships
  | complete => Some cleanup
  end.

(** The last tag the observer saw when the run is at a position, and the
    tags it has still to see. *)
Definition lastTag (p : Pos) : option Stage :=
  match p with
  | Start | Counting _ => None
  | Due s => stageBefore s
  | Told s | At s _ | Fetched s | Paged s => Some s
  | Finished => Some complete
  end.

Definition remaining (p : Pos) : list Stage :=
  match p with
  | Start | Counting _ => clearing :: stagesAfter clearing
  | Due s => s :: stagesAfter s
  | Told s | At s _ | Fetched s | Paged s => stagesAfter s
  | Finished => []
  end.

Definition allStages : list Stage :=
  [clearing; schema; nodes; relationships; cleanup; complete].

(** An observer that sets [processedNodes] back to zero at every call. *)
Definition forgetfulObserver : option Observer :=
  Some (fun p =>
    (None, mkProgress (totalNodes p) 0 (totalRelationships p)
             (processedRelationships p) (stage p))).

(** An observer that writes [clearing] into the object at every call. *)
Definition scribblingObserver : option Observer :=
  Some (fun p =>
    (None, mkProgress (totalNodes p) (processedNodes p)
             (totalRelationships p) (processedRelationships p) clearing)).

(** ** Vocabulary of the further properties *)

(** [c] occurs in [s]. *)
Fixpoint occurs (c : ascii) (s : string) : bool :=
  match s with
  | EmptyString => false
  | String a s' => Ascii.eqb a c || occurs c s'
  end.

(** A label that survives the key and the label clause: not empty, no comma,
    no colon. *)
Definition plainLabel (s : string) : Prop :=
  s <> "" /\ occurs ","%char s = false /\ occurs ":"%char s = false.

(** A label the statement of [createNodesInTarget] can name as it stands
    there, without back quotes: an ASCII letter or an underscore, followed by
    ASCII letters, digits and underscores.  On such labels [sort] compares
    as JavaScript does, the key and the clause keep the labels apart, and
    [parseLabelClause] reads the clause as the engine does. *)
Definition isLetter (c : ascii) : bool :=
  let n := nat_of_ascii c in
  ((65 <=? n) && (n <=? 90) || (97 <=? n) && (n <=? 122) || (n =? 95))%nat.

Definition isDigit (c : ascii) : bool :=
  let n := nat_of_ascii c in ((48 <=? n) && (n <=? 57))%nat.

Fixpoint allOf (p : ascii -> bool) (s : string) : bool :=
  match s with
  | EmptyString => true
  | String a s' => p a && allOf p s'
  end.

Definition identifier (s : string) : bool :=
  match s with
  | EmptyString => false
  | String a s' => isLetter a && allOf (fun c => isLetter c || isDigit c) s'
  end.

Definition identifierLabels (node : NodeData) : Prop :=
  Forall (fun l => identifier l = true) (labels node).

(** The labels the target gives a node: read back from the key by
    [createNodesInTarget], written into the clause, read by the engine. *)
Definition readBack (node : NodeData) : list string :=
  parseLabelClause (clauseOfKey (labelKey node)).

(** The tag of the node at a position of the target. *)
Definition endTag (ns : list TargetNode) (i : nat) : option Z :=
  match ns !! i with
  | Some n => tagOf n
  | None => None
  end.

(** A target relationship as its end points' tags, type and properties, and
    a source record in the same form. *)
Definition relSeen (ns : list TargetNode) (r : TargetRel) :=
  (endTag ns (tr_start r), endTag ns (tr_end r), tr_type r, tr_props r).

Definition relFacts (rel : RelationshipData) :=
  (Some (startId rel), Some (endId rel), relType rel, relProperties rel).

(** No node of [ns] carries the identifier [z]. *)
Definition untagged (z : Z) (ns : list TargetNode) : Prop :=
  forall n, n ∈ ns -> tagOf n <> Some z.

(** The copy of a source node in the target while the run is in the nodes
    and relationships stages, and once [cleanup] has removed the tag. *)
Definition stagedCopy (node : NodeData) : TargetNode :=
  createdNode (readBack node) node.

Definition finalCopy (node : NodeData) : TargetNode :=
  mkTargetNode (readBack node) (delete "source_id" (properties node)).

(** A source node as the run should leave it in the target. *)
Definition cleanCopy (node : NodeData) : TargetNode :=
  mkTargetNode (sort (labels node)) (delete "source_id" (properties node)).

(** A target relationship as the source identifiers of the nodes it joins,
    when the target's nodes are, position by position, the copies of
    [src]. *)
Definition relEnds (src : list NodeData) (r : TargetRel) :=
  (nodeId <$> src !! tr_start r, nodeId <$> src !! tr_end r,
   tr_type r, tr_props r).

(** The world after [dropOneConstraint] and [dropOneIndex], whether the
    statement fails or not. *)
Definition tryDropConstraint (name : string) (w : World) : World :=
  let w1 := tick_target (emit (EvTarget (TqDropConstraint name)) w) in
  match w_targetFail w (w_targetRuns w) with
  | None =>
      emit (EvConsole LLog (MDroppedConstraint name))
        (set_target (dropConstraint name (w_target w)) w1)
  | Some e => emit (EvConsole LWarn (MDropConstraintFailed name e)) w1
  end.

Definition tryDropIndex (name : string) (w : World) : World :=
  let w1 := tick_target (emit (EvTarget (TqDropIndex name)) w) in
  match w_targetFail w (w_targetRuns w) with
  | None =>
      emit (EvConsole LLog (MDroppedIndex name))
        (set_target (dropIndex name (w_target w)) w1)
  | Some e => emit (EvConsole LWarn (MDropIndexFailed name e)) w1
  end.

(** The names left of [present] once a [DROP] was sent for each of [names],
    the first as statement [r]. *)
Fixpoint namesLeft (fail : nat -> option Error) (r : nat)
    (names present : list string) : list string :=
  match names with
  | [] => present
  | name :: names' =>
      namesLeft fail (S r) names'
        (match fail r with
         | None => filter (fun n => n <> name) present
         | Some _ => present
         end)
  end.

(** The target store only grew: what it held is still there, in place. *)
Definition grown (w w' : World) : Prop :=
  t_nodes (w_target w) `prefix_of` t_nodes (w_target w') /\
  t_rels (w_target w) `prefix_of` t_rels (w_target w') /\
  t_schema (w_target w) `prefix_of` t_schema (w_target w') /\
  t_constraints (w_target w') = t_constraints (w_target w) /\
  t_indexes (w_target w') = t_indexes (w_target w).

(** ** The connection test and the command-line program *)

(** The console lines of [testConnections] and [main]. *)
Inductive Line :=
| LnTesting
| LnSourceOk
| LnSourceFailed (error : Error)
| LnTargetOk
| LnTargetFailed (error : Error)
| LnNoSource
| LnSourceHint
| LnNoTarget
| LnTargetHint
| LnAllOk
| LnSuccess
| LnReplicationFailed (error : Error).

(** The process that runs the replicator: the world of the replicator and
    the lines the program itself has printed. *)
Record Host := mkHost {
  h_world : World;
  h_console : list (Level * Line) }.

(** The program returns, throws, is still running, or has ended through
    [Deno.exit]. *)
Inductive Ending (A : Type) :=
| Returned (a : A)
| Raised (e : Error)
| StillRunning
| Exited (code : Z).
Arguments Returned {A} a.
Arguments Raised {A} e.
Arguments StillRunning {A}.
Arguments Exited {A} code.

Definition P (A : Type) : Type := Host -> Ending A * Host.

Definition pret {A} (a : A) : P A := fun h => (Returned a, h).

Definition pbind {A B} (m : P A) (k : A -> P B) : P B :=
  fun h =>
    match m h with
    | (Returned a, h') => k a h'
    | (Raised e, h') => (Raised e, h')
    | (StillRunning, h') => (StillRunning, h')
    | (Exited code, h') => (Exited code, h')
    end.

Declare Scope proc_scope.
Delimit Scope proc_scope with proc.
Notation "x <- m ;; k" := (pbind m (fun x => k))
  (at level 100, m at next level, right associativity) : proc_scope.
Notation "m ;;; k" := (pbind m (fun _ => k))
  (at level 100, right associativity) : proc_scope.

(** A method of the replicator, run inside the program. *)
Definition lift {A} (m : M A) : P A :=
  fun h =>
    match m (h_world h) with
    | (Ok a, w) => (Returned a, mkHost w (h_console h))
    | (Throw e, w) => (Raised e, mkHost w (h_console h))
    | (Diverge, w) => (StillRunning, mkHost w (h_console h))
    end.

Definition say (lvl : Level) (l : Line) : P unit :=
  fun h => (Returned tt, mkHost (h_world h) (h_console h ++ [(lvl, l)])).

(** [Deno.exit(code)]: the process ends at once; no handler and no
    finaliser runs after it. *)
Definition exit {A} (code : Z) : P A := fun h => (Exited code, h).

(** [try { m } catch (e) { handler e }] *)
Definition ptryCatch {A} (m : P A) (handler : Error -> P A) : P A :=
  fun h =>
    match m h with
    | (Raised e, h') => handler e h'
    | r => r
    end.

(** [try { m } catch (e) { handler e } finally { finaliser }] *)
Definition ptryCatchFinally {A} (m : P A) (handler : Error -> P A)
    (finaliser : P unit) : P A :=
  fun h =>
    match ptryCatch m handler h with
    | (Returned a, h') => (finaliser ;;; pret a)%proc h'
    | (Raised e, h') => (finaliser ;;; (fun h0 => (Raised e, h0)))%proc h'
    | r => r
    end.

(** [session.run('RETURN 1')]: the statement is sent, the engine fails or
    answers; nothing is read and nothing is written. *)
Definition sourcePing : M unit :=
  fun w =>
    let w1 := tick_source w in
    match w_sourceFail w (w_sourceRuns w) with
    | Some e => (Throw e, w1)
    | None => (Ok tt, w1)
    end.

Definition targetPing : M unit :=
  fun w =>
    let w1 := tick_target w in
    match w_targetFail w (w_targetRuns w) with
    | Some e => (Throw e, w1)
    | None => (Ok tt, w1)
    end.

(** The result is the pair [(results.source, results.target)]. *)
Definition testConnections : P (bool * bool) :=
  (source <- ptryCatch
               (lift openSession ;;;
                lift sourcePing ;;;
                lift closeSession ;;;
                say LLog LnSourceOk ;;;
                pret true)
               (fun error => say LError (LnSourceFailed error) ;;; pret false) ;;
   target <- ptryCatch
               (lift openSession ;;;
                lift targetPing ;;;
                lift closeSession ;;;
                say LLog LnTargetOk ;;;
                pret true)
               (fun error => say LError (LnTargetFailed error) ;;; pret false) ;;
   pret (source, target))%proc.

(** The observer [main] passes to [replicateDatabase] prints four lines; it
    does not throw and only reads the object it is handed.  A call of it is
    the [EvObserver] event of the trace. *)
Definition mainObserver : option Observer :=
  Some (fun p => (None, p)).

(** [main], for the replicator it uses: its batch size, and the turns its
    loops are given. *)
Definition main (batchSize fuel : nat) : P unit :=
  ptryCatchFinally
    (say LLog LnTesting ;;;
     connections <- testConnections ;;
     (if negb connections.1
      then say LError LnNoSource ;;; say LLog LnSourceHint ;;; exit 1
      else pret tt) ;;;
     (if negb connections.2
      then say LError LnNoTarget ;;; say LLog LnTargetHint ;;; exit 1
      else pret tt) ;;;
     say LLog LnAllOk ;;;
     lift (replicateDatabase batchSize mainObserver fuel) ;;;
     say LLog LnSuccess)%proc
    (fun error => say LError (LnReplicationFailed error) ;;; exit 1)%proc
    (lift close).

(** An engine answers the next statement sent to it. *)
Definition sourceAnswers (w : World) : bool :=
  bool_decide (w_sourceFail w (w_sourceRuns w) = None).

Definition targetAnswers (w : World) : bool :=
  bool_decide (w_targetFail w (w_targetRuns w) = None).

(** The world once [testConnections] has run in [w]. *)
Definition tested (w : World) : World :=
  let leaked := (if sourceAnswers w then 0 else 1)
                + (if targetAnswers w then 0 else 1) in
  set_sessions (w_sessions w + leaked) (tick_target (tick_source w)).

(** Worlds the further properties are tried on: a target that holds the
    tagged copies of the two nodes of [tinyGraph]; a relationship to a node
    that does not exist; a target whose first [DROP] fails; a process whose
    source does not answer. *)
Definition plainWorld : World :=
  initialWorld (serve plainGraph) emptyTarget noFailure noFailure.

Definition taggedWorld : World :=
  initialWorld (serve tinyGraph)
    (mkTargetDb (map stagedCopy (sg_nodes tinyGraph)) [] [] [] [])
    noFailure noFailure.

Definition danglingRel : RelationshipData :=
  mkRelationshipData 1 99 "KNOWS" ∅.

Definition stubbornWorld : World :=
  initialWorld (serve emptySource)
    (mkTargetDb [mkTargetNode ["Old"] ∅] [] ["old_constraint"] ["old_index"] [])
    noFailure (failAt 2 connectionLost).

Definition sourceDownHost : Host :=
  mkHost
    (initialWorld (serve tinyGraph) emptyTarget (failAt 0 connectionLost)
       noFailure)
    [].

(** An event that is neither a statement sent to the target nor a call of
    the observer. *)
Definition quietEvent (ev : Event) : Prop :=
  match ev with
  | EvTarget _ | EvObserver _ => False
  | _ => True
  end.

(** Worlds whose source fails at its first statement, and at its third. *)
Definition sourceDownWorld : World :=
  initialWorld (serve demoGraph)
    (mkTargetDb [mkTargetNode ["Old"] ∅] [] ["old_constraint"] ["old_index"] [])
    (failAt 0 connectionLost) noFailure.

Definition sourceLostWorld : World :=
  initialWorld (serve demoGraph)
    (mkTargetDb [mkTargetNode ["Old"] ∅] [] ["old_constraint"] ["old_index"] [])
    (failAt 2 connectionLost) noFailure.

(** The target holds no node, relationship, constraint or index. *)
Definition emptied (w : World) : Prop :=
  t_nodes (w_target w) = [] /\ t_rels (w_target w) = [] /\
  t_constraints (w_target w) = [] /\ t_indexes (w_target w) = [].

(** ** What the observer sees *)

(** The snapshot [q] is not behind [p]: same totals, and no processed count
    is smaller. *)
Definition ahead (p q : ReplicationProgress) : Prop :=
  totalNodes q = totalNodes p /\
  totalRelationships q = totalRelationships p /\
  processedNodes p <= processedNodes q /\
  processedRelationships p <= processedRelationships q.

(** The snapshots the observer was called with. *)
Definition snapshots (t : list Event) : list ReplicationProgress :=
  omap (fun e => match e with
                 | EvObserver p => Some p
                 | _ => None
                 end) t.

(** From [p] through the snapshots [ps] to [q], never going back. *)
Fixpoint chain (p : ReplicationProgress) (ps : list ReplicationProgress)
    (q : ReplicationProgress) : Prop :=
  match ps with
  | [] => ahead p q
  | x :: xs => ahead p x /\ chain x xs q
  end.

Definition advances (w w' : World) : Prop :=
  exists t, w_trace w' = w_trace w ++ t /\
            chain (w_progress w) (snapshots t) (w_progress w').

(** [m], started with a progress that satisfies [I], only advances, and
    returns with a progress that satisfies [J]. *)
Definition tracks {A} (I : ReplicationProgress -> Prop) (m : M A)
    (J : ReplicationProgress -> Prop) : Prop :=
  forall w, I (w_progress w) ->
    advances w (m w).2 /\
    forall a w', m w = (Ok a, w') -> J (w_progress w').

(** The progress while the nodes are copied and [processed] of them are
    done, and while the relationships are copied. *)
Definition nodesDone (processed : nat) (p : ReplicationProgress) : Prop :=
  processedNodes p <= processed /\ processedRelationships p = 0.

Definition relsDone (processed : nat) (p : ReplicationProgress) : Prop :=
  processedRelationships p <= processed.

(** * The ingestion script

    [scripts/main.ts] loads the sections of four terms into the graph
    through the service of [./service.ts].  The service is a parameter of
    the model: for each statement the script sends, in order, whether it is
    rejected, and what the first row of a lookup holds.  Course identifiers
    are strings and instructor identifiers are numbers, as the script takes
    them to be; strings are sequences of code units below 256. *)

(** ** Strings *)

(** White space and line ends of [String.prototype.trim]. *)
Definition isSpace (a : ascii) : bool :=
  let n := nat_of_ascii a in
  (n =? 9)%nat || (n =? 10)%nat || (n =? 11)%nat || (n =? 12)%nat
  || (n =? 13)%nat || (n =? 32)%nat || (n =? 160)%nat.

Fixpoint trimStart (s : string) : string :=
  match s with
  | EmptyString => EmptyString
  | String a s' => if isSpace a then trimStart s' else s
  end.

Fixpoint trimEnd (s : string) : string :=
  match s with
  | EmptyString => EmptyString
  | String a s' =>
      match trimEnd s' with
      | EmptyString => if isSpace a then EmptyString else String a EmptyString
      | r => String a r
      end
  end.

Definition trim (s : string) : string := trimEnd (trimStart s).

(** ** Data *)

Record Instructor := mkInstructor { name : option string }.

Record RawCourseData := mkRawCourseData {
  subject_code : string;
  course_number : string;
  instruction_type : string;
  instruction_method : string;
  section : string;
  crn : Z;
  enroll : string;
  max_enroll : string;
  course_title : string;
  days : option (list string);
  start_time : option string;
  end_time : option string;
  instructors : option (list Instructor);
  prereqs : string;
  credits : string }.

Record SectionCourseRelation := mkSectionCourseRelation {
  scr_instruction_type : string;
  scr_instruction_method : string }.

(** The TypeScript type [Section]. *)
Record SectionNode := mkSectionNode {
  sn_term : Z;
  sn_crn : Z;
  sn_course_id : string;
  sn_section : string;
  sn_course : string;
  sn_subject_code : string;
  sn_course_number : string;
  sn_max_enroll : string;
  sn_start_time : option string;
  sn_end_time : option string }.

Definition dayNodes : list string :=
  ["Monday"; "Tuesday"; "Wednesday"; "Thursday"; "Friday"; "Saturday"].

Definition termIds : list Z := [202515; 202525; 202535; 202545]%Z.

(** ** The service *)

(** The statements of the script, with their parameters. *)
Inductive Statement :=
| MergeDay (dayId : string)
| MergeTerm (termId : Z)
| ReadMaxInstructorId
| FindCourse (subject_id course_number : string)
| FindInstructor (name : string)
| CreateInstructor (id : Z) (name : string)
| MergeSection (sectionNode : SectionNode)
    (relationshipProps : SectionCourseRelation)
| ScheduledOn (crn : Z) (dayId : string)
| Teaches (instructor_id : Z) (crn : Z)
| Taught (instructor_id : Z) (course_id : string).

(** The lines of [console.log]. *)
Inductive Said :=
| SCreatingDays
| SFailedDay (dayId : string) (error : Error)
| SDaysCreated
| SCreatingTerms
| SFailedTerm (termId : Z) (error : Error)
| STermsCreated
| SGettingMax
| SCurrentMax (maxInstructorId : Z)
| SFailedMax (error : Error)
| SProcessingTerm (term_id : Z) (sections : nat)
| SFailedCourse (course_number subject_id : string) (error : Error)
| SCreatedInstructor (instructorName : string) (newInstructorId : Z)
| SFailedCreateInstructor (instructorName : string) (error : Error)
| SFailedInstructor (instructorName : string) (error : Error)
| SProcessed (courses instructors : nat) (term_id : Z)
| SCreatingSections (term_id : Z)
| SFailedSection (crn : Z) (course : string) (error : Error)
| SFailedScheduledOn (crn : Z) (normalizedDay : string) (error : Error)
| SInvalidDay (crn : Z) (day : string)
| SFailedTeaches (instructorName : string) (crn : Z) (error : Error)
| SFailedTaught (instructorName course : string) (error : Error)
| SInstructorNotInMap (instructorName : string) (crn : Z)
| SCompletedSections (term_id : Z)
| SProcessingComplete.

(** What the service does with the statement it receives as its [k]-th:
    reject it, or answer; the answer of a lookup is the value of the column
    in the first row, if there is a row. *)
Record Service := mkService {
  rejects : nat -> option Error;
  maxIdAnswer : nat -> option Z;
  courseAnswer : nat -> option string;
  instructorAnswer : nat -> option Z }.

(** The state of the script: the service, the statements sent and the lines
    printed so far, the counter [maxInstructorId], and whether the service
    connection was closed. *)
Record Script := mkScript {
  service : Service;
  sent : list Statement;
  said : list Said;
  maxInstructorId : Z;
  closed : bool }.

Definition Run (A : Type) : Type := Script -> A * Script.

Definition sret {A} (a : A) : Run A := fun s => (a, s).

Definition sbind {A B} (m : Run A) (k : A -> Run B) : Run B :=
  fun s => let '(a, s') := m s in k a s'.

Declare Scope script_scope.
Delimit Scope script_scope with script.
Notation "x <- m ;; k" := (sbind m (fun x => k))
  (at level 100, m at next level, right associativity) : script_scope.
Notation "m ;;; k" := (sbind m (fun _ => k))
  (at level 100, right associativity) : script_scope.

Fixpoint sforEach {A} (l : list A) (body : A -> Run unit) : Run unit :=
  match l with
  | [] => sret tt
  | x :: xs => (body x ;;; sforEach xs body)%script
  end.

(** A loop that updates local variables. *)
Fixpoint sfold {A B} (l : list A) (body : B -> A -> Run B) (b : B) : Run B :=
  match l with
  | [] => sret b
  | x :: xs => (b' <- body b x ;; sfold xs body b')%script
  end.

Definition log (line : Said) : Run unit :=
  fun s => (tt, mkScript (service s) (sent s) (said s ++ [line])
                  (maxInstructorId s) (closed s)).

Definition setMaxInstructorId (z : Z) : Run unit :=
  fun s => (tt, mkScript (service s) (sent s) (said s) z (closed s)).

Definition getMaxInstructorId : Run Z := fun s => (maxInstructorId s, s).

(** A promise of the service: rejected with an error, or resolved. *)
Inductive Reply (A : Type) :=
| Rejected (error : Error)
| Resolved (a : A).
Arguments Rejected {A} error.
Arguments Resolved {A} a.

(** The statement is sent; the service rejects it or [answer] is read from
    what it answers. *)
Definition execute {A} (q : Statement) (answer : Service -> nat -> A)
  : Run (Reply A) :=
  fun s =>
    let k := length (sent s) in
    let s' := mkScript (service s) (sent s ++ [q]) (said s)
                (maxInstructorId s) (closed s) in
    match rejects (service s) k with
    | Some error => (Rejected error, s')
    | None => (Resolved (answer (service s) k), s')
    end.

Definition executeWriteQuery (q : Statement) : Run (Reply unit) :=
  execute q (fun _ _ => tt).

(** [service.close()] *)
Definition closeService : Run unit :=
  fun s => (tt, mkScript (service s) (sent s) (said s) (maxInstructorId s) true).

(** ** The script *)

Definition createDays : Run unit :=
  (log SCreatingDays ;;;
   sforEach dayNodes (fun dayId =>
     r <- executeWriteQuery (MergeDay dayId) ;;
     match r with
     | Rejected error => log (SFailedDay dayId error)
     | Resolved _ => sret tt
     end) ;;;
   log SDaysCreated)%script.

Definition createTerms : Run unit :=
  (log SCreatingTerms ;;;
   sforEach termIds (fun termId =>
     r <- executeWriteQuery (MergeTerm termId) ;;
     match r with
     | Rejected error => log (SFailedTerm termId error)
     | Resolved _ => sret tt
     end) ;;;
   log STermsCreated)%script.

(** [maxInstructorId = result[0]?.get("maxId") || 0] *)
Definition readMaxInstructorId : Run unit :=
  (setMaxInstructorId 0 ;;;
   log SGettingMax ;;;
   r <- execute ReadMaxInstructorId maxIdAnswer ;;
   match r with
   | Resolved result =>
       setMaxInstructorId (default 0%Z result) ;;;
       current <- getMaxInstructorId ;;
       log (SCurrentMax current)
   | Rejected error => log (SFailedMax error)
   end)%script.

Definition courseKey (subject_id course_number : string) : string :=
  subject_id +:+ " " +:+ course_number.

(** [if (!coursesMap.has(course)) ...] *)
Definition lookupCourse (coursesMap : gmap string string)
    (sectionData : RawCourseData) : Run (gmap string string) :=
  let course_number := course_number sectionData in
  let subject_id := subject_code sectionData in
  let course := courseKey subject_id course_number in
  match coursesMap !! course with
  | Some _ => sret coursesMap
  | None =>
      (r <- execute (FindCourse subject_id course_number) courseAnswer ;;
       match r with
       | Resolved result =>
           match result with
           | Some id =>
               if truthy id then sret (<[course := id]> coursesMap)
               else sret coursesMap
           | None => sret coursesMap
           end
       | Rejected error =>
           log (SFailedCourse course_number subject_id error) ;;;
           sret coursesMap
       end)%script
  end.

(** A number is truthy when it is not zero. *)
Definition truthyId (id : Z) : bool := negb (id =? 0)%Z.

(** [maxInstructorId++] and [maxInstructorId--]: the counter is a JavaScript
    number, so the sum is rounded to the nearest number; from [2 ^ 53] on
    adding one changes nothing. *)
Definition increment (x : Z) : Z := toNumber (x + 1).
Definition decrement (x : Z) : Z := toNumber (x - 1).

(** The [else] branch of the instructor lookup: the instructor does not
    exist and is created with the next identifier. *)
Definition createInstructor (instructorsMap : gmap string Z)
    (instructorName : string) : Run (gmap string Z) :=
  (current <- getMaxInstructorId ;;
   setMaxInstructorId (increment current) ;;;
   newInstructorId <- getMaxInstructorId ;;
   created <- executeWriteQuery
                (CreateInstructor newInstructorId instructorName) ;;
   match created with
   | Resolved _ =>
       log (SCreatedInstructor instructorName newInstructorId) ;;;
       sret (<[instructorName := newInstructorId]> instructorsMap)
   | Rejected createError =>
       log (SFailedCreateInstructor instructorName createError) ;;;
       decremented <- getMaxInstructorId ;;
       setMaxInstructorId (decrement decremented) ;;;
       sret instructorsMap
   end)%script.

Definition lookupInstructor (instructorsMap : gmap string Z)
    (instructor : Instructor) : Run (gmap string Z) :=
  match name instructor with
  | None => sret instructorsMap
  | Some n =>
      if truthy n then
        let instructorName := trim n in
        match instructorsMap !! instructorName with
        | Some _ => sret instructorsMap
        | None =>
            (r <- execute (FindInstructor instructorName) instructorAnswer ;;
             match r with
             | Resolved result =>
                 match result with
                 | Some id =>
                     if truthyId id
                     then sret (<[instructorName := id]> instructorsMap)
                     else createInstructor instructorsMap instructorName
                 | None => createInstructor instructorsMap instructorName
                 end
             | Rejected error =>
                 log (SFailedInstructor instructorName error) ;;;
                 sret instructorsMap
             end)%script
        end
      else sret instructorsMap
  end.

(** The first loop over the sections of a term: one turn. *)
Definition lookups (maps : gmap string string * gmap string Z)
    (sectionData : RawCourseData) : Run (gmap string string * gmap string Z) :=
  (coursesMap <- lookupCourse maps.1 sectionData ;;
   instructorsMap <-
     match instructors sectionData with
     | Some l => sfold l lookupInstructor maps.2
     | None => sret maps.2
     end ;;
   sret (coursesMap, instructorsMap))%script.

Definition scheduleDay (crn : Z) (day : string) : Run unit :=
  let normalizedDay := trim day in
  if bool_decide (normalizedDay ∈ dayNodes) then
    (r <- executeWriteQuery (ScheduledOn crn normalizedDay) ;;
     match r with
     | Rejected error => log (SFailedScheduledOn crn normalizedDay error)
     | Resolved _ => sret tt
     end)%script
  else log (SInvalidDay crn day).

Definition linkInstructor (instructorsMap : gmap string Z) (crn : Z)
    (course_id course : string) (instructor : Instructor) : Run unit :=
  match name instructor with
  | None => sret tt
  | Some n =>
      if truthy n then
        let instructorName := trim n in
        match instructorsMap !! instructorName with
        | Some instructor_id =>
            if truthyId instructor_id then
              (r <- executeWriteQuery (Teaches instructor_id crn) ;;
               match r with
               | Rejected error => log (SFailedTeaches instructorName crn error)
               | Resolved _ => sret tt
               end ;;;
               r <- executeWriteQuery (Taught instructor_id course_id) ;;
               match r with
               | Rejected error =>
                   log (SFailedTaught instructorName course error)
               | Resolved _ => sret tt
               end)%script
            else log (SInstructorNotInMap instructorName crn)
        | None => log (SInstructorNotInMap instructorName crn)
        end
      else sret tt
  end.

(** The second loop over the sections of a term: one turn. *)
Definition createSection (term_id : Z) (coursesMap : gmap string string)
    (instructorsMap : gmap string Z) (sectionData : RawCourseData)
  : Run unit :=
  let course :=
    courseKey (subject_code sectionData) (course_number sectionData) in
  match coursesMap !! course with
  | None => sret tt
  | Some course_id =>
      if truthy course_id then
        let sectionNode :=
          mkSectionNode term_id (crn sectionData) course_id
            (section sectionData) course (subject_code sectionData)
            (course_number sectionData) (max_enroll sectionData)
            (start_time sectionData) (end_time sectionData) in
        let relationshipProps :=
          mkSectionCourseRelation (instruction_type sectionData)
            (instruction_method sectionData) in
        (r <- executeWriteQuery (MergeSection sectionNode relationshipProps) ;;
         match r with
         | Rejected error => log (SFailedSection (crn sectionData) course error)
         | Resolved _ => sret tt
         end ;;;
         match days sectionData with
         | Some l =>
             if (0 <? length l)%nat
             then sforEach l (scheduleDay (crn sectionData))
             else sret tt
         | None => sret tt
         end ;;;
         match instructors sectionData with
         | Some l =>
             sforEach l (linkInstructor instructorsMap (crn sectionData)
                           course_id course)
         | None => sret tt
         end)%script
      else sret tt
  end.

Definition processTerm (term : list RawCourseData * Z) : Run unit :=
  let '(sections, term_id) := term in
  (log (SProcessingTerm term_id (length sections)) ;;;
   maps <- sfold sections lookups (∅, ∅) ;;
   log (SProcessed (size maps.1) (size maps.2) term_id) ;;;
   log (SCreatingSections term_id) ;;;
   sforEach sections (createSection term_id maps.1 maps.2) ;;;
   log (SCompletedSections term_id))%script.

(** The four imported section files are parameters. *)
Definition termData
    (sections_202515 sections_202525 sections_202535 sections_202545
       : list RawCourseData) : list (list RawCourseData * Z) :=
  [(sections_202515, 202515%Z); (sections_202525, 202525%Z);
   (sections_202535, 202535%Z); (sections_202545, 202545%Z)].

(** The script from the creation of the day nodes on. *)
Definition ingest (terms : list (list RawCourseData * Z)) : Run unit :=
  (createDays ;;;
   createTerms ;;;
   readMaxInstructorId ;;;
   sforEach terms processTerm ;;;
   closeService ;;;
   log SProcessingComplete)%script.

(** The script before its first statement, for a service. *)
Definition startOf (svc : Service) : Script := mkScript svc [] [] 0 false.

(** ** Vocabulary of the properties of the script *)

(** [m], started in a state that satisfies [P], ends with a result and a
    state that satisfy [Q]. *)
Definition hoare {A} (P : Script -> Prop) (m : Run A)
    (Q : A -> Script -> Prop) : Prop :=
  forall s, P s -> Q (m s).1 (m s).2.

Definition preserves {A} (I : Script -> Prop) (m : Run A) : Prop :=
  hoare I m (fun _ => I).

(** A day string the script schedules: trimmed, it is one of the six. *)
Definition validDay (day : string) : bool :=
  bool_decide (trim day ∈ dayNodes).

(** The days the lines of the log call invalid. *)
Definition invalidDays (l : list Said) : list (Z * string) :=
  omap (fun line => match line with
                    | SInvalidDay crn day => Some (crn, day)
                    | _ => None
                    end) l.

(** A string of white space. *)
Definition blank (s : string) : bool := allOf isSpace s.

(** A [SCHEDULED_ON] statement names one of the six days. *)
Definition wellScheduled (q : Statement) : Prop :=
  match q with
  | ScheduledOn _ dayId => dayId ∈ dayNodes
  | _ => True
  end.

Definition allScheduled (s : Script) : Prop := Forall wellScheduled (sent s).

(** The identifiers of the instructors created: those of the [CREATE]
    statements of [qs] that the service did not reject, where [k] is the
    number of the first statement of [qs]. *)
Fixpoint createdIds (svc : Service) (k : nat) (qs : list Statement) : list Z :=
  match qs with
  | [] => []
  | q :: qs' =>
      match q, rejects svc k with
      | CreateInstructor id _, None => id :: createdIds svc (S k) qs'
      | _, _ => createdIds svc (S k) qs'
      end
  end.

(** [ids] is [m0 + 1], [m0 + 2], ... *)
Definition consecutiveFrom (m0 : Z) (ids : list Z) : Prop :=
  ids = (fun k => (m0 + 1 + Z.of_nat k)%Z) <$> seq 0 (length ids).

(** Counting [n] identifiers up from [m0] stays among the integers a
    JavaScript number holds exactly. *)
Definition countable (m0 : Z) (n : nat) : Prop :=
  (- 2 ^ 53 < m0 /\ m0 + Z.of_nat n < 2 ^ 53)%Z.

Definition allocated (m0 : Z) (s : Script) : Prop :=
  let ids := createdIds (service s) 0 (sent s) in
  countable m0 (length ids) ->
  consecutiveFrom m0 ids /\
  maxInstructorId s = (m0 + Z.of_nat (length ids))%Z.

(** The counter once the maximum was read: the statement that reads it is
    the eleventh of the script. *)
Definition baseId (svc : Service) : Z :=
  match rejects svc 10 with
  | Some _ => 0%Z
  | None => default 0%Z (maxIdAnswer svc 10)
  end.

Definition isCreate (q : Statement) : bool :=
  match q with
  | CreateInstructor _ _ => true
  | _ => false
  end.

Definition servedBy (svc : Service) (s : Script) : Prop := service s = svc.

(** Among the statements [qs], a lookup for a course with the key [key] was
    answered with the identifier [id], not empty. *)
Definition courseFound (svc : Service) (qs : list Statement)
    (key id : string) : Prop :=
  exists k subject_id course_number,
    qs !! k = Some (FindCourse subject_id course_number) /\
    courseKey subject_id course_number = key /\
    rejects svc k = None /\ courseAnswer svc k = Some id /\
    truthy id = true.

(** Every section sent so far carries an identifier found before it was
    sent, and so does every entry of [coursesMap]. *)
Definition sectionsFounded (s : Script) : Prop :=
  forall j sectionNode relationshipProps,
    sent s !! j = Some (MergeSection sectionNode relationshipProps) ->
    courseFound (service s) (take j (sent s))
      (sn_course sectionNode) (sn_course_id sectionNode).

Definition coursesFounded (coursesMap : gmap string string) (s : Script)
  : Prop :=
  sectionsFounded s /\
  forall key id, coursesMap !! key = Some id ->
                 courseFound (service s) (sent s) key id.

Definition isSection (q : Statement) : bool :=
  match q with
  | MergeSection _ _ => true
  | _ => false
  end.

(** A term of one section whose course the service knows. *)
Definition oneSection : RawCourseData :=
  mkRawCourseData "CS" "101" "Lecture" "Face To Face" "A" 12345 "10" "30"
    "Programming" (Some [" Monday "; "Funday"]) (Some "09:00") (Some "10:00")
    (Some [mkInstructor (Some " Ada ")]) "" "3".

Definition knowingService : Service :=
  mkService (fun _ => None) (fun _ => Some 7%Z)
    (fun _ => Some "cs-101") (fun _ => None).

(** Among the statements [qs], the instructor [instructorName] was found
    with the identifier [id], or created with it. *)
Definition instructorKnown (svc : Service) (qs : list Statement)
    (instructorName : string) (id : Z) : Prop :=
  exists k,
    rejects svc k = None /\
    ((qs !! k = Some (FindInstructor instructorName) /\
      instructorAnswer svc k = Some id) \/
     qs !! k = Some (CreateInstructor id instructorName)).

(** The instructor a statement links, if it links one. *)
Definition linked (q : Statement) : option Z :=
  match q with
  | Teaches instructor_id _ | Taught instructor_id _ => Some instructor_id
  | _ => None
  end.

(** Every link sent so far is to an instructor known before it was sent,
    under an identifier that is not zero; and every entry of
    [instructorsMap] is a known instructor. *)
Definition linksFounded (s : Script) : Prop :=
  forall j q id,
    sent s !! j = Some q -> linked q = Some id ->
    id <> 0%Z /\
    exists instructorName,
      instructorKnown (service s) (take j (sent s)) instructorName id.

Definition instructorsFounded (instructorsMap : gmap string Z) (s : Script)
  : Prop :=
  linksFounded s /\
  forall instructorName id,
    instructorsMap !! instructorName = Some id ->
    instructorKnown (service s) (sent s) instructorName id.

(** An observer that throws whatever it is called with. *)
Definition throwingObserver : option Observer :=
  Some (fun p => (Some connectionLost, p)).

(** ** Failures of a run *)

(** The statements whose failure a handler of the class catches: the
    [DROP]s of the clearing stage and the [CREATE]s of the schema stage. *)
Definition caught (q : TargetQuery) : bool :=
  match q with
  | TqDropConstraint _ | TqDropIndex _ | TqSchema _ => true
  | _ => false
  end.

Definition sourceStep (ev : Event) : nat :=
  match ev with
  | EvSource _ => 1
  | _ => 0
  end.

Definition targetStep (ev : Event) : nat :=
  match ev with
  | EvTarget _ => 1
  | _ => 0
  end.

Definition sourcesIn (t : list Event) : nat := sum_list_with sourceStep t.
Definition targetsIn (t : list Event) : nat := sum_list_with targetStep t.

Section Failures.
Variable sourceFail targetFail : nat -> option Error.
Variable progressCallback : option Observer.

(** The error an event ended with, when no handler of the class catches
    it: a statement against the source that failed, a statement against the
    target that failed and is not [caught], a call of the observer that
    threw.  [sr] and [tr] are the numbers of the statement at the engines. *)
Definition failureOf (sr tr : nat) (ev : Event) : option Error :=
  match ev with
  | EvSource _ => sourceFail sr
  | EvTarget q => if caught q then None else targetFail tr
  | EvObserver p =>
      match progressCallback with
      | Some observer => (observer p).1
      | None => None
      end
  | EvConsole _ _ => None
  end.

Fixpoint firstFailure (sr tr : nat) (t : list Event) : option Error :=
  match t with
  | [] => None
  | ev :: t' =>
      match failureOf sr tr ev with
      | Some e => Some e
      | None => firstFailure (sr + sourceStep ev) (tr + targetStep ev) t'
      end
  end.

End Failures.

(** The first uncaught failure among the events [t] written from [w] on. *)
Definition failureIn (progressCallback : option Observer) (w : World)
    (t : list Event) : option Error :=
  firstFailure (w_sourceFail w) (w_targetFail w) progressCallback
    (w_sourceRuns w) (w_targetRuns w) t.

(** From [w] to [w'] the events [t] were written and the engines counted
    their statements. *)
Definition extends (w w' : World) (t : list Event) : Prop :=
  w_trace w' = w_trace w ++ t /\
  w_sourceFail w' = w_sourceFail w /\
  w_targetFail w' = w_targetFail w /\
  w_sourceRuns w' = w_sourceRuns w + sourcesIn t /\
  w_targetRuns w' = w_targetRuns w + targetsIn t.

(** What a finaliser may do after a failure: nothing that is seen. *)
Definition silent (w w' : World) : Prop := extends w w' [].

(** Nothing failed uncaught from [w] to [w']; the last event written from
    [w] to [w'] failed uncaught with [e], and nothing before it. *)
Definition quiet (progressCallback : option Observer) (w w' : World) : Prop :=
  exists t, extends w w' t /\ failureIn progressCallback w t = None.

Definition failing (progressCallback : option Observer) (e : Error)
    (w w' : World) : Prop :=
  exists t ev,
    extends w w' (t ++ [ev]) /\
    failureIn progressCallback w t = None /\
    failureIn progressCallback w (t ++ [ev]) = Some e.

(** A method throws exactly when one of its events fails uncaught, it
    throws the error of that event, and it writes nothing after it. *)
Definition propagates (progressCallback : option Observer) {A} (m : M A)
  : Prop :=
  forall w, match (m w).1 with
            | Throw e => failing progressCallback e w (m w).2
            | _ => quiet progressCallback w (m w).2
            end.

(** The warnings a run wrote. *)
Definition warnings (t : list Event) : list Message :=
  omap (fun ev => match ev with
                  | EvConsole LWarn m => Some m
                  | _ => None
                  end) t.

(** The source fails at its third statement, the first of the schema
    stage. *)
Definition schemaDownWorld : World :=
  initialWorld (serve emptySource) emptyTarget (failAt 2 connectionLost)
    noFailure.

(** * Properties *)

(** ** Sorting and the canonical label key *)

Lemma sort_Permutation (l : list string) : sort l ≡ₚ l.
Proof. apply merge_sort_Permutation. Qed.

Lemma sort_Sorted (l : list string) : Sorted String.le (sort l).
Proof. apply (Sorted_merge_sort String.le). Qed.

(** Two arrays holding the same labels in any order sort to the same array. *)
Lemma sort_canonical (l1 l2 : list string) : l1 ≡ₚ l2 -> sort l1 = sort l2.
Proof.
  intros Hp. apply (Sorted_unique String.le); try apply sort_Sorted.
  now rewrite !sort_Permutation.
Qed.

Lemma sort_nil : sort [] = [].
Proof. reflexivity. Qed.

Lemma labelKey_canonical (n1 n2 : NodeData) :
  labels n1 ≡ₚ labels n2 -> labelKey n1 = labelKey n2.
Proof. intros Hp. unfold labelKey. now rewrite (sort_canonical _ _ Hp). Qed.

(** ** The insertion-ordered map *)

Section MapPush.
Context {A : Type}.
Implicit Types (m : list (string * list A)) (k : string) (v : A).

Lemma mapPush_keys k v m :
  (mapPush k v m).*1 = if decide (k ∈ m.*1) then m.*1 else m.*1 ++ [k].
Proof.
  induction m as [|[k' vs] m IH]; [done|].
  cbn [mapPush]. destruct (String.eqb_spec k' k) as [->|Hne];
    rewrite !fmap_cons; cbn [fst].
  - rewrite decide_True; [done | left].
  - rewrite IH. destruct (decide (k ∈ m.*1)) as [Hin|Hnin].
    + rewrite decide_True; [done | now right].
    + rewrite decide_False; [done|].
      intros Hin. apply elem_of_cons in Hin as [->|]; tauto.
Qed.

Lemma mapPush_NoDup k v m : NoDup m.*1 -> NoDup (mapPush k v m).*1.
Proof.
  intros Hnd. rewrite mapPush_keys. case_decide; [done|].
  apply NoDup_app; repeat split; auto.
  - intros x Hx Hx'. apply list_elem_of_singleton in Hx'. now subst.
  - apply NoDup_singleton.
Qed.

Lemma mapPush_new k v m : exists vs, (k, vs) ∈ mapPush k v m /\ v ∈ vs.
Proof.
  induction m as [|[k' vs] m IH]; simpl.
  - exists [v]. split; apply list_elem_of_singleton; done.
  - destruct (String.eqb_spec k' k) as [->|Hne].
    + exists (vs ++ [v]). split; [left|]. apply elem_of_app. right.
      now apply list_elem_of_singleton.
    + destruct IH as (vs' & Hin & Hv). exists vs'. split; [now right|done].
Qed.

Lemma mapPush_old k v m k0 vs0 :
  (k0, vs0) ∈ m ->
  exists vs, (k0, vs) ∈ mapPush k v m /\ forall x, x ∈ vs0 -> x ∈ vs.
Proof.
  induction m as [|[k' vs] m IH]; simpl; intros Hin.
  - now apply elem_of_nil in Hin.
  - apply elem_of_cons in Hin as [Heq|Hin].
    + inversion Heq; subst k' vs. destruct (String.eqb_spec k0 k).
      * exists (vs0 ++ [v]). split; [left|]. intros x Hx.
        apply elem_of_app. now left.
      * exists vs0. split; [left | done].
    + destruct (String.eqb_spec k' k).
      * exists vs0. split; [now right | done].
      * destruct (IH Hin) as (vs' & Hin' & Hsub). exists vs'.
        split; [now right | done].
Qed.

Lemma mapPush_values k v m :
  concat (mapPush k v m).*2 ≡ₚ concat m.*2 ++ [v].
Proof.
  induction m as [|[k' vs] m IH]; simpl; [done|].
  destruct (String.eqb k' k); simpl.
  - rewrite <- !(assoc_L (++)). apply Permutation_app_head.
    apply Permutation_app_comm.
  - rewrite IH. now rewrite (assoc_L (++)).
Qed.

Lemma groupBy_NoDup key prep l m :
  NoDup m.*1 -> NoDup (groupBy key prep l m).*1.
Proof.
  revert m. induction l as [|x l IH]; simpl; intros m Hnd; [done|].
  apply IH. now apply mapPush_NoDup.
Qed.

Lemma groupBy_old key prep l m k0 vs0 :
  (k0, vs0) ∈ m ->
  exists vs, (k0, vs) ∈ groupBy key prep l m /\ forall x, x ∈ vs0 -> x ∈ vs.
Proof.
  revert m vs0. induction l as [|x l IH]; simpl; intros m vs0 Hin.
  - exists vs0. done.
  - destruct (mapPush_old (key x) (prep x) m k0 vs0 Hin) as (vs1 & H1 & Hs1).
    destruct (IH _ _ H1) as (vs & H2 & Hs2). exists vs. split; auto.
Qed.

Lemma groupBy_elem key prep l m x :
  x ∈ l ->
  exists vs, (key x, vs) ∈ groupBy key prep l m /\ prep x ∈ vs.
Proof.
  revert m. induction l as [|y l IH]; simpl; intros m Hin.
  - now apply elem_of_nil in Hin.
  - apply elem_of_cons in Hin as [->|Hin]; [|now apply IH].
    destruct (mapPush_new (key y) (prep y) m) as (vs1 & H1 & Hv).
    destruct (groupBy_old key prep l _ _ _ H1) as (vs & H2 & Hs).
    exists vs. split; auto.
Qed.

Lemma groupBy_values key prep l m :
  concat (groupBy key prep l m).*2 ≡ₚ concat m.*2 ++ map prep l.
Proof.
  revert m. induction l as [|x l IH]; simpl; intros m.
  - now rewrite (right_id_L [] (++)).
  - rewrite IH, mapPush_values. now rewrite <- (assoc_L (++)).
Qed.

(** Two entries with the same key are the same entry. *)
Lemma NoDup_keys_unique m k vs1 vs2 :
  NoDup m.*1 -> (k, vs1) ∈ m -> (k, vs2) ∈ m -> vs1 = vs2.
Proof.
  intros Hnd H1 H2.
  apply (NoDup_fmap_1 fst) in Hnd as Hnd'.
  apply list_elem_of_lookup in H1 as [i Hi], H2 as [j Hj].
  assert (i = j).
  { apply (NoDup_lookup m.*1 i j k); [done|..];
      rewrite list_lookup_fmap; [by rewrite Hi | by rewrite Hj]. }
  subst j. congruence.
Qed.
End MapPush.

Lemma nodesByLabels_groupBy (nodesData : list NodeData) :
  nodesByLabels nodesData = groupBy labelKey sortLabels nodesData [].
Proof. reflexivity. Qed.

Lemma relsByType_groupBy (relsData : list RelationshipData) :
  relsByType relsData = groupBy relType id relsData [].
Proof. reflexivity. Qed.

(** ** Reasoning about methods *)

Lemma wp_mono {A} (m : M A) w (Q Q' : Outcome A -> World -> Prop) :
  wp m w Q -> (forall r w', Q r w' -> Q' r w') -> wp m w Q'.
Proof. unfold wp. auto. Qed.

Lemma wp_ret {A} (a : A) w Q : Q (Ok a) w -> wp (ret a) w Q.
Proof. done. Qed.

Lemma wp_bind {A B} (m : M A) (k : A -> M B) w Q :
  wp m w (fun r w1 =>
            match r with
            | Ok a => wp (k a) w1 Q
            | Throw e => Q (Throw e) w1
            | Diverge => Q Diverge w1
            end) ->
  wp (bind m k) w Q.
Proof. unfold wp, bind. now destruct (m w) as [[a|e|] w1]. Qed.

Lemma wp_tryCatch {A} (m : M A) (h : Error -> M A) w Q :
  wp m w (fun r w1 =>
            match r with
            | Throw e => wp (h e) w1 Q
            | _ => Q r w1
            end) ->
  wp (tryCatch m h) w Q.
Proof. unfold wp, tryCatch. now destruct (m w) as [[a|e|] w1]. Qed.

Lemma wp_tryFinally {A} (m : M A) (f : M unit) w Q :
  wp m w (fun r w1 =>
            match r with
            | Ok a => wp (f ;;; ret a) w1 Q
            | Throw e => wp (f ;;; throw e) w1 Q
            | Diverge => Q Diverge w1
            end) ->
  wp (tryFinally m f) w Q.
Proof. unfold wp, tryFinally. now destruct (m w) as [[a|e|] w1]. Qed.

Lemma wp_returns_bind {A B} (m : M A) (k : A -> M B) w P Q :
  wp m w (returns P) ->
  (forall a w1, P a w1 -> wp (k a) w1 (returns Q)) ->
  wp (bind m k) w (returns Q).
Proof.
  intros Hm Hk. apply wp_bind. apply (wp_mono _ _ _ _ Hm).
  intros [a|e|] w1; simpl; auto.
Qed.

Lemma wp_returns_eq {A} (m : M A) w P :
  wp m w (returns P) -> exists a w', m w = (Ok a, w') /\ P a w'.
Proof.
  unfold wp. destruct (m w) as [[a|e|] w1]; simpl; try tauto. eauto.
Qed.

(** *** Relations every step of a method keeps *)

Section Respects.
Context (R : relation World) `{!PreOrder R}.

Lemma respects_ret {A} (a : A) : respects R (ret a).
Proof. intros w. simpl. reflexivity. Qed.

Lemma respects_throw {A} e : respects R (@throw A e).
Proof. intros w. simpl. reflexivity. Qed.

Lemma respects_diverge {A} : respects R (@diverge A).
Proof. intros w. simpl. reflexivity. Qed.

Lemma respects_bind {A B} (m : M A) (k : A -> M B) :
  respects R m -> (forall a, respects R (k a)) -> respects R (bind m k).
Proof.
  intros Hm Hk w. specialize (Hm w). unfold bind.
  destruct (m w) as [[a|e|] w1]; simpl in *; auto.
  etrans; [exact Hm | apply Hk].
Qed.

Lemma respects_tryCatch {A} (m : M A) h :
  respects R m -> (forall e, respects R (h e)) -> respects R (tryCatch m h).
Proof.
  intros Hm Hh w. specialize (Hm w). unfold tryCatch.
  destruct (m w) as [[a|e|] w1]; simpl in *; auto.
  etrans; [exact Hm | apply Hh].
Qed.

Lemma respects_tryFinally {A} (m : M A) f :
  respects R m -> respects R f -> respects R (tryFinally m f).
Proof.
  intros Hm Hf w. specialize (Hm w). unfold tryFinally.
  destruct (m w) as [[a|e|] w1]; simpl in *; auto;
    (etrans; [exact Hm|]);
    [apply (respects_bind f (fun _ => ret a)) |
     apply (respects_bind f (fun _ => throw e))];
    auto using respects_ret, respects_throw.
Qed.

Lemma respects_forEach {A} (l : list A) body :
  (forall x, respects R (body x)) -> respects R (forEach l body).
Proof.
  intros Hb. induction l as [|x l IH]; simpl.
  - apply respects_ret.
  - apply respects_bind; auto.
Qed.

Lemma respects_when b m : respects R m -> respects R (when b m).
Proof. destruct b; simpl; auto using respects_ret. Qed.
End Respects.

#[export] Instance keeps_preorder {X} (f : World -> X) : PreOrder (keeps f).
Proof.
  split.
  - intros w. reflexivity.
  - intros w1 w2 w3 H12 H23. unfold keeps in *. congruence.
Qed.

Create HintDb resp discriminated.

Ltac respects_leaf :=
  let w := fresh "w" in
  intros w; unfold keeps; cbv beta delta
    [console openSession closeSession sourceRun targetRun notify setProgress
     setStage setProcessedNodes setProcessedRelationships];
  repeat case_match; reflexivity.

Ltac respects_step :=
  first
    [ solve [auto with resp]
    | lazymatch goal with
      | |- respects _ (bind _ _) =>
          apply respects_bind; [typeclasses eauto | | intros ?]
      | |- respects _ (tryCatch _ _) =>
          apply respects_tryCatch; [typeclasses eauto | | intros ?]
      | |- respects _ (tryFinally _ _) =>
          apply respects_tryFinally; [typeclasses eauto | | ]
      | |- respects _ (forEach _ _) =>
          apply respects_forEach; [typeclasses eauto | intros ?]
      | |- respects _ (when _ _) =>
          apply respects_when; [typeclasses eauto | ]
      | |- respects _ (ret _) => apply respects_ret; typeclasses eauto
      | |- respects _ (throw _) => apply respects_throw; typeclasses eauto
      | |- respects _ diverge => apply respects_diverge; typeclasses eauto
      | |- respects _ (if ?b then _ else _) => destruct b
      | |- respects _ (match ?o with _ => _ end) => destruct o
      | |- respects _ (console _ _) => respects_leaf
      | |- respects _ openSession => respects_leaf
      | |- respects _ closeSession => respects_leaf
      | |- respects _ (sourceRun _ _) => respects_leaf
      | |- respects _ (targetRun _ _) => respects_leaf
      | |- respects _ (notify _) => respects_leaf
      | |- respects _ (setProgress _) => respects_leaf
      | |- respects _ (setStage _) => respects_leaf
      | |- respects _ (setProcessedNodes _) => respects_leaf
      | |- respects _ (setProcessedRelationships _) => respects_leaf
      end ].

Ltac solve_respects := repeat respects_step.

Section Environment.
Variable batchSize : nat.
Variable progressCallback : option Observer.

Lemma env_getTotalCounts : respects (keeps envOf) getTotalCounts.
Proof. unfold getTotalCounts. solve_respects. Qed.

Lemma env_clearTargetDatabase : respects (keeps envOf) clearTargetDatabase.
Proof.
  unfold clearTargetDatabase, dropOneConstraint, dropOneIndex.
  solve_respects.
Qed.

Lemma env_copySchema : respects (keeps envOf) copySchema.
Proof. unfold copySchema, copyConstraint, copyIndex. solve_respects. Qed.

Lemma env_createNodesInTarget nodesData :
  respects (keeps envOf) (createNodesInTarget nodesData).
Proof.
  unfold createNodesInTarget, createNodeGroup. solve_respects.
Qed.

Lemma env_createRelationshipsInTarget relsData :
  respects (keeps envOf) (createRelationshipsInTarget relsData).
Proof.
  unfold createRelationshipsInTarget, createRelGroup. solve_respects.
Qed.

Hint Resolve env_getTotalCounts env_clearTargetDatabase env_copySchema
  env_createNodesInTarget env_createRelationshipsInTarget : resp.

Lemma env_copyNodesLoop fuel callback total processed :
  (forall p, respects (keeps envOf) (callback p)) ->
  respects (keeps envOf)
    (copyNodesLoop batchSize fuel callback total processed).
Proof.
  intros Hcb. revert processed.
  induction fuel as [|fuel IH]; intros processed; cbn [copyNodesLoop];
    solve_respects.
Qed.

Lemma env_copyRelationshipsLoop fuel callback total processed :
  (forall p, respects (keeps envOf) (callback p)) ->
  respects (keeps envOf)
    (copyRelationshipsLoop batchSize fuel callback total processed).
Proof.
  intros Hcb. revert processed.
  induction fuel as [|fuel IH]; intros processed;
    cbn [copyRelationshipsLoop]; solve_respects.
Qed.

Hint Resolve env_copyNodesLoop env_copyRelationshipsLoop : resp.

Lemma env_cleanupStage : respects (keeps envOf) cleanupStage.
Proof. unfold cleanupStage. solve_respects. Qed.

Hint Resolve env_cleanupStage : resp.

Lemma env_copyNodes fuel callback :
  (forall p, respects (keeps envOf) (callback p)) ->
  respects (keeps envOf) (copyNodes batchSize fuel callback).
Proof. intros Hcb. unfold copyNodes. solve_respects. Qed.

Lemma env_copyRelationships fuel callback :
  (forall p, respects (keeps envOf) (callback p)) ->
  respects (keeps envOf) (copyRelationships batchSize fuel callback).
Proof. intros Hcb. unfold copyRelationships. solve_respects. Qed.

Lemma env_replicateDatabase fuel :
  respects (keeps envOf) (replicateDatabase batchSize progressCallback fuel).
Proof.
  unfold replicateDatabase, replicateBody. solve_respects.
  - apply env_copyNodes. intros p. unfold reportNodes. solve_respects.
  - apply env_copyRelationships. intros p. unfold reportRelationships.
    solve_respects.
Qed.
End Environment.

(** ** Grouping of a batch of nodes by label set *)

Lemma mapPush_members {A} (P : string -> A -> Prop) k (v : A) m :
  P k v ->
  (forall k0 vs0 x, (k0, vs0) ∈ m -> x ∈ vs0 -> P k0 x) ->
  forall k0 vs0 x, (k0, vs0) ∈ mapPush k v m -> x ∈ vs0 -> P k0 x.
Proof.
  intros Hv. induction m as [|[k' vs] m IH]; intros Hm k0 vs0 x; cbn [mapPush].
  - intros Hin Hx. apply list_elem_of_singleton in Hin. inversion Hin; subst.
    apply list_elem_of_singleton in Hx. now subst.
  - destruct (String.eqb_spec k' k) as [->|Hne]; intros Hin Hx.
    + apply elem_of_cons in Hin as [Heq|Hin].
      * inversion Heq; subst. apply elem_of_app in Hx as [Hx|Hx].
        -- apply (Hm k vs x); [left | done].
        -- apply list_elem_of_singleton in Hx. now subst.
      * apply (Hm k0 vs0 x); [now right | done].
    + apply elem_of_cons in Hin as [Heq|Hin].
      * inversion Heq; subst. apply (Hm k' vs x); [left | done].
      * apply IH with (vs0 := vs0); auto.
        intros k1 vs1 y Hin1. apply Hm. now right.
Qed.

Lemma groupBy_members {A} (P : string -> A -> Prop) key prep (l : list A) m :
  (forall x, x ∈ l -> P (key x) (prep x)) ->
  (forall k0 vs0 x, (k0, vs0) ∈ m -> x ∈ vs0 -> P k0 x) ->
  forall k0 vs0 x, (k0, vs0) ∈ groupBy key prep l m -> x ∈ vs0 -> P k0 x.
Proof.
  revert m. induction l as [|y l IH]; simpl; intros m Hl Hm; [done|].
  apply IH.
  - intros x Hx. apply Hl. now right.
  - apply mapPush_members; [apply Hl; left | done].
Qed.

(** Every member of a group carries the key of the group. *)
Lemma nodesByLabels_members nodesData key group node :
  (key, group) ∈ nodesByLabels nodesData -> node ∈ group ->
  join "," (labels node) = key.
Proof.
  rewrite nodesByLabels_groupBy.
  apply (groupBy_members (fun k n => join "," (labels n) = k)).
  - reflexivity.
  - intros k0 vs0 x Hin. now apply elem_of_nil in Hin.
Qed.

Lemma nodesByLabels_NoDup nodesData : NoDup (nodesByLabels nodesData).*1.
Proof. rewrite nodesByLabels_groupBy. apply groupBy_NoDup. constructor. Qed.

(** C5: two nodes of a batch whose label sets are equal as sets, in whatever
    order the labels are stored, get the same canonical key (the comma-join
    of the sorted labels) and are placed in the same group; the keys of the
    map are distinct, and no group under another key holds either node, so
    the order of the labels never makes a second group. *)
Theorem label_order_never_splits_a_group
    (nodesData : list NodeData) (n1 n2 : NodeData) :
  n1 ∈ nodesData -> n2 ∈ nodesData ->
  NoDup (labels n1) -> NoDup (labels n2) ->
  (forall l, l ∈ labels n1 <-> l ∈ labels n2) ->
  labelKey n1 = join "," (sort (labels n1)) /\
  labelKey n2 = labelKey n1 /\
  NoDup (nodesByLabels nodesData).*1 /\
  (exists group,
      (labelKey n1, group) ∈ nodesByLabels nodesData /\
      sortLabels n1 ∈ group /\ sortLabels n2 ∈ group) /\
  (forall key group,
      (key, group) ∈ nodesByLabels nodesData ->
      sortLabels n1 ∈ group \/ sortLabels n2 ∈ group ->
      key = labelKey n1).
Proof.
  intros Hin1 Hin2 Hnd1 Hnd2 Hset.
  assert (Hkey : labelKey n2 = labelKey n1).
  { symmetry. apply labelKey_canonical. now apply NoDup_Permutation. }
  split; [reflexivity|]. split; [exact Hkey|].
  split; [apply nodesByLabels_NoDup|]. split.
  - destruct (groupBy_elem labelKey sortLabels nodesData [] n1 Hin1)
      as (g1 & Hg1 & Hm1).
    destruct (groupBy_elem labelKey sortLabels nodesData [] n2 Hin2)
      as (g2 & Hg2 & Hm2).
    rewrite Hkey in Hg2.
    assert (g2 = g1) as ->.
    { eapply NoDup_keys_unique; eauto. apply nodesByLabels_NoDup. }
    exists g1. rewrite nodesByLabels_groupBy. auto.
  - intros key group Hg [Hm|Hm];
      apply (nodesByLabels_members _ _ _ _ Hg) in Hm; simpl in Hm;
      subst key; [reflexivity | exact Hkey].
Qed.

Lemma label_order_never_splits_a_group_witness :
  let n1 := mkNodeData 1 ["A"; "B"] ∅ in
  let n2 := mkNodeData 2 ["B"; "A"] ∅ in
  labelKey n1 = "A,B" /\
  (exists group,
      (labelKey n1, group) ∈ nodesByLabels [n1; n2] /\
      sortLabels n1 ∈ group /\ sortLabels n2 ∈ group).
Proof.
  intros n1 n2.
  destruct (label_order_never_splits_a_group [n1; n2] n1 n2)
    as (Hk & _ & _ & Hg & _).
  - left.
  - right. left.
  - apply (bool_decide_unpack _). vm_compute. exact I.
  - apply (bool_decide_unpack _). vm_compute. exact I.
  - intros l. subst n1 n2. simpl. rewrite !elem_of_cons, !elem_of_nil. tauto.
  - split; [exact Hk | exact Hg].
Defined.

(** ** Sessions and drivers *)

Lemma balanced_ret {A} (a : A) : balanced (ret a).
Proof. now intros w. Qed.

Lemma balanced_throw {A} e : balanced (@throw A e).
Proof. now intros w. Qed.

Lemma balanced_diverge {A} : balanced (@diverge A).
Proof. now intros w. Qed.

Lemma balanced_bind {A B} (m : M A) (k : A -> M B) :
  balanced m -> (forall a, balanced (k a)) -> balanced (bind m k).
Proof.
  intros Hm Hk w. specialize (Hm w). unfold bind.
  destruct (m w) as [[a|e|] w1]; simpl in *; intros Hr.
  - rewrite (Hk a w1 Hr). now apply Hm.
  - now apply Hm.
  - done.
Qed.

Lemma balanced_tryCatch {A} (m : M A) h :
  balanced m -> (forall e, balanced (h e)) -> balanced (tryCatch m h).
Proof.
  intros Hm Hh w. specialize (Hm w). unfold tryCatch.
  destruct (m w) as [[a|e|] w1]; simpl in *; intros Hr.
  - now apply Hm.
  - rewrite (Hh e w1 Hr). now apply Hm.
  - done.
Qed.

Lemma balanced_forEach {A} (l : list A) body :
  (forall x, balanced (body x)) -> balanced (forEach l body).
Proof.
  intros Hb. induction l as [|x l IH]; simpl.
  - apply balanced_ret.
  - apply balanced_bind; auto.
Qed.

Lemma balanced_when b m : balanced m -> balanced (when b m).
Proof. destruct b; simpl; auto using balanced_ret. Qed.

(** [const s = driver.session(); try { m } finally { await s.close() }] *)
Lemma balanced_session {A} (m : M A) :
  balanced m -> balanced (openSession ;;; tryFinally m closeSession).
Proof.
  intros Hm w. unfold bind, tryFinally, openSession, closeSession. simpl.
  specialize (Hm (set_sessions (S (w_sessions w)) w)).
  destruct (m _) as [[a|e|] w1]; simpl in *; intros Hr; try done;
    rewrite Hm; done.
Qed.

Lemma balanced_two_sessions {A} (m : M A) :
  balanced m ->
  balanced (openSession ;;; openSession ;;;
            tryFinally m (closeSession ;;; closeSession)).
Proof.
  intros Hm w. unfold bind, tryFinally, openSession, closeSession. simpl.
  specialize (Hm (set_sessions (S (S (w_sessions w)))
                    (set_sessions (S (w_sessions w)) w))).
  destruct (m _) as [[a|e|] w1]; simpl in *; intros Hr; try done;
    rewrite Hm; done.
Qed.

Ltac balanced_leaf :=
  let w := fresh "w" in
  intros w; cbv beta delta
    [console sourceRun targetRun notify setProgress
     setStage setProcessedNodes setProcessedRelationships];
  repeat case_match; reflexivity.

Create HintDb bal discriminated.

Ltac balanced_step :=
  first
    [ solve [auto with bal]
    | lazymatch goal with
      | |- balanced (openSession ;;; openSession ;;; tryFinally _ _) =>
          apply balanced_two_sessions
      | |- balanced (openSession ;;; tryFinally _ _) => apply balanced_session
      | |- balanced (bind _ _) => apply balanced_bind; [ | intros ?]
      | |- balanced (tryCatch _ _) => apply balanced_tryCatch; [ | intros ?]
      | |- balanced (forEach _ _) => apply balanced_forEach; intros ?
      | |- balanced (when _ _) => apply balanced_when
      | |- balanced (ret _) => apply balanced_ret
      | |- balanced (throw _) => apply balanced_throw
      | |- balanced diverge => apply balanced_diverge
      | |- balanced (if ?b then _ else _) => destruct b
      | |- balanced (match ?o with _ => _ end) => destruct o
      | |- balanced (console _ _) => balanced_leaf
      | |- balanced (sourceRun _ _) => balanced_leaf
      | |- balanced (targetRun _ _) => balanced_leaf
      | |- balanced (notify _) => balanced_leaf
      | |- balanced (setProgress _) => balanced_leaf
      | |- balanced (setStage _) => balanced_leaf
      | |- balanced (setProcessedNodes _) => balanced_leaf
      | |- balanced (setProcessedRelationships _) => balanced_leaf
      end ].

Ltac solve_balanced := repeat balanced_step.

Section Sessions.
Variable batchSize : nat.
Variable progressCallback : option Observer.

Lemma balanced_getTotalCounts : balanced getTotalCounts.
Proof. unfold getTotalCounts. solve_balanced. Qed.

Lemma balanced_clearTargetDatabase : balanced clearTargetDatabase.
Proof.
  unfold clearTargetDatabase, dropOneConstraint, dropOneIndex.
  solve_balanced.
Qed.

Lemma balanced_copySchema : balanced copySchema.
Proof. unfold copySchema, copyConstraint, copyIndex. solve_balanced. Qed.

Lemma balanced_createNodesInTarget nodesData :
  balanced (createNodesInTarget nodesData).
Proof. unfold createNodesInTarget, createNodeGroup. solve_balanced. Qed.

Lemma balanced_createRelationshipsInTarget relsData :
  balanced (createRelationshipsInTarget relsData).
Proof. unfold createRelationshipsInTarget, createRelGroup. solve_balanced. Qed.

Hint Resolve balanced_getTotalCounts balanced_clearTargetDatabase
  balanced_copySchema balanced_createNodesInTarget
  balanced_createRelationshipsInTarget : bal.

Lemma balanced_copyNodesLoop fuel callback total processed :
  (forall p, balanced (callback p)) ->
  balanced (copyNodesLoop batchSize fuel callback total processed).
Proof.
  intros Hcb. revert processed.
  induction fuel as [|fuel IH]; intros processed; cbn [copyNodesLoop];
    solve_balanced.
Qed.

Lemma balanced_copyRelationshipsLoop fuel callback total processed :
  (forall p, balanced (callback p)) ->
  balanced (copyRelationshipsLoop batchSize fuel callback total processed).
Proof.
  intros Hcb. revert processed.
  induction fuel as [|fuel IH]; intros processed;
    cbn [copyRelationshipsLoop]; solve_balanced.
Qed.

Lemma balanced_copyNodes fuel callback :
  (forall p, balanced (callback p)) ->
  balanced (copyNodes batchSize fuel callback).
Proof.
  intros Hcb. unfold copyNodes. solve_balanced.
  now apply balanced_copyNodesLoop.
Qed.

Lemma balanced_copyRelationships fuel callback :
  (forall p, balanced (callback p)) ->
  balanced (copyRelationships batchSize fuel callback).
Proof.
  intros Hcb. unfold copyRelationships. solve_balanced.
  now apply balanced_copyRelationshipsLoop.
Qed.

Lemma balanced_cleanupStage : balanced cleanupStage.
Proof. unfold cleanupStage. solve_balanced. Qed.

Hint Resolve balanced_cleanupStage : bal.

Lemma balanced_replicateDatabase fuel :
  balanced (replicateDatabase batchSize progressCallback fuel).
Proof.
  unfold replicateDatabase, replicateBody. solve_balanced.
  - apply balanced_copyNodes. intros p. unfold reportNodes. solve_balanced.
  - apply balanced_copyRelationships. intros p. unfold reportRelationships.
    solve_balanced.
Qed.

End Sessions.

(** ** Failure of a run *)

Lemma replicateDatabase_throws batchSize progressCallback fuel w e w' :
  replicateDatabase batchSize progressCallback fuel w = (Throw e, w') <->
  exists w1, replicateBody batchSize progressCallback fuel w = (Throw e, w1) /\
             w' = emit (EvConsole LError (MFailed e)) w1.
Proof.
  unfold replicateDatabase, tryCatch.
  destruct (replicateBody _ _ _ w) as [[[]|e1|] w1]; simpl; split.
  - discriminate.
  - intros (w2 & Heq & _). discriminate.
  - unfold bind, console, throw. simpl. intros Heq. inversion Heq; subst.
    eauto.
  - intros (w2 & Heq & ->). inversion Heq; subst. reflexivity.
  - discriminate.
  - intros (w2 & Heq & _). discriminate.
Qed.

(** C7 as stated fails, in two ways.  A failure of a kind the error
    taxonomy does not name can be caught below the top level: here the
    [DROP CONSTRAINT] of the clearing stage fails, the failure is logged as
    a warning and the run returns.  And after a failure that does reach the
    caller both drivers are still open. *)
Lemma drops_are_swallowed_and_drivers_stay_open :
  (let run := replicateDatabase 2 None 5 stubbornWorld in
   w_targetFail stubbornWorld 2 = Some connectionLost /\
   warnings (w_trace run.2)
   = [MDropConstraintFailed "old_constraint" connectionLost] /\
   run.1 = Ok tt) /\
  ~ (forall e w',
        replicateDatabase 1000 None 10 targetDownWorld = (Throw e, w') ->
        w_sourceDriverOpen w' = false /\ w_targetDriverOpen w' = false).
Proof.
  split.
  - vm_compute. repeat split; reflexivity.
  - intros H.
    destruct (H connectionLost
                (replicateDatabase 1000 None 10 targetDownWorld).2)
      as [Hs _].
    + vm_compute. reflexivity.
    + vm_compute in Hs. discriminate.
Qed.

(** ** The schema stage *)

Lemma attempted_app t1 t2 : attempted (t1 ++ t2) = attempted t1 ++ attempted t2.
Proof. apply omap_app. Qed.

Lemma copyConstraint_completes c w :
  copyConstraint c w = (Ok tt, afterConstraint c w).
Proof.
  unfold copyConstraint, afterConstraint, tryCatch, bind, targetRun, console,
    constraintExists.
  destruct (truthy (constraintStatement c)); [|reflexivity].
  destruct (w_targetFail w (w_targetRuns w)) as [e|]; simpl; [|reflexivity].
  now destruct (_ || _).
Qed.

Lemma copyIndex_completes i w : copyIndex i w = (Ok tt, afterIndex i w).
Proof.
  unfold copyIndex, afterIndex, tryCatch, bind, targetRun, console,
    indexExists.
  destruct (truthy (indexStatement i)); [|reflexivity].
  destruct (w_targetFail w (w_targetRuns w)) as [e|]; simpl; [|reflexivity].
  now destruct (_ || _).
Qed.

Lemma afterConstraint_spec c w :
  schemaFrame (afterConstraint c w) = schemaFrame w /\
  exists t, w_trace (afterConstraint c w) = w_trace w ++ t /\
            attempted t = List.filter truthy [constraintStatement c].
Proof.
  unfold afterConstraint. cbn [List.filter].
  destruct (truthy (constraintStatement c)) eqn:Ht.
  - destruct (w_targetFail w (w_targetRuns w)) as [e|];
      [destruct (constraintExists e)|]; (split; [reflexivity|]);
      eexists [_; _]; simpl; rewrite <- (assoc_L (++)); split; reflexivity.
  - split; [reflexivity|]. eexists [_]; split; reflexivity.
Qed.

Lemma afterIndex_spec i w :
  schemaFrame (afterIndex i w) = schemaFrame w /\
  exists t, w_trace (afterIndex i w) = w_trace w ++ t /\
            attempted t = List.filter truthy [indexStatement i].
Proof.
  unfold afterIndex. cbn [List.filter].
  destruct (truthy (indexStatement i)) eqn:Ht.
  - destruct (w_targetFail w (w_targetRuns w)) as [e|];
      [destruct (indexExists e)|]; (split; [reflexivity|]);
      eexists [_; _]; simpl; rewrite <- (assoc_L (++)); split; reflexivity.
  - split; [reflexivity|]. eexists [_]; split; reflexivity.
Qed.

(** A loop whose body always returns runs every item. *)
Lemma forEach_completes {A} (l : list A) body (after : A -> World -> World) w :
  (forall x w0, body x w0 = (Ok tt, after x w0)) ->
  forEach l body w = (Ok tt, foldl (fun w0 x => after x w0) w l).
Proof.
  intros Hb. revert w. induction l as [|x l IH]; intros w; simpl; [done|].
  unfold bind. rewrite Hb. apply IH.
Qed.

Lemma schema_items_spec {A} (stmtOf : A -> string) after (l : list A) w :
  (forall x w0,
      schemaFrame (after x w0) = schemaFrame w0 /\
      exists t, w_trace (after x w0) = w_trace w0 ++ t /\
                attempted t = List.filter truthy [stmtOf x]) ->
  let w' := foldl (fun w0 x => after x w0) w l in
  schemaFrame w' = schemaFrame w /\
  exists t, w_trace w' = w_trace w ++ t /\
            attempted t = List.filter truthy (map stmtOf l).
Proof.
  intros Hafter. revert w. induction l as [|x l IH]; intros w; simpl.
  - split; [reflexivity|]. exists []. now rewrite (right_id_L [] (++)).
  - destruct (Hafter x w) as (Hf1 & t1 & Ht1 & Ha1).
    destruct (IH (after x w)) as (Hf2 & t2 & Ht2 & Ha2).
    split; [congruence|]. exists (t1 ++ t2). split.
    + rewrite Ht2, Ht1. now rewrite (assoc_L (++)).
    + rewrite attempted_app, Ha1, Ha2. simpl.
      now destruct (truthy (stmtOf x)).
Qed.

Lemma copySchema_completes w :
  w_sourceFail w (w_sourceRuns w) = None ->
  w_sourceFail w (S (w_sourceRuns w)) = None ->
  exists w' t,
    copySchema w = (Ok tt, w') /\
    w_sessions w' = w_sessions w /\
    t_nodes (w_target w') = t_nodes (w_target w) /\
    t_rels (w_target w') = t_rels (w_target w) /\
    w_sourceRuns w' = S (S (w_sourceRuns w)) /\
    w_trace w' = w_trace w ++ t /\
    attempted t =
      List.filter truthy
        (map constraintStatement (src_constraints (w_source w)) ++
         map indexStatement (src_indexes (w_source w))).
Proof.
  intros Hc Hi. unfold copySchema.
  unfold bind at 1. unfold console at 1. cbn iota.
  unfold bind at 1. unfold openSession at 1. cbn iota.
  unfold bind at 1. unfold openSession at 1. cbn iota.
  set (w1 := set_sessions _ (set_sessions _ (emit _ w))).
  unfold tryFinally, bind at 1, sourceRun at 1.
  change (w_sourceFail w1 (w_sourceRuns w1)) with
    (w_sourceFail w (w_sourceRuns w)). rewrite Hc.
  set (w2 := tick_source _).
  unfold bind at 1.
  rewrite (forEach_completes _ _ afterConstraint) by apply copyConstraint_completes.
  destruct (schema_items_spec constraintStatement afterConstraint
              (src_constraints (w_source w1)) w2 afterConstraint_spec)
    as (Hf3 & t3 & Ht3 & Ha3).
  set (w3 := foldl _ w2 _) in *.
  unfold bind at 1, sourceRun at 1.
  unfold schemaFrame in Hf3. injection Hf3 as Hs Hsf Hsr Hse Hn Hr.
  assert (Hfail3 : w_sourceFail w3 (w_sourceRuns w3) = None).
  { rewrite Hsf, Hsr. exact Hi. }
  rewrite Hfail3.
  set (w4 := tick_source _).
  rewrite (forEach_completes _ _ afterIndex) by apply copyIndex_completes.
  destruct (schema_items_spec indexStatement afterIndex
              (src_indexes (w_source w3)) w4 afterIndex_spec)
    as (Hf5 & t5 & Ht5 & Ha5).
  set (w5 := foldl _ w4 _) in *.
  unfold schemaFrame in Hf5.
  injection Hf5 as Hs5 Hsf5 Hsr5 Hse5 Hn5 Hr5.
  eexists _, ([EvConsole LLog MCopyingSchema; EvSource SqShowConstraints]
              ++ t3 ++ [EvSource SqShowIndexes] ++ t5).
  split; [reflexivity|]. cbn [bind closeSession ret fst snd].
  split; [|split; [|split; [|split; [|split]]]].
  - simpl. rewrite Hse5. simpl. rewrite Hse. reflexivity.
  - simpl. rewrite Hn5. simpl. rewrite Hn. reflexivity.
  - simpl. rewrite Hr5. simpl. rewrite Hr. reflexivity.
  - simpl. rewrite Hsr5. simpl. rewrite Hsr. reflexivity.
  - simpl. rewrite Ht5. simpl. rewrite Ht3. simpl.
    rewrite <- !(assoc_L (++)). reflexivity.
  - rewrite !attempted_app, Ha3, Ha5. simpl.
    rewrite List.filter_app. now rewrite Hs.
Qed.

(** C3: in the schema stage a failure of the target on one item never leaves
    the item's [try]: an "already exists" error is logged and a different
    error is logged as a warning, in both cases nothing is recorded for that
    item only, and the loop goes on.  Whatever the target answers, and however
    many items fail, [copySchema] returns (given that the source answers its
    two [SHOW] statements), closes its sessions, and has sent the creation
    statement of every constraint and index that has one, in order. *)
Theorem schema_stage_always_completes w :
  w_sourceFail w (w_sourceRuns w) = None ->
  w_sourceFail w (S (w_sourceRuns w)) = None ->
  (forall c w0, copyConstraint c w0 = (Ok tt, afterConstraint c w0)) /\
  (forall i w0, copyIndex i w0 = (Ok tt, afterIndex i w0)) /\
  (forall c w0 e,
      truthy (constraintStatement c) = true ->
      w_targetFail w0 (w_targetRuns w0) = Some e ->
      w_target (afterConstraint c w0) = w_target w0 /\
      w_trace (afterConstraint c w0) =
        w_trace w0 ++
        [EvTarget (TqSchema (constraintStatement c));
         if constraintExists e
         then EvConsole LLog (MConstraintExists (c_name c))
         else EvConsole LWarn (MConstraintFailed (c_name c) (err_message e))]) /\
  (forall i w0 e,
      truthy (indexStatement i) = true ->
      w_targetFail w0 (w_targetRuns w0) = Some e ->
      w_target (afterIndex i w0) = w_target w0 /\
      w_trace (afterIndex i w0) =
        w_trace w0 ++
        [EvTarget (TqSchema (indexStatement i));
         if indexExists e
         then EvConsole LLog (MIndexExists (i_name i))
         else EvConsole LWarn (MIndexFailed (i_name i) (err_message e))]) /\
  exists w' t,
    copySchema w = (Ok tt, w') /\
    w_sessions w' = w_sessions w /\
    w_trace w' = w_trace w ++ t /\
    attempted t =
      List.filter truthy
        (map constraintStatement (src_constraints (w_source w)) ++
         map indexStatement (src_indexes (w_source w))).
Proof.
  intros Hc Hi.
  split; [apply copyConstraint_completes|].
  split; [apply copyIndex_completes|].
  split; [|split].
  - intros c w0 e Ht He. unfold afterConstraint. rewrite Ht, He.
    destruct (constraintExists e); simpl; rewrite <- (assoc_L (++));
      split; reflexivity.
  - intros i w0 e Ht He. unfold afterIndex. rewrite Ht, He.
    destruct (indexExists e); simpl; rewrite <- (assoc_L (++));
      split; reflexivity.
  - destruct (copySchema_completes w Hc Hi)
      as (w' & t & Hrun & Hs & _ & _ & _ & Ht & Ha).
    exists w', t. auto.
Qed.

Lemma schema_stage_always_completes_witness :
  exists w' t,
    copySchema schemaTroubleWorld = (Ok tt, w') /\
    w_sessions w' = 0 /\
    w_trace w' = t /\
    attempted t =
      ["CREATE CONSTRAINT person_id FOR (n:Person) REQUIRE (n.id) IS UNIQUE";
       "CREATE CONSTRAINT person_key FOR (n:Person) REQUIRE (n.name, n.born) IS NODE KEY";
       "CREATE INDEX person_name FOR (n:Person) ON (n.name)"].
Proof.
  destruct (schema_stage_always_completes schemaTroubleWorld)
    as (_ & _ & _ & _ & w' & t & Hrun & Hs & Ht & Ha).
  - reflexivity.
  - reflexivity.
  - exists w', t. split; [exact Hrun|]. split; [exact Hs|].
    split; [exact Ht | exact Ha].
Defined.

(** ** Indexes of the source *)

(** C6 as stated fails: an index of type RANGE is skipped as unsupported, and
    so is a BTREE index that names no label; nothing is sent to the target
    for either. *)
Lemma range_index_is_skipped :
  ~ (forall i w, i_type i = "RANGE" ->
        exists stmt, EvTarget (TqSchema stmt) ∈ w_trace (copyIndex i w).2) /\
  ~ (forall i w, i_type i = "BTREE" ->
        exists stmt, EvTarget (TqSchema stmt) ∈ w_trace (copyIndex i w).2) /\
  w_trace (copyIndex personAgeRangeIndex targetDownWorld).2 =
    [EvConsole LWarn (MSkippedIndex "RANGE" "person_age")].
Proof.
  split; [|split].
  - intros H.
    destruct (H personAgeRangeIndex targetDownWorld eq_refl) as [stmt Hin].
    vm_compute in Hin. apply list_elem_of_singleton in Hin. discriminate.
  - intros H.
    destruct (H unlabeledBtreeIndex targetDownWorld eq_refl) as [stmt Hin].
    vm_compute in Hin. apply list_elem_of_singleton in Hin. discriminate.
  - reflexivity.
Qed.

(** C6, amended: for every source index whose type is BTREE and whose first
    label is a non-empty string, a plain property index statement over that
    label and the listed properties is generated and sent to the target, and
    recorded there when the target accepts it.  An index whose type is none
    of BTREE, TEXT and FULLTEXT (RANGE among them) is skipped with a warning
    and nothing is sent. *)
Theorem btree_index_is_created i w label rest :
  i_type i = "BTREE" ->
  i_labelsOrTypes i = label :: rest ->
  label <> "" ->
  let stmt := plainIndexStatement (i_name i) label (i_properties i) in
  indexStatement i = stmt /\
  (copyIndex i w).1 = Ok tt /\
  (exists ev,
      w_trace (copyIndex i w).2 = w_trace w ++ [EvTarget (TqSchema stmt); ev]) /\
  (w_targetFail w (w_targetRuns w) = None ->
   t_schema (w_target (copyIndex i w).2) = t_schema (w_target w) ++ [stmt]) /\
  (forall j w0,
      i_type j <> "BTREE" -> i_type j <> "TEXT" -> i_type j <> "FULLTEXT" ->
      copyIndex j w0 =
        (Ok tt, emit (EvConsole LWarn (MSkippedIndex (i_type j) (i_name j))) w0)).
Proof.
  intros Hty Hl Hne stmt.
  assert (Hstmt : indexStatement i = stmt).
  { unfold indexStatement. rewrite Hty, Hl. simpl.
    destruct label; [done | reflexivity]. }
  assert (Htruthy : truthy (indexStatement i) = true).
  { rewrite Hstmt. reflexivity. }
  split; [exact Hstmt|].
  rewrite copyIndex_completes. unfold afterIndex. rewrite Htruthy, Hstmt.
  split; [reflexivity|]. split; [|split].
  - destruct (w_targetFail w (w_targetRuns w)) as [e|];
      [destruct (indexExists e)|]; eexists; simpl;
      rewrite <- (assoc_L (++)); reflexivity.
  - intros ->. reflexivity.
  - intros j w0 H1 H2 H3. rewrite copyIndex_completes.
    unfold afterIndex, indexStatement.
    apply String.eqb_neq in H1, H2, H3. rewrite H1, H2, H3. reflexivity.
Qed.

Lemma btree_index_is_created_witness :
  indexStatement personNameIndex =
    "CREATE INDEX person_name FOR (n:Person) ON (n.name)" /\
  (copyIndex personNameIndex targetDownWorld).1 = Ok tt.
Proof.
  destruct (btree_index_is_created personNameIndex targetDownWorld
              "Person" [] eq_refl eq_refl)
    as (Hs & Hr & _).
  - discriminate.
  - split; [exact Hs | exact Hr].
Defined.

(** ** The paging loops *)

Lemma bind_assoc_run {A B C} (m : M A) (k : A -> M B) (h : B -> M C) w :
  bind (bind m k) h w = bind m (fun a => bind (k a) h) w.
Proof. unfold bind. now destruct (m w) as [[a|e|] w1]. Qed.

Lemma bind_ext_run {A B} (m : M A) (k k' : A -> M B) w :
  (forall a w1, k a w1 = k' a w1) -> bind m k w = bind m k' w.
Proof. intros H. unfold bind. now destruct (m w) as [[a|e|] w1]. Qed.

Lemma copyNodesLoop_while batchSize fuel callback total processed w :
  copyNodesLoop batchSize fuel callback total processed w =
  whileLt (nodesTurn batchSize callback total) fuel total processed w.
Proof.
  revert processed w. induction fuel as [|fuel IH]; intros processed w;
    cbn [copyNodesLoop whileLt]; destruct (processed <? total)%nat; try done.
  unfold nodesTurn. rewrite !bind_assoc_run. apply bind_ext_run.
  intros nodesData w1. rewrite !bind_assoc_run. apply bind_ext_run.
  intros _ w2. cbv zeta. rewrite !bind_assoc_run. apply bind_ext_run.
  intros _ w3. rewrite !bind_assoc_run. apply bind_ext_run.
  intros _ w4. unfold bind at 2. unfold ret. apply IH.
Qed.

Lemma copyRelationshipsLoop_while batchSize fuel callback total processed w :
  copyRelationshipsLoop batchSize fuel callback total processed w =
  whileLt (relsTurn batchSize callback total) fuel total processed w.
Proof.
  revert processed w. induction fuel as [|fuel IH]; intros processed w;
    cbn [copyRelationshipsLoop whileLt]; destruct (processed <? total)%nat;
    try done.
  unfold relsTurn. rewrite !bind_assoc_run. apply bind_ext_run.
  intros relsData w1. rewrite !bind_assoc_run. apply bind_ext_run.
  intros _ w2. cbv zeta. rewrite !bind_assoc_run. apply bind_ext_run.
  intros _ w3. rewrite !bind_assoc_run. apply bind_ext_run.
  intros _ w4. unfold bind at 2. unfold ret. apply IH.
Qed.

(** A loop whose turns all return and each move [processed] forward while
    keeping [Inv] returns once it has fuel for the records that are left. *)
Lemma whileLt_returns (Inv : nat -> World -> Prop) body total :
  (forall p w, p < total -> Inv p w ->
     wp (body p) w (returns (fun p' w' => p < p' /\ Inv p' w'))) ->
  forall fuel processed w,
    total - processed <= fuel -> Inv processed w ->
    wp (whileLt body fuel total processed) w
       (returns (fun _ w' => exists p', total <= p' /\ Inv p' w')).
Proof.
  intros Hbody. induction fuel as [|fuel IH]; intros processed w Hfuel Hinv;
    cbn [whileLt]; destruct (Nat.ltb_spec processed total) as [Hlt|Hge].
  - lia.
  - apply wp_ret. simpl. eauto.
  - eapply wp_returns_bind; [apply (Hbody _ _ Hlt Hinv)|].
    intros p' w1 [Hp Hinv1]. apply IH; [lia | done].
  - apply wp_ret. simpl. eauto.
Qed.

(** A turn that cannot move [processed] forward, in a state [P] that the
    turn keeps, is repeated for ever: the loop never returns. *)
Lemma whileLt_stuck (P : World -> Prop) body total processed :
  processed < total ->
  (forall w p' w', P w -> body processed w = (Ok p', w') ->
                   p' = processed /\ P w') ->
  forall fuel w, P w -> (whileLt body fuel total processed w).1 <> Ok tt.
Proof.
  intros Hlt Hbody. induction fuel as [|fuel IH]; intros w HP;
    cbn [whileLt]; destruct (Nat.ltb_spec processed total); try lia.
  - done.
  - unfold bind. destruct (body processed w) as [[p'|e|] w'] eqn:Hrun;
      try done.
    destruct (Hbody _ _ _ HP Hrun) as [-> HP']. now apply IH.
Qed.

Lemma env_sourceUp w w' : envOf w' = envOf w -> sourceUp w -> sourceUp w'.
Proof. unfold envOf, sourceUp. intros Heq H k. injection Heq as. congruence. Qed.

Lemma env_targetUp w w' : envOf w' = envOf w -> targetUp w -> targetUp w'.
Proof. unfold envOf, targetUp. intros Heq H k. injection Heq as. congruence. Qed.

Lemma env_source w w' : envOf w' = envOf w -> w_source w' = w_source w.
Proof. unfold envOf. intros Heq. injection Heq as. congruence. Qed.

Lemma env_reportNodes cb p : respects (keeps envOf) (reportNodes cb p).
Proof. unfold reportNodes. solve_respects. Qed.

Lemma env_reportRelationships cb p :
  respects (keeps envOf) (reportRelationships cb p).
Proof. unfold reportRelationships. solve_respects. Qed.

Lemma env_nodesTurn b callback total p :
  (forall q, respects (keeps envOf) (callback q)) ->
  respects (keeps envOf) (nodesTurn b callback total p).
Proof.
  intros Hcb. unfold nodesTurn. pose proof env_createNodesInTarget.
  solve_respects.
Qed.

Lemma env_relsTurn b callback total p :
  (forall q, respects (keeps envOf) (callback q)) ->
  respects (keeps envOf) (relsTurn b callback total p).
Proof.
  intros Hcb. unfold relsTurn. pose proof env_createRelationshipsInTarget.
  solve_respects.
Qed.

(** A turn that returns has moved [processed] by the size of the page. *)
Lemma nodesTurn_result b callback total p w p' w' :
  nodesTurn b callback total p w = (Ok p', w') ->
  p' = p + length (src_pageNodes (w_source w) p b).
Proof.
  unfold nodesTurn, bind, sourceRun.
  destruct (w_sourceFail w (w_sourceRuns w)); [discriminate|].
  destruct (when _ _ _) as [[[]|e|] w1]; try discriminate.
  destruct (callback _ _) as [[[]|e|] w2]; try discriminate.
  simpl. intros Heq. inversion Heq. now rewrite length_map.
Qed.

Lemma relsTurn_result b callback total p w p' w' :
  relsTurn b callback total p w = (Ok p', w') ->
  p' = p + length (src_pageRels (w_source w) p (relBatchSize b)).
Proof.
  unfold relsTurn, bind, sourceRun.
  destruct (w_sourceFail w (w_sourceRuns w)); [discriminate|].
  destruct (when _ _ _) as [[[]|e|] w1]; try discriminate.
  destruct (callback _ _) as [[[]|e|] w2]; try discriminate.
  simpl. intros Heq. inversion Heq. now rewrite length_map.
Qed.

Lemma offsetAfter_ge len k p : p <= offsetAfter len k p.
Proof.
  revert p. induction k as [|k IH]; intros p; simpl; [lia|].
  specialize (IH (p + len p)). lia.
Qed.

Lemma whileLt_only_if (P : World -> Prop) (len : nat -> nat) body total :
  (forall p w p' w', P w -> body p w = (Ok p', w') ->
                     p' = p + len p /\ P w') ->
  forall k fuel processed w,
    P w ->
    offsetAfter len k processed < total ->
    len (offsetAfter len k processed) = 0 ->
    (whileLt body fuel total processed w).1 <> Ok tt.
Proof.
  intros Hbody. induction k as [|k IH]; intros fuel processed w HP Hlt Hlen.
  - simpl in *. apply (whileLt_stuck P); auto.
    intros w0 p' w' HP0 Hrun. destruct (Hbody _ _ _ _ HP0 Hrun) as [-> HP'].
    split; [lia | done].
  - simpl in Hlt, Hlen.
    pose proof (offsetAfter_ge len k (processed + len processed)).
    destruct fuel as [|fuel]; cbn [whileLt];
      destruct (Nat.ltb_spec processed total); try lia; [done|].
    unfold bind. destruct (body processed w) as [[p'|e|] w'] eqn:Hrun;
      try done.
    destruct (Hbody _ _ _ _ HP Hrun) as [-> HP']. now apply IH.
Qed.

Lemma whileLt_spins (P : World -> Prop) body total processed :
  processed < total ->
  (forall w, P w -> exists w', body processed w = (Ok processed, w') /\ P w') ->
  forall fuel w, P w -> (whileLt body fuel total processed w).1 = Diverge.
Proof.
  intros Hlt Hbody. induction fuel as [|fuel IH]; intros w HP;
    cbn [whileLt]; destruct (Nat.ltb_spec processed total); try lia.
  - done.
  - unfold bind. destruct (Hbody w HP) as (w' & -> & HP'). now apply IH.
Qed.

Lemma notify_polite cb w :
  polite cb -> exists w', notify cb w = (Ok tt, w') /\ envOf w' = envOf w.
Proof.
  intros Hp. unfold notify. destruct cb as [f|]; simpl in *.
  - rewrite Hp. eexists. split; reflexivity.
  - eexists. split; reflexivity.
Qed.

Lemma nodesTurn_empty_page b cb total p w :
  sourceUp w -> polite cb -> src_pageNodes (w_source w) p b = [] ->
  exists w', nodesTurn b (reportNodes cb) total p w = (Ok p, w') /\
             envOf w' = envOf w.
Proof.
  intros Hup Hp Hpage. unfold nodesTurn, bind at 1, sourceRun.
  rewrite Hup, Hpage. cbn [map length Nat.ltb Nat.leb when].
  unfold bind at 1. cbn [ret]. rewrite Nat.add_0_r.
  unfold reportNodes, bind, setProcessedNodes, setProgress.
  match goal with |- context [notify cb ?w0] =>
    destruct (notify_polite cb w0 Hp) as (w1 & -> & He) end.
  eexists. split; [reflexivity|]. unfold envOf in *. simpl in *. exact He.
Qed.

Lemma relsTurn_empty_page b cb total p w :
  sourceUp w -> polite cb ->
  src_pageRels (w_source w) p (relBatchSize b) = [] ->
  exists w', relsTurn b (reportRelationships cb) total p w = (Ok p, w') /\
             envOf w' = envOf w.
Proof.
  intros Hup Hp Hpage. unfold relsTurn, bind at 1, sourceRun.
  rewrite Hup, Hpage. cbn [map length Nat.ltb Nat.leb when].
  unfold bind at 1. cbn [ret]. rewrite Nat.add_0_r.
  unfold reportRelationships, bind, setProcessedRelationships, setProgress.
  match goal with |- context [notify cb ?w0] =>
    destruct (notify_polite cb w0 Hp) as (w1 & -> & He) end.
  eexists. split; [reflexivity|]. unfold envOf in *. simpl in *. exact He.
Qed.

Lemma copyNodes_returns_inv b fuel callback w w' :
  copyNodes b fuel callback w = (Ok tt, w') ->
  exists w1 w2,
    envOf w1 = envOf w /\
    copyNodesLoop b fuel callback (src_countNodes (w_source w)) 0 w1
      = (Ok tt, w2).
Proof.
  unfold copyNodes, bind at 1, console, bind at 1, openSession, tryFinally,
    bind at 1, sourceRun. simpl.
  destruct (w_sourceFail w (w_sourceRuns w)); [discriminate|].
  match goal with |- context [copyNodesLoop _ _ _ _ _ ?w0] =>
    destruct (copyNodesLoop b fuel callback (src_countNodes (w_source w)) 0 w0)
      as [[[]|e|] w2] eqn:Hloop; try discriminate;
    intros _; exists w0, w2; split; [reflexivity | exact Hloop]
  end.
Qed.

Lemma copyRelationships_returns_inv b fuel callback w w' :
  copyRelationships b fuel callback w = (Ok tt, w') ->
  exists w1 w2,
    envOf w1 = envOf w /\
    copyRelationshipsLoop b fuel callback (src_countRels (w_source w)) 0 w1
      = (Ok tt, w2).
Proof.
  unfold copyRelationships, bind at 1, console, bind at 1, openSession,
    tryFinally, bind at 1, sourceRun. simpl.
  destruct (w_sourceFail w (w_sourceRuns w)); [discriminate|].
  match goal with |- context [copyRelationshipsLoop _ _ _ _ _ ?w0] =>
    destruct (copyRelationshipsLoop b fuel callback
                (src_countRels (w_source w)) 0 w0)
      as [[[]|e|] w2] eqn:Hloop; try discriminate;
    intros _; exists w0, w2; split; [reflexivity | exact Hloop]
  end.
Qed.



(** ** Bulk creation in the target *)

Lemma forEach_completes_if {A} (P : World -> Prop) (l : list A) body
    (after : A -> World -> World) w :
  (forall x w0, P w0 -> body x w0 = (Ok tt, after x w0) /\ P (after x w0)) ->
  P w ->
  forEach l body w = (Ok tt, foldl (fun w0 x => after x w0) w l) /\
  P (foldl (fun w0 x => after x w0) w l).
Proof.
  intros Hb. revert w. induction l as [|x l IH]; intros w HP; simpl; [done|].
  unfold bind. destruct (Hb x w HP) as [-> HP']. now apply IH.
Qed.

Lemma createNodeGroup_up group w :
  targetUp w ->
  createNodeGroup group w = (Ok tt, afterNodeGroup group w) /\
  targetUp (afterNodeGroup group w).
Proof.
  intros Hup. destruct group as [key ns].
  unfold createNodeGroup, targetRun. rewrite Hup. split; [reflexivity|].
  exact Hup.
Qed.

Lemma createRelGroup_up group w :
  targetUp w ->
  createRelGroup group w = (Ok tt, afterRelGroup group w) /\
  targetUp (afterRelGroup group w).
Proof.
  intros Hup. destruct group as [key ns].
  unfold createRelGroup, targetRun. rewrite Hup. split; [reflexivity|].
  exact Hup.
Qed.

Lemma afterNodeGroups_spec groups w :
  let w' := foldl (fun w0 g => afterNodeGroup g w0) w groups in
  sourceSide w' = sourceSide w /\
  w_trace w' = w_trace w ++ nodeStatements groups /\
  t_nodes (w_target w') = t_nodes (w_target w) ++ nodesCreated groups /\
  t_rels (w_target w') = t_rels (w_target w).
Proof.
  revert w. induction groups as [|g groups IH]; intros w; simpl.
  - now rewrite !(right_id_L [] (++)).
  - destruct (IH (afterNodeGroup g w)) as (Hs & Ht & Hn & Hr).
    split; [rewrite Hs; reflexivity|]. split; [|split].
    + rewrite Ht. simpl. now rewrite <- (assoc_L (++)).
    + rewrite Hn. simpl. now rewrite <- (assoc_L (++)).
    + rewrite Hr. reflexivity.
Qed.

Lemma afterRelGroups_spec groups w :
  let w' := foldl (fun w0 g => afterRelGroup g w0) w groups in
  sourceSide w' = sourceSide w /\
  w_trace w' = w_trace w ++ relStatements groups /\
  t_nodes (w_target w') = t_nodes (w_target w) /\
  t_rels (w_target w') =
    t_rels (w_target w) ++ relsCreated (t_nodes (w_target w)) groups.
Proof.
  revert w. induction groups as [|g groups IH]; intros w; simpl.
  - now rewrite !(right_id_L [] (++)).
  - destruct (IH (afterRelGroup g w)) as (Hs & Ht & Hn & Hr).
    split; [rewrite Hs; reflexivity|]. split; [|split].
    + rewrite Ht. simpl. now rewrite <- (assoc_L (++)).
    + rewrite Hn. reflexivity.
    + rewrite Hr. simpl. now rewrite <- (assoc_L (++)).
Qed.

(** With a target that accepts every statement, [createNodesInTarget] sends
    one statement per group and returns. *)
Lemma createNodesInTarget_up nodesData w :
  targetUp w ->
  exists w',
    createNodesInTarget nodesData w = (Ok tt, w') /\
    sourceSide w' = sourceSide w /\
    w_trace w' = w_trace w ++ nodeStatements (nodesByLabels nodesData) /\
    t_nodes (w_target w') =
      t_nodes (w_target w) ++ nodesCreated (nodesByLabels nodesData) /\
    t_rels (w_target w') = t_rels (w_target w).
Proof.
  intros Hup. unfold createNodesInTarget, bind at 1, openSession, tryFinally.
  set (w1 := set_sessions _ w).
  destruct (forEach_completes_if targetUp (nodesByLabels nodesData)
              createNodeGroup afterNodeGroup w1) as [-> _];
    [intros; now apply createNodeGroup_up | exact Hup |].
  destruct (afterNodeGroups_spec (nodesByLabels nodesData) w1)
    as (Hs & Ht & Hn & Hr).
  eexists. split; [reflexivity|]. cbn [fst snd ret bind closeSession].
  split; [|split; [|split]]; [|exact Ht|exact Hn|exact Hr].
  unfold sourceSide, envOf in *. simpl in *.
  injection Hs as E1 E2 E3 E4 E5 E6 E7 E8.
  rewrite E1, E2, E3, E4, E5, E6, E7, E8. reflexivity.
Qed.

Lemma createRelationshipsInTarget_up relsData w :
  targetUp w ->
  exists w',
    createRelationshipsInTarget relsData w = (Ok tt, w') /\
    sourceSide w' = sourceSide w /\
    w_trace w' = w_trace w ++ relStatements (relsByType relsData) /\
    t_nodes (w_target w') = t_nodes (w_target w) /\
    t_rels (w_target w') =
      t_rels (w_target w) ++
      relsCreated (t_nodes (w_target w)) (relsByType relsData).
Proof.
  intros Hup.
  unfold createRelationshipsInTarget, bind at 1, openSession, tryFinally.
  set (w1 := set_sessions _ w).
  destruct (forEach_completes_if targetUp (relsByType relsData)
              createRelGroup afterRelGroup w1) as [-> _];
    [intros; now apply createRelGroup_up | exact Hup |].
  destruct (afterRelGroups_spec (relsByType relsData) w1)
    as (Hs & Ht & Hn & Hr).
  eexists. split; [reflexivity|]. cbn [fst snd ret bind closeSession].
  split; [|split; [|split]]; [|exact Ht|exact Hn|exact Hr].
  unfold sourceSide, envOf in *. simpl in *.
  injection Hs as E1 E2 E3 E4 E5 E6 E7 E8.
  rewrite E1, E2, E3, E4, E5, E6, E7, E8. reflexivity.
Qed.

Lemma createNodesInTarget_creates nodesData node w :
  targetUp w -> node ∈ nodesData ->
  exists group w',
    (labelKey node, group) ∈ nodesByLabels nodesData /\
    sortLabels node ∈ group /\
    createNodesInTarget nodesData w = (Ok tt, w') /\
    EvTarget (TqCreateNodes (clauseOfKey (labelKey node)) group) ∈ w_trace w' /\
    mkTargetNode (parseLabelClause (clauseOfKey (labelKey node)))
      (<["source_id" := PNum (nodeId node)]> (properties node))
      ∈ t_nodes (w_target w').
Proof.
  intros Hup Hin.
  destruct (groupBy_elem labelKey sortLabels nodesData [] node Hin)
    as (group & Hg & Hm).
  rewrite <- nodesByLabels_groupBy in Hg.
  destruct (createNodesInTarget_up nodesData w Hup)
    as (w' & Hrun & _ & Ht & Hn & _).
  exists group, w'. repeat split; try done.
  - rewrite Ht. apply elem_of_app. right. unfold nodeStatements.
    apply list_elem_of_In, in_map_iff. exists (labelKey node, group).
    split; [reflexivity | now apply list_elem_of_In].
  - rewrite Hn. apply elem_of_app. right. unfold nodesCreated.
    apply list_elem_of_In, in_flat_map. exists (labelKey node, group).
    split; [now apply list_elem_of_In|].
    apply in_map_iff. exists (sortLabels node).
    split; [reflexivity | now apply list_elem_of_In].
Qed.

(** C8: a node of the batch with no label is grouped under the empty key,
    the statement for that group is [CREATE (n)] with no label clause, and
    the target gets an unlabeled node with the properties of the source node
    and its [source_id]. *)
Theorem unlabeled_node_is_created nodesData node w :
  targetUp w -> node ∈ nodesData -> labels node = [] ->
  labelKey node = "" /\
  clauseOfKey "" = "" /\
  exists group w',
    ("", group) ∈ nodesByLabels nodesData /\
    node ∈ group /\
    createNodesInTarget nodesData w = (Ok tt, w') /\
    EvTarget (TqCreateNodes "" group) ∈ w_trace w' /\
    mkTargetNode []
      (<["source_id" := PNum (nodeId node)]> (properties node))
      ∈ t_nodes (w_target w').
Proof.
  intros Hup Hin Hl.
  assert (Hkey : labelKey node = "") by (unfold labelKey; now rewrite Hl).
  assert (Hsame : sortLabels node = node).
  { destruct node as [i l p]. simpl in Hl. subst l. reflexivity. }
  split; [exact Hkey|]. split; [reflexivity|].
  destruct (createNodesInTarget_creates nodesData node w Hup Hin)
    as (group & w' & Hg & Hm & Hrun & Ht & Hn).
  rewrite Hkey in Hg, Ht, Hn. rewrite Hsame in Hm.
  exists group, w'. auto.
Qed.

Lemma unlabeled_node_is_created_witness :
  exists group w',
    ("", group) ∈ nodesByLabels (sg_nodes demoGraph) /\
    label 12 [] ∈ group /\
    createNodesInTarget (sg_nodes demoGraph) demoWorld = (Ok tt, w') /\
    EvTarget (TqCreateNodes "" group) ∈ w_trace w' /\
    mkTargetNode [] (<["source_id" := PNum 12]> {[ "name" := PStr "n" ]})
      ∈ t_nodes (w_target w').
Proof.
  destruct (unlabeled_node_is_created (sg_nodes demoGraph) (label 12 [])
              demoWorld) as (_ & _ & H).
  - intros k. reflexivity.
  - simpl. do 2 right. left.
  - reflexivity.
  - exact H.
Defined.

(** C10: the key is the comma-join of the sorted labels and the labels are
    read back by splitting the key at commas.  A node whose single label is
    [A,B] therefore gets the key of the nodes labeled [A] and [B], shares
    their group and their statement [CREATE (n:A:B)], and is created in the
    target with the two labels [A] and [B]. *)
Theorem comma_in_label_merges_groups nodesData n1 n2 w :
  targetUp w -> n1 ∈ nodesData -> n2 ∈ nodesData ->
  labels n1 = ["A,B"] -> labels n2 ≡ₚ ["A"; "B"] ->
  labelKey n1 = join "," (sort (labels n1)) /\
  labelsOfKey (labelKey n1) = split ","%char (labelKey n1) /\
  labelKey n1 = "A,B" /\ labelKey n2 = "A,B" /\
  exists group w',
    ("A,B", group) ∈ nodesByLabels nodesData /\
    sortLabels n1 ∈ group /\ sortLabels n2 ∈ group /\
    createNodesInTarget nodesData w = (Ok tt, w') /\
    EvTarget (TqCreateNodes ":A:B" group) ∈ w_trace w' /\
    mkTargetNode ["A"; "B"]
      (<["source_id" := PNum (nodeId n1)]> (properties n1))
      ∈ t_nodes (w_target w').
Proof.
  intros Hup Hin1 Hin2 Hl1 Hl2.
  assert (Hk1 : labelKey n1 = "A,B") by (unfold labelKey; now rewrite Hl1).
  assert (Hk2 : labelKey n2 = "A,B").
  { unfold labelKey. now rewrite (sort_canonical _ _ Hl2). }
  split; [reflexivity|]. split; [now rewrite Hk1|].
  split; [exact Hk1|]. split; [exact Hk2|].
  destruct (createNodesInTarget_creates nodesData n1 w Hup Hin1)
    as (group & w' & Hg & Hm & Hrun & Ht & Hn).
  destruct (groupBy_elem labelKey sortLabels nodesData [] n2 Hin2)
    as (group2 & Hg2 & Hm2).
  rewrite <- nodesByLabels_groupBy in Hg2.
  rewrite Hk1 in Hg, Ht, Hn. rewrite Hk2 in Hg2.
  assert (group2 = group) as ->.
  { eapply NoDup_keys_unique; eauto using nodesByLabels_NoDup. }
  exists group, w'. auto 10.
Qed.

Lemma comma_in_label_merges_groups_witness :
  exists group w',
    ("A,B", group) ∈ nodesByLabels (sg_nodes demoGraph) /\
    sortLabels (label 13 ["A,B"]) ∈ group /\
    sortLabels (label 10 ["B"; "A"]) ∈ group /\
    createNodesInTarget (sg_nodes demoGraph) demoWorld = (Ok tt, w') /\
    EvTarget (TqCreateNodes ":A:B" group) ∈ w_trace w' /\
    mkTargetNode ["A"; "B"]
      (<["source_id" := PNum 13]> {[ "name" := PStr "n" ]})
      ∈ t_nodes (w_target w').
Proof.
  destruct (comma_in_label_merges_groups (sg_nodes demoGraph)
              (label 13 ["A,B"]) (label 10 ["B"; "A"]) demoWorld)
    as (_ & _ & _ & _ & H).
  - intros k. reflexivity.
  - simpl. do 3 right. left.
  - simpl. left.
  - reflexivity.
  - simpl. apply perm_swap.
  - exact H.
Defined.

(** ** Turns of the paging loops when nothing fails *)

Lemma notify_up cb w :
  polite cb ->
  exists w',
    notify cb w = (Ok tt, w') /\
    storeSide w' = storeSide w /\
    w_trace w' = w_trace w ++ observerEvents cb (w_progress w).
Proof.
  intros Hp. unfold notify. destruct cb as [f|]; simpl in *.
  - rewrite Hp. eexists. repeat split.
  - eexists. repeat split. now rewrite (right_id_L [] (++)).
Qed.

Lemma nodesTurn_up b cb total p w :
  sourceUp w -> targetUp w -> polite cb ->
  let data := map nodeOfRecord (src_pageNodes (w_source w) p b) in
  exists w',
    nodesTurn b (reportNodes cb) total p w = (Ok (p + length data), w') /\
    envOf w' = envOf w /\
    w_sessions w' = w_sessions w /\
    w_progress w' = withProcessedNodes (p + length data) (w_progress w) /\
    t_nodes (w_target w') =
      t_nodes (w_target w) ++ nodesCreated (nodesByLabels data) /\
    t_rels (w_target w') = t_rels (w_target w) /\
    w_trace w' =
      w_trace w ++ [EvSource (SqPageNodes p b)] ++
      nodeStatements (nodesByLabels data) ++
      observerEvents cb (withProcessedNodes (p + length data) (w_progress w)) ++
      [EvConsole LLog (MProcessedNodes (p + length data) total)].
Proof.
  intros Hsup Htup Hp data. unfold nodesTurn, bind at 1, sourceRun.
  rewrite Hsup. fold data. set (w1 := tick_source _).
  assert (Hw2 : exists w2,
             when (0 <? length data)%nat (createNodesInTarget data) w1
               = (Ok tt, w2) /\
             sourceSide w2 = sourceSide w1 /\
             w_trace w2 = w_trace w1 ++ nodeStatements (nodesByLabels data) /\
             t_nodes (w_target w2) =
               t_nodes (w_target w1) ++ nodesCreated (nodesByLabels data) /\
             t_rels (w_target w2) = t_rels (w_target w1)).
  { destruct data as [|d data'].
    - exists w1. simpl. now rewrite !(right_id_L [] (++)).
    - apply createNodesInTarget_up. exact Htup. }
  destruct Hw2 as (w2 & Hrun2 & Hs2 & Ht2 & Hn2 & Hr2).
  unfold bind at 1. rewrite Hrun2. cbv zeta.
  unfold bind at 1, reportNodes, bind at 1, setProcessedNodes, setProgress.
  match goal with |- context [notify cb ?w0] =>
    destruct (notify_up cb w0 Hp) as (w3 & -> & Hs3 & Ht3) end.
  unfold bind, console, ret. eexists. split; [reflexivity|].
  unfold storeSide, sourceSide, envOf in *. simpl in *.
  injection Hs2 as E1 E2 E3 E4 E5 E6 E7 E8.
  injection Hs3 as F1 F2 F3 F4 F5 F6 F7 F8 F9 F10.
  rewrite E8 in F10, Ht3.
  repeat split; try congruence.
  - exact F10.
  - rewrite Ht3, Ht2. rewrite <- !(assoc_L (++)). reflexivity.
Qed.

Lemma relsTurn_up b cb total p w :
  sourceUp w -> targetUp w -> polite cb ->
  let data := map relOfRecord (src_pageRels (w_source w) p (relBatchSize b)) in
  exists w',
    relsTurn b (reportRelationships cb) total p w
      = (Ok (p + length data), w') /\
    envOf w' = envOf w /\
    w_sessions w' = w_sessions w /\
    w_progress w' =
      withProcessedRelationships (p + length data) (w_progress w) /\
    t_nodes (w_target w') = t_nodes (w_target w) /\
    t_rels (w_target w') =
      t_rels (w_target w) ++
      relsCreated (t_nodes (w_target w)) (relsByType data) /\
    w_trace w' =
      w_trace w ++ [EvSource (SqPageRels p (relBatchSize b))] ++
      relStatements (relsByType data) ++
      observerEvents cb
        (withProcessedRelationships (p + length data) (w_progress w)) ++
      [EvConsole LLog (MProcessedRelationships (p + length data) total)].
Proof.
  intros Hsup Htup Hp data. unfold relsTurn, bind at 1, sourceRun.
  rewrite Hsup. fold data. set (w1 := tick_source _).
  assert (Hw2 : exists w2,
             when (0 <? length data)%nat (createRelationshipsInTarget data) w1
               = (Ok tt, w2) /\
             sourceSide w2 = sourceSide w1 /\
             w_trace w2 = w_trace w1 ++ relStatements (relsByType data) /\
             t_nodes (w_target w2) = t_nodes (w_target w1) /\
             t_rels (w_target w2) =
               t_rels (w_target w1) ++
               relsCreated (t_nodes (w_target w1)) (relsByType data)).
  { destruct data as [|d data'].
    - exists w1. simpl. now rewrite !(right_id_L [] (++)).
    - apply createRelationshipsInTarget_up. exact Htup. }
  destruct Hw2 as (w2 & Hrun2 & Hs2 & Ht2 & Hn2 & Hr2).
  unfold bind at 1. rewrite Hrun2. cbv zeta.
  unfold bind at 1, reportRelationships, bind at 1, setProcessedRelationships,
    setProgress.
  match goal with |- context [notify cb ?w0] =>
    destruct (notify_up cb w0 Hp) as (w3 & -> & Hs3 & Ht3) end.
  unfold bind, console, ret. eexists. split; [reflexivity|].
  unfold storeSide, sourceSide, envOf in *. simpl in *.
  injection Hs2 as E1 E2 E3 E4 E5 E6 E7 E8.
  injection Hs3 as F1 F2 F3 F4 F5 F6 F7 F8 F9 F10.
  rewrite E8 in F10, Ht3.
  repeat split; try congruence.
  - exact F10.
  - rewrite Ht3, Ht2. rewrite <- !(assoc_L (++)). reflexivity.
Qed.

(** ** Stages when nothing fails *)

Lemma wp_bind_ok {A B} (m : M A) (k : A -> M B) w a w1 Q :
  m w = (Ok a, w1) -> wp (k a) w1 Q -> wp (bind m k) w Q.
Proof. unfold wp, bind. now intros ->. Qed.

Lemma wp_ok {A} (m : M A) w a w1 (Q : Outcome A -> World -> Prop) :
  m w = (Ok a, w1) -> Q (Ok a) w1 -> wp m w Q.
Proof. unfold wp. now intros ->. Qed.

Lemma wp_returns_use {A B} (m : M A) (k : A -> M B) w P Q :
  wp m w (returns P) ->
  (forall a w1, P a w1 -> wp (k a) w1 Q) ->
  wp (bind m k) w Q.
Proof.
  intros Hm Hk. destruct (wp_returns_eq _ _ _ Hm) as (a & w1 & Hrun & HP).
  eapply wp_bind_ok; eauto.
Qed.

Lemma wp_session {A} (m : M A) w (Q : Outcome A -> World -> Prop) :
  wp m (set_sessions (S (w_sessions w)) w)
     (returns (fun a w1 => Q (Ok a) (set_sessions (pred (w_sessions w1)) w1))) ->
  wp (openSession ;;; tryFinally m closeSession) w Q.
Proof.
  intros Hm. destruct (wp_returns_eq _ _ _ Hm) as (a & w1 & Hrun & HQ).
  unfold wp, bind, openSession, tryFinally. rewrite Hrun. exact HQ.
Qed.

Lemma sourceRun_up {A} q (answer : SourceDb -> A) w :
  sourceUp w ->
  sourceRun q answer w
    = (Ok (answer (w_source w)), tick_source (emit (EvSource q) w)).
Proof. intros Hup. unfold sourceRun. now rewrite Hup. Qed.

Lemma targetRun_up {A} q (effect : TargetDb -> A * TargetDb) w :
  targetUp w ->
  targetRun q effect w
    = (Ok (effect (w_target w)).1,
       set_target (effect (w_target w)).2
         (tick_target (emit (EvTarget q) w))).
Proof.
  intros Hup. unfold targetRun. rewrite Hup. now destruct (effect _).
Qed.

Lemma getTotalCounts_up w :
  sourceUp w ->
  wp getTotalCounts w
     (returns (fun counts w' =>
        counts = (src_countNodes (w_source w), src_countRels (w_source w)) /\
        envOf w' = envOf w /\ graphOf w' = graphOf w /\
        w_progress w' = w_progress w)).
Proof.
  intros Hup. unfold getTotalCounts. apply wp_session.
  eapply wp_bind_ok; [now apply sourceRun_up|].
  eapply wp_bind_ok; [now apply sourceRun_up|].
  apply wp_ret. simpl. repeat split.
Qed.

Lemma dropOneConstraint_up w0 name w :
  targetUp w0 -> cleared w0 w ->
  dropOneConstraint name w = (Ok tt, afterDropConstraint name w) /\
  cleared w0 (afterDropConstraint name w).
Proof.
  intros Hup (He & Hg & Hp).
  assert (Hup' : targetUp w) by now apply (env_targetUp w0).
  unfold dropOneConstraint, tryCatch, bind. rewrite targetRun_up by done.
  split; [reflexivity|]. repeat split; assumption.
Qed.

Lemma dropOneIndex_up w0 name w :
  targetUp w0 -> cleared w0 w ->
  dropOneIndex name w = (Ok tt, afterDropIndex name w) /\
  cleared w0 (afterDropIndex name w).
Proof.
  intros Hup (He & Hg & Hp).
  assert (Hup' : targetUp w) by now apply (env_targetUp w0).
  unfold dropOneIndex, tryCatch, bind. rewrite targetRun_up by done.
  split; [reflexivity|]. repeat split; assumption.
Qed.

Lemma clearTargetDatabase_up w :
  targetUp w ->
  wp clearTargetDatabase w
     (returns (fun _ w' =>
        envOf w' = envOf w /\ graphOf w' = ([], []) /\
        w_progress w' = w_progress w)).
Proof.
  intros Hup. unfold clearTargetDatabase.
  eapply wp_bind_ok; [reflexivity|]. apply wp_session.
  eapply wp_bind_ok; [now apply targetRun_up|].
  eapply wp_bind_ok; [reflexivity|].
  eapply wp_bind_ok; [now apply targetRun_up|].
  match goal with |- wp (bind (forEach ?l _) _) ?w1 _ =>
    destruct (forEach_completes_if (cleared w) l dropOneConstraint
                afterDropConstraint w1) as [Hrun Hc];
      [intros; now apply dropOneConstraint_up | repeat split |]
  end.
  eapply wp_bind_ok; [exact Hrun|]. clear Hrun.
  set (w2 := foldl _ _ _) in *.
  assert (Hup2 : targetUp w2) by (destruct Hc; now apply (env_targetUp w)).
  eapply wp_bind_ok; [now apply targetRun_up|].
  match goal with |- wp (forEach ?l _) ?w3 _ =>
    destruct (forEach_completes_if (cleared w) l dropOneIndex
                afterDropIndex w3) as [Hrun Hc'];
      [intros; now apply dropOneIndex_up | exact Hc |]
  end.
  eapply wp_ok; [exact Hrun|]. simpl. exact Hc'.
Qed.

Lemma cleanupStage_up w :
  targetUp w ->
  wp cleanupStage w
     (returns (fun _ w' =>
        envOf w' = envOf w /\
        w_progress w' = w_progress w /\
        t_rels (w_target w') = t_rels (w_target w) /\
        t_nodes (w_target w') =
          map (fun n => mkTargetNode (tn_labels n)
                          (delete "source_id" (tn_props n)))
              (t_nodes (w_target w)))).
Proof.
  intros Hup. unfold cleanupStage.
  eapply wp_bind_ok; [reflexivity|]. apply wp_session.
  eapply wp_bind_ok; [now apply targetRun_up|].
  eapply wp_ok; [reflexivity|]. simpl. repeat split.
Qed.

Lemma copySchema_up w :
  sourceUp w ->
  wp copySchema w
     (returns (fun _ w' =>
        envOf w' = envOf w /\ graphOf w' = graphOf w /\
        w_progress w' = w_progress w)).
Proof.
  intros Hup.
  destruct (copySchema_completes w (Hup _) (Hup _))
    as (w' & t & Hrun & _ & Hn & Hr & _).
  eapply wp_ok; [exact Hrun|]. simpl.
  pose proof (env_copySchema w) as He. rewrite Hrun in He.
  split; [exact He|]. split; [unfold graphOf; congruence|].
  assert (Hk : respects (keeps w_progress) copySchema).
  { unfold copySchema, copyConstraint, copyIndex. solve_respects. }
  specialize (Hk w). rewrite Hrun in Hk. exact Hk.
Qed.

(** ** The correlation property *)

Lemma tagOf_createdNode lbls node :
  tagOf (createdNode lbls node) = Some (nodeId node).
Proof. unfold tagOf, createdNode. simpl. now rewrite lookup_insert_eq. Qed.

Lemma hasSourceId_tagOf z n :
  hasSourceId z n = bool_decide (tagOf n = Some z).
Proof.
  unfold hasSourceId, tagOf.
  destruct (tn_props n !! "source_id") as [[z'| | |]|]; try done.
  destruct (Z.eqb_spec z z') as [->|Hne].
  - now rewrite bool_decide_eq_true_2.
  - rewrite bool_decide_eq_false_2; [done | congruence].
Qed.

Lemma matchNodes_length z ns i :
  length (matchNodes z ns i)
  = length (filter (fun t => t = Some z) (map tagOf ns)).
Proof.
  revert i. induction ns as [|n ns IH]; intros i; [done|].
  cbn [matchNodes map]. rewrite filter_cons, length_app, IH.
  rewrite hasSourceId_tagOf.
  destruct (decide (tagOf n = Some z)) as [Heq|Hne].
  - now rewrite bool_decide_eq_true_2.
  - now rewrite bool_decide_eq_false_2.
Qed.

Lemma tag_absent (ids : list Z) z :
  z ∉ ids -> filter (fun t => t = Some z) (map Some ids) = [].
Proof.
  induction ids as [|i ids IH]; intros Hni; [done|].
  cbn [map]. rewrite filter_cons.
  apply not_elem_of_cons in Hni as [Hne Hni].
  rewrite decide_False by congruence. now apply IH.
Qed.

Lemma tag_found_once (ids : list Z) z :
  NoDup ids -> z ∈ ids ->
  length (filter (fun t => t = Some z) (map Some ids)) = 1.
Proof.
  induction ids as [|i ids IH]; intros Hnd Hin.
  - now apply elem_of_nil in Hin.
  - apply NoDup_cons in Hnd as [Hni Hnd].
    cbn [map]. rewrite filter_cons.
    destruct (decide (Some i = Some z)) as [Heq|Hne].
    + inversion Heq; subst i. simpl. now rewrite tag_absent.
    + apply elem_of_cons in Hin as [->|Hin]; [congruence|]. now apply IH.
Qed.

Lemma matchNodes_once ids ns z i :
  NoDup ids -> taggedBy ids ns -> z ∈ ids -> length (matchNodes z ns i) = 1.
Proof.
  intros Hnd Htag Hin. rewrite matchNodes_length.
  unfold taggedBy in Htag. rewrite Htag. now apply tag_found_once.
Qed.

Lemma createdRels_once ids ns rType rel :
  NoDup ids -> taggedBy ids ns ->
  startId rel ∈ ids -> endId rel ∈ ids ->
  length (createdRels rType ns rel) = 1.
Proof.
  intros Hnd Htag Hs He. unfold createdRels.
  pose proof (matchNodes_once ids ns _ 0 Hnd Htag Hs) as Ha.
  pose proof (matchNodes_once ids ns _ 0 Hnd Htag He) as Hb.
  destruct (matchNodes (startId rel) ns 0) as [|a [|]]; try done.
  destruct (matchNodes (endId rel) ns 0) as [|b' [|]]; done.
Qed.

Lemma flat_map_length_once {A B} (f : A -> list B) (l : list A) :
  (forall x, x ∈ l -> length (f x) = 1) ->
  length (flat_map f l) = length l.
Proof.
  induction l as [|x l IH]; intros H; simpl; [done|].
  rewrite length_app, H by left. rewrite IH; [done|].
  intros y Hy. apply H. now right.
Qed.

Lemma relsCreated_length ids ns (groups : list (string * list RelationshipData)) :
  NoDup ids -> taggedBy ids ns ->
  (forall rel, rel ∈ concat groups.*2 ->
               startId rel ∈ ids /\ endId rel ∈ ids) ->
  length (relsCreated ns groups) = length (concat groups.*2).
Proof.
  intros Hnd Htag. induction groups as [|[ty rs] groups IH]; intros Hall;
    [done|].
  cbn [relsCreated flat_map]. rewrite fmap_cons. cbn [concat snd].
  rewrite !length_app. f_equal.
  - apply flat_map_length_once. intros rel Hin.
    destruct (Hall rel) as [Hs He].
    { rewrite fmap_cons. cbn [concat snd]. apply elem_of_app. now left. }
    eapply createdRels_once; eauto.
  - apply IH. intros rel Hin. apply Hall.
    rewrite fmap_cons. cbn [concat snd]. apply elem_of_app. now right.
Qed.

Lemma createdNode_tags lbls (ns : list NodeData) :
  map tagOf (map (createdNode lbls) ns) = map (Some ∘ nodeId) ns.
Proof.
  induction ns as [|n ns IH]; simpl; [done|].
  now rewrite tagOf_createdNode, IH.
Qed.

Lemma nodesCreated_tags (groups : list (string * list NodeData)) :
  map tagOf (nodesCreated groups)
  = map (Some ∘ nodeId) (concat groups.*2).
Proof.
  induction groups as [|[key ns] groups IH]; [done|].
  cbn [nodesCreated flat_map]. rewrite fmap_cons. cbn [concat snd].
  rewrite !map_app. fold (nodesCreated groups). rewrite IH. f_equal.
  apply createdNode_tags.
Qed.

Lemma nodesByLabels_tags nodesData :
  map tagOf (nodesCreated (nodesByLabels nodesData))
  ≡ₚ map (Some ∘ nodeId) nodesData.
Proof.
  rewrite nodesCreated_tags, nodesByLabels_groupBy.
  rewrite (groupBy_values labelKey sortLabels nodesData []). simpl.
  induction nodesData as [|n l IH]; simpl; [done|]. now rewrite IH.
Qed.

Lemma take_plus {A} (l : list A) p k :
  take (p + k) l = take p l ++ take k (drop p l).
Proof.
  revert l. induction p as [|p IH]; intros l; simpl.
  - now rewrite drop_0.
  - destruct l as [|x l]; simpl.
    + now rewrite take_nil.
    + now rewrite IH.
Qed.

Lemma take_length_take {A} (l : list A) b :
  take (length (take b l)) l = take b l.
Proof.
  revert l. induction b as [|b IH]; intros [|x l]; simpl; try done.
  now rewrite IH.
Qed.

Lemma page_length {A} (l : list A) p b :
  length (page l p b) = b `min` (length l - p).
Proof. unfold page. now rewrite length_take, length_drop. Qed.

Lemma page_elem {A} (l : list A) p b x : x ∈ page l p b -> x ∈ l.
Proof.
  unfold page. intros Hin. apply elem_of_take in Hin as (i & Hi & _).
  rewrite lookup_drop in Hi. now apply list_elem_of_lookup_2 in Hi.
Qed.

(** ** The node and relationship stages on a source that stays as it is *)

Lemma wp_whileLt_rewrite_nodes b fuel cb total p w Q :
  wp (whileLt (nodesTurn b cb total) fuel total p) w Q ->
  wp (copyNodesLoop b fuel cb total p) w Q.
Proof. unfold wp. now rewrite copyNodesLoop_while. Qed.

Lemma wp_whileLt_rewrite_rels b fuel cb total p w Q :
  wp (whileLt (relsTurn b cb total) fuel total p) w Q ->
  wp (copyRelationshipsLoop b fuel cb total p) w Q.
Proof. unfold wp. now rewrite copyRelationshipsLoop_while. Qed.

Lemma toNumber_safe z : safeInteger z -> toNumber z = z.
Proof.
  unfold safeInteger, toNumber. intros Hz.
  destruct (Z.ltb_spec (Z.abs z) (2 ^ 53)); [done | lia].
Qed.

Lemma nodeOfRecord_safe n : safeInteger (nodeId n) -> nodeOfRecord n = n.
Proof.
  intros Hz. unfold nodeOfRecord. rewrite toNumber_safe by done.
  now destruct n.
Qed.

Lemma relOfRecord_safe r :
  safeInteger (startId r) -> safeInteger (endId r) -> relOfRecord r = r.
Proof.
  intros Hs He. unfold relOfRecord. rewrite !toNumber_safe by done.
  now destruct r.
Qed.

Lemma map_page {A B} (f : A -> B) (l : list A) p b :
  map f (page l p b) = page (map f l) p b.
Proof.
  unfold page. change (map f) with (fmap (M := list) f).
  now rewrite fmap_take, fmap_drop.
Qed.

Lemma map_fixed {A} (f : A -> A) (l : list A) :
  Forall (fun x => f x = x) l -> map f l = l.
Proof. induction 1 as [|x l Hx _ IH]; simpl; congruence. Qed.

Lemma safeIds_nodes g : safeIds g -> map nodeOfRecord (sg_nodes g) = sg_nodes g.
Proof.
  intros Hsafe. apply map_fixed. eapply Forall_impl; [exact Hsafe|].
  intros n. apply nodeOfRecord_safe.
Qed.

Lemma safeIds_member g z : safeIds g -> z ∈ nodeIds g -> safeInteger z.
Proof.
  unfold safeIds, nodeIds. intros Hsafe Hin.
  apply list_elem_of_In, in_map_iff in Hin as (n & <- & Hn).
  rewrite Forall_forall in Hsafe. apply Hsafe. now apply list_elem_of_In.
Qed.

Lemma safeIds_rels g :
  wellFormed g -> safeIds g -> map relOfRecord (sg_rels g) = sg_rels g.
Proof.
  intros [_ Hends] Hsafe. apply map_fixed, Forall_forall. intros r Hr.
  destruct (Hends r Hr) as [Hs He].
  apply relOfRecord_safe; now apply (safeIds_member g).
Qed.

(** Beyond the safe integers two identifiers can become one. *)
Example large_identifiers_collide :
  toNumber (2 ^ 53 + 1) = toNumber (2 ^ 53) /\
  toNumber (2 ^ 53 + 3) = (2 ^ 53 + 4)%Z.
Proof. split; reflexivity. Qed.

Lemma copyNodes_up b cb g fuel w :
  1 <= b -> sourceUp w -> targetUp w -> polite cb -> safeIds g ->
  w_source w = serve g -> t_nodes (w_target w) = [] ->
  length (sg_nodes g) <= fuel ->
  wp (copyNodes b fuel (reportNodes cb)) w
     (returns (fun _ w' =>
        envOf w' = envOf w /\
        t_rels (w_target w') = t_rels (w_target w) /\
        taggedBy (nodeIds g) (t_nodes (w_target w')) /\
        stage (w_progress w') = stage (w_progress w))).
Proof.
  intros Hb Hsup Htup Hp Hsafe Hsrc Hempty Hfuel. unfold copyNodes.
  eapply wp_bind_ok; [reflexivity|]. apply wp_session.
  eapply wp_bind_ok; [now apply sourceRun_up|].
  cbn [w_source set_sessions emit]. rewrite Hsrc. cbn [serve src_countNodes].
  set (ns := sg_nodes g) in *. set (w1 := tick_source _).
  apply wp_whileLt_rewrite_nodes.
  pose (Inv := fun (p : nat) (w0 : World) =>
    p <= length ns /\ envOf w0 = envOf w /\
    t_rels (w_target w0) = t_rels (w_target w) /\
    map tagOf (t_nodes (w_target w0)) ≡ₚ map (Some ∘ nodeId) (take p ns) /\
    stage (w_progress w0) = stage (w_progress w)).
  eapply wp_mono.
  - apply (whileLt_returns Inv) with (processed := 0); [|lia|].
    + intros p w0 Hlt (Hle & He & Hr & Htags & Hst).
      destruct (nodesTurn_up b cb (length ns) p w0)
        as (w' & Hrun & He' & _ & Hprog & Hn' & Hr' & _);
        [now apply (env_sourceUp w) | now apply (env_targetUp w) | done |].
      rewrite (env_source _ _ He), Hsrc in Hrun, Hprog, Hn'.
      cbn [serve src_pageNodes] in Hrun, Hprog, Hn'.
      rewrite map_page, (safeIds_nodes g Hsafe) in Hrun, Hprog, Hn'.
      fold ns in Hrun, Hprog, Hn'.
      eapply wp_ok; [exact Hrun|]. simpl.
      pose proof (page_length ns p b) as Hlen.
      split; [lia|]. split; [lia|]. split; [congruence|].
      split; [congruence|]. split.
      * rewrite Hn', take_plus, !map_app, Htags.
        apply Permutation_app_head.
        rewrite nodesByLabels_tags. unfold page.
        now rewrite take_length_take.
      * rewrite Hprog. simpl. exact Hst.
    + unfold Inv. subst w1. simpl. rewrite Hempty.
      repeat split; [lia | done].
  - intros [[]|e|] w' H; simpl in *; try done.
    destruct H as (p' & Hge & Hle & He & Hr & Htags & Hst).
    rewrite take_ge in Htags by lia.
    unfold taggedBy, nodeIds. rewrite map_map. repeat split; try done.
Qed.

Lemma relsByType_values relsData :
  concat (relsByType relsData).*2 ≡ₚ relsData.
Proof.
  rewrite relsByType_groupBy, (groupBy_values relType id relsData []).
  simpl. now rewrite map_id.
Qed.

Lemma copyRelationships_up b cb g fuel w :
  2 <= b -> sourceUp w -> targetUp w -> polite cb -> safeIds g ->
  w_source w = serve g -> wellFormed g ->
  taggedBy (nodeIds g) (t_nodes (w_target w)) ->
  t_rels (w_target w) = [] ->
  length (sg_rels g) <= fuel ->
  wp (copyRelationships b fuel (reportRelationships cb)) w
     (returns (fun _ w' =>
        envOf w' = envOf w /\
        t_nodes (w_target w') = t_nodes (w_target w) /\
        length (t_rels (w_target w')) = length (sg_rels g) /\
        stage (w_progress w') = stage (w_progress w))).
Proof.
  intros Hb Hsup Htup Hp Hsafe Hsrc Hwf Htag Hempty Hfuel.
  pose proof (safeIds_rels g Hwf Hsafe) as Hrels.
  destruct Hwf as [Hnd Hends]. unfold copyRelationships.
  eapply wp_bind_ok; [reflexivity|]. apply wp_session.
  eapply wp_bind_ok; [now apply sourceRun_up|].
  cbn [w_source set_sessions emit]. rewrite Hsrc. cbn [serve src_countRels].
  set (rs := sg_rels g) in *. set (w1 := tick_source _).
  apply wp_whileLt_rewrite_rels.
  assert (Hlimit : 1 <= relBatchSize b).
  { unfold relBatchSize. change 1 with (2 / 2).
    now apply Nat.Div0.div_le_mono. }
  pose (Inv := fun (p : nat) (w0 : World) =>
    p <= length rs /\ envOf w0 = envOf w /\
    t_nodes (w_target w0) = t_nodes (w_target w) /\
    length (t_rels (w_target w0)) = p /\
    stage (w_progress w0) = stage (w_progress w)).
  eapply wp_mono.
  - apply (whileLt_returns Inv) with (processed := 0); [|lia|].
    + intros p w0 Hlt (Hle & He & Hn & Hlen & Hst).
      destruct (relsTurn_up b cb (length rs) p w0)
        as (w' & Hrun & He' & _ & Hprog & Hn' & Hr' & _);
        [now apply (env_sourceUp w) | now apply (env_targetUp w) | done |].
      rewrite (env_source _ _ He), Hsrc in Hrun, Hprog, Hr'.
      cbn [serve src_pageRels] in Hrun, Hprog, Hr'.
      fold rs in Hrun, Hprog, Hr'.
      rewrite map_page, Hrels in Hrun, Hprog, Hr'.
      eapply wp_ok; [exact Hrun|]. simpl.
      pose proof (page_length rs p (relBatchSize b)) as Hpl.
      split; [lia|]. split; [lia|]. split; [congruence|].
      split; [congruence|]. split.
      * rewrite Hr', length_app, Hlen. f_equal.
        rewrite (relsCreated_length (nodeIds g)); [| done | congruence |].
        -- now rewrite relsByType_values.
        -- intros rel Hin. rewrite relsByType_values in Hin.
           apply Hends. now apply page_elem in Hin.
      * rewrite Hprog. simpl. exact Hst.
    + unfold Inv. subst w1. simpl. rewrite Hempty.
      repeat split; try done; lia.
  - intros [[]|e|] w' H; simpl in *; try done.
    destruct H as (p' & Hge & Hle & He & Hn & Hlen & Hst).
    repeat split; try done. lia.
Qed.

(** ** The whole run when nothing fails *)

Lemma storeSide_parts w w' :
  storeSide w' = storeSide w ->
  envOf w' = envOf w /\ w_target w' = w_target w /\
  w_progress w' = w_progress w.
Proof.
  unfold storeSide. intros H.
  pose proof (f_equal (fun x => x.1.1.1.1.1) H) as He.
  pose proof (f_equal (fun x => x.1.2) H) as Ht.
  pose proof (f_equal (fun x => x.2) H) as Hp.
  simpl in *. auto.
Qed.

Lemma announce_up {B} cb s (k : M B) w Q :
  polite cb ->
  (forall w', envOf w' = envOf w -> w_target w' = w_target w ->
              stage (w_progress w') = s -> wp k w' Q) ->
  wp (setStage s ;;; notify cb ;;; k) w Q.
Proof.
  intros Hp Hk. eapply wp_bind_ok; [reflexivity|].
  match goal with |- wp (bind (notify cb) _) ?w0 _ =>
    destruct (notify_up cb w0 Hp) as (w1 & Hrun & Hs & _) end.
  eapply wp_bind_ok; [exact Hrun|].
  apply storeSide_parts in Hs as (He & Ht & Hpr).
  apply Hk; [exact He | exact Ht | now rewrite Hpr].
Qed.

Lemma removeSourceId_clean (ns : list TargetNode) n :
  n ∈ map (fun n => mkTargetNode (tn_labels n)
                      (delete "source_id" (tn_props n))) ns ->
  tn_props n !! "source_id" = None.
Proof.
  intros Hin. apply list_elem_of_In, in_map_iff in Hin as (n0 & <- & _).
  simpl. apply lookup_delete_eq.
Qed.

Lemma taggedBy_length ids ns : taggedBy ids ns -> length ns = length ids.
Proof.
  intros Htag. apply Permutation_length in Htag.
  now rewrite !length_map in Htag.
Qed.

(** The run up to the relationships stage: the target holds one node per
    source node, tagged with its identifier, and no relationship. *)
Lemma replicate_prefix_up b cb g fuel w (rest : M unit) Q :
  1 <= b -> w_source w = serve g -> safeIds g ->
  sourceUp w -> targetUp w -> polite cb ->
  length (sg_nodes g) <= fuel ->
  (forall w8,
      envOf w8 = envOf w ->
      taggedBy (nodeIds g) (t_nodes (w_target w8)) ->
      t_rels (w_target w8) = [] ->
      wp rest w8 Q) ->
  wp (console LLog MStarting ;;;
      counts <- getTotalCounts ;;
      setProgress (fun _ => mkProgress counts.1 0 counts.2 0 clearing) ;;;
      notify cb ;;;
      clearTargetDatabase ;;;
      setStage schema ;;;
      notify cb ;;;
      copySchema ;;;
      setStage nodes ;;;
      notify cb ;;;
      copyNodes b fuel (reportNodes cb) ;;;
      setStage relationships ;;;
      notify cb ;;;
      rest) w Q.
Proof.
  intros Hb Hsrc Hsafe Hsup Htup Hp HfN Hrest.
  eapply wp_bind_ok; [reflexivity|].
  eapply wp_returns_use; [apply getTotalCounts_up; exact Hsup|].
  intros counts w1 (_ & He1 & _ & _).
  eapply wp_bind_ok; [reflexivity|].
  match goal with |- wp (bind (notify cb) _) ?w0 _ =>
    destruct (notify_up cb w0 Hp) as (w2 & Hrun & Hs & _) end.
  eapply wp_bind_ok; [exact Hrun|]. clear Hrun.
  apply storeSide_parts in Hs as (He2 & _ & _).
  assert (E2 : envOf w2 = envOf w) by (etrans; [exact He2 | exact He1]).
  clear He1 He2.
  eapply wp_returns_use;
    [apply clearTargetDatabase_up; now apply (env_targetUp w)|].
  intros _ w3 (He3 & Hg3 & _).
  assert (E3 : envOf w3 = envOf w) by congruence.
  apply announce_up; [done|]. intros w4 He4 Ht4 _.
  assert (E4 : envOf w4 = envOf w) by congruence.
  eapply wp_returns_use; [apply copySchema_up; now apply (env_sourceUp w)|].
  intros _ w5 (He5 & Hg5 & _).
  assert (E5 : envOf w5 = envOf w) by congruence.
  assert (G5 : graphOf w5 = ([], [])).
  { rewrite Hg5. unfold graphOf. now rewrite Ht4. }
  apply announce_up; [done|]. intros w6 He6 Ht6 _.
  assert (E6 : envOf w6 = envOf w) by congruence.
  unfold graphOf in G5. rewrite <- Ht6 in G5. injection G5 as Hn6 Hr6.
  eapply wp_returns_use.
  { apply (copyNodes_up b cb g); try done.
    - now apply (env_sourceUp w).
    - now apply (env_targetUp w).
    - now rewrite (env_source _ _ E6). }
  intros _ w7 (He7 & Hr7 & Htag7 & _).
  assert (E7 : envOf w7 = envOf w) by congruence.
  apply announce_up; [done|]. intros w8 He8 Ht8 _.
  apply Hrest; [congruence | now rewrite Ht8 | rewrite Ht8; congruence].
Qed.

Lemma replicateBody_up b cb g fuel w :
  2 <= b -> wellFormed g -> safeIds g -> w_source w = serve g ->
  sourceUp w -> targetUp w -> polite cb ->
  length (sg_nodes g) <= fuel -> length (sg_rels g) <= fuel ->
  wp (replicateBody b cb fuel) w
     (returns (fun _ w' =>
        envOf w' = envOf w /\
        length (t_nodes (w_target w')) = length (sg_nodes g) /\
        length (t_rels (w_target w')) = length (sg_rels g) /\
        (forall n, n ∈ t_nodes (w_target w') ->
                   tn_props n !! "source_id" = None) /\
        stage (w_progress w') = complete)).
Proof.
  intros Hb Hwf Hsafe Hsrc Hsup Htup Hp HfN HfM. unfold replicateBody.
  apply (replicate_prefix_up b cb g); try done; [lia|].
  intros w8 E8 Htag8 Hr8.
  eapply wp_returns_use.
  { apply (copyRelationships_up b cb g); try done.
    - now apply (env_sourceUp w).
    - now apply (env_targetUp w).
    - now rewrite (env_source _ _ E8). }
  intros _ w9 (He9 & Hn9 & Hr9 & _).
  assert (E9 : envOf w9 = envOf w) by congruence.
  apply announce_up; [done|]. intros w10 He10 Ht10 _.
  assert (E10 : envOf w10 = envOf w) by congruence.
  eapply wp_returns_use; [apply cleanupStage_up; now apply (env_targetUp w)|].
  intros _ w11 (He11 & _ & Hr11 & Hn11).
  apply announce_up; [done|]. intros w12 He12 Ht12 Hst12.
  eapply wp_ok; [reflexivity|]. simpl. rewrite Ht12.
  split; [change (envOf w12 = envOf w); congruence|].
  split; [|split; [|split]].
  - rewrite Hn11, length_map, Ht10, Hn9.
    rewrite (taggedBy_length _ _ Htag8). unfold nodeIds.
    now rewrite length_map.
  - rewrite Hr11, Ht10. exact Hr9.
  - intros n Hin. rewrite Hn11 in Hin. now apply removeSourceId_clean in Hin.
  - exact Hst12.
Qed.

Lemma copyRelationships_spins b cb w :
  sourceUp w -> polite cb ->
  0 < src_countRels (w_source w) ->
  src_pageRels (w_source w) 0 (relBatchSize b) = [] ->
  forall fuel,
    (copyRelationships b fuel (reportRelationships cb) w).1 = Diverge.
Proof.
  intros Hup Hp Hcount Hpage fuel.
  unfold copyRelationships, bind at 1, console, bind at 1, openSession,
    tryFinally, bind at 1.
  rewrite sourceRun_up by exact Hup. cbn [w_source set_sessions emit].
  match goal with |- context [copyRelationshipsLoop _ _ _ _ _ ?w0] =>
    assert (Hd : (copyRelationshipsLoop b fuel (reportRelationships cb)
                    (src_countRels (w_source w)) 0 w0).1 = Diverge) end.
  { rewrite copyRelationshipsLoop_while.
    apply (whileLt_spins (fun w0 => envOf w0 = envOf w));
      [lia | | reflexivity].
    intros w0 He0.
    destruct (relsTurn_empty_page b cb (src_countRels (w_source w)) 0 w0)
      as (w' & Hr & He');
      [now apply (env_sourceUp w) | done | now rewrite (env_source _ _ He0) |].
    exists w'. split; [done | congruence]. }
  destruct (copyRelationshipsLoop _ _ _ _ _ _) as [[[]|e|] w2]; now simpl in *.
Qed.

(** With a batch size of one the page size of the relationship copier is
    [int(0.5) = 0]: on any source that holds a relationship the run is still
    in the relationships stage after any number of turns. *)
Lemma batch_of_one_spins cb g fuel w :
  w_source w = serve g -> safeIds g -> sourceUp w -> targetUp w -> polite cb ->
  length (sg_nodes g) <= fuel -> 0 < length (sg_rels g) ->
  (replicateDatabase 1 cb fuel w).1 = Diverge.
Proof.
  intros Hsrc Hsafe Hsup Htup Hp HfN HM.
  assert (Hbody : wp (replicateBody 1 cb fuel) w (fun r _ => r = Diverge)).
  { unfold replicateBody. apply (replicate_prefix_up 1 cb g); try done.
    intros w8 E8 _ _. apply wp_bind. unfold wp.
    pose proof (copyRelationships_spins 1 cb w8) as Hspin.
    rewrite (env_source _ _ E8), Hsrc in Hspin.
    rewrite (Hspin (env_sourceUp _ _ E8 Hsup) Hp HM eq_refl fuel).
    reflexivity. }
  unfold wp in Hbody. unfold replicateDatabase, tryCatch.
  destruct (replicateBody 1 cb fuel w) as [[[]|e|] w']; now simpl in *.
Qed.

(** C1 fails on the code for a batch size of one: the source has two nodes
    and one relationship, nothing fails, and [replicateDatabase] does not
    end, whatever the number of turns it is given. *)
Theorem batch_size_one_never_completes :
  forall fuel, (replicateDatabase 1 None fuel tinyWorld).1 = Diverge.
Proof.
  intros [|[|fuel]].
  - vm_compute. reflexivity.
  - vm_compute. reflexivity.
  - apply (batch_of_one_spins None tinyGraph); try done;
      [repeat constructor | simpl; lia..].
Qed.

(** Count preservation for every batch size of two or more: on a source
    that stays as it is and whose identifiers are safe integers, with
    engines that do not fail and an observer that neither throws nor writes
    to the progress object, the run returns, the target holds exactly as
    many nodes and relationships as the source, and no target node carries
    [source_id]. *)
Theorem replication_preserves_counts b cb g fuel w :
  2 <= b -> wellFormed g -> safeIds g -> w_source w = serve g ->
  sourceUp w -> targetUp w -> polite cb ->
  length (sg_nodes g) <= fuel -> length (sg_rels g) <= fuel ->
  exists w',
    replicateDatabase b cb fuel w = (Ok tt, w') /\
    length (t_nodes (w_target w')) = length (sg_nodes g) /\
    length (t_rels (w_target w')) = length (sg_rels g) /\
    (forall n, n ∈ t_nodes (w_target w') ->
               tn_props n !! "source_id" = None) /\
    stage (w_progress w') = complete /\
    w_sessions w' = w_sessions w.
Proof.
  intros Hb Hwf Hsafe Hsrc Hsup Htup Hp HfN HfM.
  destruct (wp_returns_eq _ _ _
              (replicateBody_up b cb g fuel w Hb Hwf Hsafe Hsrc Hsup Htup Hp
                 HfN HfM))
    as ([] & w' & Hrun & _ & Hn & Hr & Hclean & Hst).
  assert (Hrun' : replicateDatabase b cb fuel w = (Ok tt, w')).
  { unfold replicateDatabase, tryCatch. now rewrite Hrun. }
  exists w'. repeat split; try done.
  pose proof (balanced_replicateDatabase b cb fuel w) as Hbal.
  rewrite Hrun' in Hbal. now apply Hbal.
Qed.

Lemma demoGraph_wellFormed : wellFormed demoGraph.
Proof.
  split.
  - apply (bool_decide_unpack _). vm_compute. exact I.
  - intros rel Hin. simpl in Hin.
    rewrite !elem_of_cons, elem_of_nil in Hin.
    destruct Hin as [->|[->|[->|[]]]]; split;
      apply (bool_decide_unpack _); vm_compute; exact I.
Qed.

Lemma demoGraph_safeIds : safeIds demoGraph.
Proof. repeat constructor. Qed.

Lemma replication_preserves_counts_witness :
  exists w',
    replicateDatabase 2 silentObserver 5 demoWorld = (Ok tt, w') /\
    length (t_nodes (w_target w')) = 5 /\
    length (t_rels (w_target w')) = 3.
Proof.
  destruct (replication_preserves_counts 2 silentObserver demoGraph 5 demoWorld)
    as (w' & Hrun & Hn & Hr & _).
  - lia.
  - apply demoGraph_wellFormed.
  - apply demoGraph_safeIds.
  - reflexivity.
  - intros k. reflexivity.
  - intros k. reflexivity.
  - intros p. reflexivity.
  - simpl. lia.
  - simpl. lia.
  - exists w'. split; [exact Hrun|]. split; [exact Hn | exact Hr].
Defined.

(** ** Batch boundaries of the node copier *)

Lemma whileLt_done body fuel total processed :
  total <= processed -> whileLt body fuel total processed = ret tt.
Proof.
  intros Hle. destruct fuel; cbn [whileLt];
    destruct (Nat.ltb_spec processed total); try lia; reflexivity.
Qed.

Lemma pageRequests_app t1 t2 :
  pageRequests (t1 ++ t2) = pageRequests t1 ++ pageRequests t2.
Proof. apply omap_app. Qed.

Lemma reportedNodes_app t1 t2 :
  reportedNodes (t1 ++ t2) = reportedNodes t1 ++ reportedNodes t2.
Proof. apply omap_app. Qed.

Lemma pageRequests_nodeStatements groups :
  pageRequests (nodeStatements groups) = [].
Proof. induction groups as [|g groups IH]; [done | exact IH]. Qed.

Lemma reportedNodes_nodeStatements groups :
  reportedNodes (nodeStatements groups) = [].
Proof. induction groups as [|g groups IH]; [done | exact IH]. Qed.

(** One turn of the node loop with an observer that does not throw, seen
    through the trace. *)
Lemma nodesTurn_observed b observer total p w :
  sourceUp w -> targetUp w -> (forall q, (observer q).1 = None) ->
  let n := length (src_pageNodes (w_source w) p b) in
  exists w' t,
    nodesTurn b (reportNodes (Some observer)) total p w = (Ok (p + n), w') /\
    envOf w' = envOf w /\
    w_trace w' = w_trace w ++ t /\
    pageRequests t = [(p, b)] /\
    reportedNodes t = [p + n].
Proof.
  intros Hsup Htup Hobs n. unfold nodesTurn, bind at 1, sourceRun.
  rewrite Hsup. set (data := map nodeOfRecord _). set (w1 := tick_source _).
  assert (Hn : length data = n) by apply length_map.
  assert (Hw2 : exists w2,
             when (0 <? length data)%nat (createNodesInTarget data) w1
               = (Ok tt, w2) /\
             sourceSide w2 = sourceSide w1 /\
             w_trace w2 = w_trace w1 ++ nodeStatements (nodesByLabels data)).
  { destruct data as [|d data'].
    - exists w1. simpl. now rewrite !(right_id_L [] (++)).
    - destruct (createNodesInTarget_up (d :: data') w1 Htup)
        as (w2 & H1 & H2 & H3 & _).
      exists w2. auto. }
  destruct Hw2 as (w2 & Hrun2 & Hs2 & Ht2).
  unfold bind at 1. rewrite Hrun2. cbv zeta.
  unfold bind at 1, reportNodes, bind at 1, setProcessedNodes, setProgress,
    notify.
  cbv zeta. cbn [w_progress set_progress]. rewrite Hobs.
  unfold bind, console, ret. rewrite Hn.
  eexists _, _. split; [reflexivity|].
  unfold sourceSide, envOf in *. simpl in *.
  injection Hs2 as E1 E2 E3 E4 E5 E6 E7 E8.
  split; [congruence|]. split.
  - rewrite Ht2. rewrite <- !(assoc_L (++)). reflexivity.
  - split.
    + rewrite !pageRequests_app, pageRequests_nodeStatements. reflexivity.
    + rewrite !reportedNodes_app, reportedNodes_nodeStatements. reflexivity.
Qed.

(** C4: with a batch size of 2 and a source of exactly 5 nodes the node
    copier sends exactly three paging requests, at offsets 0, 2 and 4 with
    limit 2, which fetch 2, 2 and 1 nodes, and the observer is called with
    the processed counts 2, 4, 5, in that order. *)
Theorem five_nodes_in_batches_of_two g observer fuel w :
  length (sg_nodes g) = 5 -> w_source w = serve g ->
  sourceUp w -> targetUp w -> (forall p, (observer p).1 = None) ->
  3 <= fuel ->
  exists w' t,
    copyNodes 2 fuel (reportNodes (Some observer)) w = (Ok tt, w') /\
    w_trace w' = w_trace w ++ t /\
    pageRequests t = [(0, 2); (2, 2); (4, 2)] /\
    map (fun r => length (src_pageNodes (w_source w) r.1 r.2)) (pageRequests t)
      = [2; 2; 1] /\
    reportedNodes t = [2; 4; 5].
Proof.
  intros Hlen Hsrc Hsup Htup Hobs Hfuel.
  destruct fuel as [|[|[|fuel]]]; try lia. clear Hfuel.
  assert (Hpage : forall p, length (src_pageNodes (w_source w) p 2)
                            = 2 `min` (5 - p)).
  { intros p. rewrite Hsrc. simpl. now rewrite page_length, Hlen. }
  assert (Hgoal : wp (copyNodes 2 (S (S (S fuel)))
                        (reportNodes (Some observer))) w
            (returns (fun _ w' =>
               exists t, w_trace w' = w_trace w ++ t /\
                         pageRequests t = [(0, 2); (2, 2); (4, 2)] /\
                         reportedNodes t = [2; 4; 5]))).
  { unfold copyNodes.
    eapply wp_bind_ok; [reflexivity|]. apply wp_session.
    eapply wp_bind_ok; [now apply sourceRun_up|].
    cbn [w_source set_sessions emit]. rewrite Hsrc. cbn [serve src_countNodes].
    rewrite Hlen. set (w0 := tick_source _).
    assert (E0 : envOf w0 = envOf w) by reflexivity.
    apply wp_whileLt_rewrite_nodes. cbn [whileLt Nat.ltb Nat.leb].
    destruct (nodesTurn_observed 2 observer 5 0 w0)
      as (w1 & t1 & Hrun1 & He1 & Ht1 & Hp1 & Hr1);
      [now apply (env_sourceUp w) | now apply (env_targetUp w) | done |].
    rewrite (env_source _ _ E0), Hpage in Hrun1, Hr1.
    eapply wp_bind_ok; [exact Hrun1|]. cbn [whileLt Nat.ltb Nat.leb Nat.add Nat.min Nat.sub].
    assert (E1 : envOf w1 = envOf w) by congruence.
    destruct (nodesTurn_observed 2 observer 5 2 w1)
      as (w2 & t2 & Hrun2 & He2 & Ht2 & Hp2 & Hr2);
      [now apply (env_sourceUp w) | now apply (env_targetUp w) | done |].
    rewrite (env_source _ _ E1), Hpage in Hrun2, Hr2.
    eapply wp_bind_ok; [exact Hrun2|]. cbn [whileLt Nat.ltb Nat.leb Nat.add Nat.min Nat.sub].
    assert (E2 : envOf w2 = envOf w) by congruence.
    destruct (nodesTurn_observed 2 observer 5 4 w2)
      as (w3 & t3 & Hrun3 & He3 & Ht3 & Hp3 & Hr3);
      [now apply (env_sourceUp w) | now apply (env_targetUp w) | done |].
    rewrite (env_source _ _ E2), Hpage in Hrun3, Hr3.
    eapply wp_bind_ok; [exact Hrun3|]. cbn [Nat.add Nat.min Nat.sub].
    rewrite whileLt_done by lia. apply wp_ret. simpl.
    exists ([EvConsole LLog MCopyingNodes; EvSource SqCountNodes]
            ++ t1 ++ t2 ++ t3).
    split; [|split].
    - rewrite Ht3, Ht2, Ht1. subst w0. simpl.
      rewrite <- !(assoc_L (++)). reflexivity.
    - rewrite !pageRequests_app, Hp1, Hp2, Hp3. reflexivity.
    - rewrite !reportedNodes_app, Hr1, Hr2, Hr3. reflexivity. }
  destruct (wp_returns_eq _ _ _ Hgoal) as ([] & w' & Hrun & t & Ht & Hp & Hr).
  exists w', t. split; [exact Hrun|]. split; [exact Ht|].
  split; [exact Hp|]. split; [|exact Hr].
  rewrite Hp. simpl. now rewrite !Hpage.
Qed.

Lemma five_nodes_in_batches_of_two_witness :
  exists w' t,
    copyNodes 2 3 (reportNodes silentObserver) demoWorld = (Ok tt, w') /\
    w_trace w' = t /\
    pageRequests t = [(0, 2); (2, 2); (4, 2)] /\
    reportedNodes t = [2; 4; 5].
Proof.
  destruct (five_nodes_in_batches_of_two demoGraph (fun p => (None, p)) 3
              demoWorld)
    as (w' & t & Hrun & Ht & Hp & _ & Hr).
  - reflexivity.
  - reflexivity.
  - intros k. reflexivity.
  - intros k. reflexivity.
  - intros p. reflexivity.
  - lia.
  - exists w', t. split; [exact Hrun|]. split; [exact Ht|].
    split; [exact Hp | exact Hr].
Defined.

(** ** The order of the stages *)

Section ProtocolFacts.
Variable supplied strict : bool.


(** A silent move changes nothing to the moves events make. *)
Lemma step_skip p q e r :
  skip supplied p = Some q -> step supplied strict q e = Some r ->
    step supplied strict p e = Some r.
Proof.
  unfold step.
  destruct p as [|k|s|s|s k|s|s|]; try discriminate.
  - simpl. destruct supplied; [discriminate|]. intros [= <-]. simpl.
    destruct e; try done.
  - destruct s; do 5 (try destruct k as [|k]); try discriminate;
      intros [= <-]; simpl.
    all: destruct e as [[]|[]|[] []|pr]; simpl; try done;
      destruct supplied; simpl; try done.
  - simpl. destruct supplied; [discriminate|]. intros [= <-]. simpl.
    destruct e as [[]|[]|[] []|pr]; destruct s; simpl; try done.
Qed.

Lemma reaches_step p q e r :
  reaches supplied p q -> step supplied strict q e = Some r ->
    step supplied strict p e = Some r.
Proof.
  induction 1 as [|p p' q Hs _ IH]; [done|].
  intros Hstep. eapply step_skip; eauto.
Qed.

Lemma runEvents_app pos t1 t2 pos1 :
  runEvents supplied strict pos t1 = Some pos1 ->
  runEvents supplied strict pos (t1 ++ t2) = runEvents supplied strict pos1 t2.
Proof.
  revert pos. induction t1 as [|e t1 IH]; intros pos; simpl.
  - now intros [= ->].
  - destruct (step supplied strict pos e); [apply IH | discriminate].
Qed.

Lemma follows_onTrack base g w : follows supplied strict base g w ->
  onTrack supplied strict base w.
Proof. intros [(pos & t & Ht & Hr & _) _]. now exists pos, t. Qed.

Lemma follows_emit base pos st sure pos' e w :
  follows supplied strict base (pos, st, sure) w ->
    step supplied strict pos e = Some pos' ->
  follows supplied strict base (pos', st, sure) (emit e w).
Proof.
  intros [(pos0 & t & Ht & Hr & Hreach) Hst] Hstep. split; [|exact Hst].
  exists pos', (t ++ [e]). simpl. split; [now rewrite Ht, (assoc_L (++))|].
  split; [|apply rtc_refl].
  rewrite (runEvents_app _ _ _ _ Hr). simpl.
  now rewrite (reaches_step _ _ _ _ Hreach Hstep).
Qed.

Lemma follows_skip base pos pos' st sure w :
  skip supplied pos = Some pos' ->
  follows supplied strict base (pos, st, sure) w ->
    follows supplied strict base (pos', st, sure) w.
Proof.
  intros Hskip [(pos0 & t & Ht & Hr & Hreach) Hst]. split; [|exact Hst].
  exists pos0, t. split; [exact Ht|]. split; [exact Hr|].
  eapply rtc_r; [exact Hreach | exact Hskip].
Qed.

Lemma smoves_moves {A} g g' (m : M A) : smoves supplied strict g g' m ->
  moves supplied strict g g' m.
Proof.
  intros H base w Hf. eapply wp_mono; [apply (H base w Hf)|].
  intros [a|e|] w'; simpl; eauto using follows_onTrack.
Qed.

Lemma moves_ret {A} g (a : A) : moves supplied strict g g (ret a).
Proof. intros base w Hf. exact Hf. Qed.

Lemma smoves_ret {A} g (a : A) : smoves supplied strict g g (ret a).
Proof. intros base w Hf. exact Hf. Qed.

Lemma moves_diverge {A} g g' : moves supplied strict g g' (@diverge A).
Proof. intros base w Hf. apply (follows_onTrack _ _ _ Hf). Qed.

Lemma moves_bind {A B} g g1 g2 (m : M A) (k : A -> M B) :
  moves supplied strict g g1 m ->
    (forall a, moves supplied strict g1 g2 (k a)) ->
    moves supplied strict g g2 (bind m k).
Proof.
  intros Hm Hk base w Hf. apply wp_bind.
  eapply wp_mono; [apply (Hm base w Hf)|].
  intros [a|e|] w'; simpl; auto. intros Hf'. apply (Hk a base w' Hf').
Qed.

Lemma smoves_bind {A B} g g' (m : M A) (k : A -> M B) :
  smoves supplied strict g g' m ->
    (forall a, smoves supplied strict g' g' (k a)) ->
    smoves supplied strict g g' (bind m k).
Proof.
  intros Hm Hk base w Hf. apply wp_bind.
  eapply wp_mono; [apply (Hm base w Hf)|].
  intros [a|e|] w'; simpl; auto. intros Hf'. apply (Hk a base w' Hf').
Qed.

Lemma moves_tryCatch {A} g g' (m : M A) h :
  smoves supplied strict g g' m ->
    (forall e, moves supplied strict g' g' (h e)) ->
    moves supplied strict g g' (tryCatch m h).
Proof.
  intros Hm Hh base w Hf. apply wp_tryCatch.
  eapply wp_mono; [apply (Hm base w Hf)|].
  intros [a|e|] w'; simpl; auto. intros Hf'. apply (Hh e base w' Hf').
Qed.

Lemma moves_forEach {A} g (l : list A) body :
  (forall x, moves supplied strict g g (body x)) ->
    moves supplied strict g g (forEach l body).
Proof.
  intros Hb. induction l as [|x l IH]; simpl.
  - apply moves_ret.
  - eapply moves_bind; [apply Hb | intros _; apply IH].
Qed.

Lemma moves_when g b m : moves supplied strict g g m ->
  moves supplied strict g g (when b m).
Proof. destruct b; simpl; auto using moves_ret. Qed.

Lemma moves_session {A} g g' (m : M A) :
  moves supplied strict g g' m ->
    moves supplied strict g g' (openSession ;;; tryFinally m closeSession).
Proof.
  intros Hm base w Hf. unfold wp, bind, openSession, tryFinally, closeSession.
  simpl.
  assert (Hf1 : follows supplied strict base g (set_sessions (S (w_sessions w))
    w))
    by exact Hf.
  specialize (Hm base _ Hf1). unfold wp in Hm.
  destruct (m _) as [[a|e|] w1]; simpl in *; try done.
Qed.

Lemma moves_two_sessions {A} g g' (m : M A) :
  moves supplied strict g g' m ->
  moves supplied strict g g' (openSession ;;; openSession ;;;
              tryFinally m (closeSession ;;; closeSession)).
Proof.
  intros Hm base w Hf. unfold wp, bind, openSession, tryFinally, closeSession.
  simpl.
  assert (Hf1 : follows supplied strict base g
                  (set_sessions (S (S (w_sessions w)))
                     (set_sessions (S (w_sessions w)) w)))
    by exact Hf.
  specialize (Hm base _ Hf1). unfold wp in Hm.
  destruct (m _) as [[a|e|] w1]; simpl in *; try done.
Qed.

Lemma smoves_console pos pos' st sure lvl msg :
  step supplied strict pos (EvConsole lvl msg) = Some pos' ->
  smoves supplied strict (pos, st, sure) (pos', st, sure) (console lvl msg).
Proof. intros Hstep base w Hf. exact (follows_emit _ _ _ _ _ _ _ Hf Hstep). Qed.

Lemma smoves_sourceRun {A} pos pos' st sure q (answer : SourceDb -> A) :
  step supplied strict pos (EvSource q) = Some pos' ->
  smoves supplied strict (pos, st, sure) (pos', st, sure) (sourceRun q answer).
Proof.
  intros Hstep base w Hf. unfold wp, sourceRun.
  pose proof (follows_emit _ _ _ _ _ _ _ Hf Hstep) as Hf'.
  destruct (w_sourceFail w (w_sourceRuns w)); exact Hf'.
Qed.

Lemma smoves_targetRun {A} pos pos' st sure q
    (effect : TargetDb -> A * TargetDb) :
  step supplied strict pos (EvTarget q) = Some pos' ->
  smoves supplied strict (pos, st, sure) (pos', st, sure) (targetRun q effect).
Proof.
  intros Hstep base w Hf. unfold wp, targetRun.
  pose proof (follows_emit _ _ _ _ _ _ _ Hf Hstep) as Hf'.
  destruct (w_targetFail w (w_targetRuns w)); [exact Hf'|].
  destruct (effect (w_target w)). exact Hf'.
Qed.

Lemma smoves_setStage pos st sure s :
  smoves supplied strict (pos, st, sure) (pos, s, true) (setStage s).
Proof. intros base w [Hm _]. split; [exact Hm | reflexivity]. Qed.

Lemma smoves_setProgress pos st sure p :
  smoves supplied strict (pos, st, sure) (pos, stage p, true) (setProgress (fun
    _ => p)).
Proof. intros base w [Hm _]. split; [exact Hm | reflexivity]. Qed.

Lemma smoves_setProcessedNodes pos st sure n :
  smoves supplied strict (pos, st, sure) (pos, st, sure) (setProcessedNodes n).
Proof. intros base w [Hm Hst]. split; [exact Hm | exact Hst]. Qed.

Lemma smoves_setProcessedRelationships pos st sure n :
  smoves supplied strict (pos, st, sure) (pos, st, sure)
    (setProcessedRelationships n).
Proof. intros base w [Hm Hst]. split; [exact Hm | exact Hst]. Qed.

End ProtocolFacts.

Lemma follows_unsure supplied strict base pos st sure w :
  follows supplied strict base (pos, st, sure) w ->
  follows supplied strict base (pos, st, false) w.
Proof.
  intros [Hpath Hst]. split; [exact Hpath|].
  intros [|Hs]; [done | apply Hst; now right].
Qed.

Lemma reaches_Finished supplied pos :
  reaches supplied pos Finished -> pos = Finished.
Proof.
  intros H. apply rtc_inv_r in H as [->|(p & _ & Hskip)]; [done|].
  destruct p as [|k|s|s|s k|s|s|]; simpl in Hskip; try discriminate.
  - now destruct supplied.
  - destruct s; do 5 (try destruct k as [|k]); discriminate.
  - now destruct supplied.
Qed.

Section Stages.
Variable batchSize : nat.
Variable progressCallback : option Observer.
Variable strict : bool.
Hypothesis Hreads : strict = true -> reads progressCallback.


(** The call at a stage transition: the replicator has just written the
    tag. *)
Lemma smoves_notify_due s :
  smoves (isSupplied progressCallback) strict (Due s, s, true) (Told s, s,
    false) (notify progressCallback).
Proof.
  intros base w Hf. unfold wp, notify.
  destruct progressCallback as [observer|]; cbn [isSupplied] in *.
  - assert (Hst : stage (w_progress w) = s) by (apply Hf; now left).
    assert (Hf' : follows true strict base (Told s, s, false)
                    (set_progress (observer (w_progress w)).2
                       (emit (EvObserver (w_progress w)) w))).
    { destruct (follows_emit true strict base (Due s) s true (Told s)
                  (EvObserver (w_progress w)) w Hf) as [Hpath _].
      { unfold step. simpl. now rewrite Hst, bool_decide_eq_true_2. }
      split; [exact Hpath|]. intros [|Hs]; [done|]. simpl.
      now rewrite (Hreads Hs). }
    destruct (observer (w_progress w)).1; exact Hf'.
  - apply (follows_unsure _ _ _ _ _ true).
    now apply (follows_skip false strict base (Due s)).
Qed.

Lemma smoves_notify_end pos s :
  skip (isSupplied progressCallback) pos = Some (Due s) ->
  smoves (isSupplied progressCallback) strict (pos, s, true) (Told s, s, false)
    (notify progressCallback).
Proof.
  intros Hskip base w Hf. apply smoves_notify_due.
  now apply (follows_skip _ _ _ pos).
Qed.

(** The call after a page: the tag is the one the object holds. *)
Lemma smoves_notify_page s sure :
  smoves (isSupplied progressCallback) strict (Fetched s, s, sure) (Paged s, s,
    false) (notify progressCallback).
Proof.
  intros base w Hf. unfold wp, notify.
  destruct progressCallback as [observer|]; cbn [isSupplied] in *.
  - assert (Hf' : follows true strict base (Paged s, s, false)
                    (set_progress (observer (w_progress w)).2
                       (emit (EvObserver (w_progress w)) w))).
    { destruct (follows_emit true strict base (Fetched s) s sure (Paged s)
                  (EvObserver (w_progress w)) w Hf) as [Hpath _].
      { unfold step. simpl. destruct strict eqn:Hs; [|done]. simpl.
        destruct Hf as [_ Hst]. simpl in Hst.
        now rewrite Hst, bool_decide_eq_true_2 by auto. }
      split; [exact Hpath|]. intros [|Hs]; [done|]. simpl.
      rewrite (Hreads Hs). apply Hf. now right. }
    destruct (observer (w_progress w)).1; exact Hf'.
  - apply (follows_unsure _ _ _ _ _ sure).
    now apply (follows_skip false strict base (Fetched s)).
Qed.

Ltac moves_leaf :=
  first
    [ eapply smoves_console; reflexivity
    | eapply smoves_sourceRun; reflexivity
    | eapply smoves_targetRun; reflexivity
    | apply smoves_notify_due
    | eapply smoves_notify_end; reflexivity
    | apply smoves_notify_page
    | apply smoves_setStage
    | apply smoves_setProgress
    | apply smoves_setProcessedNodes
    | apply smoves_setProcessedRelationships
    | apply smoves_ret ].

Create HintDb mov discriminated.

Ltac moves_step :=
  cbv zeta;
  lazymatch goal with
  | |- moves _ _ _ _ (openSession ;;; openSession ;;; tryFinally _ _) =>
      eapply moves_two_sessions
  | |- moves _ _ _ _ (openSession ;;; tryFinally _ _) => eapply moves_session
  | |- moves _ _ _ _ (bind _ _) => eapply moves_bind; [ | intros ?]
  | |- moves _ _ _ _ (tryCatch _ _) => eapply moves_tryCatch; [ | intros ?]
  | |- moves _ _ _ _ (forEach _ _) => eapply moves_forEach; intros ?
  | |- moves _ _ _ _ (when _ _) => eapply moves_when
  | |- moves _ _ _ _ (ret _) => eapply moves_ret
  | |- moves _ _ _ _ diverge => eapply moves_diverge
  | |- moves _ _ _ _ (if ?b then _ else _) => destruct b
  | |- moves _ _ _ _ (match ?o with _ => _ end) => destruct o
  | |- smoves _ _ _ _ (bind _ _) => eapply smoves_bind; [ | intros ?]
  | |- smoves _ _ _ _ (if ?b then _ else _) => destruct b
  | |- smoves _ _ _ _ _ => moves_leaf
  | |- moves _ _ _ _ _ =>
      first [ solve [eauto with mov] | apply smoves_moves; moves_leaf ]
  end.

Ltac solve_moves := repeat moves_step.

Lemma moves_getTotalCounts st sure :
  moves (isSupplied progressCallback) strict (Counting 0, st, sure) (Due
    clearing, st, sure) getTotalCounts.
Proof. unfold getTotalCounts. solve_moves. Qed.

Lemma moves_clearTargetDatabase st sure :
  moves (isSupplied progressCallback) strict (Told clearing, st, sure) (At
    clearing 4, st, sure) clearTargetDatabase.
Proof.
  unfold clearTargetDatabase, dropOneConstraint, dropOneIndex. solve_moves.
Qed.

Lemma moves_copySchema st sure :
  moves (isSupplied progressCallback) strict (Told schema, st, sure) (At schema
    2, st, sure) copySchema.
Proof. unfold copySchema, copyConstraint, copyIndex. solve_moves. Qed.

Lemma moves_createNodesInTarget st sure nodesData :
  moves (isSupplied progressCallback) strict (Fetched nodes, st, sure) (Fetched
    nodes, st, sure)
    (createNodesInTarget nodesData).
Proof. unfold createNodesInTarget, createNodeGroup. solve_moves. Qed.

Lemma moves_createRelationshipsInTarget st sure relsData :
  moves (isSupplied progressCallback) strict (Fetched relationships, st, sure)
    (Fetched relationships, st, sure)
    (createRelationshipsInTarget relsData).
Proof. unfold createRelationshipsInTarget, createRelGroup. solve_moves. Qed.

Hint Resolve moves_getTotalCounts moves_clearTargetDatabase moves_copySchema
  moves_createNodesInTarget moves_createRelationshipsInTarget : mov.

Lemma moves_reportNodes sure n :
  moves (isSupplied progressCallback) strict (Fetched nodes, nodes, sure)
    (Paged nodes, nodes, false)
    (reportNodes progressCallback n).
Proof. unfold reportNodes. solve_moves. Qed.

Lemma moves_reportRelationships sure n :
  moves (isSupplied progressCallback) strict (Fetched relationships,
    relationships, sure)
    (Paged relationships, relationships, false)
    (reportRelationships progressCallback n).
Proof. unfold reportRelationships. solve_moves. Qed.

Hint Resolve moves_reportNodes moves_reportRelationships : mov.

Lemma moves_copyNodesLoop fuel total processed :
  moves (isSupplied progressCallback) strict (At nodes 1, nodes, false) (At
    nodes 1, nodes, false)
    (copyNodesLoop batchSize fuel (reportNodes progressCallback) total
       processed).
Proof.
  revert processed. induction fuel as [|fuel IH]; intros processed;
    cbn [copyNodesLoop]; solve_moves.
Qed.

Lemma moves_copyRelationshipsLoop fuel total processed :
  moves (isSupplied progressCallback) strict (At relationships 1,
    relationships, false)
    (At relationships 1, relationships, false)
    (copyRelationshipsLoop batchSize fuel
       (reportRelationships progressCallback) total processed).
Proof.
  revert processed. induction fuel as [|fuel IH]; intros processed;
    cbn [copyRelationshipsLoop]; solve_moves.
Qed.

Hint Resolve moves_copyNodesLoop moves_copyRelationshipsLoop : mov.

Lemma moves_copyNodes fuel :
  moves (isSupplied progressCallback) strict (Told nodes, nodes, false) (At
    nodes 1, nodes, false)
    (copyNodes batchSize fuel (reportNodes progressCallback)).
Proof. unfold copyNodes. solve_moves. Qed.

Lemma moves_copyRelationships fuel :
  moves (isSupplied progressCallback) strict (Told relationships,
    relationships, false)
    (At relationships 1, relationships, false)
    (copyRelationships batchSize fuel (reportRelationships progressCallback)).
Proof. unfold copyRelationships. solve_moves. Qed.

Lemma moves_cleanupStage st sure :
  moves (isSupplied progressCallback) strict (Told cleanup, st, sure) (At
    cleanup 2, st, sure) cleanupStage.
Proof. unfold cleanupStage. solve_moves. Qed.

Hint Resolve moves_copyNodes moves_copyRelationships moves_cleanupStage : mov.

Lemma moves_replicateBody fuel st sure :
  moves (isSupplied progressCallback) strict (Start, st, sure) (Finished,
    complete, false)
    (replicateBody batchSize progressCallback fuel).
Proof. unfold replicateBody. solve_moves. Qed.

End Stages.

(** With an observer that is told at every call what the object holds, a
    move shortens the list of the tags still to come by the tag it shows. *)
Lemma step_tags p e p' :
  step true true p e = Some p' ->
  squashAfter (lastTag p) (tagsOf [e]) ++ remaining p' = remaining p /\
  lastTag p' = match tagsOf [e] with
               | s :: _ => Some s
               | [] => lastTag p
               end.
Proof.
  unfold step.
  destruct p as [|k|s|s|s k|s|s|]; try destruct s;
    do 5 (try destruct k as [|k]);
    destruct e as [[]|[]|[] []|[? ? ? ? []]]; simpl; try discriminate;
    intros [= <-]; split; reflexivity.
Qed.

Lemma runEvents_tags t p p' :
  runEvents true true p t = Some p' ->
  squashAfter (lastTag p) (tagsOf t) ++ remaining p' = remaining p.
Proof.
  revert p. induction t as [|e t IH]; intros p; cbn [runEvents].
  - now intros [= ->].
  - destruct (step true true p e) as [p1|] eqn:Hstep; [|discriminate].
    intros Hrun. specialize (IH p1 Hrun).
    destruct (step_tags _ _ _ Hstep) as [Hrem Hlast].
    destruct e as [q|q|lvl m|pr];
      try (change (squashAfter (lastTag p) (tagsOf t) ++ remaining p'
                   = remaining p);
           cbn in Hrem, Hlast; rewrite <- Hrem, <- Hlast; exact IH).
    change (tagsOf (EvObserver pr :: t)) with (stage pr :: tagsOf t).
    cbn in Hrem, Hlast. cbn [squashAfter]. rewrite Hlast in IH.
    destruct (bool_decide (lastTag p = Some (stage pr))) eqn:Hd.
    + apply bool_decide_eq_true_1 in Hd. rewrite Hd.
      cbn in Hrem. rewrite <- Hrem. exact IH.
    + cbn in Hrem. rewrite <- Hrem. cbn. now rewrite IH.
Qed.




(** * Further properties *)

(** ** Labels through the key and the label clause *)

Lemma split_free c s : occurs c s = false -> split c s = [s].
Proof.
  induction s as [|a s IH]; simpl; [done|].
  destruct (Ascii.eqb a c); simpl; [discriminate|].
  intros H. now rewrite (IH H).
Qed.

Lemma split_sep c s t :
  occurs c s = false -> split c (s +:+ String c t) = s :: split c t.
Proof.
  induction s as [|a s IH]; simpl.
  - intros _. now rewrite Ascii.eqb_refl.
  - destruct (Ascii.eqb a c); simpl; [discriminate|].
    intros H. now rewrite (IH H).
Qed.

(** [split] undoes [join] on a non-empty array whose elements do not hold
    the separator. *)
Lemma split_join c (l : list string) :
  l <> [] -> Forall (fun s => occurs c s = false) l ->
  split c (join (String c "") l) = l.
Proof.
  induction l as [|x l IH]; [done|]. intros _ Hall.
  apply Forall_cons in Hall as [Hx Hl].
  destruct l as [|y l]; [now apply split_free|].
  change (join (String c "") (x :: y :: l))
    with (x +:+ String c (join (String c "") (y :: l))).
  rewrite split_sep by done. f_equal. now apply IH.
Qed.

Lemma join_truthy sep x (l : list string) :
  x <> "" -> truthy (join sep (x :: l)) = true.
Proof.
  intros Hx. destruct x as [|a x]; [done|]. now destruct l.
Qed.

Lemma labelsOfKey_join (l : list string) :
  Forall (fun s => s <> "" /\ occurs ","%char s = false) l ->
  labelsOfKey (join "," l) = l.
Proof.
  intros Hall. destruct l as [|x l]; [reflexivity|].
  unfold labelsOfKey. apply Forall_cons in Hall as Hc. destruct Hc as [[Hx _] _].
  rewrite join_truthy by done. apply split_join; [done|].
  eapply Forall_impl; [exact Hall|]. now intros s [_ Hs].
Qed.

Lemma parseLabelClause_labelClauseOf (l : list string) :
  Forall (fun s => occurs ":"%char s = false) l ->
  parseLabelClause (labelClauseOf l) = l.
Proof.
  intros Hall. destruct l as [|x l]; [reflexivity|].
  unfold labelClauseOf. cbn [length Nat.ltb Nat.leb].
  change (":" +:+ join ":" (x :: l)) with (String ":" (join ":" (x :: l))).
  cbn [parseLabelClause]. now apply split_join.
Qed.

Lemma readBack_plain (node : NodeData) :
  Forall plainLabel (labels node) ->
  readBack node = sort (labels node).
Proof.
  intros Hall. unfold readBack, clauseOfKey, labelKey.
  assert (Hsorted : Forall plainLabel (sort (labels node))).
  { now rewrite sort_Permutation. }
  rewrite labelsOfKey_join.
  - apply parseLabelClause_labelClauseOf.
    eapply Forall_impl; [exact Hsorted|]. now intros s (_ & _ & Hs).
  - eapply Forall_impl; [exact Hsorted|]. now intros s (Hs & Hc & _).
Qed.

Lemma allOf_occurs p c s :
  p c = false -> allOf p s = true -> occurs c s = false.
Proof.
  intros Hc. induction s as [|a s IH]; [done|]. simpl.
  intros [Ha Hs]%andb_prop. rewrite (IH Hs), orb_false_r.
  destruct (Ascii.eqb_spec a c) as [->|]; [congruence | done].
Qed.

Lemma identifier_occurs c s :
  isLetter c = false -> isDigit c = false ->
  identifier s = true -> occurs c s = false.
Proof.
  intros Hl Hd. destruct s as [|a s]; [done|]. simpl.
  intros [Ha Hs]%andb_prop.
  assert (Hc : (fun c0 => isLetter c0 || isDigit c0) c = false)
    by (cbv beta; now rewrite Hl, Hd).
  rewrite (allOf_occurs _ c s Hc Hs), orb_false_r.
  destruct (Ascii.eqb_spec a c) as [->|]; [congruence | done].
Qed.

Lemma identifier_plain s : identifier s = true -> plainLabel s.
Proof.
  intros Hs. split; [now destruct s|].
  split; now apply identifier_occurs.
Qed.

Lemma identifierLabels_plain node :
  identifierLabels node -> Forall plainLabel (labels node).
Proof.
  intros Hall. eapply Forall_impl; [exact Hall|]. apply identifier_plain.
Qed.

Lemma clauseOfKey_plain (node : NodeData) :
  Forall plainLabel (labels node) ->
  clauseOfKey (labelKey node) = labelClauseOf (sort (labels node)).
Proof.
  intros Hall. unfold clauseOfKey, labelKey.
  rewrite labelsOfKey_join; [done|].
  rewrite sort_Permutation.
  eapply Forall_impl; [exact Hall|]. now intros s (Hs & Hc & _).
Qed.

(** X1: when every label of a node is an identifier, the clause
    [createNodesInTarget] writes into its [CREATE] statement is the node's
    labels, sorted, each after a colon (nothing for a node without labels),
    and the labels the engine reads from it are the node's labels,
    sorted. *)
Theorem identifier_labels_are_written_sorted (node : NodeData) :
  identifierLabels node ->
  clauseOfKey (labelKey node) = labelClauseOf (sort (labels node)) /\
  readBack node = sort (labels node).
Proof.
  intros Hall%identifierLabels_plain. split.
  - now apply clauseOfKey_plain.
  - now apply readBack_plain.
Qed.

Lemma identifier_labels_are_written_sorted_witness :
  clauseOfKey (labelKey (label 10 ["B"; "A"])) = ":A:B" /\
  readBack (label 10 ["B"; "A"]) = ["A"; "B"].
Proof.
  apply (identifier_labels_are_written_sorted (label 10 ["B"; "A"])).
  repeat constructor.
Defined.

(** ** Resolution of the end points of a relationship *)

Lemma matchNodes_spec z ns i j :
  j ∈ matchNodes z ns i ->
  i <= j /\ exists n, ns !! (j - i) = Some n /\ tagOf n = Some z.
Proof.
  revert i. induction ns as [|n ns IH]; intros i; cbn [matchNodes].
  - intros H. now apply elem_of_nil in H.
  - intros H. apply elem_of_app in H as [H|H].
    + rewrite hasSourceId_tagOf in H.
      destruct (decide (tagOf n = Some z)) as [Heq|Hne].
      * rewrite bool_decide_eq_true_2 in H by done.
        apply list_elem_of_singleton in H as ->. split; [lia|].
        rewrite Nat.sub_diag. now exists n.
      * rewrite bool_decide_eq_false_2 in H by done.
        now apply elem_of_nil in H.
    + destruct (IH _ H) as (Hle & n' & Hl & Ht). split; [lia|].
      exists n'. split; [|done].
      replace (j - i) with (S (j - S i)) by lia. exact Hl.
Qed.

Lemma matchNodes_untagged z ns i : untagged z ns -> matchNodes z ns i = [].
Proof.
  revert i. induction ns as [|n ns IH]; intros i Hun; cbn [matchNodes]; [done|].
  rewrite hasSourceId_tagOf, bool_decide_eq_false_2 by (apply Hun; left).
  apply IH. intros n' Hin. apply Hun. now right.
Qed.

Lemma createdRels_resolved ids ns rType rel :
  NoDup ids -> taggedBy ids ns ->
  startId rel ∈ ids -> endId rel ∈ ids ->
  map (relSeen ns) (createdRels rType ns rel)
  = [(Some (startId rel), Some (endId rel), rType, relProperties rel)].
Proof.
  intros Hnd Htag Hs He. unfold createdRels.
  pose proof (matchNodes_once ids ns _ 0 Hnd Htag Hs) as Ha.
  pose proof (matchNodes_once ids ns _ 0 Hnd Htag He) as Hb.
  destruct (matchNodes (startId rel) ns 0) as [|a [|]] eqn:Ea; try done.
  destruct (matchNodes (endId rel) ns 0) as [|b' [|]] eqn:Eb; try done.
  assert (Hina : a ∈ matchNodes (startId rel) ns 0) by (rewrite Ea; left).
  assert (Hinb : b' ∈ matchNodes (endId rel) ns 0) by (rewrite Eb; left).
  apply matchNodes_spec in Hina as (_ & na & Hla & Hta).
  apply matchNodes_spec in Hinb as (_ & nb & Hlb & Htb).
  rewrite Nat.sub_0_r in Hla, Hlb.
  simpl. unfold relSeen, endTag. simpl. now rewrite Hla, Hlb, Hta, Htb.
Qed.

Lemma createdRels_dangling ns rType rel :
  untagged (startId rel) ns \/ untagged (endId rel) ns ->
  createdRels rType ns rel = [].
Proof.
  intros [H|H]; unfold createdRels.
  - now rewrite (matchNodes_untagged _ _ 0 H).
  - rewrite (matchNodes_untagged _ _ 0 H).
    induction (matchNodes (startId rel) ns 0) as [|a l IH]; [done | exact IH].
Qed.

Lemma relsByType_members relsData key group rel :
  (key, group) ∈ relsByType relsData -> rel ∈ group -> relType rel = key.
Proof.
  rewrite relsByType_groupBy.
  apply (groupBy_members (fun k r => relType r = k)).
  - reflexivity.
  - intros k0 vs0 x Hin. now apply elem_of_nil in Hin.
Qed.

Lemma relsCreated_seen ids ns (groups : list (string * list RelationshipData)) :
  NoDup ids -> taggedBy ids ns ->
  (forall key group rel,
      (key, group) ∈ groups -> rel ∈ group ->
      relType rel = key /\ startId rel ∈ ids /\ endId rel ∈ ids) ->
  map (relSeen ns) (relsCreated ns groups) = map relFacts (concat groups.*2).
Proof.
  intros Hnd Htag. induction groups as [|[ty rs] groups IH]; intros Hall;
    [done|].
  cbn [relsCreated flat_map]. rewrite fmap_cons. cbn [concat snd fst].
  rewrite !map_app. fold (relsCreated ns groups). f_equal.
  - assert (Hrs : forall rel, rel ∈ rs ->
              relType rel = ty /\ startId rel ∈ ids /\ endId rel ∈ ids).
    { intros rel Hin. apply (Hall ty rs); [left | done]. }
    clear Hall IH. induction rs as [|rel rs IHrs]; [done|].
    cbn [flat_map map]. rewrite map_app.
    destruct (Hrs rel) as (Hty & Hs & He); [left|].
    rewrite (createdRels_resolved ids) by done.
    rewrite IHrs by (intros r Hr; apply Hrs; now right).
    unfold relFacts. now rewrite Hty.
  - apply IH. intros key group rel Hg. apply Hall. now right.
Qed.

Lemma concat_groups_elem {A} (groups : list (string * list A)) x :
  x ∈ concat groups.*2 <-> exists key group, (key, group) ∈ groups /\ x ∈ group.
Proof.
  induction groups as [|[k g] groups IH].
  - split; [intros H; now apply elem_of_nil in H|].
    intros (k & g & H & _). now apply elem_of_nil in H.
  - rewrite fmap_cons. cbn [concat snd]. rewrite elem_of_app, IH. split.
    + intros [H|(k' & g' & Hin & Hx)].
      * exists k, g. split; [left | done].
      * exists k', g'. split; [now right | done].
    + intros (k' & g' & Hin & Hx). apply elem_of_cons in Hin as [Heq|Hin].
      * inversion Heq; subst. now left.
      * right. eauto.
Qed.


Lemma relsCreated_dangling ns (groups : list (string * list RelationshipData)) :
  (forall rel, rel ∈ concat groups.*2 ->
     untagged (startId rel) ns \/ untagged (endId rel) ns) ->
  relsCreated ns groups = [].
Proof.
  induction groups as [|[ty rs] groups IH]; intros Hall; [done|].
  cbn [relsCreated flat_map]. fold (relsCreated ns groups).
  rewrite fmap_cons in Hall. cbn [concat snd] in Hall.
  rewrite IH by (intros rel Hin; apply Hall, elem_of_app; now right).
  rewrite (right_id_L [] (++)). cbn [fst snd].
  assert (Hrs : forall rel, rel ∈ rs ->
            untagged (startId rel) ns \/ untagged (endId rel) ns).
  { intros rel Hin. apply Hall, elem_of_app. now left. }
  clear Hall IH. induction rs as [|rel rs IHrs]; [done|].
  cbn [flat_map]. rewrite createdRels_dangling by (apply Hrs; left).
  apply IHrs. intros r Hr'. apply Hrs. now right.
Qed.

(** X3: a batch in which every record has an end point that no target node
    carries as its tag creates nothing and raises nothing. *)
Theorem dangling_relationships_are_dropped relsData w :
  targetUp w ->
  (forall rel, rel ∈ relsData ->
     untagged (startId rel) (t_nodes (w_target w)) \/
     untagged (endId rel) (t_nodes (w_target w))) ->
  exists w',
    createRelationshipsInTarget relsData w = (Ok tt, w') /\
    t_nodes (w_target w') = t_nodes (w_target w) /\
    t_rels (w_target w') = t_rels (w_target w).
Proof.
  intros Hup Hdang.
  destruct (createRelationshipsInTarget_up relsData w Hup)
    as (w' & Hrun & _ & _ & Hn & Hr).
  exists w'. split; [exact Hrun|]. split; [exact Hn|]. rewrite Hr.
  rewrite relsCreated_dangling; [apply (right_id_L [] (++))|].
  intros rel Hin. apply Hdang. now rewrite <- (relsByType_values relsData).
Qed.

(** ** What the run copies *)

Lemma nodesCreated_members (groups : list (string * list NodeData)) :
  (forall key group node,
      (key, group) ∈ groups -> node ∈ group -> join "," (labels node) = key) ->
  nodesCreated groups
  = map (fun n => createdNode
                    (parseLabelClause (clauseOfKey (join "," (labels n)))) n)
        (concat groups.*2).
Proof.
  induction groups as [|[key ns] groups IH]; intros Hall; [done|].
  cbn [nodesCreated flat_map]. fold (nodesCreated groups).
  rewrite fmap_cons. cbn [concat snd fst]. rewrite map_app. f_equal.
  - apply map_ext_in. intros n Hin. apply list_elem_of_In in Hin.
    now rewrite (Hall key ns n) by (done || left).
  - apply IH. intros k g n Hg. apply Hall. now right.
Qed.

Lemma nodesByLabels_copies nodesData :
  nodesCreated (nodesByLabels nodesData) ≡ₚ map stagedCopy nodesData.
Proof.
  rewrite nodesCreated_members
    by (intros key group node; apply nodesByLabels_members).
  rewrite nodesByLabels_groupBy.
  rewrite (groupBy_values labelKey sortLabels nodesData []). simpl.
  now rewrite map_map.
Qed.

Lemma stagedCopy_tags (ns : list NodeData) :
  map tagOf (map stagedCopy ns) = map Some (map nodeId ns).
Proof.
  rewrite !map_map. apply map_ext. intros n. apply tagOf_createdNode.
Qed.

Lemma copyNodes_copies b cb g fuel w :
  1 <= b -> sourceUp w -> targetUp w -> polite cb -> safeIds g ->
  w_source w = serve g -> t_nodes (w_target w) = [] ->
  length (sg_nodes g) <= fuel ->
  wp (copyNodes b fuel (reportNodes cb)) w
     (returns (fun _ w' =>
        envOf w' = envOf w /\
        t_rels (w_target w') = t_rels (w_target w) /\
        t_nodes (w_target w') ≡ₚ map stagedCopy (sg_nodes g))).
Proof.
  intros Hb Hsup Htup Hp Hsafe Hsrc Hempty Hfuel. unfold copyNodes.
  eapply wp_bind_ok; [reflexivity|]. apply wp_session.
  eapply wp_bind_ok; [now apply sourceRun_up|].
  cbn [w_source set_sessions emit]. rewrite Hsrc. cbn [serve src_countNodes].
  set (ns := sg_nodes g) in *. set (w1 := tick_source _).
  apply wp_whileLt_rewrite_nodes.
  pose (Inv := fun (p : nat) (w0 : World) =>
    p <= length ns /\ envOf w0 = envOf w /\
    t_rels (w_target w0) = t_rels (w_target w) /\
    t_nodes (w_target w0) ≡ₚ map stagedCopy (take p ns)).
  eapply wp_mono.
  - apply (whileLt_returns Inv) with (processed := 0); [|lia|].
    + intros p w0 Hlt (Hle & He & Hr & Hcopies).
      destruct (nodesTurn_up b cb (length ns) p w0)
        as (w' & Hrun & He' & _ & _ & Hn' & Hr' & _);
        [now apply (env_sourceUp w) | now apply (env_targetUp w) | done |].
      rewrite (env_source _ _ He), Hsrc in Hrun, Hn'.
      cbn [serve src_pageNodes] in Hrun, Hn'.
      rewrite map_page, (safeIds_nodes g Hsafe) in Hrun, Hn'.
      fold ns in Hrun, Hn'.
      eapply wp_ok; [exact Hrun|]. simpl.
      pose proof (page_length ns p b) as Hlen.
      split; [lia|]. split; [lia|]. split; [congruence|].
      split; [congruence|].
      rewrite Hn', take_plus, map_app, Hcopies.
      apply Permutation_app_head.
      rewrite nodesByLabels_copies. unfold page.
      now rewrite take_length_take.
    + unfold Inv. subst w1. simpl. rewrite Hempty.
      repeat split; [lia | done].
  - intros [[]|e|] w' H; simpl in *; try done.
    destruct H as (p' & Hge & Hle & He & Hr & Hcopies).
    rewrite take_ge in Hcopies by lia. repeat split; done.
Qed.

Lemma copyRelationships_links b cb g fuel w :
  2 <= b -> sourceUp w -> targetUp w -> polite cb -> safeIds g ->
  w_source w = serve g -> wellFormed g ->
  taggedBy (nodeIds g) (t_nodes (w_target w)) ->
  t_rels (w_target w) = [] ->
  length (sg_rels g) <= fuel ->
  wp (copyRelationships b fuel (reportRelationships cb)) w
     (returns (fun _ w' =>
        envOf w' = envOf w /\
        t_nodes (w_target w') = t_nodes (w_target w) /\
        map (relSeen (t_nodes (w_target w))) (t_rels (w_target w'))
        ≡ₚ map relFacts (sg_rels g))).
Proof.
  intros Hb Hsup Htup Hp Hsafe Hsrc Hwf Htag Hempty Hfuel.
  pose proof (safeIds_rels g Hwf Hsafe) as Hrels.
  destruct Hwf as [Hnd Hends]. unfold copyRelationships.
  eapply wp_bind_ok; [reflexivity|]. apply wp_session.
  eapply wp_bind_ok; [now apply sourceRun_up|].
  cbn [w_source set_sessions emit]. rewrite Hsrc. cbn [serve src_countRels].
  set (rs := sg_rels g) in *. set (w1 := tick_source _).
  apply wp_whileLt_rewrite_rels.
  assert (Hlimit : 1 <= relBatchSize b).
  { unfold relBatchSize. change 1 with (2 / 2).
    now apply Nat.Div0.div_le_mono. }
  pose (Inv := fun (p : nat) (w0 : World) =>
    p <= length rs /\ envOf w0 = envOf w /\
    t_nodes (w_target w0) = t_nodes (w_target w) /\
    map (relSeen (t_nodes (w_target w))) (t_rels (w_target w0))
    ≡ₚ map relFacts (take p rs)).
  eapply wp_mono.
  - apply (whileLt_returns Inv) with (processed := 0); [|lia|].
    + intros p w0 Hlt (Hle & He & Hn & Hseen).
      destruct (relsTurn_up b cb (length rs) p w0)
        as (w' & Hrun & He' & _ & _ & Hn' & Hr' & _);
        [now apply (env_sourceUp w) | now apply (env_targetUp w) | done |].
      rewrite (env_source _ _ He), Hsrc in Hrun, Hr'.
      cbn [serve src_pageRels] in Hrun, Hr'.
      fold rs in Hrun, Hr'.
      rewrite map_page, Hrels in Hrun, Hr'.
      eapply wp_ok; [exact Hrun|]. simpl.
      pose proof (page_length rs p (relBatchSize b)) as Hpl.
      split; [lia|]. split; [lia|]. split; [congruence|].
      split; [congruence|].
      rewrite Hr', Hn, take_plus, !map_app, Hseen.
      apply Permutation_app_head.
      rewrite (relsCreated_seen (nodeIds g)); [| done | done |].
      * rewrite relsByType_values. unfold page.
        now rewrite take_length_take.
      * intros key group rel Hg Hin.
        split; [now apply (relsByType_members (page rs p (relBatchSize b)) key group)|].
        apply Hends. apply (page_elem rs p (relBatchSize b)).
        rewrite <- (relsByType_values (page rs p (relBatchSize b))).
        apply concat_groups_elem. eauto.
    + unfold Inv. subst w1. simpl. rewrite Hempty.
      repeat split; try done; lia.
  - intros [[]|e|] w' H; simpl in *; try done.
    destruct H as (p' & Hge & Hle & He & Hn & Hseen).
    rewrite take_ge in Hseen by lia. repeat split; done.
Qed.

(** The run up to the relationships stage: the target's nodes are the staged
    copies of the source's nodes, and it holds no relationship. *)
Lemma replicate_prefix_copies b cb g fuel w (rest : M unit) Q :
  1 <= b -> w_source w = serve g -> safeIds g ->
  sourceUp w -> targetUp w -> polite cb ->
  length (sg_nodes g) <= fuel ->
  (forall w8,
      envOf w8 = envOf w ->
      t_nodes (w_target w8) ≡ₚ map stagedCopy (sg_nodes g) ->
      t_rels (w_target w8) = [] ->
      wp rest w8 Q) ->
  wp (console LLog MStarting ;;;
      counts <- getTotalCounts ;;
      setProgress (fun _ => mkProgress counts.1 0 counts.2 0 clearing) ;;;
      notify cb ;;;
      clearTargetDatabase ;;;
      setStage schema ;;;
      notify cb ;;;
      copySchema ;;;
      setStage nodes ;;;
      notify cb ;;;
      copyNodes b fuel (reportNodes cb) ;;;
      setStage relationships ;;;
      notify cb ;;;
      rest) w Q.
Proof.
  intros Hb Hsrc Hsafe Hsup Htup Hp HfN Hrest.
  eapply wp_bind_ok; [reflexivity|].
  eapply wp_returns_use; [apply getTotalCounts_up; exact Hsup|].
  intros counts w1 (_ & He1 & _ & _).
  eapply wp_bind_ok; [reflexivity|].
  match goal with |- wp (bind (notify cb) _) ?w0 _ =>
    destruct (notify_up cb w0 Hp) as (w2 & Hrun & Hs & _) end.
  eapply wp_bind_ok; [exact Hrun|]. clear Hrun.
  apply storeSide_parts in Hs as (He2 & _ & _).
  assert (E2 : envOf w2 = envOf w) by (etrans; [exact He2 | exact He1]).
  clear He1 He2.
  eapply wp_returns_use;
    [apply clearTargetDatabase_up; now apply (env_targetUp w)|].
  intros _ w3 (He3 & Hg3 & _).
  assert (E3 : envOf w3 = envOf w) by congruence.
  apply announce_up; [done|]. intros w4 He4 Ht4 _.
  assert (E4 : envOf w4 = envOf w) by congruence.
  eapply wp_returns_use; [apply copySchema_up; now apply (env_sourceUp w)|].
  intros _ w5 (He5 & Hg5 & _).
  assert (E5 : envOf w5 = envOf w) by congruence.
  assert (G5 : graphOf w5 = ([], [])).
  { rewrite Hg5. unfold graphOf. now rewrite Ht4. }
  apply announce_up; [done|]. intros w6 He6 Ht6 _.
  assert (E6 : envOf w6 = envOf w) by congruence.
  unfold graphOf in G5. rewrite <- Ht6 in G5. injection G5 as Hn6 Hr6.
  eapply wp_returns_use.
  { apply (copyNodes_copies b cb g); try done.
    - now apply (env_sourceUp w).
    - now apply (env_targetUp w).
    - now rewrite (env_source _ _ E6). }
  intros _ w7 (He7 & Hr7 & Hcopies7).
  assert (E7 : envOf w7 = envOf w) by congruence.
  apply announce_up; [done|]. intros w8 He8 Ht8 _.
  apply Hrest; [congruence | now rewrite Ht8 | rewrite Ht8; congruence].
Qed.

Lemma endTag_stagedCopy (src : list NodeData) i :
  endTag (map stagedCopy src) i = nodeId <$> src !! i.
Proof.
  unfold endTag. rewrite list_lookup_fmap.
  destruct (src !! i) as [n|]; simpl; [apply tagOf_createdNode | done].
Qed.

Lemma replicateBody_copies b cb g fuel w :
  2 <= b -> wellFormed g -> safeIds g -> w_source w = serve g ->
  sourceUp w -> targetUp w -> polite cb ->
  length (sg_nodes g) <= fuel -> length (sg_rels g) <= fuel ->
  wp (replicateBody b cb fuel) w
     (returns (fun _ w' =>
        exists src,
          src ≡ₚ sg_nodes g /\
          t_nodes (w_target w') = map finalCopy src /\
          map (relEnds src) (t_rels (w_target w'))
          ≡ₚ map relFacts (sg_rels g))).
Proof.
  intros Hb Hwf Hsafe Hsrc Hsup Htup Hp HfN HfM. unfold replicateBody.
  apply (replicate_prefix_copies b cb g); try done; [lia|].
  intros w8 E8 Hcopies8 Hr8.
  apply Permutation_map_inv in Hcopies8 as (src & Hn8 & Hperm).
  assert (Htag8 : taggedBy (nodeIds g) (t_nodes (w_target w8))).
  { unfold taggedBy, nodeIds. rewrite Hn8, stagedCopy_tags.
    now rewrite Hperm. }
  eapply wp_returns_use.
  { apply (copyRelationships_links b cb g); try done.
    - now apply (env_sourceUp w).
    - now apply (env_targetUp w).
    - now rewrite (env_source _ _ E8). }
  intros _ w9 (He9 & Hn9 & Hseen9).
  assert (E9 : envOf w9 = envOf w) by congruence.
  apply announce_up; [done|]. intros w10 He10 Ht10 _.
  assert (E10 : envOf w10 = envOf w) by congruence.
  eapply wp_returns_use; [apply cleanupStage_up; now apply (env_targetUp w)|].
  intros _ w11 (He11 & _ & Hr11 & Hn11).
  apply announce_up; [done|]. intros w12 He12 Ht12 Hst12.
  eapply wp_ok; [reflexivity|]. simpl. rewrite Ht12.
  exists src. split; [now symmetry|]. split.
  - rewrite Hn11, Ht10, Hn9, Hn8, map_map. apply map_ext. intros n.
    unfold finalCopy, stagedCopy, createdNode. simpl.
    now rewrite delete_insert_eq.
  - rewrite Hr11, Ht10. rewrite <- Hseen9. rewrite Hn8.
    apply Permutation_refl'. apply map_ext. intros r.
    unfold relSeen, relEnds. now rewrite !endTag_stagedCopy.
Qed.

Lemma finalCopy_plain (src : list NodeData) :
  Forall identifierLabels src -> map finalCopy src = map cleanCopy src.
Proof.
  intros Hall. apply map_ext_in. intros n Hin.
  rewrite Forall_forall in Hall. unfold finalCopy, cleanCopy.
  rewrite readBack_plain; [done|].
  apply identifierLabels_plain, Hall. now apply list_elem_of_In.
Qed.


(** X5: under the same conditions (safe identifiers, labels that are
    identifiers), the target's nodes are, up to order, the source's nodes
    with their labels sorted and all their properties but [source_id]. *)
Theorem replication_preserves_nodes b cb g fuel w :
  2 <= b -> wellFormed g -> safeIds g -> w_source w = serve g ->
  sourceUp w -> targetUp w -> polite cb ->
  length (sg_nodes g) <= fuel -> length (sg_rels g) <= fuel ->
  (forall node, node ∈ sg_nodes g -> identifierLabels node) ->
  exists w',
    replicateDatabase b cb fuel w = (Ok tt, w') /\
    t_nodes (w_target w')
    ≡ₚ map (fun node => mkTargetNode (sort (labels node))
                          (delete "source_id" (properties node)))
           (sg_nodes g).
Proof.
  intros Hb Hwf Hsafe Hsrc Hsup Htup Hp HfN HfM Hplain.
  destruct (wp_returns_eq _ _ _
              (replicateBody_copies b cb g fuel w Hb Hwf Hsafe Hsrc Hsup Htup
                 Hp HfN HfM))
    as ([] & w' & Hrun & src & Hperm & Hn & Hr).
  exists w'. split.
  { unfold replicateDatabase, tryCatch. now rewrite Hrun. }
  rewrite Hn, <- Hperm. apply Permutation_refl'.
  apply map_ext_in. intros n Hin. unfold finalCopy.
  rewrite readBack_plain; [done|].
  apply identifierLabels_plain, Hplain. rewrite <- Hperm.
  now apply list_elem_of_In.
Qed.

(** ** Clearing the target when drops fail *)

Lemma targetRun_ok {A} q (effect : TargetDb -> A * TargetDb) w :
  w_targetFail w (w_targetRuns w) = None ->
  targetRun q effect w
    = (Ok (effect (w_target w)).1,
       set_target (effect (w_target w)).2
         (tick_target (emit (EvTarget q) w))).
Proof. intros Hok. unfold targetRun. rewrite Hok. now destruct (effect _). Qed.

Lemma dropOneConstraint_completes name w :
  dropOneConstraint name w = (Ok tt, tryDropConstraint name w).
Proof.
  unfold dropOneConstraint, tryDropConstraint, tryCatch, bind, targetRun,
    console.
  now destruct (w_targetFail w (w_targetRuns w)).
Qed.

Lemma dropOneIndex_completes name w :
  dropOneIndex name w = (Ok tt, tryDropIndex name w).
Proof.
  unfold dropOneIndex, tryDropIndex, tryCatch, bind, targetRun, console.
  now destruct (w_targetFail w (w_targetRuns w)).
Qed.

Lemma namesLeft_elem fail r names present name :
  name ∈ namesLeft fail r names present <->
  name ∈ present /\
  forall i, names !! i = Some name -> fail (r + i) <> None.
Proof.
  revert r present. induction names as [|n names IH]; intros r present;
    cbn [namesLeft].
  - split; [|tauto]. intros H. split; [done|]. intros i Hi. done.
  - rewrite IH. split.
    + intros [Hin Hrest]. split.
      * destruct (fail r); [done|].
        now apply list_elem_of_filter in Hin as [_ Hin].
      * intros [|i] Hi.
        -- injection Hi as ->. rewrite Nat.add_0_r.
           destruct (fail r); [done|].
           now apply list_elem_of_filter in Hin as [Hne _].
        -- replace (r + S i) with (S r + i) by lia. now apply Hrest.
    + intros [Hin Hall]. split.
      * destruct (fail r) eqn:Hf; [done|].
        apply list_elem_of_filter. split; [|done].
        intros ->. apply (Hall 0); [done|]. now rewrite Nat.add_0_r.
      * intros i Hi. replace (S r + i) with (r + S i) by lia.
        now apply Hall.
Qed.

Lemma tryDropConstraint_fold names w :
  let w' := foldl (fun w0 x => tryDropConstraint x w0) w names in
  w_targetFail w' = w_targetFail w /\
  w_targetRuns w' = w_targetRuns w + length names /\
  w_sessions w' = w_sessions w /\
  graphOf w' = graphOf w /\
  t_indexes (w_target w') = t_indexes (w_target w) /\
  t_constraints (w_target w')
  = namesLeft (w_targetFail w) (w_targetRuns w) names
      (t_constraints (w_target w)).
Proof.
  revert w. induction names as [|n names IH]; intros w; cbn [foldl].
  - simpl. rewrite Nat.add_0_r. repeat split.
  - destruct (IH (tryDropConstraint n w)) as (Hf & Hr & Hs & Hg & Hi & Hc).
    cbv zeta. rewrite Hf, Hr, Hs, Hg, Hi, Hc. clear.
    unfold tryDropConstraint.
    destruct (w_targetFail w (w_targetRuns w)) eqn:Hfail; simpl;
      rewrite Hfail; repeat split; lia.
Qed.

Lemma tryDropIndex_fold names w :
  let w' := foldl (fun w0 x => tryDropIndex x w0) w names in
  w_targetFail w' = w_targetFail w /\
  w_targetRuns w' = w_targetRuns w + length names /\
  w_sessions w' = w_sessions w /\
  graphOf w' = graphOf w /\
  t_constraints (w_target w') = t_constraints (w_target w) /\
  t_indexes (w_target w')
  = namesLeft (w_targetFail w) (w_targetRuns w) names
      (t_indexes (w_target w)).
Proof.
  revert w. induction names as [|n names IH]; intros w; cbn [foldl].
  - simpl. rewrite Nat.add_0_r. repeat split.
  - destruct (IH (tryDropIndex n w)) as (Hf & Hr & Hs & Hg & Hi & Hc).
    cbv zeta. rewrite Hf, Hr, Hs, Hg, Hi, Hc. clear.
    unfold tryDropIndex.
    destruct (w_targetFail w (w_targetRuns w)) eqn:Hfail; simpl;
      rewrite Hfail; repeat split; lia.
Qed.

Lemma clearTargetDatabase_drops w :
  let r := w_targetRuns w in
  let constraints := t_constraints (w_target w) in
  let indexes := t_indexes (w_target w) in
  w_targetFail w r = None ->
  w_targetFail w (r + 1) = None ->
  w_targetFail w (r + 2 + length constraints) = None ->
  exists w',
    clearTargetDatabase w = (Ok tt, w') /\
    t_nodes (w_target w') = [] /\ t_rels (w_target w') = [] /\
    w_sessions w' = w_sessions w /\
    w_targetFail w' = w_targetFail w /\
    w_targetRuns w' = r + 3 + length constraints + length indexes /\
    (forall name,
        name ∈ t_constraints (w_target w') <->
        name ∈ constraints /\
        forall i, constraints !! i = Some name ->
                  w_targetFail w (r + 2 + i) <> None) /\
    (forall name,
        name ∈ t_indexes (w_target w') <->
        name ∈ indexes /\
        forall i, indexes !! i = Some name ->
                  w_targetFail w (r + 3 + length constraints + i) <> None).
Proof.
  intros r constraints indexes H0 H1 H2.
  unfold clearTargetDatabase, bind at 1, console, bind at 1, openSession,
    tryFinally.
  set (w0 := set_sessions _ _).
  unfold bind at 1. rewrite targetRun_ok by exact H0.
  unfold bind at 1. cbn [fst snd].
  set (w1 := emit (EvConsole LLog MAllDeleted) _).
  unfold bind at 1. rewrite targetRun_ok
    by (simpl; fold r; now replace (S r) with (r + 1) by lia).
  cbn [fst snd].
  set (w2 := set_target _ _).
  unfold bind at 1.
  rewrite (forEach_completes _ _ tryDropConstraint)
    by apply dropOneConstraint_completes.
  pose proof (tryDropConstraint_fold (t_constraints (w_target w1)) w2) as Hc.
  set (w3 := foldl _ w2 _) in *. cbv zeta in Hc.
  destruct Hc as (Hf3 & Hr3 & Hs3 & Hg3 & Hi3 & Hc3).
  change (t_constraints (w_target w1)) with constraints in *.
  change (t_constraints (w_target w2)) with constraints in *.
  change (w_targetFail w2) with (w_targetFail w) in *.
  change (w_targetRuns w2) with (S (S r)) in *.
  change (w_sessions w2) with (S (w_sessions w)) in *.
  change (graphOf w2) with (@nil TargetNode, @nil TargetRel) in *.
  change (t_indexes (w_target w2)) with indexes in *.
  unfold bind at 1. rewrite targetRun_ok
    by (rewrite Hf3, Hr3;
        now replace (S (S r) + length constraints)
          with (r + 2 + length constraints) by lia).
  cbn [fst snd].
  set (w4 := set_target _ _).
  rewrite (forEach_completes _ _ tryDropIndex)
    by apply dropOneIndex_completes.
  pose proof (tryDropIndex_fold (t_indexes (w_target w3)) w4) as Hx.
  set (w5 := foldl _ w4 _) in *. cbv zeta in Hx.
  destruct Hx as (Hf5 & Hr5 & Hs5 & Hg5 & Hc5 & Hi5).
  change (w_targetFail w4) with (w_targetFail w3) in *.
  change (w_targetRuns w4) with (S (w_targetRuns w3)) in *.
  change (w_sessions w4) with (w_sessions w3) in *.
  change (graphOf w4) with (graphOf w3) in *.
  change (t_constraints (w_target w4)) with (t_constraints (w_target w3)) in *.
  change (t_indexes (w_target w4)) with (t_indexes (w_target w3)) in *.
  eexists. split; [reflexivity|].
  cbn [w_target set_sessions w_sessions w_targetFail w_targetRuns].
  rewrite Hg3 in Hg5. unfold graphOf in Hg5. injection Hg5 as Hn5 Hrel5.
  split; [exact Hn5|]. split; [exact Hrel5|].
  split; [rewrite Hs5, Hs3; reflexivity|].
  split; [rewrite Hf5; exact Hf3|].
  split; [rewrite Hr5, Hr3, Hi3; fold indexes; lia|]. split.
  - intros name. rewrite Hc5, Hc3, namesLeft_elem.
    apply and_iff_compat_l. split; intros H i Hi;
      [replace (r + 2 + i) with (S (S r) + i) by lia |
       replace (S (S r) + i) with (r + 2 + i) by lia]; now apply H.
  - intros name. rewrite Hi5, Hi3, Hf3, Hr3, namesLeft_elem.
    apply and_iff_compat_l. split; intros H i Hi;
      [replace (r + 3 + length constraints + i)
         with (S (S (S r) + length constraints) + i) by lia |
       replace (S (S (S r) + length constraints) + i)
         with (r + 3 + length constraints + i) by lia]; now apply H.
Qed.

(** X6: [clearTargetDatabase] returns whenever its [DETACH DELETE] and its
    two [SHOW] statements succeed, whatever happens to the [DROP]s: the
    target then holds no node and no relationship, the session is closed,
    and a constraint or index is still there exactly when every [DROP] sent
    for it failed. *)
Theorem clearing_survives_failed_drops w :
  let r := w_targetRuns w in
  let constraints := t_constraints (w_target w) in
  let indexes := t_indexes (w_target w) in
  w_targetFail w r = None ->
  w_targetFail w (r + 1) = None ->
  w_targetFail w (r + 2 + length constraints) = None ->
  exists w',
    clearTargetDatabase w = (Ok tt, w') /\
    t_nodes (w_target w') = [] /\ t_rels (w_target w') = [] /\
    w_sessions w' = w_sessions w /\
    (forall name,
        name ∈ t_constraints (w_target w') <->
        name ∈ constraints /\
        forall i, constraints !! i = Some name ->
                  w_targetFail w (r + 2 + i) <> None) /\
    (forall name,
        name ∈ t_indexes (w_target w') <->
        name ∈ indexes /\
        forall i, indexes !! i = Some name ->
                  w_targetFail w (r + 3 + length constraints + i) <> None).
Proof.
  intros r constraints indexes H0 H1 H2.
  destruct (clearTargetDatabase_drops w H0 H1 H2)
    as (w' & Hrun & Hn & Hr & Hs & _ & _ & Hc & Hi).
  exists w'. split; [exact Hrun|]. split; [exact Hn|]. split; [exact Hr|].
  split; [exact Hs|]. split; [exact Hc | exact Hi].
Qed.

Lemma no_names_left (l : list string) : (forall name, name ∉ l) -> l = [].
Proof.
  destruct l as [|x l]; [done|]. intros H. destruct (H x). left.
Qed.

(** X14: clearing is idempotent.  When the target does not fail,
    [clearTargetDatabase] leaves it without nodes, relationships,
    constraints and indexes, and clearing again returns as well, sends the
    three statements that are not drops and nothing else, and leaves the
    target empty. *)
Theorem clearing_is_idempotent w :
  targetUp w ->
  exists w1 w2,
    clearTargetDatabase w = (Ok tt, w1) /\
    clearTargetDatabase w1 = (Ok tt, w2) /\
    emptied w1 /\ emptied w2 /\
    w_targetRuns w2 = w_targetRuns w1 + 3.
Proof.
  intros Hup.
  destruct (clearTargetDatabase_drops w (Hup _) (Hup _) (Hup _))
    as (w1 & Hrun1 & Hn1 & Hr1 & _ & Hf1 & _ & Hc1 & Hi1).
  assert (Hup1 : targetUp w1) by (intros k; rewrite Hf1; apply Hup).
  assert (Hce : t_constraints (w_target w1) = []).
  { apply no_names_left. intros name Hin.
    apply Hc1 in Hin as [Hin Hfail].
    apply list_elem_of_lookup in Hin as [i Hi]. now apply (Hfail i). }
  assert (Hie : t_indexes (w_target w1) = []).
  { apply no_names_left. intros name Hin.
    apply Hi1 in Hin as [Hin Hfail].
    apply list_elem_of_lookup in Hin as [i Hi]. now apply (Hfail i). }
  destruct (clearTargetDatabase_drops w1 (Hup1 _) (Hup1 _) (Hup1 _))
    as (w2 & Hrun2 & Hn2 & Hr2 & _ & _ & Hruns2 & Hc2 & Hi2).
  exists w1, w2. split; [exact Hrun1|]. split; [exact Hrun2|].
  split; [done|]. split.
  - repeat split; try done; apply no_names_left; intros name Hin.
    + apply Hc2 in Hin as [Hin _]. rewrite Hce in Hin.
      now apply elem_of_nil in Hin.
    + apply Hi2 in Hin as [Hin _]. rewrite Hie in Hin.
      now apply elem_of_nil in Hin.
  - rewrite Hruns2, Hce, Hie. simpl. lia.
Qed.

Lemma clearing_is_idempotent_witness :
  exists w1 w2,
    clearTargetDatabase demoWorld = (Ok tt, w1) /\
    clearTargetDatabase w1 = (Ok tt, w2) /\
    w_target w1 = emptyTarget /\ w_target w2 = emptyTarget.
Proof.
  destruct (clearing_is_idempotent demoWorld)
    as (w1 & w2 & Hrun1 & Hrun2 & _).
  - intros k. reflexivity.
  - exists w1, w2. split; [exact Hrun1|]. split; [exact Hrun2|].
    vm_compute in Hrun1. injection Hrun1 as <-.
    vm_compute in Hrun2. injection Hrun2 as <-. split; reflexivity.
Defined.

(** ** The copy stages only add to the target *)

#[export] Instance grown_preorder : PreOrder grown.
Proof.
  split.
  - intros w. unfold grown. repeat split; reflexivity.
  - intros w1 w2 w3 (Hn & Hr & Hs & Hc & Hi) (Hn' & Hr' & Hs' & Hc' & Hi').
    unfold grown. repeat split; try (etrans; eassumption); congruence.
Qed.

Ltac grown_leaf :=
  let w := fresh "w" in
  intros w; unfold grown;
  cbv beta delta
    [console openSession closeSession sourceRun targetRun notify setProgress
     setStage setProcessedNodes setProcessedRelationships];
  repeat case_match; simplify_eq; simpl;
  repeat split; try reflexivity; try (now apply prefix_app_r).

Ltac grown_step :=
  first
    [ solve [auto with resp]
    | lazymatch goal with
      | |- respects _ (bind _ _) =>
          apply respects_bind; [typeclasses eauto | | intros ?]
      | |- respects _ (tryCatch _ _) =>
          apply respects_tryCatch; [typeclasses eauto | | intros ?]
      | |- respects _ (tryFinally _ _) =>
          apply respects_tryFinally; [typeclasses eauto | | ]
      | |- respects _ (forEach _ _) =>
          apply respects_forEach; [typeclasses eauto | intros ?]
      | |- respects _ (when _ _) =>
          apply respects_when; [typeclasses eauto | ]
      | |- respects _ (ret _) => apply respects_ret; typeclasses eauto
      | |- respects _ (throw _) => apply respects_throw; typeclasses eauto
      | |- respects _ diverge => apply respects_diverge; typeclasses eauto
      | |- respects _ (if ?b then _ else _) => destruct b
      | |- respects _ (match ?o with _ => _ end) => destruct o
      | |- respects _ (console _ _) => grown_leaf
      | |- respects _ openSession => grown_leaf
      | |- respects _ closeSession => grown_leaf
      | |- respects _ (sourceRun _ _) => grown_leaf
      | |- respects _ (targetRun _ _) => grown_leaf
      | |- respects _ (notify _) => grown_leaf
      | |- respects _ (setProgress _) => grown_leaf
      | |- respects _ (setStage _) => grown_leaf
      | |- respects _ (setProcessedNodes _) => grown_leaf
      | |- respects _ (setProcessedRelationships _) => grown_leaf
      end ].

Ltac solve_grown := repeat grown_step.

Section Growth.
Variable batchSize : nat.
Variable progressCallback : option Observer.

Lemma grown_copySchema : respects grown copySchema.
Proof. unfold copySchema, copyConstraint, copyIndex. solve_grown. Qed.

Lemma grown_createNodesInTarget nodesData :
  respects grown (createNodesInTarget nodesData).
Proof. unfold createNodesInTarget, createNodeGroup. solve_grown. Qed.

Lemma grown_createRelationshipsInTarget relsData :
  respects grown (createRelationshipsInTarget relsData).
Proof. unfold createRelationshipsInTarget, createRelGroup. solve_grown. Qed.

Hint Resolve grown_createNodesInTarget grown_createRelationshipsInTarget
  : resp.

Lemma grown_reportNodes p : respects grown (reportNodes progressCallback p).
Proof. unfold reportNodes. solve_grown. Qed.

Lemma grown_reportRelationships p :
  respects grown (reportRelationships progressCallback p).
Proof. unfold reportRelationships. solve_grown. Qed.

Hint Resolve grown_reportNodes grown_reportRelationships : resp.

Lemma grown_copyNodesLoop fuel total processed :
  respects grown
    (copyNodesLoop batchSize fuel (reportNodes progressCallback)
       total processed).
Proof.
  revert processed.
  induction fuel as [|fuel IH]; intros processed; cbn [copyNodesLoop];
    solve_grown.
Qed.

Lemma grown_copyRelationshipsLoop fuel total processed :
  respects grown
    (copyRelationshipsLoop batchSize fuel
       (reportRelationships progressCallback) total processed).
Proof.
  revert processed.
  induction fuel as [|fuel IH]; intros processed;
    cbn [copyRelationshipsLoop]; solve_grown.
Qed.

Hint Resolve grown_copyNodesLoop grown_copyRelationshipsLoop : resp.

Lemma grown_copyNodes fuel :
  respects grown (copyNodes batchSize fuel (reportNodes progressCallback)).
Proof. unfold copyNodes. solve_grown. Qed.

Lemma grown_copyRelationships fuel :
  respects grown
    (copyRelationships batchSize fuel (reportRelationships progressCallback)).
Proof. unfold copyRelationships. solve_grown. Qed.

End Growth.

(** X7: the three copy stages never remove or change anything the target
    holds.  Whatever the engines and the observer do, and whether the stage
    returns, throws or is still running, the nodes, the relationships and
    the accepted schema statements of the target after the stage start with
    those before it: what completed batches wrote stays when a later batch
    fails. *)
Theorem copy_stages_only_add batchSize progressCallback fuel w :
  grown w (copySchema w).2 /\
  grown w (copyNodes batchSize fuel (reportNodes progressCallback) w).2 /\
  grown w (copyRelationships batchSize fuel
             (reportRelationships progressCallback) w).2.
Proof.
  split; [apply grown_copySchema|].
  split; [apply grown_copyNodes | apply grown_copyRelationships].
Qed.

(** ** Sessions *)

(** X8: the methods a replication run is made of close every session they
    open: when one of them returns or throws, as many sessions are open as
    before the call, whatever the engines and the observer do. *)
Theorem methods_close_their_sessions batchSize progressCallback fuel :
  balanced getTotalCounts /\
  balanced clearTargetDatabase /\
  balanced copySchema /\
  (forall nodesData, balanced (createNodesInTarget nodesData)) /\
  (forall relsData, balanced (createRelationshipsInTarget relsData)) /\
  balanced (copyNodes batchSize fuel (reportNodes progressCallback)) /\
  balanced (copyRelationships batchSize fuel
              (reportRelationships progressCallback)) /\
  balanced cleanupStage.
Proof.
  split; [apply balanced_getTotalCounts|].
  split; [apply balanced_clearTargetDatabase|].
  split; [apply balanced_copySchema|].
  split; [apply balanced_createNodesInTarget|].
  split; [apply balanced_createRelationshipsInTarget|].
  split; [apply balanced_copyNodes; intros p; unfold reportNodes;
          solve_balanced|].
  split; [apply balanced_copyRelationships; intros p;
          unfold reportRelationships; solve_balanced|].
  apply balanced_cleanupStage.
Qed.

(** ** The connection test and the command-line program *)

Lemma testConnections_run w c :
  exists lines,
    testConnections (mkHost w c)
    = (Returned (sourceAnswers w, targetAnswers w),
       mkHost (tested w) (c ++ lines)).
Proof.
  unfold testConnections, tested, sourceAnswers, targetAnswers, pbind,
    ptryCatch, lift, say, pret, openSession, closeSession, sourcePing,
    targetPing.
  destruct w as [s t sf tf sr tr n sd td p tr']. simpl.
  destruct (sf sr) as [es|] eqn:Hs; destruct (tf tr) as [et|] eqn:Ht; simpl;
    rewrite ?Hs, ?Ht; unfold set_sessions, tick_target, tick_source; simpl.
  - exists [(LError, LnSourceFailed es); (LError, LnTargetFailed et)].
    rewrite <- (assoc_L (++)). repeat f_equal; lia.
  - exists [(LError, LnSourceFailed es); (LLog, LnTargetOk)].
    rewrite <- (assoc_L (++)). repeat f_equal; lia.
  - exists [(LLog, LnSourceOk); (LError, LnTargetFailed et)].
    rewrite <- (assoc_L (++)). repeat f_equal; lia.
  - exists [(LLog, LnSourceOk); (LLog, LnTargetOk)].
    rewrite <- (assoc_L (++)). repeat f_equal; lia.
Qed.

Lemma tested_env w : envOf (tested w) = envOf w.
Proof. reflexivity. Qed.

Lemma env_drivers w w' :
  envOf w' = envOf w ->
  w_sourceDriverOpen w' = w_sourceDriverOpen w /\
  w_targetDriverOpen w' = w_targetDriverOpen w.
Proof. unfold envOf. intros Heq. injection Heq as. auto. Qed.

(** X9: [testConnections] never throws and tests both engines whatever the
    first answers: its result tells for each engine whether it answered
    [RETURN 1]; the stores and the trace of the replicator are untouched;
    and, as a session is closed only after its statement succeeded, one
    session stays open for each engine that failed. *)
Theorem connection_test_reports_and_leaks h :
  let w := h_world h in
  exists h',
    testConnections h = (Returned (sourceAnswers w, targetAnswers w), h') /\
    w_sessions (h_world h')
    = w_sessions w + (if sourceAnswers w then 0 else 1)
      + (if targetAnswers w then 0 else 1) /\
    w_sourceRuns (h_world h') = S (w_sourceRuns w) /\
    w_targetRuns (h_world h') = S (w_targetRuns w) /\
    w_target (h_world h') = w_target w /\
    w_trace (h_world h') = w_trace w /\
    envOf (h_world h') = envOf w.
Proof.
  destruct h as [w c]. cbn [h_world].
  destruct (testConnections_run w c) as [lines Hrun].
  eexists. split; [exact Hrun|]. cbn [h_world]. unfold tested.
  repeat split. simpl. lia.
Qed.

Lemma pbind_say {B} lvl l (k : unit -> P B) h :
  pbind (say lvl l) k h
  = k tt (mkHost (h_world h) (h_console h ++ [(lvl, l)])).
Proof. reflexivity. Qed.

Lemma pbind_returned {A B} (m : P A) (k : A -> P B) h a h' :
  m h = (Returned a, h') -> pbind m k h = k a h'.
Proof. unfold pbind. now intros ->. Qed.

Lemma main_run batchSize fuel w c :
  exists lines,
    let h1 := mkHost (tested w) (c ++ lines) in
    main batchSize fuel (mkHost w c)
    = if sourceAnswers w && targetAnswers w then
        match replicateDatabase batchSize mainObserver fuel (tested w) with
        | (Ok _, w2) =>
            (Returned tt,
             mkHost (close w2).2 ((c ++ lines) ++ [(LLog, LnSuccess)]))
        | (Throw e, w2) =>
            (Exited 1,
             mkHost w2 ((c ++ lines) ++ [(LError, LnReplicationFailed e)]))
        | (Diverge, w2) => (StillRunning, mkHost w2 (c ++ lines))
        end
      else (Exited 1, h1).
Proof.
  unfold main, ptryCatchFinally, ptryCatch.
  rewrite pbind_say. cbn [h_world h_console].
  destruct (testConnections_run w (c ++ [(LLog, LnTesting)])) as [l1 Ht].
  rewrite (pbind_returned _ _ _ _ _ Ht). cbn [fst snd].
  destruct (sourceAnswers w); cbn [negb andb].
  - destruct (targetAnswers w); cbn [negb andb].
    + exists ([(LLog, LnTesting)] ++ l1 ++ [(LLog, LnAllOk)]).
      rewrite (pbind_returned _ _ _ tt _ eq_refl).
      rewrite (pbind_returned _ _ _ tt _ eq_refl).
      rewrite pbind_say. cbn [h_world h_console].
      unfold pbind at 1. unfold lift at 1. cbn [h_world h_console].
      rewrite !(assoc_L (++)).
      destruct (replicateDatabase batchSize mainObserver fuel (tested w))
        as [[[]|e|] w2]; reflexivity.
    + exists ([(LLog, LnTesting)] ++ l1
              ++ [(LError, LnNoTarget); (LLog, LnTargetHint)]).
      rewrite (pbind_returned _ _ _ tt _ eq_refl).
      unfold pbind, pret, say, exit. cbn [h_world h_console].
      rewrite <- !(assoc_L (++)). reflexivity.
  - exists ([(LLog, LnTesting)] ++ l1
            ++ [(LError, LnNoSource); (LLog, LnSourceHint)]).
    unfold pbind, pret, say, exit. cbn [h_world h_console].
    rewrite <- !(assoc_L (++)). reflexivity.
Qed.

(** X10: [main] exits with code 1 as soon as one of the two engines does
    not answer the connection test: both engines were tested, and nothing
    of the replication has started: no statement of the replicator was
    sent, the target store is as it was, and [close] was not called. *)
Theorem main_aborts_before_replication batchSize fuel h :
  let w := h_world h in
  sourceAnswers w = false \/ targetAnswers w = false ->
  exists h',
    main batchSize fuel h = (Exited 1, h') /\
    w_sourceRuns (h_world h') = S (w_sourceRuns w) /\
    w_targetRuns (h_world h') = S (w_targetRuns w) /\
    w_target (h_world h') = w_target w /\
    w_trace (h_world h') = w_trace w /\
    envOf (h_world h') = envOf w.
Proof.
  destruct h as [w c]. cbn [h_world]. intros Hdown.
  destruct (main_run batchSize fuel w c) as [lines Hrun]. cbv zeta in Hrun.
  assert (Hand : sourceAnswers w && targetAnswers w = false).
  { destruct Hdown as [-> | ->]; [done | apply andb_false_r]. }
  rewrite Hand in Hrun. eexists. split; [exact Hrun|]. repeat split.
Qed.

(** X11: [main] never throws, and it calls [close] only when the replication
    returned: when it returns, both engines answered the connection test,
    [replicateDatabase] returned and both drivers are closed; when the
    process ends through [Deno.exit] the code is 1 and the drivers are as
    they were, because the [catch] block exits before the [finally] block
    runs; otherwise the replication is still running. *)
Theorem main_closes_only_on_success batchSize fuel h :
  let w := h_world h in
  let w' := h_world (main batchSize fuel h).2 in
  match (main batchSize fuel h).1 with
  | Returned _ =>
      sourceAnswers w = true /\ targetAnswers w = true /\
      (replicateDatabase batchSize mainObserver fuel (tested w)).1 = Ok tt /\
      w_sourceDriverOpen w' = false /\ w_targetDriverOpen w' = false
  | Exited code =>
      code = 1%Z /\
      w_sourceDriverOpen w' = w_sourceDriverOpen w /\
      w_targetDriverOpen w' = w_targetDriverOpen w
  | StillRunning =>
      (replicateDatabase batchSize mainObserver fuel (tested w)).1 = Diverge
  | Raised _ => False
  end.
Proof.
  destruct h as [w c]. cbn [h_world].
  destruct (main_run batchSize fuel w c) as [lines Hrun]. cbv zeta in Hrun.
  rewrite Hrun. clear Hrun.
  destruct (sourceAnswers w), (targetAnswers w); cbn [andb fst snd h_world];
    try (split; [reflexivity|]; split; reflexivity).
  pose proof (env_replicateDatabase batchSize mainObserver fuel (tested w))
    as Henv. unfold keeps in Henv.
  destruct (replicateDatabase batchSize mainObserver fuel (tested w))
    as [[[]|e|] w2]; cbn [fst snd h_world] in *.
  - repeat split.
  - split; [reflexivity|].
    rewrite tested_env in Henv. now apply env_drivers.
  - reflexivity.
Qed.

(** ** The further properties on concrete worlds *)

Lemma tinyGraph_wellFormed : wellFormed tinyGraph.
Proof.
  split.
  - apply (bool_decide_unpack _). vm_compute. exact I.
  - intros rel Hin. simpl in Hin.
    rewrite !elem_of_cons, elem_of_nil in Hin.
    destruct Hin as [->|[]]; split;
      apply (bool_decide_unpack _); vm_compute; exact I.
Qed.


Lemma dangling_relationships_are_dropped_witness :
  exists w',
    createRelationshipsInTarget [danglingRel] taggedWorld = (Ok tt, w') /\
    t_rels (w_target w') = [].
Proof.
  destruct (dangling_relationships_are_dropped [danglingRel] taggedWorld)
    as (w' & Hrun & _ & Hr).
  - intros k. reflexivity.
  - intros rel Hin. apply list_elem_of_singleton in Hin as ->. right.
    intros n Hin. cbn in Hin.
    rewrite !elem_of_cons, elem_of_nil in Hin.
    destruct Hin as [->|[->|[]]]; vm_compute; discriminate.
  - exists w'. split; [exact Hrun | exact Hr].
Defined.

Lemma plainGraph_wellFormed : wellFormed plainGraph.
Proof.
  split.
  - apply (bool_decide_unpack _). vm_compute. exact I.
  - intros rel Hin. simpl in Hin.
    rewrite !elem_of_cons, elem_of_nil in Hin.
    destruct Hin as [->|[->|[->|[]]]]; split;
      apply (bool_decide_unpack _); vm_compute; exact I.
Qed.


Lemma replication_preserves_nodes_witness :
  exists w',
    replicateDatabase 2 silentObserver 2 tinyWorld = (Ok tt, w') /\
    t_nodes (w_target w')
    ≡ₚ [mkTargetNode ["Person"] {[ "name" := PStr "n" ]};
        mkTargetNode ["Person"] {[ "name" := PStr "n" ]}].
Proof.
  destruct (replication_preserves_nodes 2 silentObserver tinyGraph 2 tinyWorld)
    as (w' & Hrun & Hn).
  - lia.
  - apply tinyGraph_wellFormed.
  - repeat constructor.
  - reflexivity.
  - intros k. reflexivity.
  - intros k. reflexivity.
  - intros p. reflexivity.
  - simpl. lia.
  - simpl. lia.
  - intros node Hin. simpl in Hin.
    rewrite !elem_of_cons, elem_of_nil in Hin.
    destruct Hin as [->|[->|[]]]; repeat constructor.
  - exists w'. split; [exact Hrun|]. rewrite Hn.
    apply Permutation_refl'. vm_compute. reflexivity.
Defined.

Lemma clearing_survives_failed_drops_witness :
  exists w',
    clearTargetDatabase stubbornWorld = (Ok tt, w') /\
    t_nodes (w_target w') = [] /\
    "old_constraint" ∈ t_constraints (w_target w') /\
    "old_index" ∉ t_indexes (w_target w').
Proof.
  destruct (clearing_survives_failed_drops stubbornWorld)
    as (w' & Hrun & Hn & _ & _ & Hc & Hi).
  - reflexivity.
  - reflexivity.
  - reflexivity.
  - exists w'. split; [exact Hrun|]. split; [exact Hn|]. split.
    + apply Hc. split; [left|]. intros [|i] Hi'; [discriminate|].
      destruct i; discriminate.
    + intros Hin. apply Hi in Hin as [_ Hfail].
      now apply (Hfail 0).
Defined.

Lemma main_aborts_before_replication_witness :
  exists h',
    main 2 2 sourceDownHost = (Exited 1, h') /\
    w_targetRuns (h_world h') = 1 /\
    w_trace (h_world h') = [].
Proof.
  destruct (main_aborts_before_replication 2 2 sourceDownHost)
    as (h' & Hrun & _ & Ht & _ & Htr & _).
  - left. reflexivity.
  - exists h'. split; [exact Hrun|]. split; [exact Ht | exact Htr].
Defined.

(** ** When the source fails early *)

(** X12: when one of the two counting statements fails, [replicateDatabase]
    throws that error before anything is sent to the target: the target
    store is as it was, no session is left open, the progress is untouched
    and the observer has not been called. *)
Theorem failed_count_leaves_target_alone batchSize progressCallback fuel w e :
  let r := w_sourceRuns w in
  w_sourceFail w r = Some e \/
  (w_sourceFail w r = None /\ w_sourceFail w (S r) = Some e) ->
  exists w' t,
    replicateDatabase batchSize progressCallback fuel w = (Throw e, w') /\
    w_target w' = w_target w /\
    w_targetRuns w' = w_targetRuns w /\
    w_sessions w' = w_sessions w /\
    w_progress w' = w_progress w /\
    w_trace w' = w_trace w ++ t /\
    Forall quietEvent t.
Proof.
  intros r Hfail.
  unfold replicateDatabase, tryCatch, replicateBody.
  unfold bind at 1. unfold console at 1.
  unfold bind at 1. unfold getTotalCounts.
  unfold bind at 1. unfold openSession at 1. unfold tryFinally at 1.
  unfold bind at 1. unfold sourceRun at 1.
  cbn [w_sourceFail w_sourceRuns set_sessions emit]. fold r.
  destruct Hfail as [H0 | [H0 H1]]; rewrite H0.
  - eexists.
    exists [EvConsole LLog MStarting; EvSource SqCountNodes;
            EvConsole LError (MFailed e)].
    split; [reflexivity|].
    cbn -[app]. rewrite <- !(assoc_L (++)).
    repeat split. repeat constructor.
  - unfold bind at 1. unfold sourceRun at 1.
    cbn [w_sourceFail w_sourceRuns set_sessions emit tick_source]. fold r.
    rewrite H1.
    eexists.
    exists [EvConsole LLog MStarting; EvSource SqCountNodes;
            EvSource SqCountRels; EvConsole LError (MFailed e)].
    split; [reflexivity|].
    cbn -[app]. rewrite <- !(assoc_L (++)).
    repeat split. repeat constructor.
Qed.

Lemma failed_count_leaves_target_alone_witness :
  exists w',
    replicateDatabase 2 silentObserver 5 sourceDownWorld
    = (Throw connectionLost, w') /\
    w_target w' = w_target sourceDownWorld.
Proof.
  destruct (failed_count_leaves_target_alone 2 silentObserver 5
              sourceDownWorld connectionLost)
    as (w' & t & Hrun & Ht & _).
  - left. reflexivity.
  - exists w'. split; [exact Hrun | exact Ht].
Defined.

Lemma runs_clearTargetDatabase :
  respects (keeps w_sourceRuns) clearTargetDatabase.
Proof.
  unfold clearTargetDatabase, dropOneConstraint, dropOneIndex.
  solve_respects.
Qed.

Lemma getTotalCounts_ok w :
  w_sourceFail w (w_sourceRuns w) = None ->
  w_sourceFail w (S (w_sourceRuns w)) = None ->
  exists w',
    getTotalCounts w
    = (Ok (src_countNodes (w_source w), src_countRels (w_source w)), w') /\
    envOf w' = envOf w /\ w_sourceRuns w' = S (S (w_sourceRuns w)).
Proof.
  intros H0 H1. unfold getTotalCounts, bind, openSession, tryFinally,
    sourceRun, closeSession, ret.
  cbn [w_sourceFail w_sourceRuns set_sessions emit tick_source].
  rewrite H0. cbn [w_sourceFail w_sourceRuns set_sessions emit tick_source].
  rewrite H1. eexists. repeat split.
Qed.

Lemma storeSide_runs w w' :
  storeSide w' = storeSide w -> w_sourceRuns w' = w_sourceRuns w.
Proof.
  unfold storeSide. intros H.
  exact (f_equal (fun x => x.1.1.1.1.2) H).
Qed.

(** X13: once the two counts are read the target is emptied before anything
    else is read from the source.  When the source then fails at the first
    statement of the schema stage, [replicateDatabase] throws that error and
    the target, whatever it held, is left without nodes and
    relationships. *)
Theorem late_source_failure_leaves_target_empty
    batchSize progressCallback fuel w e :
  let r := w_sourceRuns w in
  polite progressCallback -> targetUp w ->
  w_sourceFail w r = None -> w_sourceFail w (S r) = None ->
  w_sourceFail w (S (S r)) = Some e ->
  exists w',
    replicateDatabase batchSize progressCallback fuel w = (Throw e, w') /\
    t_nodes (w_target w') = [] /\ t_rels (w_target w') = [] /\
    stage (w_progress w') = schema /\
    w_sessions w' = w_sessions w.
Proof.
  intros r Hp Htup H0 H1 H2.
  assert (Hbody : wp (replicateBody batchSize progressCallback fuel) w
            (fun res w1 => res = Throw e /\ graphOf w1 = ([], []) /\
                           stage (w_progress w1) = schema)).
  { unfold replicateBody.
    eapply wp_bind_ok; [reflexivity|].
    match goal with |- wp _ ?w0 _ =>
      destruct (getTotalCounts_ok w0 H0 H1) as (w1 & Hrun & He1 & Hr1) end.
    eapply wp_bind_ok; [exact Hrun|]. clear Hrun.
    eapply wp_bind_ok; [reflexivity|].
    match goal with |- wp (bind (notify _) _) ?w0 _ =>
      destruct (notify_up progressCallback w0 Hp) as (w2 & Hrun & Hs2 & _) end.
    eapply wp_bind_ok; [exact Hrun|]. clear Hrun.
    pose proof (storeSide_runs _ _ Hs2) as Hr2.
    apply storeSide_parts in Hs2 as (He2 & _ & _).
    assert (E2 : envOf w2 = envOf w) by (etrans; [exact He2 | exact He1]).
    assert (R2 : w_sourceRuns w2 = S (S r)) by (rewrite Hr2; exact Hr1).
    clear He1 He2 Hr1 Hr2.
    pose proof (runs_clearTargetDatabase w2) as Hr3. unfold keeps in Hr3.
    destruct (wp_returns_eq _ _ _
                (clearTargetDatabase_up w2 (env_targetUp _ _ E2 Htup)))
      as ([] & w3 & Hrun & He3 & Hg3 & _).
    rewrite Hrun in Hr3. cbn [snd] in Hr3.
    eapply wp_bind_ok; [exact Hrun|]. clear Hrun.
    eapply wp_bind_ok; [reflexivity|].
    match goal with |- wp (bind (notify _) _) ?w0 _ =>
      destruct (notify_up progressCallback w0 Hp) as (w4 & Hrun & Hs4 & _) end.
    eapply wp_bind_ok; [exact Hrun|]. clear Hrun.
    pose proof (storeSide_runs _ _ Hs4) as Hr4.
    apply storeSide_parts in Hs4 as (He4 & Ht4 & Hp4).
    cbn [w_sourceRuns set_progress] in Hr4.
    assert (Hfail : w_sourceFail w4 (w_sourceRuns w4) = Some e).
    { rewrite Hr4, Hr3, R2.
      assert (E4 : envOf w4 = envOf w).
      { rewrite He4. change (envOf w3 = envOf w). congruence. }
      unfold envOf in E4. injection E4 as _ -> _ _ _. exact H2. }
    apply wp_bind. unfold wp, copySchema, bind, console, openSession,
      tryFinally, sourceRun, closeSession, throw.
    cbn [w_sourceFail w_sourceRuns set_sessions emit]. rewrite Hfail.
    cbn [fst snd]. split; [reflexivity|]. split.
    - unfold graphOf in *. cbn. rewrite Ht4. exact Hg3.
    - cbn. rewrite Hp4. reflexivity. }
  unfold wp in Hbody.
  pose proof (balanced_replicateDatabase batchSize progressCallback fuel w)
    as Hbal.
  unfold replicateDatabase, tryCatch in *.
  destruct (replicateBody batchSize progressCallback fuel w) as [res w1].
  cbn [fst snd] in Hbody. destruct Hbody as (-> & Hg & Hst).
  unfold bind, console, throw in *. cbn [fst snd] in *.
  eexists. split; [reflexivity|].
  unfold graphOf in Hg. injection Hg as Hn Hr.
  repeat split; try done. now apply Hbal.
Qed.

Lemma late_source_failure_leaves_target_empty_witness :
  exists w',
    replicateDatabase 2 silentObserver 5 sourceLostWorld
    = (Throw connectionLost, w') /\
    t_nodes (w_target w') = [].
Proof.
  destruct (late_source_failure_leaves_target_empty 2 silentObserver 5
              sourceLostWorld connectionLost)
    as (w' & Hrun & Hn & _).
  - intros p. reflexivity.
  - intros k. reflexivity.
  - reflexivity.
  - reflexivity.
  - reflexivity.
  - exists w'. split; [exact Hrun | exact Hn].
Defined.

(** ** What the observer sees *)

Lemma ahead_refl p : ahead p p.
Proof. unfold ahead. repeat split; lia. Qed.

Lemma ahead_trans p q r : ahead p q -> ahead q r -> ahead p r.
Proof. unfold ahead. intros (?&?&?&?) (?&?&?&?). repeat split; lia. Qed.

Lemma chain_app p ps q qs r :
  chain p ps q -> chain q qs r -> chain p (ps ++ qs) r.
Proof.
  revert p. induction ps as [|x ps IH]; intros p; simpl.
  - intros Hpq. destruct qs as [|y qs]; simpl.
    + now apply ahead_trans.
    + intros [Hqy Hrest]. split; [now apply (ahead_trans p q)|done].
  - intros [Hpx Hrest] Hq. split; [done|]. now apply IH.
Qed.

Lemma chain_ahead p ps q : chain p ps q -> ahead p q.
Proof.
  revert p. induction ps as [|x ps IH]; intros p; simpl; [done|].
  intros [Hpx Hrest]. apply (ahead_trans p x); [done | now apply IH].
Qed.

Lemma chain_ends p ps q x :
  chain p ps q -> x ∈ ps -> ahead p x /\ ahead x q.
Proof.
  revert p. induction ps as [|y ps IH]; intros p; simpl.
  - intros _ Hin. now apply elem_of_nil in Hin.
  - intros [Hpy Hrest] Hin. apply elem_of_cons in Hin as [->|Hin].
    + split; [done | now apply (chain_ahead y ps)].
    + destruct (IH y Hrest Hin) as [Hyx Hxq]. split; [|done].
      now apply (ahead_trans p y).
Qed.

Lemma chain_ordered p ps q i j x y :
  chain p ps q -> i <= j -> ps !! i = Some x -> ps !! j = Some y ->
  ahead x y.
Proof.
  revert p i j. induction ps as [|z ps IH]; intros p i j; simpl; [done|].
  intros [Hpz Hrest] Hij Hi Hj. destruct i as [|i], j as [|j]; simpl in *.
  - simplify_eq. apply ahead_refl.
  - simplify_eq. apply list_elem_of_lookup_2 in Hj.
    now destruct (chain_ends _ _ _ _ Hrest Hj).
  - lia.
  - apply (IH z i j); [done | lia | done | done].
Qed.

#[export] Instance advances_preorder : PreOrder advances.
Proof.
  split.
  - intros w. exists []. split; [now rewrite (right_id_L [] (++))|].
    apply ahead_refl.
  - intros w1 w2 w3 (t1 & Ht1 & Hc1) (t2 & Ht2 & Hc2).
    exists (t1 ++ t2). split.
    + now rewrite Ht2, Ht1, (assoc_L (++)).
    + unfold snapshots. rewrite omap_app. now apply (chain_app _ _ _ _ _ Hc1).
Qed.

Ltac advances_leaf :=
  let w := fresh "w" in
  intros w; unfold advances;
  cbv beta delta
    [console openSession closeSession sourceRun targetRun notify setProgress
     setStage];
  repeat case_match; simplify_eq; simpl;
  first
    [ exists []; split; [now rewrite (right_id_L [] (++))|];
      simpl; unfold ahead; simpl; repeat split; lia
    | eexists [_]; split; [reflexivity|];
      simpl; unfold ahead; simpl; repeat split; lia ].

Ltac advances_step :=
  first
    [ solve [auto with resp]
    | lazymatch goal with
      | |- respects _ (bind _ _) =>
          apply respects_bind; [typeclasses eauto | | intros ?]
      | |- respects _ (tryCatch _ _) =>
          apply respects_tryCatch; [typeclasses eauto | | intros ?]
      | |- respects _ (tryFinally _ _) =>
          apply respects_tryFinally; [typeclasses eauto | | ]
      | |- respects _ (forEach _ _) =>
          apply respects_forEach; [typeclasses eauto | intros ?]
      | |- respects _ (when _ _) =>
          apply respects_when; [typeclasses eauto | ]
      | |- respects _ (ret _) => apply respects_ret; typeclasses eauto
      | |- respects _ (throw _) => apply respects_throw; typeclasses eauto
      | |- respects _ diverge => apply respects_diverge; typeclasses eauto
      | |- respects _ (if ?b then _ else _) => destruct b
      | |- respects _ (match ?o with _ => _ end) => destruct o
      | |- respects _ (console _ _) => advances_leaf
      | |- respects _ openSession => advances_leaf
      | |- respects _ closeSession => advances_leaf
      | |- respects _ (sourceRun _ _) => advances_leaf
      | |- respects _ (targetRun _ _) => advances_leaf
      | |- respects _ (notify _) => advances_leaf
      | |- respects _ (setStage _) => advances_leaf
      end ].

Ltac solve_advances := repeat advances_step.

Lemma tracks_bind {A B} I J K (m : M A) (k : A -> M B) :
  tracks I m J -> (forall a, tracks J (k a) K) -> tracks I (bind m k) K.
Proof.
  intros Hm Hk w HI. destruct (Hm w HI) as [Hadv Hpost]. unfold bind.
  destruct (m w) as [[a|e|] w1] eqn:Hrun; simpl in *; try (split; done).
  destruct (Hk a w1 (Hpost a w1 eq_refl)) as [Hadv' Hpost'].
  split; [|exact Hpost']. etrans; [exact Hadv | exact Hadv'].
Qed.

Lemma tracks_keep {A} I (m : M A) :
  respects advances m -> respects (keeps w_progress) m -> tracks I m I.
Proof.
  intros Hadv Hkeep w HI. split; [apply Hadv|].
  intros a w' Hrun. specialize (Hkeep w). rewrite Hrun in Hkeep.
  unfold keeps in Hkeep. simpl in Hkeep. now rewrite Hkeep.
Qed.

Lemma tracks_weaken {A} (I I' J J' : ReplicationProgress -> Prop) (m : M A) :
  tracks I m J -> (forall p, I' p -> I p) -> (forall p, J p -> J' p) ->
  tracks I' m J'.
Proof.
  intros Hm HI HJ w HI'. destruct (Hm w (HI _ HI')) as [Hadv Hpost].
  split; [done|]. intros a w' Hrun. apply HJ. now apply (Hpost a).
Qed.

Lemma tracks_tryFinally {A} I J (m : M A) f :
  tracks I m J ->
  respects advances f -> respects (keeps w_progress) f ->
  tracks I (tryFinally m f) J.
Proof.
  intros Hm Hf Hkeep w HI. destruct (Hm w HI) as [Hadv Hpost].
  unfold tryFinally.
  destruct (m w) as [[a|e|] w1] eqn:Hrun; simpl in *; try (split; done).
  - specialize (Hf w1). specialize (Hkeep w1). unfold keeps in Hkeep.
    unfold bind. destruct (f w1) as [[[]|e|] w2]; simpl in *;
      (split; [etrans; [exact Hadv | exact Hf]|]); try done.
    intros a' w' Heq. unfold ret in Heq. simplify_eq.
    rewrite Hkeep. now apply (Hpost a').
  - specialize (Hf w1). unfold bind.
    destruct (f w1) as [[[]|e'|] w2]; simpl in *;
      (split; [etrans; [exact Hadv | exact Hf]|]); done.
Qed.

Section Observed.
Variable batchSize : nat.
Variable progressCallback : option Observer.
Hypothesis Hreads : reads progressCallback.

(** For an observer that does not write, a call leaves the object as it
    was. *)
Lemma notify_reads w :
  notify progressCallback w =
  match progressCallback with
  | None => (Ok tt, w)
  | Some observer =>
      match (observer (w_progress w)).1 with
      | Some e => (Throw e, emit (EvObserver (w_progress w)) w)
      | None => (Ok tt, emit (EvObserver (w_progress w)) w)
      end
  end.
Proof.
  unfold notify. destruct progressCallback as [observer|]; [|done].
  cbv zeta. rewrite (Hreads (w_progress w)). now destruct w.
Qed.

Lemma advances_clearTargetDatabase : respects advances clearTargetDatabase.
Proof.
  unfold clearTargetDatabase, dropOneConstraint, dropOneIndex.
  solve_advances.
Qed.

Lemma advances_copySchema : respects advances copySchema.
Proof. unfold copySchema, copyConstraint, copyIndex. solve_advances. Qed.

Lemma advances_createNodesInTarget nodesData :
  respects advances (createNodesInTarget nodesData).
Proof. unfold createNodesInTarget, createNodeGroup. solve_advances. Qed.

Lemma advances_createRelationshipsInTarget relsData :
  respects advances (createRelationshipsInTarget relsData).
Proof. unfold createRelationshipsInTarget, createRelGroup. solve_advances. Qed.

Lemma advances_cleanupStage : respects advances cleanupStage.
Proof. unfold cleanupStage. solve_advances. Qed.

Lemma progress_clearTargetDatabase :
  respects (keeps w_progress) clearTargetDatabase.
Proof.
  unfold clearTargetDatabase, dropOneConstraint, dropOneIndex.
  solve_respects.
Qed.

Lemma progress_copySchema : respects (keeps w_progress) copySchema.
Proof. unfold copySchema, copyConstraint, copyIndex. solve_respects. Qed.

Lemma progress_createNodesInTarget nodesData :
  respects (keeps w_progress) (createNodesInTarget nodesData).
Proof. unfold createNodesInTarget, createNodeGroup. solve_respects. Qed.

Lemma progress_createRelationshipsInTarget relsData :
  respects (keeps w_progress) (createRelationshipsInTarget relsData).
Proof.
  unfold createRelationshipsInTarget, createRelGroup. solve_respects.
Qed.

Lemma progress_cleanupStage : respects (keeps w_progress) cleanupStage.
Proof. unfold cleanupStage. solve_respects. Qed.

Lemma tracks_console I lvl m : tracks I (console lvl m) I.
Proof. apply tracks_keep; [solve_advances | solve_respects]. Qed.

Lemma tracks_notify I : tracks I (notify progressCallback) I.
Proof.
  intros w HI. rewrite notify_reads.
  destruct progressCallback as [observer|].
  - assert (Hadv : advances w (emit (EvObserver (w_progress w)) w)).
    { exists [EvObserver (w_progress w)]. split; [reflexivity|].
      split; apply ahead_refl. }
    destruct (observer (w_progress w)).1; (split; [exact Hadv|]); [done|].
    intros a w' Heq. now simplify_eq.
  - split; [reflexivity|]. intros a w' Heq. now simplify_eq.
Qed.

Lemma tracks_setStage (I : ReplicationProgress -> Prop) s :
  (forall p, I p -> I (withStage s p)) -> tracks I (setStage s) I.
Proof.
  intros HI w Hw. split; [|intros a w' Heq; inversion Heq; now apply HI].
  revert w Hw. intros w _. revert w.
  change (respects advances (setStage s)). solve_advances.
Qed.

Lemma tracks_reportNodes n n' :
  n <= n' ->
  tracks (nodesDone n) (reportNodes progressCallback n') (nodesDone n').
Proof.
  intros Hle w [Hn Hr]. unfold reportNodes, setProcessedNodes, setProgress,
    bind. rewrite notify_reads.
  destruct progressCallback as [observer|]; simpl.
  - destruct (observer _).1 as [e|]; simpl.
    + split; [|done]. eexists [_]. split; [reflexivity|]. simpl.
      unfold ahead. simpl. repeat split; lia.
    + split.
      * eexists [_]. split; [reflexivity|]. simpl.
        unfold ahead. simpl. repeat split; lia.
      * intros a w' Heq. inversion Heq. unfold nodesDone. simpl.
        split; [lia | done].
  - split.
    + exists []. split; [now rewrite (right_id_L [] (++))|]. simpl.
      unfold ahead. simpl. repeat split; lia.
    + intros a w' Heq. inversion Heq. unfold nodesDone. simpl.
        split; [lia | done].
Qed.

Lemma tracks_reportRelationships n n' :
  n <= n' ->
  tracks (relsDone n) (reportRelationships progressCallback n') (relsDone n').
Proof.
  intros Hle w Hr. unfold relsDone in *.
  unfold reportRelationships, setProcessedRelationships, setProgress,
    bind. rewrite notify_reads.
  destruct progressCallback as [observer|]; simpl.
  - destruct (observer _).1 as [e|]; simpl.
    + split; [|done]. eexists [_]. split; [reflexivity|]. simpl.
      unfold ahead. simpl. repeat split; lia.
    + split.
      * eexists [_]. split; [reflexivity|]. simpl.
        unfold ahead. simpl. repeat split; lia.
      * intros a w' Heq. inversion Heq. unfold relsDone. simpl. lia.
  - split.
    + exists []. split; [now rewrite (right_id_L [] (++))|]. simpl.
      unfold ahead. simpl. repeat split; lia.
    + intros a w' Heq. inversion Heq. unfold relsDone. simpl. lia.
Qed.

Lemma tracks_copyNodesLoop fuel total processed :
  tracks (nodesDone processed)
    (copyNodesLoop batchSize fuel (reportNodes progressCallback)
       total processed)
    (fun p => processedRelationships p = 0).
Proof.
  revert processed. induction fuel as [|fuel IH]; intros processed;
    cbn [copyNodesLoop]; destruct (processed <? total)%nat.
  - intros w HI. split; [reflexivity | done].
  - intros w [_ HI]. split; [reflexivity|].
    intros a w' Heq. unfold ret in Heq. now simplify_eq.
  - eapply tracks_bind;
      [apply tracks_keep; [solve_advances | solve_respects]|].
    intros nodesData. eapply tracks_bind.
    { apply tracks_keep.
      - apply respects_when; [typeclasses eauto|].
        apply advances_createNodesInTarget.
      - apply respects_when; [typeclasses eauto|].
        apply progress_createNodesInTarget. }
    intros _. cbv zeta. eapply tracks_bind.
    { apply (tracks_reportNodes processed). lia. }
    intros _. eapply tracks_bind; [apply tracks_console|].
    intros _. apply IH.
  - intros w [_ HI]. split; [reflexivity|].
    intros a w' Heq. unfold ret in Heq. now simplify_eq.
Qed.

Lemma tracks_copyRelationshipsLoop fuel total processed :
  tracks (relsDone processed)
    (copyRelationshipsLoop batchSize fuel
       (reportRelationships progressCallback) total processed)
    (fun _ => True).
Proof.
  revert processed. induction fuel as [|fuel IH]; intros processed;
    cbn [copyRelationshipsLoop]; destruct (processed <? total)%nat.
  - intros w HI. split; [reflexivity | done].
  - intros w HI. split; [reflexivity | done].
  - eapply tracks_bind;
      [apply tracks_keep; [solve_advances | solve_respects]|].
    intros relsData. eapply tracks_bind.
    { apply tracks_keep.
      - apply respects_when; [typeclasses eauto|].
        apply advances_createRelationshipsInTarget.
      - apply respects_when; [typeclasses eauto|].
        apply progress_createRelationshipsInTarget. }
    intros _. cbv zeta. eapply tracks_bind.
    { apply (tracks_reportRelationships processed). lia. }
    intros _. eapply tracks_bind; [apply tracks_console|].
    intros _. apply IH.
  - intros w HI. split; [reflexivity | done].
Qed.

Lemma tracks_copyNodes fuel :
  tracks (nodesDone 0)
    (copyNodes batchSize fuel (reportNodes progressCallback))
    (fun p => processedRelationships p = 0).
Proof.
  unfold copyNodes.
  eapply tracks_bind; [apply tracks_console|]. intros _.
  eapply tracks_bind;
    [apply tracks_keep; [solve_advances | solve_respects]|]. intros _.
  apply tracks_tryFinally; [|solve_advances | solve_respects].
  eapply tracks_bind;
    [apply tracks_keep; [solve_advances | solve_respects]|].
  intros total. apply tracks_copyNodesLoop.
Qed.

Lemma tracks_copyRelationships fuel :
  tracks (relsDone 0)
    (copyRelationships batchSize fuel (reportRelationships progressCallback))
    (fun _ => True).
Proof.
  unfold copyRelationships.
  eapply tracks_bind; [apply tracks_console|]. intros _.
  eapply tracks_bind;
    [apply tracks_keep; [solve_advances | solve_respects]|]. intros _.
  apply tracks_tryFinally; [|solve_advances | solve_respects].
  eapply tracks_bind;
    [apply tracks_keep; [solve_advances | solve_respects]|].
  intros total. apply tracks_copyRelationshipsLoop.
Qed.

(** The run from the first call of the observer on. *)
Lemma tracks_stages fuel :
  tracks (nodesDone 0)
    (notify progressCallback ;;;
     clearTargetDatabase ;;;
     setStage schema ;;;
     notify progressCallback ;;;
     copySchema ;;;
     setStage nodes ;;;
     notify progressCallback ;;;
     copyNodes batchSize fuel (reportNodes progressCallback) ;;;
     setStage relationships ;;;
     notify progressCallback ;;;
     copyRelationships batchSize fuel (reportRelationships progressCallback) ;;;
     setStage cleanup ;;;
     notify progressCallback ;;;
     cleanupStage ;;;
     setStage complete ;;;
     notify progressCallback ;;;
     console LLog MCompleted)
    (fun _ => True).
Proof.
  eapply tracks_bind; [apply tracks_notify|]. intros _.
  eapply tracks_bind;
    [apply tracks_keep;
       [apply advances_clearTargetDatabase | apply progress_clearTargetDatabase]|].
  intros _.
  eapply tracks_bind; [apply tracks_setStage; now intros p [? ?]|]. intros _.
  eapply tracks_bind; [apply tracks_notify|]. intros _.
  eapply tracks_bind;
    [apply tracks_keep; [apply advances_copySchema | apply progress_copySchema]|].
  intros _.
  eapply tracks_bind; [apply tracks_setStage; now intros p [? ?]|]. intros _.
  eapply tracks_bind; [apply tracks_notify|]. intros _.
  eapply tracks_bind; [apply tracks_copyNodes|]. intros _.
  eapply tracks_bind.
  { apply (tracks_setStage (fun p => processedRelationships p = 0)).
    now intros p. }
  intros _.
  eapply tracks_bind; [apply tracks_notify|]. intros _.
  eapply tracks_bind.
  { eapply tracks_weaken; [apply tracks_copyRelationships | | done].
    intros p Hp. unfold relsDone. lia. }
  intros _.
  eapply tracks_bind; [apply tracks_setStage; done|]. intros _.
  eapply tracks_bind; [apply tracks_notify|]. intros _.
  eapply tracks_bind;
    [apply tracks_keep; [apply advances_cleanupStage | apply progress_cleanupStage]|].
  intros _.
  eapply tracks_bind; [apply tracks_setStage; done|]. intros _.
  eapply tracks_bind; [apply tracks_notify|]. intros _.
  apply tracks_console.
Qed.

End Observed.

Lemma getTotalCounts_silent w :
  exists t, w_trace (getTotalCounts w).2 = w_trace w ++ t /\ snapshots t = [].
Proof.
  unfold getTotalCounts, bind, openSession, tryFinally, sourceRun,
    closeSession, ret, throw.
  repeat case_match; simplify_eq; simpl; rewrite <- ?(assoc_L (++));
    eexists; split; reflexivity.
Qed.

Lemma snapshots_app t1 t2 : snapshots (t1 ++ t2) = snapshots t1 ++ snapshots t2.
Proof. apply omap_app. Qed.

Lemma replicateBody_observed batchSize progressCallback fuel w :
  reads progressCallback ->
  exists t,
    w_trace (replicateBody batchSize progressCallback fuel w).2
    = w_trace w ++ t /\
    exists p q, chain p (snapshots t) q.
Proof.
  intros Hreads.
  unfold replicateBody. unfold bind at 1. unfold console at 1.
  set (w0 := emit _ w). unfold bind at 1.
  destruct (getTotalCounts_silent w0) as (t1 & Ht1 & Hs1).
  destruct (getTotalCounts w0) as [[counts|e|] w1]; cbn [snd] in Ht1.
  - unfold bind at 1. unfold setProgress at 1.
    set (w2 := set_progress _ w1).
    destruct (tracks_stages batchSize progressCallback Hreads fuel w2)
      as [(t2 & Ht2 & Hc2) _].
    { split; simpl; lia. }
    exists ([EvConsole LLog MStarting] ++ t1 ++ t2). split.
    + rewrite Ht2. change (w_trace w2) with (w_trace w1). rewrite Ht1.
      subst w0. simpl. now rewrite <- !(assoc_L (++)).
    + eexists _, _. rewrite !snapshots_app, Hs1. simpl. exact Hc2.
  - exists ([EvConsole LLog MStarting] ++ t1). split.
    + cbn [snd]. rewrite Ht1. subst w0. simpl.
      now rewrite <- !(assoc_L (++)).
    + exists (w_progress w), (w_progress w).
      rewrite !snapshots_app, Hs1. simpl. apply ahead_refl.
  - exists ([EvConsole LLog MStarting] ++ t1). split.
    + cbn [snd]. rewrite Ht1. subst w0. simpl.
      now rewrite <- !(assoc_L (++)).
    + exists (w_progress w), (w_progress w).
      rewrite !snapshots_app, Hs1. simpl. apply ahead_refl.
Qed.

(** X15: an observer that does not write to the progress object never sees
    the progress go back.  The observer is handed the replicator's own
    object; when it only reads it (it may throw), then in every run of
    [replicateDatabase], whatever the engines do and however the run ends,
    each snapshot handed to the observer has the totals of every earlier
    snapshot and processed counts that are at least those of every earlier
    one. *)
Theorem observer_never_sees_progress_go_back
    batchSize progressCallback fuel w :
  reads progressCallback ->
  exists t,
    w_trace (replicateDatabase batchSize progressCallback fuel w).2
    = w_trace w ++ t /\
    forall i j p q,
      i <= j -> snapshots t !! i = Some p -> snapshots t !! j = Some q ->
      ahead p q.
Proof.
  intros Hreads.
  destruct (replicateBody_observed batchSize progressCallback fuel w Hreads)
    as (t & Ht & p0 & q0 & Hc).
  unfold replicateDatabase, tryCatch.
  destruct (replicateBody batchSize progressCallback fuel w)
    as [[[]|e|] w1]; cbn [snd] in *.
  - exists t. split; [exact Ht|]. intros i j p q. apply (chain_ordered _ _ _ _ _ _ _ Hc).
  - exists (t ++ [EvConsole LError (MFailed e)]). split.
    + unfold bind, console, throw. simpl. now rewrite Ht, (assoc_L (++)).
    + rewrite snapshots_app. simpl. rewrite (right_id_L [] (++)).
      intros i j p q. apply (chain_ordered _ _ _ _ _ _ _ Hc).
  - exists t. split; [exact Ht|]. intros i j p q. apply (chain_ordered _ _ _ _ _ _ _ Hc).
Qed.

Lemma observer_never_sees_progress_go_back_witness :
  exists t,
    w_trace (replicateDatabase 2 silentObserver 5 demoWorld).2
    = w_trace demoWorld ++ t /\
    forall i j p q,
      i <= j -> snapshots t !! i = Some p -> snapshots t !! j = Some q ->
      ahead p q.
Proof.
  apply (observer_never_sees_progress_go_back 2 silentObserver 5 demoWorld).
  intros p. reflexivity.
Defined.

(** What X15 leaves out: an observer that resets [processedNodes] in the
    object is later handed a snapshot that is behind an earlier one. *)
Example a_writing_observer_sees_progress_go_back :
  let run := replicateDatabase 2 forgetfulObserver 5 demoWorld in
  map processedNodes (snapshots (w_trace run.2))
  = [0; 0; 0; 2; 4; 5; 0; 0; 0; 0; 0; 0].
Proof. vm_compute. reflexivity. Qed.

(** ** Propagation of failures *)

Section Propagation.
Variable progressCallback : option Observer.


Lemma sourcesIn_app t1 t2 : sourcesIn (t1 ++ t2) = sourcesIn t1 + sourcesIn t2.
Proof. apply sum_list_with_app. Qed.

Lemma targetsIn_app t1 t2 : targetsIn (t1 ++ t2) = targetsIn t1 + targetsIn t2.
Proof. apply sum_list_with_app. Qed.

Lemma firstFailure_app sf tf sr tr t1 t2 :
  firstFailure sf tf progressCallback sr tr (t1 ++ t2)
  = match firstFailure sf tf progressCallback sr tr t1 with
    | Some e => Some e
    | None => firstFailure sf tf progressCallback
                (sr + sourcesIn t1) (tr + targetsIn t1) t2
    end.
Proof.
  revert sr tr. induction t1 as [|ev t1 IH]; intros sr tr; simpl.
  - unfold sourcesIn, targetsIn. simpl. now rewrite !Nat.add_0_r.
  - destruct (failureOf _ _ _ _ _ ev); [done|]. rewrite IH.
    unfold sourcesIn, targetsIn. simpl. now rewrite !Nat.add_assoc.
Qed.

Lemma extends_refl w : extends w w [].
Proof.
  unfold extends, sourcesIn, targetsIn. simpl.
  now rewrite (right_id_L [] (++)), !Nat.add_0_r.
Qed.

Lemma extends_trans w1 w2 w3 t1 t2 :
  extends w1 w2 t1 -> extends w2 w3 t2 -> extends w1 w3 (t1 ++ t2).
Proof.
  intros (Ht1 & Hs1 & Hf1 & Hr1 & Hq1) (Ht2 & Hs2 & Hf2 & Hr2 & Hq2).
  unfold extends. rewrite sourcesIn_app, targetsIn_app.
  repeat split; try congruence.
  - now rewrite Ht2, Ht1, (assoc_L (++)).
  - lia.
  - lia.
Qed.

Lemma failureIn_app w1 w2 t1 t2 :
  extends w1 w2 t1 ->
  failureIn progressCallback w1 (t1 ++ t2)
  = match failureIn progressCallback w1 t1 with
    | Some e => Some e
    | None => failureIn progressCallback w2 t2
    end.
Proof.
  intros (_ & Hs & Hf & Hr & Hq). unfold failureIn.
  now rewrite firstFailure_app, Hs, Hf, Hr, Hq.
Qed.

#[export] Instance quiet_preorder : PreOrder (quiet progressCallback).
Proof.
  split.
  - intros w. exists []. split; [apply extends_refl | done].
  - intros w1 w2 w3 (t1 & He1 & Hq1) (t2 & He2 & Hq2).
    exists (t1 ++ t2). split; [now apply (extends_trans _ w2)|].
    now rewrite (failureIn_app _ _ _ _ He1), Hq1.
Qed.

Lemma quiet_failing e w1 w2 w3 :
  quiet progressCallback w1 w2 -> failing progressCallback e w2 w3 ->
    failing progressCallback e w1 w3.
Proof.
  intros (t1 & He1 & Hq1) (t2 & ev & He2 & Hq2 & Hf2).
  exists (t1 ++ t2), ev. rewrite <- (assoc_L (++)).
  split; [now apply (extends_trans _ w2)|].
  rewrite !(failureIn_app _ _ _ _ He1), Hq1. now split.
Qed.

Lemma failing_silent e w1 w2 w3 :
  failing progressCallback e w1 w2 -> silent w2 w3 ->
    failing progressCallback e w1 w3.
Proof.
  intros (t & ev & He & Hq & Hf) Hs. exists t, ev. split; [|done].
  rewrite <- (right_id_L [] (++) (t ++ [ev])).
  now apply (extends_trans _ w2).
Qed.

Lemma quiet_silent w1 w2 : silent w1 w2 -> quiet progressCallback w1 w2.
Proof. intros Hs. now exists []. Qed.

Lemma propagates_ret {A} (a : A) : propagates progressCallback (ret a).
Proof. intros w. simpl. reflexivity. Qed.

Lemma propagates_diverge {A} : propagates progressCallback (@diverge A).
Proof. intros w. simpl. reflexivity. Qed.

Lemma propagates_bind {A B} (m : M A) (k : A -> M B) :
  propagates progressCallback m ->
    (forall a, propagates progressCallback (k a)) ->
    propagates progressCallback (bind m k).
Proof.
  intros Hm Hk w. specialize (Hm w). unfold bind.
  destruct (m w) as [[a|e|] w1]; simpl in *; try done.
  specialize (Hk a w1). destruct (k a w1) as [[b|e|] w2]; simpl in *.
  - etrans; [exact Hm | exact Hk].
  - now apply (quiet_failing _ _ w1).
  - etrans; [exact Hm | exact Hk].
Qed.

Lemma propagates_forEach {A} (l : list A) body :
  (forall x, propagates progressCallback (body x)) ->
    propagates progressCallback (forEach l body).
Proof.
  intros Hb. induction l as [|x l IH]; simpl.
  - apply propagates_ret.
  - apply propagates_bind; [apply Hb | intros _; apply IH].
Qed.

Lemma propagates_when b m : propagates progressCallback m ->
  propagates progressCallback (when b m).
Proof. destruct b; simpl; auto using propagates_ret. Qed.

(** [try { m } finally { session.close() }] after [driver.session()]. *)
Lemma propagates_session {A} (m : M A) :
  propagates progressCallback m ->
    propagates progressCallback (openSession ;;; tryFinally m closeSession).
Proof.
  intros Hm w. unfold bind, openSession, tryFinally, closeSession. simpl.
  specialize (Hm (set_sessions (S (w_sessions w)) w)).
  destruct (m _) as [[a|e|] w1]; simpl in *.
  - destruct Hm as (t & He & Hq). now exists t.
  - destruct Hm as (t & ev & He & Hq). now exists t, ev.
  - destruct Hm as (t & He & Hq). now exists t.
Qed.

Lemma propagates_two_sessions {A} (m : M A) :
  propagates progressCallback m ->
  propagates progressCallback (openSession ;;; openSession ;;;
               tryFinally m (closeSession ;;; closeSession)).
Proof.
  intros Hm w. unfold bind, openSession, tryFinally, closeSession. simpl.
  specialize (Hm (set_sessions (S (S (w_sessions w)))
                    (set_sessions (S (w_sessions w)) w))).
  destruct (m _) as [[a|e|] w1]; simpl in *.
  - destruct Hm as (t & He & Hq). now exists t.
  - destruct Hm as (t & ev & He & Hq). now exists t, ev.
  - destruct Hm as (t & He & Hq). now exists t.
Qed.

Lemma extends_one w w' ev :
  w_trace w' = w_trace w ++ [ev] ->
  w_sourceFail w' = w_sourceFail w -> w_targetFail w' = w_targetFail w ->
  w_sourceRuns w' = w_sourceRuns w + sourceStep ev ->
  w_targetRuns w' = w_targetRuns w + targetStep ev ->
  extends w w' [ev].
Proof.
  intros. unfold extends, sourcesIn, targetsIn. simpl.
  rewrite !Nat.add_0_r. done.
Qed.

Lemma failureIn_one w ev :
  failureIn progressCallback w [ev]
  = failureOf (w_sourceFail w) (w_targetFail w) progressCallback
      (w_sourceRuns w) (w_targetRuns w) ev.
Proof. unfold failureIn. simpl. now destruct (failureOf _ _ _ _ _ ev). Qed.

(** An event that does not fail uncaught, and one that does. *)
Lemma quiet_one w w' ev :
  extends w w' [ev] -> failureIn progressCallback w [ev] = None ->
    quiet progressCallback w w'.
Proof. intros He Hq. now exists [ev]. Qed.

Lemma failing_one e w w' ev :
  extends w w' [ev] -> failureIn progressCallback w [ev] = Some e ->
    failing progressCallback e w w'.
Proof. intros He Hf. now exists [], ev. Qed.

Lemma propagates_console lvl msg : propagates progressCallback (console lvl
  msg).
Proof.
  intros w. simpl. apply (quiet_one _ _ (EvConsole lvl msg)); [|done].
  apply extends_one; simpl; (reflexivity || lia).
Qed.

Lemma propagates_quietly {A} (m : M A) :
  (forall w, exists a, m w = (Ok a, (m w).2) /\ silent w (m w).2) ->
  propagates progressCallback m.
Proof.
  intros H w. destruct (H w) as (a & Heq & Hs). rewrite Heq. simpl.
  now apply quiet_silent.
Qed.

Lemma propagates_openSession : propagates progressCallback openSession.
Proof.
  apply propagates_quietly. intros w. exists tt. split; [done|].
  unfold silent, extends, sourcesIn, targetsIn. simpl.
  now rewrite (right_id_L [] (++)), !Nat.add_0_r.
Qed.

Lemma propagates_setProgress f : propagates progressCallback (setProgress f).
Proof.
  apply propagates_quietly. intros w. exists tt. split; [done|].
  unfold silent, extends, sourcesIn, targetsIn. simpl.
  now rewrite (right_id_L [] (++)), !Nat.add_0_r.
Qed.

Lemma propagates_sourceRun {A} q (answer : SourceDb -> A) :
  propagates progressCallback (sourceRun q answer).
Proof.
  intros w. unfold sourceRun.
  assert (He : extends w (tick_source (emit (EvSource q) w)) [EvSource q]).
  { apply extends_one; simpl; (reflexivity || lia). }
  destruct (w_sourceFail w (w_sourceRuns w)) as [e|] eqn:Hfail; simpl.
  - apply (failing_one _ _ _ _ He). now rewrite failureIn_one.
  - apply (quiet_one _ _ _ He). now rewrite failureIn_one.
Qed.

Lemma propagates_targetRun {A} q (effect : TargetDb -> A * TargetDb) :
  caught q = false -> propagates progressCallback (targetRun q effect).
Proof.
  intros Hq w. unfold targetRun.
  assert (He : extends w (tick_target (emit (EvTarget q) w)) [EvTarget q]).
  { apply extends_one; simpl; (reflexivity || lia). }
  destruct (w_targetFail w (w_targetRuns w)) as [e|] eqn:Hfail; simpl.
  - apply (failing_one _ _ _ _ He). rewrite failureIn_one. simpl.
    now rewrite Hq.
  - destruct (effect (w_target w)) as [a t]. simpl.
    apply (quiet_one _ (set_target t _) _ He). rewrite failureIn_one. simpl.
    now rewrite Hq.
Qed.

(** A statement whose failure is caught, with the line that follows it in
    either case. *)
Lemma quiet_caught w q (t : option TargetDb) lvl msg :
  caught q = true ->
  quiet progressCallback w
    (emit (EvConsole lvl msg)
       (match t with
        | Some t' => set_target t' (tick_target (emit (EvTarget q) w))
        | None => tick_target (emit (EvTarget q) w)
        end)).
Proof.
  intros Hq. exists [EvTarget q; EvConsole lvl msg]. split.
  - unfold extends, sourcesIn, targetsIn.
    destruct t; simpl; rewrite <- (assoc_L (++)); repeat split; lia.
  - unfold failureIn. simpl. now rewrite Hq.
Qed.

Lemma propagates_dropOneConstraint name :
  propagates progressCallback (dropOneConstraint name).
Proof.
  intros w. unfold dropOneConstraint, tryCatch, bind, targetRun, console.
  destruct (w_targetFail w (w_targetRuns w)); simpl.
  - now apply (quiet_caught w _ None).
  - now apply (quiet_caught w _ (Some _)).
Qed.

Lemma propagates_dropOneIndex name : propagates progressCallback (dropOneIndex
  name).
Proof.
  intros w. unfold dropOneIndex, tryCatch, bind, targetRun, console.
  destruct (w_targetFail w (w_targetRuns w)); simpl.
  - now apply (quiet_caught w _ None).
  - now apply (quiet_caught w _ (Some _)).
Qed.

Lemma propagates_copyConstraint c : propagates progressCallback (copyConstraint
  c).
Proof.
  intros w. unfold copyConstraint, tryCatch, bind, targetRun, console.
  cbv zeta. destruct (truthy (constraintStatement c)); simpl.
  - destruct (w_targetFail w (w_targetRuns w)) as [e|]; simpl.
    + destruct (_ || _); now apply (quiet_caught w _ None).
    + now apply (quiet_caught w _ (Some _)).
  - apply propagates_console.
Qed.

Lemma propagates_copyIndex i : propagates progressCallback (copyIndex i).
Proof.
  intros w. unfold copyIndex, tryCatch, bind, targetRun, console.
  cbv zeta. destruct (truthy (indexStatement i)); simpl.
  - destruct (w_targetFail w (w_targetRuns w)) as [e|]; simpl.
    + destruct (_ || _); now apply (quiet_caught w _ None).
    + now apply (quiet_caught w _ (Some _)).
  - apply propagates_console.
Qed.

Lemma propagates_notify : propagates progressCallback (notify progressCallback).
Proof.
  intros w. unfold notify. destruct progressCallback as [observer|] eqn:Hcb;
    [|simpl; exists []; split; [apply extends_refl | done]].
  cbv zeta.
  assert (He : extends w
                 (set_progress (observer (w_progress w)).2
                    (emit (EvObserver (w_progress w)) w))
                 [EvObserver (w_progress w)]).
  { apply extends_one; simpl; (reflexivity || lia). }
  destruct (observer (w_progress w)).1 as [e|] eqn:Hthrow; simpl;
    rewrite <- Hcb.
  - apply (failing_one _ _ _ _ He). unfold failureIn. simpl.
    now rewrite Hcb, Hthrow.
  - apply (quiet_one _ _ _ He). unfold failureIn. simpl.
    now rewrite Hcb, Hthrow.
Qed.

Create HintDb prop discriminated.

Hint Resolve propagates_dropOneConstraint propagates_dropOneIndex
  propagates_copyConstraint propagates_copyIndex propagates_notify
  propagates_console propagates_openSession propagates_sourceRun : prop.

Ltac propagates_step :=
  cbv zeta;
  lazymatch goal with
  | |- propagates _ (openSession ;;; openSession ;;; tryFinally _ _) =>
      apply propagates_two_sessions
  | |- propagates _ (openSession ;;; tryFinally _ _) =>
      apply propagates_session
  | |- propagates _ (bind _ _) => apply propagates_bind; [ | intros ?]
  | |- propagates _ (forEach _ _) => apply propagates_forEach; intros ?
  | |- propagates _ (when _ _) => apply propagates_when
  | |- propagates _ (ret _) => apply propagates_ret
  | |- propagates _ diverge => apply propagates_diverge
  | |- propagates _ (targetRun _ _) =>
      apply propagates_targetRun; reflexivity
  | |- propagates _ (setProgress _) => apply propagates_setProgress
  | |- propagates _ (setStage _) => apply propagates_setProgress
  | |- propagates _ (setProcessedNodes _) => apply propagates_setProgress
  | |- propagates _ (setProcessedRelationships _) =>
      apply propagates_setProgress
  | |- propagates _ _ => solve [eauto with prop]
  end.

Ltac solve_propagates := repeat propagates_step.

Variable batchSize : nat.

Lemma propagates_getTotalCounts : propagates progressCallback getTotalCounts.
Proof. unfold getTotalCounts. solve_propagates. Qed.

Lemma propagates_clearTargetDatabase : propagates progressCallback
  clearTargetDatabase.
Proof. unfold clearTargetDatabase. solve_propagates. Qed.

Lemma propagates_copySchema : propagates progressCallback copySchema.
Proof. unfold copySchema. solve_propagates. Qed.

Lemma propagates_createNodesInTarget nodesData :
  propagates progressCallback (createNodesInTarget nodesData).
Proof.
  unfold createNodesInTarget. solve_propagates.
  destruct x as [key groupNodes]. unfold createNodeGroup. solve_propagates.
Qed.

Lemma propagates_createRelationshipsInTarget relsData :
  propagates progressCallback (createRelationshipsInTarget relsData).
Proof.
  unfold createRelationshipsInTarget. solve_propagates.
  destruct x as [rType groupRels]. unfold createRelGroup. solve_propagates.
Qed.

Lemma propagates_cleanupStage : propagates progressCallback cleanupStage.
Proof. unfold cleanupStage. solve_propagates. Qed.

Hint Resolve propagates_getTotalCounts propagates_clearTargetDatabase
  propagates_copySchema propagates_createNodesInTarget
  propagates_createRelationshipsInTarget propagates_cleanupStage : prop.

Lemma propagates_reportNodes n :
  propagates progressCallback (reportNodes progressCallback n).
Proof. unfold reportNodes. solve_propagates. Qed.

Lemma propagates_reportRelationships n :
  propagates progressCallback (reportRelationships progressCallback n).
Proof. unfold reportRelationships. solve_propagates. Qed.

Hint Resolve propagates_reportNodes propagates_reportRelationships : prop.

Lemma propagates_copyNodesLoop fuel total processed :
  propagates progressCallback (copyNodesLoop batchSize fuel (reportNodes
    progressCallback)
                 total processed).
Proof.
  revert processed. induction fuel as [|fuel IH]; intros processed;
    cbn [copyNodesLoop]; destruct (processed <? total)%nat;
    solve_propagates.
Qed.

Lemma propagates_copyRelationshipsLoop fuel total processed :
  propagates progressCallback (copyRelationshipsLoop batchSize fuel
                 (reportRelationships progressCallback) total processed).
Proof.
  revert processed. induction fuel as [|fuel IH]; intros processed;
    cbn [copyRelationshipsLoop]; destruct (processed <? total)%nat;
    solve_propagates.
Qed.

Hint Resolve propagates_copyNodesLoop propagates_copyRelationshipsLoop : prop.

Lemma propagates_copyNodes fuel :
  propagates progressCallback (copyNodes batchSize fuel (reportNodes
    progressCallback)).
Proof. unfold copyNodes. solve_propagates. Qed.

Lemma propagates_copyRelationships fuel :
  propagates progressCallback (copyRelationships batchSize fuel
                 (reportRelationships progressCallback)).
Proof. unfold copyRelationships. solve_propagates. Qed.

Hint Resolve propagates_copyNodes propagates_copyRelationships : prop.

Lemma propagates_replicateBody fuel :
  propagates progressCallback (replicateBody batchSize progressCallback fuel).
Proof. unfold replicateBody. solve_propagates. Qed.

End Propagation.

Lemma failureIn_snoc_console cb w t lvl msg :
  failureIn cb w (t ++ [EvConsole lvl msg]) = failureIn cb w t.
Proof.
  unfold failureIn. rewrite firstFailure_app. simpl.
  now destruct (firstFailure _ _ _ _ _ t).
Qed.

(** C7, amended: an uncaught failure stops the run and reaches the caller.
    Let [t] be the events a call of [replicateDatabase] writes.  The call
    throws exactly when one of the events failed and no handler of the
    class catches such a failure: a statement against the source, a
    statement against the target other than a [DROP] of the clearing stage
    and a [CREATE] of the schema stage, or a call of the observer.  Then
    the event that failed is the last the run wrote before the failure was
    reported with [console.error], and the error thrown to the caller is
    the error of that event.  Every session opened during the call has been
    closed by then, but the two drivers are as they were:
    [replicateDatabase] does not call [close], which is the only method
    that releases them. *)
Theorem uncaught_failure_reaches_the_caller
    batchSize progressCallback fuel w :
  let run := replicateDatabase batchSize progressCallback fuel w in
  exists t,
    w_trace run.2 = w_trace w ++ t /\
    (forall e,
        failureIn progressCallback w t = Some e ->
        run.1 = Throw e /\
        w_sessions run.2 = w_sessions w /\
        exists t0 ev,
          t = t0 ++ [ev; EvConsole LError (MFailed e)] /\
          failureIn progressCallback w t0 = None) /\
    (failureIn progressCallback w t = None -> forall e, run.1 <> Throw e) /\
    w_sourceDriverOpen run.2 = w_sourceDriverOpen w /\
    w_targetDriverOpen run.2 = w_targetDriverOpen w /\
    (close run.2).1 = Ok tt /\
    w_sourceDriverOpen (close run.2).2 = false /\
    w_targetDriverOpen (close run.2).2 = false.
Proof.
  intros run.
  pose proof (env_replicateDatabase batchSize progressCallback fuel w) as He.
  pose proof (balanced_replicateDatabase batchSize progressCallback fuel w)
    as Hbal.
  fold run in He, Hbal. unfold keeps, envOf in He.
  assert (Hdrivers : w_sourceDriverOpen run.2 = w_sourceDriverOpen w /\
                     w_targetDriverOpen run.2 = w_targetDriverOpen w)
    by (split; congruence).
  clear He.
  pose proof (propagates_replicateBody progressCallback batchSize fuel w)
    as Hbody.
  subst run. unfold replicateDatabase, tryCatch in *.
  destruct (replicateBody batchSize progressCallback fuel w)
    as [[[]|e|] w1]; simpl in *.
  - destruct Hbody as (t & (Ht & _) & Hq). exists t. split; [exact Ht|].
    split; [intros e Hf; congruence|]. split; [done|]. repeat split; tauto.
  - destruct Hbody as (t & ev & (Ht & _) & Hq & Hf).
    exists ((t ++ [ev]) ++ [EvConsole LError (MFailed e)]).
    rewrite failureIn_snoc_console, Hf.
    split; [now rewrite Ht, !(assoc_L (++))|].
    split.
    + intros e' [= <-]. split; [done|]. split; [now apply Hbal|].
      exists t, ev. split; [now rewrite <- (assoc_L (++))|done].
    + split; [done|]. repeat split; tauto.
  - destruct Hbody as (t & (Ht & _) & Hq). exists t. split; [exact Ht|].
    split; [intros e Hf; congruence|]. split; [done|]. repeat split; tauto.
Qed.

Lemma uncaught_failure_reaches_the_caller_witness :
  let run := replicateDatabase 2 None 5 schemaDownWorld in
  run.1 = Throw connectionLost /\
  w_sessions run.2 = 0 /\
  w_sourceDriverOpen run.2 = true /\ w_targetDriverOpen run.2 = true.
Proof.
  intros run.
  destruct (uncaught_failure_reaches_the_caller 2 None 5 schemaDownWorld)
    as (t & Ht & Hthrows & _ & Hsd & Htd & _).
  fold run in Ht, Hthrows, Hsd, Htd.
  destruct (Hthrows connectionLost) as (Hrun & Hs & _).
  - apply (f_equal (drop (length (w_trace schemaDownWorld)))) in Ht.
    rewrite drop_app_length in Ht. rewrite <- Ht. vm_compute. reflexivity.
  - split; [exact Hrun|]. split; [exact Hs|]. split; [exact Hsd | exact Htd].
Defined.

(** * Properties of the ingestion script *)

Lemma hoare_ret {A} (P : Script -> Prop) (a : A) (Q : A -> Script -> Prop) :
  (forall s, P s -> Q a s) -> hoare P (sret a) Q.
Proof. intros H s HP. now apply H. Qed.

Lemma hoare_bind {A B} P Q R (m : Run A) (k : A -> Run B) :
  hoare P m Q -> (forall a, hoare (Q a) (k a) R) -> hoare P (sbind m k) R.
Proof.
  intros Hm Hk s HP. specialize (Hm s HP). unfold sbind.
  destruct (m s) as [a s1]. now apply Hk.
Qed.

Lemma hoare_weaken {A} (P P' : Script -> Prop) (Q Q' : A -> Script -> Prop) m :
  hoare P m Q -> (forall s, P' s -> P s) -> (forall a s, Q a s -> Q' a s) ->
  hoare P' m Q'.
Proof. intros Hm HP HQ s Hs. apply HQ, Hm, HP, Hs. Qed.

Lemma hoare_fold {A B} (I : B -> Script -> Prop) (l : list A)
    (body : B -> A -> Run B) b :
  (forall b x, x ∈ l -> hoare (I b) (body b x) I) ->
  hoare (I b) (sfold l body b) I.
Proof.
  revert b. induction l as [|x l IH]; intros b Hbody; cbn [sfold].
  - now apply hoare_ret.
  - eapply hoare_bind; [apply Hbody; left|].
    intros b'. apply IH. intros b0 y Hy. apply Hbody. now right.
Qed.

Lemma preserves_ret {A} I (a : A) : preserves I (sret a).
Proof. now apply hoare_ret. Qed.

Lemma preserves_bind {A B} I (m : Run A) (k : A -> Run B) :
  preserves I m -> (forall a, preserves I (k a)) -> preserves I (sbind m k).
Proof. intros Hm Hk. eapply hoare_bind; [exact Hm | exact Hk]. Qed.

Lemma preserves_forEach {A} I (l : list A) body :
  (forall x, x ∈ l -> preserves I (body x)) -> preserves I (sforEach l body).
Proof.
  induction l as [|x l IH]; intros Hbody; cbn [sforEach].
  - apply preserves_ret.
  - apply preserves_bind; [apply Hbody; left|].
    intros _. apply IH. intros y Hy. apply Hbody. now right.
Qed.

Lemma preserves_fold {A B} I (l : list A) (body : B -> A -> Run B) b :
  (forall b x, x ∈ l -> preserves I (body b x)) -> preserves I (sfold l body b).
Proof.
  intros Hbody. apply (hoare_fold (fun _ => I)). exact Hbody.
Qed.

(** A property of the statements sent and of the counter is kept by the
    steps that touch neither. *)
Section Quiet.
Variable I : Script -> Prop.
Hypothesis I_said :
  forall svc qs l l' z c c', I (mkScript svc qs l z c) -> I (mkScript svc qs l' z c').

Lemma preserves_log line : preserves I (log line).
Proof. intros [svc qs l z c] H. exact (I_said svc qs l _ z c _ H). Qed.

Lemma preserves_closeService : preserves I closeService.
Proof. intros [svc qs l z c] H. exact (I_said svc qs l _ z c _ H). Qed.

Lemma preserves_getMaxInstructorId : preserves I getMaxInstructorId.
Proof. intros s H. exact H. Qed.
End Quiet.

(** One step through the structure of a piece of the script; [leaf] deals
    with the statements and the other primitive steps. *)
Ltac run_step leaf :=
  lazymatch goal with
  | |- preserves _ (sbind _ _) => apply preserves_bind; [|intros ?]
  | |- preserves _ (sret _) => apply preserves_ret
  | |- preserves _ (sforEach _ _) => apply preserves_forEach; intros ? ?
  | |- preserves _ (sfold _ _ _) => apply preserves_fold; intros ? ? ?
  | |- preserves _ (match ?x with _ => _ end) => destruct x eqn:?
  | |- preserves _ (let _ := _ in _) => cbv zeta
  | |- _ => leaf
  end.

(** ** The days of the schedule *)

Lemma sbind_run {A B} (m : Run A) (k : A -> Run B) s :
  sbind m k s = k (m s).1 (m s).2.
Proof. unfold sbind. now destruct (m s). Qed.

Lemma allScheduled_said svc qs l l' z c c' :
  allScheduled (mkScript svc qs l z c) -> allScheduled (mkScript svc qs l' z c').
Proof. exact id. Qed.

Lemma allScheduled_setMaxInstructorId z : preserves allScheduled (setMaxInstructorId z).
Proof. intros s H. exact H. Qed.

Lemma allScheduled_execute {A} q (answer : Service -> nat -> A) :
  wellScheduled q -> preserves allScheduled (execute q answer).
Proof.
  intros Hq s H. unfold execute.
  destruct (rejects (service s) (length (sent s))); simpl;
    apply Forall_app; split; try done; now constructor.
Qed.

Ltac scheduled_leaf :=
  idtac;
  lazymatch goal with
  | |- preserves _ (log _) => apply preserves_log, allScheduled_said
  | |- preserves _ closeService =>
      apply preserves_closeService, allScheduled_said
  | |- preserves _ getMaxInstructorId => apply preserves_getMaxInstructorId
  | |- preserves _ (setMaxInstructorId _) =>
      apply allScheduled_setMaxInstructorId
  | |- preserves _ (executeWriteQuery _) =>
      apply allScheduled_execute; try exact I
  | |- preserves _ (execute _ _) => apply allScheduled_execute; try exact I
  end.

Ltac scheduled_step := run_step scheduled_leaf.

Lemma allScheduled_scheduleDay crn day :
  preserves allScheduled (scheduleDay crn day).
Proof.
  unfold scheduleDay. cbv zeta.
  destruct (bool_decide (trim day ∈ dayNodes)) eqn:Hday.
  - apply bool_decide_eq_true in Hday. repeat scheduled_step. exact Hday.
  - repeat scheduled_step.
Qed.

Lemma allScheduled_processTerm term : preserves allScheduled (processTerm term).
Proof.
  destruct term as [sections term_id].
  unfold processTerm, lookups, lookupCourse, lookupInstructor,
    createInstructor, createSection, linkInstructor.
  repeat first [apply allScheduled_scheduleDay | scheduled_step].
Qed.

Lemma trimStart_blank before s :
  blank before = true -> trimStart (before +:+ s) = trimStart s.
Proof.
  induction before as [|a before IH]; [done|]. simpl.
  intros [Ha Hb]%andb_prop. rewrite Ha. now apply IH.
Qed.

Lemma trimEnd_blank_all after : blank after = true -> trimEnd after = "".
Proof.
  induction after as [|a after IH]; [done|]. simpl.
  intros [Ha Hb]%andb_prop. now rewrite (IH Hb), Ha.
Qed.

Lemma trimEnd_blank s after :
  blank after = true -> trimEnd (s +:+ after) = trimEnd s.
Proof.
  intros Hb. induction s as [|a s IH]; simpl.
  - now apply trimEnd_blank_all.
  - now rewrite IH.
Qed.

Lemma trimStart_keep a s after :
  isSpace a = false -> trimStart (String a s +:+ after) = String a s +:+ after.
Proof. simpl. now intros ->. Qed.

(** White space around the name of a day is removed, and nothing else. *)
Lemma trim_padded_day before name after :
  name ∈ dayNodes -> blank before = true -> blank after = true ->
  trim (before +:+ name +:+ after) = name.
Proof.
  intros Hname Hb Ha. unfold trim. rewrite trimStart_blank by done.
  unfold dayNodes in Hname. rewrite !elem_of_cons, elem_of_nil in Hname.
  destruct Hname as [->|[->|[->|[->|[->|[->|[]]]]]]];
    rewrite trimStart_keep by reflexivity;
    rewrite trimEnd_blank by done; reflexivity.
Qed.

Lemma invalidDays_app l1 l2 :
  invalidDays (l1 ++ l2) = invalidDays l1 ++ invalidDays l2.
Proof. apply omap_app. Qed.

Lemma scheduleDay_run crn day s :
  let s' := (scheduleDay crn day s).2 in
  service s' = service s /\
  sent s' = sent s ++ (if validDay day then [ScheduledOn crn (trim day)]
                       else []) /\
  invalidDays (said s')
  = invalidDays (said s) ++ (if validDay day then [] else [(crn, day)]).
Proof.
  unfold scheduleDay, validDay. cbv zeta.
  destruct (bool_decide (trim day ∈ dayNodes)).
  - unfold sbind, executeWriteQuery, execute, log, sret.
    destruct (rejects (service s) (length (sent s))); simpl;
      rewrite ?invalidDays_app; simpl; now rewrite !(right_id_L [] (++)).
  - unfold log. simpl. rewrite invalidDays_app. simpl.
    now rewrite (right_id_L [] (++)).
Qed.

Lemma scheduleDays_run crn l s :
  let s' := (sforEach l (scheduleDay crn) s).2 in
  sent s' = sent s ++ map (fun day => ScheduledOn crn (trim day))
                        (List.filter validDay l) /\
  invalidDays (said s')
  = invalidDays (said s)
    ++ map (pair crn) (List.filter (fun day => negb (validDay day)) l).
Proof.
  revert s. induction l as [|day l IH]; intros s; cbn [sforEach].
  - simpl. now rewrite !(right_id_L [] (++)).
  - rewrite sbind_run.
    destruct (scheduleDay_run crn day s) as (_ & Hsent & Hsaid).
    destruct (IH (scheduleDay crn day s).2) as [IHsent IHsaid].
    cbv zeta in *. rewrite IHsent, IHsaid, Hsent, Hsaid.
    cbn [List.filter]. destruct (validDay day); simpl;
      now rewrite <- !(assoc_L (++)).
Qed.

(** X16: a day string is trimmed and checked before it is scheduled.  For
    the days [l] of a section the script sends, in their order, one
    [SCHEDULED_ON] statement for each string that, trimmed, is one of
    Monday to Saturday, with the trimmed string as the day; for every other
    string it sends nothing and writes one line that calls the string, as
    it stands in the file, invalid.  White space around the name of one of
    the six days is what trimming removes.  So whatever the section files
    hold and whatever the service answers or rejects, every [SCHEDULED_ON]
    statement of the script names one of the six day nodes it created. *)
Theorem days_are_trimmed_then_checked :
  (forall crn l s,
      let s' := (sforEach l (scheduleDay crn) s).2 in
      sent s' = sent s ++ map (fun day => ScheduledOn crn (trim day))
                            (List.filter validDay l) /\
      invalidDays (said s')
      = invalidDays (said s)
        ++ map (pair crn) (List.filter (fun day => negb (validDay day)) l)) /\
  (forall before name after,
      name ∈ dayNodes -> blank before = true -> blank after = true ->
      trim (before +:+ name +:+ after) = name /\
      validDay (before +:+ name +:+ after) = true) /\
  (forall terms svc, Forall wellScheduled (sent (ingest terms (startOf
    svc)).2)).
Proof.
  split; [exact scheduleDays_run|]. split.
  - intros before name after Hname Hb Ha.
    pose proof (trim_padded_day before name after Hname Hb Ha) as Htrim.
    split; [exact Htrim|]. unfold validDay. rewrite Htrim.
    now apply bool_decide_eq_true_2.
  - intros terms svc.
    assert (H : preserves allScheduled (ingest terms)).
    { unfold ingest, createDays, createTerms, readMaxInstructorId.
      repeat first [apply allScheduled_processTerm | scheduled_step]. }
    apply H. constructor.
Qed.

Lemma days_are_trimmed_then_checked_witness :
  let s' := (sforEach [" Monday "; "Funday"; "monday"; "Friday"]
               (scheduleDay 12345) (startOf knowingService)).2 in
  sent s' = [ScheduledOn 12345 "Monday"; ScheduledOn 12345 "Friday"] /\
  invalidDays (said s') = [(12345%Z, "Funday"); (12345%Z, "monday")] /\
  trim " Monday " = "Monday".
Proof.
  destruct days_are_trimmed_then_checked as (Hloop & Hpad & _).
  destruct (Hloop 12345%Z [" Monday "; "Funday"; "monday"; "Friday"]
              (startOf knowingService)) as [Hsent Hsaid].
  split; [rewrite Hsent; reflexivity|].
  split; [rewrite Hsaid; reflexivity|].
  apply (Hpad " " "Monday" " "); [|reflexivity|reflexivity].
  apply (bool_decide_unpack _). vm_compute. exact I.
Defined.

(** ** The identifiers of new instructors *)

Lemma createdIds_app svc k qs qs' :
  createdIds svc k (qs ++ qs')
  = createdIds svc k qs ++ createdIds svc (k + length qs) qs'.
Proof.
  revert k. induction qs as [|q qs IH]; intros k; simpl.
  - now rewrite Nat.add_0_r.
  - rewrite IH. replace (S k + length qs) with (k + S (length qs)) by lia.
    destruct q; try reflexivity. now destruct (rejects svc k).
Qed.

Lemma createdIds_other svc k qs :
  Forall (fun q => isCreate q = false) qs -> createdIds svc k qs = [].
Proof.
  revert k. induction qs as [|q qs IH]; intros k Hall; [done|].
  apply Forall_cons in Hall as [Hq Hqs]. simpl.
  destruct q; try (now apply IH). discriminate.
Qed.

Lemma allocated_said m0 svc qs l l' z c c' :
  allocated m0 (mkScript svc qs l z c) -> allocated m0 (mkScript svc qs l' z c').
Proof. exact id. Qed.

Lemma allocated_execute {A} m0 q (answer : Service -> nat -> A) :
  isCreate q = false -> preserves (allocated m0) (execute q answer).
Proof.
  intros Hq s Hs. unfold execute, allocated in *.
  assert (Hsame : createdIds (service s) 0 (sent s ++ [q])
                  = createdIds (service s) 0 (sent s)).
  { rewrite createdIds_app, (createdIds_other _ _ [q]).
    - apply (right_id_L [] (++)).
    - now constructor. }
  destruct (rejects (service s) (length (sent s))); simpl; rewrite Hsame;
    exact Hs.
Qed.

Lemma toNumber_exact z : (- 2 ^ 53 <= z <= 2 ^ 53)%Z -> toNumber z = z.
Proof.
  intros Hz.
  destruct (decide (z = 2 ^ 53)%Z) as [->|]; [reflexivity|].
  destruct (decide (z = - 2 ^ 53)%Z) as [->|]; [reflexivity|].
  apply toNumber_safe. unfold safeInteger. lia.
Qed.

Lemma allocated_createInstructor m0 instructorsMap instructorName :
  preserves (allocated m0) (createInstructor instructorsMap instructorName).
Proof.
  intros s Hs. unfold allocated, countable in *. cbv zeta in *.
  set (ids := createdIds (service s) 0 (sent s)) in *.
  unfold createInstructor, sbind, getMaxInstructorId, setMaxInstructorId,
    executeWriteQuery, execute, log, increment, decrement. simpl.
  destruct (rejects (service s) (length (sent s))) as [e|] eqn:Hrej; simpl;
    rewrite createdIds_app; simpl; rewrite Hrej; fold ids.
  - rewrite (right_id_L [] (++)). intros Hsafe.
    destruct (Hs Hsafe) as [Hc Hm]. split; [exact Hc|].
    rewrite (toNumber_exact (maxInstructorId s + 1)) by lia.
    rewrite toNumber_exact by lia. lia.
  - rewrite length_app. simpl. intros Hsafe.
    destruct Hs as [Hc Hm]; [lia|].
    rewrite toNumber_exact by lia. split.
    + unfold consecutiveFrom in *. rewrite length_app. simpl.
      rewrite Nat.add_1_r, seq_S, fmap_app. simpl. rewrite <- Hc.
      f_equal. f_equal. lia.
    + lia.
Qed.

Ltac allocated_leaf :=
  idtac;
  lazymatch goal with
  | |- preserves _ (createInstructor _ _) => apply allocated_createInstructor
  | |- preserves _ (log _) => apply preserves_log, allocated_said
  | |- preserves _ closeService =>
      apply preserves_closeService, allocated_said
  | |- preserves _ (executeWriteQuery _) =>
      apply allocated_execute; reflexivity
  | |- preserves _ (execute _ _) => apply allocated_execute; reflexivity
  end.

Ltac allocated_step := run_step allocated_leaf.

Lemma allocated_processTerm m0 term : preserves (allocated m0) (processTerm term).
Proof.
  destruct term as [sections term_id].
  unfold processTerm, lookups, lookupCourse, lookupInstructor,
    createSection, linkInstructor, scheduleDay.
  repeat allocated_step.
Qed.

(** A loop of writes whose failures are only logged sends one statement per
    element and leaves the counter alone. *)
Lemma sforEach_writes {A} (l : list A) (statementOf : A -> Statement)
    (onFailure : A -> Error -> Said) s :
  let s' :=
    (sforEach l (fun x =>
       r <- executeWriteQuery (statementOf x) ;;
       match r with
       | Rejected error => log (onFailure x error)
       | Resolved _ => sret tt
       end)%script s).2 in
  service s' = service s /\
  sent s' = sent s ++ map statementOf l /\
  maxInstructorId s' = maxInstructorId s.
Proof.
  cbv zeta. set (body := fun x : A => _).
  assert (Hturn : forall x s0,
            service (body x s0).2 = service s0 /\
            sent (body x s0).2 = sent s0 ++ [statementOf x] /\
            maxInstructorId (body x s0).2 = maxInstructorId s0).
  { intros x s0. subst body.
    unfold sbind, executeWriteQuery, execute, log, sret.
    now destruct (rejects (service s0) (length (sent s0))). }
  clearbody body. revert s.
  induction l as [|x l IH]; intros s; cbn [sforEach].
  - simpl. now rewrite (right_id_L [] (++)).
  - rewrite sbind_run. destruct (Hturn x s) as (H1 & H2 & H3).
    destruct (IH (body x s).2) as (H1' & H2' & H3').
    rewrite H1', H2', H3', H1, H2, H3, <- (assoc_L (++)). done.
Qed.

Lemma createDays_sent s :
  service (createDays s).2 = service s /\
  sent (createDays s).2 = sent s ++ map MergeDay dayNodes /\
  maxInstructorId (createDays s).2 = maxInstructorId s.
Proof.
  unfold createDays. rewrite !sbind_run.
  match goal with |- context [sforEach dayNodes ?body ?s0] =>
    destruct (sforEach_writes dayNodes MergeDay SFailedDay s0)
      as (H1 & H2 & H3);
    set (s1 := (sforEach dayNodes body s0).2) in *
  end.
  change (service s1 = service s /\
          sent s1 = sent s ++ map MergeDay dayNodes /\
          maxInstructorId s1 = maxInstructorId s).
  rewrite H1, H2, H3. done.
Qed.

Lemma createTerms_sent s :
  service (createTerms s).2 = service s /\
  sent (createTerms s).2 = sent s ++ map MergeTerm termIds /\
  maxInstructorId (createTerms s).2 = maxInstructorId s.
Proof.
  unfold createTerms. rewrite !sbind_run.
  match goal with |- context [sforEach termIds ?body ?s0] =>
    destruct (sforEach_writes termIds MergeTerm SFailedTerm s0)
      as (H1 & H2 & H3);
    set (s1 := (sforEach termIds body s0).2) in *
  end.
  change (service s1 = service s /\
          sent s1 = sent s ++ map MergeTerm termIds /\
          maxInstructorId s1 = maxInstructorId s).
  rewrite H1, H2, H3. done.
Qed.

Lemma readMaxInstructorId_allocated s :
  length (sent s) = 10 -> Forall (fun q => isCreate q = false) (sent s) ->
  allocated (baseId (service s)) (readMaxInstructorId s).2.
Proof.
  intros Hlen Hother.
  unfold readMaxInstructorId, sbind, setMaxInstructorId, log, execute,
    getMaxInstructorId, allocated, baseId. simpl. rewrite Hlen.
  assert (Hnone : createdIds (service s) 0 (sent s ++ [ReadMaxInstructorId])
                  = []).
  { apply createdIds_other, Forall_app. split; [done | now constructor]. }
  destruct (rejects (service s) 10); simpl; rewrite Hnone; simpl;
    (split; [reflexivity | lia]).
Qed.

Lemma allocated_after_read svc :
  allocated (baseId svc)
    ((createDays ;;; createTerms ;;; readMaxInstructorId)%script
       (startOf svc)).2.
Proof.
  rewrite !sbind_run.
  destruct (createDays_sent (startOf svc)) as (Hs1 & Hq1 & _).
  set (s1 := (createDays (startOf svc)).2) in *.
  destruct (createTerms_sent s1) as (Hs2 & Hq2 & _).
  set (s2 := (createTerms s1).2) in *.
  rewrite Hq1 in Hq2. rewrite Hs1 in Hs2. simpl in Hs2, Hq2.
  rewrite <- Hs2. apply readMaxInstructorId_allocated; rewrite Hq2.
  - reflexivity.
  - repeat constructor.
Qed.

Lemma servedBy_said svc0 svc qs l l' z c c' :
  servedBy svc0 (mkScript svc qs l z c) -> servedBy svc0 (mkScript svc qs l' z c').
Proof. exact id. Qed.

Lemma servedBy_execute {A} svc q (answer : Service -> nat -> A) :
  preserves (servedBy svc) (execute q answer).
Proof.
  intros s H. unfold execute.
  now destruct (rejects (service s) (length (sent s))).
Qed.

Ltac served_leaf :=
  idtac;
  lazymatch goal with
  | |- preserves _ (log _) => apply preserves_log, servedBy_said
  | |- preserves _ closeService => apply preserves_closeService, servedBy_said
  | |- preserves _ getMaxInstructorId => apply preserves_getMaxInstructorId
  | |- preserves _ (setMaxInstructorId _) => intros ? ?; assumption
  | |- preserves _ (executeWriteQuery _) => apply servedBy_execute
  | |- preserves _ (execute _ _) => apply servedBy_execute
  end.

Lemma servedBy_processTerm svc term : preserves (servedBy svc) (processTerm term).
Proof.
  destruct term as [sections term_id].
  unfold processTerm, lookups, lookupCourse, lookupInstructor,
    createInstructor, createSection, linkInstructor, scheduleDay.
  repeat run_step served_leaf.
Qed.

Lemma servedBy_ingest svc terms : preserves (servedBy svc) (ingest terms).
Proof.
  unfold ingest, createDays, createTerms, readMaxInstructorId.
  repeat first [apply servedBy_processTerm | run_step served_leaf].
Qed.

(** X17: new instructors get consecutive identifiers as long as the counter
    stays among the safe integers.  Let [m] be the maximum the script read
    at its start ([0] when the read was rejected or returned no row) and
    [ids] the identifiers of the instructors the script creates (the
    [CREATE] statements that are not rejected), in the order of their
    creation.  When [m] is above [- 2 ^ 53] and [m] plus the number of
    [ids] is below [2 ^ 53], then [ids] is [m + 1], [m + 2], ..., and the
    counter ends at [m] plus their number: a rejected [CREATE] uses up no
    identifier. *)
Theorem new_instructors_get_consecutive_ids terms svc :
  let s := (ingest terms (startOf svc)).2 in
  let ids := createdIds svc 0 (sent s) in
  countable (baseId svc) (length ids) ->
  ids = (fun k => (baseId svc + 1 + Z.of_nat k)%Z) <$> seq 0 (length ids) /\
  maxInstructorId s = (baseId svc + Z.of_nat (length ids))%Z.
Proof.
  cbv zeta. intros Hsafe.
  pose proof (servedBy_ingest svc terms (startOf svc) eq_refl) as Hsvc.
  unfold servedBy in Hsvc.
  assert (Halloc : allocated (baseId svc) (ingest terms (startOf svc)).2).
  { unfold ingest. rewrite (sbind_run createDays), (sbind_run createTerms),
      (sbind_run readMaxInstructorId).
    pose proof (allocated_after_read svc) as Hread.
    rewrite !sbind_run in Hread. cbn [fst] in *.
    set (s3 := (readMaxInstructorId _).2) in *.
    assert (Hrest : preserves (allocated (baseId svc))
                      (sforEach terms processTerm ;;; closeService ;;;
                       log SProcessingComplete)%script).
    { repeat first [apply allocated_processTerm | allocated_step]. }
    apply Hrest, Hread. }
  unfold allocated in Halloc. cbv zeta in Halloc. rewrite Hsvc in Halloc.
  exact (Halloc Hsafe).
Qed.

Lemma new_instructors_get_consecutive_ids_witness :
  let s := (ingest [([oneSection], 202515%Z)] (startOf knowingService)).2 in
  createdIds knowingService 0 (sent s) = [8%Z] /\ maxInstructorId s = 8%Z.
Proof.
  intros s.
  pose proof (new_instructors_get_consecutive_ids
                [([oneSection], 202515%Z)] knowingService) as H.
  cbv zeta in H. fold s in H. destruct H as [Hids Hmax].
  - vm_compute. split; reflexivity.
  - split; [rewrite Hids | rewrite Hmax]; vm_compute; reflexivity.
Defined.

(** Beyond the safe integers the counter does not count: adding one to
    [2 ^ 53] gives [2 ^ 53] again, and taking one from it after that gives
    an identifier that was already used. *)
Example the_counter_stops_at_two_to_the_53 :
  increment (2 ^ 53) = (2 ^ 53)%Z /\
  decrement (increment (2 ^ 53)) = (2 ^ 53 - 1)%Z.
Proof. split; reflexivity. Qed.

(** ** The course of a section *)

Lemma courseFound_grows svc qs q key id :
  courseFound svc qs key id -> courseFound svc (qs ++ [q]) key id.
Proof.
  intros (k & subj & num & Hk & Hkey & Hrej & Hans & Ht).
  exists k, subj, num. split; [|done].
  apply lookup_app_l_Some. exact Hk.
Qed.

Lemma coursesFounded_said cm svc qs l l' z c c' :
  coursesFounded cm (mkScript svc qs l z c) ->
  coursesFounded cm (mkScript svc qs l' z c').
Proof. exact id. Qed.

Lemma sectionsFounded_other s q :
  isSection q = false -> sectionsFounded s ->
  forall l z c,
    sectionsFounded (mkScript (service s) (sent s ++ [q]) l z c).
Proof.
  intros Hq HG l z c j node rel Hj. simpl in *.
  destruct (decide (j < length (sent s))) as [Hlt|Hge].
  - rewrite lookup_app_l in Hj by done.
    rewrite take_app_le by lia. exact (HG _ _ _ Hj).
  - rewrite lookup_app_r in Hj by lia.
    destruct (j - length (sent s)) as [|n]; simpl in Hj; [|done].
    injection Hj as ->. discriminate.
Qed.

Lemma coursesFounded_execute {A} cm q (answer : Service -> nat -> A) :
  isSection q = false -> preserves (coursesFounded cm) (execute q answer).
Proof.
  intros Hq s [HG HM]. unfold execute.
  assert (H : coursesFounded cm
                (mkScript (service s) (sent s ++ [q]) (said s)
                   (maxInstructorId s) (closed s))).
  { split; [now apply sectionsFounded_other|].
    intros key id Hin. simpl. now apply courseFound_grows, HM. }
  now destruct (rejects (service s) (length (sent s))).
Qed.

Ltac founded_leaf :=
  idtac;
  lazymatch goal with
  | |- preserves _ (log _) => apply preserves_log, coursesFounded_said
  | |- preserves _ closeService =>
      apply preserves_closeService, coursesFounded_said
  | |- preserves _ getMaxInstructorId => apply preserves_getMaxInstructorId
  | |- preserves _ (setMaxInstructorId _) => intros ? ?; assumption
  | |- preserves _ (executeWriteQuery _) =>
      apply coursesFounded_execute; reflexivity
  | |- preserves _ (execute _ _) => apply coursesFounded_execute; reflexivity
  end.

Lemma coursesFounded_lookupInstructors cm l instructorsMap :
  preserves (coursesFounded cm) (sfold l lookupInstructor instructorsMap).
Proof.
  unfold lookupInstructor, createInstructor. repeat run_step founded_leaf.
Qed.

Lemma coursesFounded_lookupCourse cm sectionData :
  hoare (coursesFounded cm) (lookupCourse cm sectionData) coursesFounded.
Proof.
  intros s [HG HM]. unfold lookupCourse. cbv zeta.
  set (key := courseKey _ _).
  destruct (cm !! key) as [known|] eqn:Hknown; [now split|].
  unfold sbind, execute, log, sret.
  assert (Hnew : sectionsFounded
            (mkScript (service s)
               (sent s ++ [FindCourse (subject_code sectionData)
                             (course_number sectionData)])
               (said s) (maxInstructorId s) (closed s))).
  { now apply sectionsFounded_other. }
  destruct (rejects (service s) (length (sent s))) as [e|] eqn:Hrej; simpl.
  - split; [exact Hnew|]. intros k id Hin. simpl.
    now apply courseFound_grows, HM.
  - destruct (courseAnswer (service s) (length (sent s))) as [id|] eqn:Hans;
      simpl; [destruct (truthy id) eqn:Hid; simpl|];
      (split; [exact Hnew|]); intros k id' Hin; simpl;
      try (now apply courseFound_grows, HM).
    apply lookup_insert_Some in Hin as [[<- <-]|[_ Hin]];
      [|now apply courseFound_grows, HM].
    exists (length (sent s)), (subject_code sectionData),
      (course_number sectionData).
    split; [|done]. rewrite lookup_app_r by lia.
    now rewrite Nat.sub_diag.
Qed.

Lemma coursesFounded_lookups maps sectionData :
  hoare (coursesFounded maps.1) (lookups maps sectionData)
    (fun maps' => coursesFounded maps'.1).
Proof.
  unfold lookups. eapply hoare_bind; [apply coursesFounded_lookupCourse|].
  intros cm'. eapply hoare_bind.
  - destruct (instructors sectionData) as [l|];
      [apply coursesFounded_lookupInstructors | apply preserves_ret].
  - intros im'. now apply hoare_ret.
Qed.

Lemma coursesFounded_createSection term_id cm im sectionData :
  preserves (coursesFounded cm) (createSection term_id cm im sectionData).
Proof.
  unfold createSection. cbv zeta. set (key := courseKey _ _).
  destruct (cm !! key) as [course_id|] eqn:Hkey; [|apply preserves_ret].
  destruct (truthy course_id); [|apply preserves_ret].
  apply preserves_bind.
  - intros s [HG HM]. unfold executeWriteQuery, execute.
    assert (H : coursesFounded cm
              (mkScript (service s)
                 (sent s ++ [MergeSection
                    (mkSectionNode term_id (crn sectionData) course_id
                       (section sectionData) key (subject_code sectionData)
                       (course_number sectionData) (max_enroll sectionData)
                       (start_time sectionData) (end_time sectionData))
                    (mkSectionCourseRelation (instruction_type sectionData)
                       (instruction_method sectionData))])
                 (said s) (maxInstructorId s) (closed s))).
    { split.
      - intros j node rel Hj. simpl in *.
        destruct (decide (j < length (sent s))) as [Hlt|Hge].
        + rewrite lookup_app_l in Hj by done.
          rewrite take_app_le by lia. exact (HG _ _ _ Hj).
        + rewrite lookup_app_r in Hj by lia.
          destruct (j - length (sent s)) as [|n] eqn:Hn; simpl in Hj;
            [|done].
          injection Hj as <- <-. simpl.
          replace j with (length (sent s)) by lia.
          rewrite take_app_length. now apply HM.
      - intros k id Hin. simpl. now apply courseFound_grows, HM. }
    now destruct (rejects (service s) (length (sent s))).
  - intros r. unfold linkInstructor, scheduleDay.
    repeat run_step founded_leaf.
Qed.

Lemma coursesFounded_empty s : sectionsFounded s -> coursesFounded ∅ s.
Proof. intros HG. split; [done|]. intros key id Hin. done. Qed.

Lemma sectionsFounded_processTerm term :
  preserves sectionsFounded (processTerm term).
Proof.
  destruct term as [sections term_id]. unfold processTerm.
  eapply hoare_weaken with (P := coursesFounded ∅)
                           (Q := fun _ => sectionsFounded);
    [|apply coursesFounded_empty|done].
  eapply hoare_bind; [apply preserves_log, coursesFounded_said|]. intros ?.
  eapply hoare_bind.
  { apply (hoare_fold (fun maps => coursesFounded maps.1) sections lookups
             (∅, ∅)).
    intros maps x _. apply coursesFounded_lookups. }
  intros maps.
  eapply hoare_weaken with (P := coursesFounded maps.1)
                           (Q := fun _ => coursesFounded maps.1);
    [|done|now intros _ s0 [HG _]].
  match goal with |- hoare ?I ?m _ => change (preserves I m) end.
  repeat first [apply coursesFounded_createSection | run_step founded_leaf].
Qed.

Lemma coursesFounded_processTerm term :
  preserves (coursesFounded ∅) (processTerm term).
Proof.
  eapply hoare_weaken; [apply sectionsFounded_processTerm | |].
  - now intros s [HG _].
  - intros a s. apply coursesFounded_empty.
Qed.

Lemma coursesFounded_ingest terms : preserves (coursesFounded ∅) (ingest terms).
Proof.
  unfold ingest, createDays, createTerms, readMaxInstructorId.
  repeat first [apply coursesFounded_processTerm | run_step founded_leaf].
Qed.

(** X18: a section is only written for a course the service found.
    Whatever the section files hold and whatever the service answers, every
    section statement the script sends carries a course identifier that the
    service returned, not empty, for an earlier lookup whose subject and
    number give the course key of the section. *)
Theorem sections_carry_found_course_ids
    terms svc j sectionNode relationshipProps :
  let qs := sent (ingest terms (startOf svc)).2 in
  qs !! j = Some (MergeSection sectionNode relationshipProps) ->
  exists k subject_id course_number,
    k < j /\
    qs !! k = Some (FindCourse subject_id course_number) /\
    courseKey subject_id course_number = sn_course sectionNode /\
    rejects svc k = None /\
    courseAnswer svc k = Some (sn_course_id sectionNode) /\
    truthy (sn_course_id sectionNode) = true.
Proof.
  cbv zeta. intros Hj.
  pose proof (servedBy_ingest svc terms (startOf svc) eq_refl) as Hsvc.
  unfold servedBy in Hsvc.
  destruct (coursesFounded_ingest terms (startOf svc)) as [HG _].
  { apply coursesFounded_empty. intros i node rel Hi. done. }
  destruct (HG _ _ _ Hj) as (k & subj & num & Hk & Hkey & Hrej & Hans & Ht).
  rewrite Hsvc in Hrej, Hans.
  apply lookup_take_Some in Hk as [Hk Hlt].
  exists k, subj, num. repeat split; done.
Qed.

Lemma sections_carry_found_course_ids_witness :
  exists k,
    k < 14 /\
    sent (ingest [([oneSection], 202515%Z)] (startOf knowingService)).2 !! k
    = Some (FindCourse "CS" "101") /\
    courseAnswer knowingService k = Some "cs-101".
Proof.
  destruct (sections_carry_found_course_ids
              [([oneSection], 202515%Z)] knowingService 14
              (mkSectionNode 202515 12345 "cs-101" "A" "CS 101" "CS" "101"
                 "30" (Some "09:00") (Some "10:00"))
              (mkSectionCourseRelation "Lecture" "Face To Face"))
    as (k & subj & num & Hlt & Hk & Hkey & _ & Hans & _).
  - vm_compute. reflexivity.
  - exists k. split; [exact Hlt|]. split; [|exact Hans].
    rewrite Hk. f_equal.
    assert (Hcase : k = 11).
    { vm_compute in Hk.
      do 14 (destruct k as [|k]; [try discriminate; try reflexivity|]).
      lia. }
    subst k. vm_compute in Hk. injection Hk as <- <-. reflexivity.
Defined.

(** ** The instructors of a section *)

Lemma instructorKnown_grows svc qs q instructorName id :
  instructorKnown svc qs instructorName id ->
  instructorKnown svc (qs ++ [q]) instructorName id.
Proof.
  intros (k & Hrej & [[Hk Hans]|Hk]); exists k; (split; [done|]).
  - left. split; [|done]. now apply lookup_app_l_Some.
  - right. now apply lookup_app_l_Some.
Qed.

Lemma instructorsFounded_said im svc qs l l' z c c' :
  instructorsFounded im (mkScript svc qs l z c) ->
  instructorsFounded im (mkScript svc qs l' z c').
Proof. exact id. Qed.

Lemma instructorsFounded_counter im svc qs l z z' c :
  instructorsFounded im (mkScript svc qs l z c) ->
  instructorsFounded im (mkScript svc qs l z' c).
Proof. exact id. Qed.

Lemma linksFounded_other s q :
  linked q = None -> linksFounded s ->
  forall l z c, linksFounded (mkScript (service s) (sent s ++ [q]) l z c).
Proof.
  intros Hq HG l z c j q' id Hj Hl. simpl in *.
  destruct (decide (j < length (sent s))) as [Hlt|Hge].
  - rewrite lookup_app_l in Hj by done.
    rewrite take_app_le by lia. exact (HG _ _ _ Hj Hl).
  - rewrite lookup_app_r in Hj by lia.
    destruct (j - length (sent s)) as [|n]; simpl in Hj; [|done].
    injection Hj as ->. congruence.
Qed.

Lemma instructorsFounded_step im s q l z c :
  linked q = None -> instructorsFounded im s ->
  instructorsFounded im (mkScript (service s) (sent s ++ [q]) l z c).
Proof.
  intros Hq [HG HM]. split; [now apply linksFounded_other|].
  intros n id Hin. simpl. now apply instructorKnown_grows, HM.
Qed.

Lemma instructorsFounded_execute {A} im q (answer : Service -> nat -> A) :
  linked q = None -> preserves (instructorsFounded im) (execute q answer).
Proof.
  intros Hq s H. unfold execute.
  pose proof (instructorsFounded_step im s q (said s) (maxInstructorId s)
                (closed s) Hq H).
  now destruct (rejects (service s) (length (sent s))).
Qed.

Ltac known_leaf :=
  idtac;
  lazymatch goal with
  | |- preserves _ (log _) => apply preserves_log, instructorsFounded_said
  | |- preserves _ closeService =>
      apply preserves_closeService, instructorsFounded_said
  | |- preserves _ getMaxInstructorId => apply preserves_getMaxInstructorId
  | |- preserves _ (setMaxInstructorId _) => intros ? ?; assumption
  | |- preserves _ (executeWriteQuery _) =>
      apply instructorsFounded_execute; reflexivity
  | |- preserves _ (execute _ _) =>
      apply instructorsFounded_execute; reflexivity
  end.

Lemma instructorsFounded_createInstructor im instructorName :
  hoare (instructorsFounded im) (createInstructor im instructorName)
    instructorsFounded.
Proof.
  intros s H. unfold createInstructor, sbind, getMaxInstructorId,
    setMaxInstructorId, executeWriteQuery, execute, log, sret. simpl.
  set (q := CreateInstructor (increment (maxInstructorId s)) instructorName).
  destruct (rejects (service s) (length (sent s))) as [e|] eqn:Hrej; simpl.
  - now apply (instructorsFounded_step im s q).
  - destruct (instructorsFounded_step im s q
                (said s ++ [SCreatedInstructor instructorName
                              (increment (maxInstructorId s))])
                (increment (maxInstructorId s)) (closed s) eq_refl H)
      as [HG HM].
    split; [exact HG|]. intros n id Hin. simpl.
    apply lookup_insert_Some in Hin as [[<- <-]|[_ Hin]]; [|now apply HM].
    exists (length (sent s)). split; [done|]. right.
    rewrite lookup_app_r by lia. now rewrite Nat.sub_diag.
Qed.

Lemma instructorsFounded_lookupInstructor im instructor :
  hoare (instructorsFounded im) (lookupInstructor im instructor)
    instructorsFounded.
Proof.
  unfold lookupInstructor.
  destruct (name instructor) as [n|]; [|now apply hoare_ret].
  destruct (truthy n); [|now apply hoare_ret]. cbv zeta.
  destruct (im !! trim n) as [known|] eqn:Hknown; [now apply hoare_ret|].
  intros s H. unfold sbind, execute.
  set (q := FindInstructor (trim n)).
  pose proof (instructorsFounded_step im s q (said s) (maxInstructorId s)
                (closed s) eq_refl H) as Hstep.
  destruct (rejects (service s) (length (sent s))) as [e|] eqn:Hrej.
  - unfold log, sret. simpl. exact Hstep.
  - destruct (instructorAnswer (service s) (length (sent s))) as [id|] eqn:Hans;
      [destruct (truthyId id) eqn:Hid|].
    + unfold sret. simpl. destruct Hstep as [HG HM]. split; [exact HG|].
      intros n' id' Hin.
      apply lookup_insert_Some in Hin as [[<- <-]|[_ Hin]]; [|now apply HM].
      exists (length (sent s)). split; [done|]. left. simpl. split; [|done].
      rewrite lookup_app_r by lia. now rewrite Nat.sub_diag.
    + now apply instructorsFounded_createInstructor.
    + now apply instructorsFounded_createInstructor.
Qed.

Lemma instructorsFounded_lookups maps sectionData :
  hoare (instructorsFounded maps.2) (lookups maps sectionData)
    (fun maps' => instructorsFounded maps'.2).
Proof.
  unfold lookups.
  eapply hoare_bind with (Q := fun _ => instructorsFounded maps.2).
  - unfold lookupCourse. cbv zeta.
    match goal with |- hoare ?I ?m _ => change (preserves I m) end.
    repeat run_step known_leaf.
  - intros cm'. eapply hoare_bind.
    + destruct (instructors sectionData) as [l|].
      * apply (hoare_fold instructorsFounded).
        intros im x _. apply instructorsFounded_lookupInstructor.
      * now apply hoare_ret.
    + intros im'. now apply hoare_ret.
Qed.

Lemma instructorsFounded_link im s q id instructorName l z c :
  linked q = Some id -> id <> 0%Z -> im !! instructorName = Some id ->
  instructorsFounded im s ->
  instructorsFounded im (mkScript (service s) (sent s ++ [q]) l z c).
Proof.
  intros Hq Hid Him [HG HM]. split.
  - intros j q' id' Hj Hl. simpl in *.
    destruct (decide (j < length (sent s))) as [Hlt|Hge].
    + rewrite lookup_app_l in Hj by done.
      rewrite take_app_le by lia. exact (HG _ _ _ Hj Hl).
    + rewrite lookup_app_r in Hj by lia.
      destruct (j - length (sent s)) as [|n] eqn:Hn; simpl in Hj; [|done].
      injection Hj as <-. rewrite Hq in Hl. injection Hl as <-.
      split; [done|]. exists instructorName.
      replace j with (length (sent s)) by lia.
      rewrite take_app_length. now apply HM.
  - intros n id' Hin. simpl. now apply instructorKnown_grows, HM.
Qed.

Lemma instructorsFounded_linkInstructor im crn course_id course instructor :
  preserves (instructorsFounded im)
    (linkInstructor im crn course_id course instructor).
Proof.
  unfold linkInstructor.
  destruct (name instructor) as [n|]; [|apply preserves_ret].
  destruct (truthy n); [|apply preserves_ret]. cbv zeta.
  destruct (im !! trim n) as [id|] eqn:Him;
    [|apply preserves_log, instructorsFounded_said].
  destruct (truthyId id) eqn:Hid;
    [|apply preserves_log, instructorsFounded_said].
  assert (Hne : id <> 0%Z).
  { unfold truthyId in Hid. apply negb_true_iff, Z.eqb_neq in Hid. exact Hid. }
  assert (Hsend : forall q, linked q = Some id ->
            preserves (instructorsFounded im) (executeWriteQuery q)).
  { intros q Hq s H. unfold executeWriteQuery, execute.
    pose proof (instructorsFounded_link im s q id (trim n) (said s)
                  (maxInstructorId s) (closed s) Hq Hne Him H).
    now destruct (rejects (service s) (length (sent s))). }
  apply preserves_bind; [now apply Hsend|]. intros r.
  apply preserves_bind; [repeat run_step known_leaf|]. intros ?.
  apply preserves_bind; [now apply Hsend|]. intros r'.
  repeat run_step known_leaf.
Qed.

Lemma instructorsFounded_createSection term_id cm im sectionData :
  preserves (instructorsFounded im) (createSection term_id cm im sectionData).
Proof.
  unfold createSection, scheduleDay.
  repeat first [apply instructorsFounded_linkInstructor | run_step known_leaf].
Qed.

Lemma instructorsFounded_empty s : linksFounded s -> instructorsFounded ∅ s.
Proof. intros HG. split; [done|]. intros n id Hin. done. Qed.

Lemma linksFounded_processTerm term : preserves linksFounded (processTerm term).
Proof.
  destruct term as [sections term_id]. unfold processTerm.
  eapply hoare_weaken with (P := instructorsFounded ∅)
                           (Q := fun _ => linksFounded);
    [|apply instructorsFounded_empty|done].
  eapply hoare_bind; [apply preserves_log, instructorsFounded_said|].
  intros ?. eapply hoare_bind.
  { apply (hoare_fold (fun maps => instructorsFounded maps.2) sections lookups
             (∅, ∅)).
    intros maps x _. apply instructorsFounded_lookups. }
  intros maps.
  eapply hoare_weaken with (P := instructorsFounded maps.2)
                           (Q := fun _ => instructorsFounded maps.2);
    [|done|now intros ? s0 [HG _]].
  match goal with |- hoare ?I ?m _ => change (preserves I m) end.
  repeat first [apply instructorsFounded_createSection | run_step known_leaf].
Qed.

Lemma instructorsFounded_processTerm term :
  preserves (instructorsFounded ∅) (processTerm term).
Proof.
  eapply hoare_weaken; [apply linksFounded_processTerm | |].
  - now intros s [HG _].
  - intros a s. apply instructorsFounded_empty.
Qed.

Lemma instructorsFounded_ingest terms :
  preserves (instructorsFounded ∅) (ingest terms).
Proof.
  unfold ingest, createDays, createTerms, readMaxInstructorId.
  repeat first [apply instructorsFounded_processTerm | run_step known_leaf].
Qed.

(** X19: a section is only linked to an instructor the script knows.
    Whatever the section files hold and whatever the service answers, every
    [TEACHES] and [TAUGHT] statement the script sends carries an identifier
    that is not zero and that, for some instructor name, the service
    returned for an earlier lookup of that name or an earlier [CREATE] of
    that name, not rejected, was sent with. *)
Theorem links_carry_known_instructor_ids terms svc j q id :
  let qs := sent (ingest terms (startOf svc)).2 in
  qs !! j = Some q -> linked q = Some id ->
  id <> 0%Z /\
  exists k instructorName,
    k < j /\ rejects svc k = None /\
    ((qs !! k = Some (FindInstructor instructorName) /\
      instructorAnswer svc k = Some id) \/
     qs !! k = Some (CreateInstructor id instructorName)).
Proof.
  cbv zeta. intros Hj Hl.
  pose proof (servedBy_ingest svc terms (startOf svc) eq_refl) as Hsvc.
  unfold servedBy in Hsvc.
  destruct (instructorsFounded_ingest terms (startOf svc)) as [HG _].
  { apply instructorsFounded_empty. intros i q' id' Hi. done. }
  destruct (HG _ _ _ Hj Hl) as (Hne & n & k & Hrej & Hk).
  rewrite Hsvc in Hrej, Hk. split; [exact Hne|].
  assert (Hlt : k < j).
  { destruct Hk as [[Hk _]|Hk]; now apply lookup_take_Some in Hk as [_ ?]. }
  exists k, n. split; [exact Hlt|]. split; [exact Hrej|].
  destruct Hk as [[Hk Hans]|Hk]; [left; split; [|done] | right];
    now apply lookup_take_Some in Hk as [? _].
Qed.

Lemma links_carry_known_instructor_ids_witness :
  exists k,
    k < 16 /\
    sent (ingest [([oneSection], 202515%Z)] (startOf knowingService)).2 !! k
    = Some (CreateInstructor 8 "Ada").
Proof.
  destruct (links_carry_known_instructor_ids
              [([oneSection], 202515%Z)] knowingService 16
              (Teaches 8 12345) 8)
    as (_ & k & n & Hlt & _ & Hk).
  - vm_compute. reflexivity.
  - reflexivity.
  - exists k. split; [exact Hlt|].
    destruct Hk as [[_ Hans]|Hk]; [discriminate|].
    rewrite Hk. f_equal. f_equal.
    vm_compute in Hk.
    do 16 (destruct k as [|k]; [try discriminate; try (now injection Hk)|]).
    lia.
Defined.

(** ** One statement per group, one group per key *)

Lemma mapPush_nonempty {A} k (v : A) m :
  Forall (fun g => g.2 <> []) m -> Forall (fun g => g.2 <> []) (mapPush k v m).
Proof.
  induction m as [|[k' vs] m IH]; intros Hall; cbn [mapPush].
  - now repeat constructor.
  - apply Forall_cons in Hall as [Hvs Hm].
    destruct (String.eqb k' k); constructor; auto.
    simpl. intros Heq. now apply app_eq_nil in Heq as [_ ?].
Qed.

Lemma groupBy_nonempty {A} key prep (l : list A) m :
  Forall (fun g => g.2 <> []) m ->
  Forall (fun g => g.2 <> []) (groupBy key prep l m).
Proof.
  revert m. induction l as [|x l IH]; intros m Hm; simpl; [done|].
  apply IH. now apply mapPush_nonempty.
Qed.

(** X20: the nodes of a batch are written in one statement per label key:
    when the target does not fail, [createNodesInTarget] sends exactly the
    statements of a list of groups whose keys are pairwise different, none
    of which is empty, in which every node has the key of its group, and
    which together hold each node of the batch exactly once. *)
Theorem every_node_is_sent_once nodesData w :
  targetUp w ->
  exists w' groups,
    createNodesInTarget nodesData w = (Ok tt, w') /\
    w_trace w'
    = w_trace w
      ++ map (fun g => EvTarget (TqCreateNodes (clauseOfKey g.1) g.2)) groups /\
    NoDup groups.*1 /\
    Forall (fun g => g.2 <> []) groups /\
    (forall key group node,
        (key, group) ∈ groups -> node ∈ group ->
        join "," (labels node) = key) /\
    concat groups.*2 ≡ₚ map sortLabels nodesData.
Proof.
  intros Hup.
  destruct (createNodesInTarget_up nodesData w Hup) as (w' & Hrun & _ & Ht & _).
  exists w', (nodesByLabels nodesData).
  split; [exact Hrun|]. split; [exact Ht|].
  split; [apply nodesByLabels_NoDup|].
  split; [rewrite nodesByLabels_groupBy; now apply groupBy_nonempty|].
  split; [apply nodesByLabels_members|].
  rewrite nodesByLabels_groupBy.
  now rewrite (groupBy_values labelKey sortLabels nodesData []).
Qed.

Lemma every_node_is_sent_once_witness :
  exists w' (groups : list (string * list NodeData)),
    createNodesInTarget (sg_nodes demoGraph) demoWorld = (Ok tt, w') /\
    NoDup groups.*1 /\
    concat groups.*2 ≡ₚ map sortLabels (sg_nodes demoGraph).
Proof.
  destruct (every_node_is_sent_once (sg_nodes demoGraph) demoWorld)
    as (w' & groups & Hrun & _ & Hnd & _ & _ & Hall).
  - intros k. reflexivity.
  - exists w', groups. split; [exact Hrun|]. split; [exact Hnd | exact Hall].
Defined.

(** X21: the relationships of a batch are written in one statement per
    type: when the target does not fail, [createRelationshipsInTarget]
    sends exactly the statements of a list of groups whose types are
    pairwise different, none of which is empty, in which every relationship
    has the type of its group, and which together hold each relationship of
    the batch exactly once. *)
Theorem every_relationship_is_sent_once relsData w :
  targetUp w ->
  exists w' groups,
    createRelationshipsInTarget relsData w = (Ok tt, w') /\
    w_trace w'
    = w_trace w ++ map (fun g => EvTarget (TqCreateRels g.1 g.2)) groups /\
    NoDup groups.*1 /\
    Forall (fun g => g.2 <> []) groups /\
    (forall rType group rel,
        (rType, group) ∈ groups -> rel ∈ group -> relType rel = rType) /\
    concat groups.*2 ≡ₚ relsData.
Proof.
  intros Hup.
  destruct (createRelationshipsInTarget_up relsData w Hup)
    as (w' & Hrun & _ & Ht & _).
  exists w', (relsByType relsData).
  split; [exact Hrun|]. split; [exact Ht|].
  split; [rewrite relsByType_groupBy; apply groupBy_NoDup; constructor|].
  split; [rewrite relsByType_groupBy; now apply groupBy_nonempty|].
  split; [apply relsByType_members | apply relsByType_values].
Qed.

Lemma every_relationship_is_sent_once_witness :
  exists w' (groups : list (string * list RelationshipData)),
    createRelationshipsInTarget (sg_rels demoGraph) demoWorld = (Ok tt, w') /\
    NoDup groups.*1 /\
    concat groups.*2 ≡ₚ sg_rels demoGraph.
Proof.
  destruct (every_relationship_is_sent_once (sg_rels demoGraph) demoWorld)
    as (w' & groups & Hrun & _ & Hnd & _ & _ & Hall).
  - intros k. reflexivity.
  - exists w', groups. split; [exact Hrun|]. split; [exact Hnd | exact Hall].
Defined.

(** ** An observer that throws *)

(** X22: the observer's exceptions are not caught.  When the two counts
    are read and the observer throws at its first call, which comes before
    the clearing stage, [replicateDatabase] throws that error and nothing
    has been sent to the target: the target store is as it was, no
    session is open, and the progress object is as the observer left it
    when it threw, with the tag [clearing] unless the observer wrote
    another. *)
Theorem throwing_observer_aborts_before_clearing
    batchSize observer fuel w e :
  let r := w_sourceRuns w in
  let first := mkProgress (src_countNodes (w_source w)) 0
                 (src_countRels (w_source w)) 0 clearing in
  w_sourceFail w r = None -> w_sourceFail w (S r) = None ->
  (observer first).1 = Some e ->
  exists w',
    replicateDatabase batchSize (Some observer) fuel w = (Throw e, w') /\
    w_target w' = w_target w /\
    w_targetRuns w' = w_targetRuns w /\
    w_sessions w' = w_sessions w /\
    w_progress w' = (observer first).2 /\
    ((observer first).2 = first -> stage (w_progress w') = clearing).
Proof.
  intros r first H0 H1 Hthrow. subst first.
  unfold replicateDatabase, tryCatch, replicateBody, getTotalCounts,
    setProgress, notify, bind, console, openSession, tryFinally, sourceRun,
    closeSession, ret, throw.
  cbn [w_sourceFail w_sourceRuns w_source set_sessions emit tick_source
       set_progress w_progress fst snd]. fold r.
  rewrite H0.
  cbn [w_sourceFail w_sourceRuns w_source set_sessions emit tick_source
       set_progress w_progress fst snd]. fold r.
  rewrite H1. unfold bind.
  cbn [w_sourceFail w_sourceRuns w_source set_sessions emit tick_source
       set_progress w_progress fst snd].
  rewrite Hthrow.
  eexists. split; [reflexivity|]. repeat split. simpl. now intros ->.
Qed.

Lemma throwing_observer_aborts_before_clearing_witness :
  exists w',
    replicateDatabase 2 throwingObserver 5 demoWorld
    = (Throw connectionLost, w') /\
    w_target w' = w_target demoWorld /\
    stage (w_progress w') = clearing.
Proof.
  destruct (throwing_observer_aborts_before_clearing 2
              (fun p => (Some connectionLost, p)) 5 demoWorld connectionLost)
    as (w' & Hrun & Ht & _ & _ & _ & Hst).
  - reflexivity.
  - reflexivity.
  - reflexivity.
  - exists w'. split; [exact Hrun|]. split; [exact Ht|]. now apply Hst.
Defined.
